(** * Amazon Bedrock embedding provider: a shallow embedding

    Source: [src/services/code-index/embedders/bedrock.ts].

    The provider turns a list of texts into embedding vectors by calling a
    remote model.  JavaScript runs the provider on one thread; an [await]
    is the only place where control leaves a function.  The embedding
    therefore describes an invocation of [createEmbeddings] as a state
    machine: the state is what the closures of the invocation hold between
    two suspension points, and an event is one resumption (a transport call
    settles, a back-off timer fires, a [finally] block of the semaphore
    runs).  Every interleaving the event loop can produce is a list of
    such events. *)

From Stdlib Require Import ZArith List String Ascii Floats Lia Bool DecimalString.
From stdpp Require Import base list.

Local Open Scope Z_scope.

(** ** JavaScript values *)

(** A JavaScript string is a sequence of UTF-16 code units; [length] counts
    code units. *)
Definition code_unit := N.
Definition jsstring := list code_unit.

Definition str_length (s : jsstring) : Z := Z.of_nat (length s).

Definition array_length {A} (l : list A) : Z := Z.of_nat (length l).

Definition lit (s : string) : jsstring :=
  map N_of_ascii (list_ascii_of_string s).

(** [String.prototype.startsWith]. *)
Fixpoint startsWith (s prefix : jsstring) : bool :=
  match prefix, s with
  | [], _ => true
  | _ :: _, [] => false
  | p :: prefix', c :: s' => N.eqb c p && startsWith s' prefix'
  end.

(** [Math.ceil(a / b)] for an integer [a] and a positive integer [b]. *)
Definition Math_ceil_div (a b : Z) : Z :=
  if a mod b =? 0 then a / b else a / b + 1.

(** A decoded JSON document.  Numbers are IEEE binary64 values, as in
    JavaScript; the provider never computes with them. *)
#[local] Unset Elimination Schemes.
Inductive json :=
| JNull
| JBool (b : bool)
| JNumber (x : float)
| JString (s : string)
| JArray (xs : list json)
| JObject (fields : list (string * json)).
#[local] Set Elimination Schemes.

(** Reading a property of a decoded document: [None] is the [TypeError] of
    a read on [null]; [Some None] is [undefined].  Only plain objects carry
    the properties the provider reads ([embedding], [embeddings]). *)
Fixpoint assoc (key : string) (fields : list (string * json)) : option json :=
  match fields with
  | [] => None
  | (k, v) :: rest => if String.eqb k key then Some v else assoc key rest
  end.

Definition get_property (v : json) (key : string) : option (option json) :=
  match v with
  | JNull => None
  | JObject fields => Some (assoc key fields)
  | _ => Some None
  end.

(** ** Errors *)

(** A value thrown by [client.send]: the provider reads its [status] and
    hands the whole value to [formatEmbeddingError]. *)
Record HttpError := { status : option Z; message : string }.

(** The errors [createEmbeddings] can reject with, one constructor per
    throw site.  [formatEmbeddingError] and the translation function [t]
    come from modules outside this file; their results stay symbolic. *)
Inductive EmbedError :=
| UnsupportedModel (model : jsstring)
| InvalidTitanResponse
| InvalidCohereResponse
| FailedMaxAttempts (attempts : Z)
| Formatted (error : HttpError) (maxRetries : Z)
| JsonSyntaxError
| PropertyTypeError.

Inductive result (A : Type) :=
| Ok (a : A)
| Err (e : EmbedError).
Arguments Ok {A} a.
Arguments Err {A} e.

(** What one [client.send] settles with: the response, with its body
    decoded ([None] when [JSON.parse] rejects the text), or a thrown value. *)
Inductive transport_result :=
| SendOk (body : option json)
| SendFail (error : HttpError).

(** The payload of an [InvokeModelCommand]. *)
Inductive request :=
| TitanRequest (model : jsstring) (inputText : jsstring)
| CohereRequest (model : jsstring) (texts : list jsstring) (input_type : jsstring).

(** ** Configuration *)

Record BedrockEmbedderConfig := {
  modelId : jsstring;
  inputType : option jsstring;
  batchSize : option Z;
  maxConcurrency : option Z;
  maxRetries : option Z
}.

(** The provider after its constructor ran: every optional setting has a
    value. *)
Record Provider := {
  p_modelId : jsstring;
  p_inputType : option jsstring;
  p_batchSize : Z;
  p_maxConcurrency : Z;
  p_maxRetries : Z
}.

Record Usage := { promptTokens : Z; totalTokens : Z }.
Record EmbeddingResponse := { embeddings : list json; usage : Usage }.


(** [Array.prototype.slice(start, end)], with the clamping of negative and
    out-of-range indices the language prescribes. *)
Definition relative_index (len k : Z) : Z :=
  if k <? 0 then Z.max (len + k) 0 else Z.min k len.

Definition slice {A} (l : list A) (start final : Z) : list A :=
  let len := Z.of_nat (length l) in
  let from := relative_index len start in
  let to := relative_index len final in
  take (Z.to_nat (to - from)) (drop (Z.to_nat from) l).

(** ** The semaphore *)

(** [class Semaphore]: a counter and the queue of parked callbacks.  A
    parked callback is the closure built in the [else] branch of [acquire];
    it is identified by the number of the body it will run. *)
Record Semaphore := { permits : Z; waiting : list nat }.

Definition new_Semaphore (n : Z) : Semaphore := {| permits := n; waiting := [] |}.

(** The synchronous head of [acquire(fn)]: either the body [id] starts at
    once ([true]) or its callback is pushed on [waiting] ([false]). *)
Definition acquire (sem : Semaphore) (id : nat) : Semaphore * bool :=
  if 0 <? permits sem
  then ({| permits := permits sem - 1; waiting := waiting sem |}, true)
  else ({| permits := permits sem; waiting := waiting sem ++ [id] |}, false).

(** The [finally] block, the same in both branches of [acquire]:
    [permits++], then [waiting.shift()] and a call of the callback, whose
    first statement is [permits--].  The result names the body that starts. *)
Definition release (sem : Semaphore) : Semaphore * option nat :=
  match waiting sem with
  | [] => ({| permits := permits sem + 1; waiting := [] |}, None)
  | w :: rest => ({| permits := permits sem + 1 - 1; waiting := rest |}, Some w)
  end.

(** *** The semaphore under arbitrary clients

    Bodies are numbered in the order of the [acquire] calls.  A body runs
    from the moment it starts until its [finally] block; [threw] tells
    whether it ended with an exception. *)
Record gate := {
  g_sem : Semaphore;
  g_next : nat;
  g_running : list nat;
  g_parked : list nat;
  g_woken : list nat
}.

Inductive gate_event :=
| Acquire
| Complete (id : nat) (threw : bool).

Definition gate_init (n : Z) : gate :=
  {| g_sem := new_Semaphore n; g_next := 0; g_running := []; g_parked := []; g_woken := [] |}.

Fixpoint remove_first (id : nat) (l : list nat) : list nat :=
  match l with
  | [] => []
  | x :: rest => if Nat.eqb x id then rest else x :: remove_first id rest
  end.

Definition gate_step (g : gate) (ev : gate_event) : option gate :=
  match ev with
  | Acquire =>
      let id := g_next g in
      let '(sem, started) := acquire (g_sem g) id in
      Some {| g_sem := sem; g_next := S id;
              g_running := if started then g_running g ++ [id] else g_running g;
              g_parked := if started then g_parked g else g_parked g ++ [id];
              g_woken := g_woken g |}
  | Complete id threw =>
      if existsb (Nat.eqb id) (g_running g) then
        let '(sem, next) := release (g_sem g) in
        Some {| g_sem := sem; g_next := g_next g;
                g_running := remove_first id (g_running g) ++ option_list next;
                g_parked := g_parked g;
                g_woken := g_woken g ++ option_list next |}
      else None
  end.

Fixpoint gate_run (g : gate) (evs : list gate_event) : option gate :=
  match evs with
  | [] => Some g
  | ev :: rest =>
      match gate_step g ev with
      | Some g' => gate_run g' rest
      | None => None
      end
  end.

(** What every reachable state of the semaphore satisfies. *)
Definition gate_inv (n : Z) (g : gate) : Prop :=
  permits (g_sem g) + Z.of_nat (length (g_running g)) = n /\
  0 <= permits (g_sem g) /\
  g_woken g ++ waiting (g_sem g) = g_parked g.

(** A semaphore that has a callback parked has no permit left. *)
Definition gate_saturated (g : gate) : Prop :=
  waiting (g_sem g) <> [] -> permits (g_sem g) <= 0.

(** A semaphore created without a permit: nothing runs, every body is
    parked in the order of the [acquire] calls. *)
Definition gate_closed (n : Z) (g : gate) : Prop :=
  permits (g_sem g) = n /\ g_running g = [] /\ g_woken g = [] /\
  waiting (g_sem g) = seq 0 (g_next g).

(** The bodies started so far are those of the first [k] [acquire]
    calls; the callbacks of the later calls are parked in arrival order. *)
Definition gate_ordered (k : nat) (g : gate) : Prop :=
  (k <= g_next g)%nat /\
  waiting (g_sem g) = seq k (g_next g - k) /\
  Forall (fun id => (id < k)%nat) (g_running g) /\
  Forall (fun id => (id < k)%nat) (g_woken g).

(** ** The provider *)

Section Engine.

(** The two constants come from [../constants], which is outside this
    file's sources. *)
Variable INITIAL_RETRY_DELAY_MS : Z.
Variable MAX_BATCH_RETRIES : Z.

(** The constructor spreads the caller's settings over the defaults.  An
    optional setting is [None] when the caller's object has no such key,
    and only then does the default stand: an object that has the key with
    the value [undefined] is not a [BedrockEmbedderConfig] of this
    model. *)
Definition constructor (config : BedrockEmbedderConfig) : Provider :=
  {| p_modelId := modelId config;
     p_inputType := inputType config;
     p_batchSize := default 32 (batchSize config);
     p_maxConcurrency := default 5 (maxConcurrency config);
     p_maxRetries := default MAX_BATCH_RETRIES (maxRetries config) |}.

Definition isTitanModel (model : jsstring) : bool :=
  startsWith model (lit "amazon.titan-embed-").

Definition isCohereModel (model : jsstring) : bool :=
  startsWith model (lit "cohere.embed-").

(** [model || this.config.modelId]: the empty string is falsy. *)
Definition modelToUse (p : Provider) (model : option jsstring) : jsstring :=
  match model with
  | Some (c :: m) => c :: m
  | _ => p_modelId p
  end.

(** [Math.ceil(text.length / 4)]. *)
Definition estimate_tokens (text : jsstring) : Z :=
  Math_ceil_div (str_length text) 4.

(** *** One logical call: [invokeModelWithRetries] *)

(** What one turn of the [for] loop ends with. *)
Inductive attempt_result :=
| Return (body : option json)
| Retry (delayMs : Z)
| Throw (e : EmbedError).

Definition is_429 (error : HttpError) : bool :=
  match status error with
  | Some s => s =? 429
  | None => false
  end.

(** The [catch] block for the failure of attempt number [attempt]. *)
Definition catch_block (p : Provider) (attempt : Z) (error : HttpError) : attempt_result :=
  let hasMoreAttempts := attempt <? p_maxRetries p - 1 in
  if is_429 error && hasMoreAttempts
  then Retry (INITIAL_RETRY_DELAY_MS * 2 ^ attempt)
  else Throw (Formatted error (p_maxRetries p)).

Definition after_send (p : Provider) (attempt : Z) (r : transport_result) : attempt_result :=
  match r with
  | SendOk body => Return body
  | SendFail error => catch_block p attempt error
  end.

(** The loop run to its end against the answers the transport gives to
    the successive sends.  [returned] is [None] when the transport leaves a
    send unanswered. *)
Record call_run := {
  returned : option (result (option json));
  sends : nat;
  waits : list Z;
  unread : list transport_result
}.

Definition sent (r : call_run) : call_run :=
  {| returned := returned r; sends := S (sends r); waits := waits r; unread := unread r |}.

Definition waited (d : Z) (r : call_run) : call_run :=
  {| returned := returned r; sends := sends r; waits := d :: waits r; unread := unread r |}.

Fixpoint invokeModelWithRetries (p : Provider) (answers : list transport_result)
    (attempt : Z) : call_run :=
  if attempt <? p_maxRetries p then
    match answers with
    | [] => {| returned := None; sends := 1; waits := []; unread := [] |}
    | r :: rest =>
        match after_send p attempt r with
        | Return body =>
            {| returned := Some (Ok body); sends := 1; waits := []; unread := rest |}
        | Retry d => sent (waited d (invokeModelWithRetries p rest (attempt + 1)))
        | Throw e =>
            {| returned := Some (Err e); sends := 1; waits := []; unread := rest |}
        end
    end
  else {| returned := Some (Err (FailedMaxAttempts (p_maxRetries p)));
          sends := 0; waits := []; unread := answers |}.

(** *** Decoding *)

(** [embedTitanText] after the call returned. *)
Definition embedTitanText_result (text : jsstring) (body : option json) : result (json * Z) :=
  match body with
  | None => Err JsonSyntaxError
  | Some response =>
      match get_property response "embedding" with
      | None => Err PropertyTypeError
      | Some (Some (JArray xs)) => Ok (JArray xs, estimate_tokens text)
      | Some _ => Err InvalidTitanResponse
      end
  end.

(** [embedCohereBatch] after the call returned. *)
Definition embedCohereBatch_result (texts : list jsstring) (body : option json)
    : result (list json * Z) :=
  match body with
  | None => Err JsonSyntaxError
  | Some response =>
      match get_property response "embeddings" with
      | None => Err PropertyTypeError
      | Some (Some (JArray xs)) =>
          Ok (xs, fold_left (fun sum text => sum + estimate_tokens text) texts 0)
      | Some _ => Err InvalidCohereResponse
      end
  end.

Definition input_type (p : Provider) : jsstring :=
  match p_inputType p with
  | Some (c :: s) => c :: s
  | _ => lit "search_document"
  end.

(** *** Events

    An event resumes one suspended piece of an invocation: the promise of
    the pending [client.send] of logical call [i] settles with [r], the
    back-off timer of call [i] fires, or the [finally] block of gated body
    [i] runs.  In a Titan invocation logical call [i] is the one made for
    [texts[i]]; the Cohere loop makes its calls one after the other and all
    its events carry index 0. *)
Inductive event :=
| Response (i : nat) (r : transport_result)
| Timer (i : nat)
| Finally (i : nat).

(** *** Titan models: [processTitanEmbeddings] *)

(** Where the closure created by [texts.map] for one text stands: its
    callback sits in [waiting] ([Parked], also the state before
    [texts.map] reaches the text); it awaits [client.send] for the given
    attempt; it awaits the back-off timer after that attempt failed; the
    gated body has returned or thrown and the [finally] block of [acquire]
    has not run yet; the [finally] block has run and the promise of the
    task is settled. *)
Inductive task :=
| Parked
| Sending (attempt : Z)
| Sleeping (attempt : Z)
| Settled (r : result json)
| Released (r : result json).

Record titan := {
  t_model : jsstring;
  t_sem : Semaphore;
  t_tasks : list (jsstring * task);
  t_totalTokens : Z;
  t_calls : list request;
  t_delays : list Z;
  t_all : option (result (list json))
}.

(** The head of the retry loop of task [i] at [attempt]: the send goes
    out, or the loop is over and the call throws. *)
Definition titan_attempt (p : Provider) (i : nat) (attempt : Z) (s : titan) : titan :=
  match t_tasks s !! i with
  | Some (text, _) =>
      if attempt <? p_maxRetries p then
        {| t_model := t_model s; t_sem := t_sem s;
           t_tasks := <[i := (text, Sending attempt)]> (t_tasks s);
           t_totalTokens := t_totalTokens s;
           t_calls := t_calls s ++ [TitanRequest (t_model s) text];
           t_delays := t_delays s; t_all := t_all s |}
      else
        {| t_model := t_model s; t_sem := t_sem s;
           t_tasks := <[i := (text, Settled (Err (FailedMaxAttempts (p_maxRetries p))))]> (t_tasks s);
           t_totalTokens := t_totalTokens s; t_calls := t_calls s;
           t_delays := t_delays s; t_all := t_all s |}
  | None => s
  end.

(** One call of the callback of [texts.map]. *)
Definition spawn (p : Provider) (s : titan) (i : nat) : titan :=
  let '(sem, started) := acquire (t_sem s) i in
  let s' := {| t_model := t_model s; t_sem := sem; t_tasks := t_tasks s;
               t_totalTokens := t_totalTokens s; t_calls := t_calls s;
               t_delays := t_delays s; t_all := t_all s |} in
  if started then titan_attempt p i 0 s' else s'.

Definition fulfilled (tk : jsstring * task) : option json :=
  match snd tk with
  | Released (Ok v) => Some v
  | _ => None
  end.

(** [Promise.all]: settled once, by the first rejection or by the last
    fulfilment, with the values in the order of the promises. *)
Definition promise_all (s : titan) (latest : option (result json)) : option (result (list json)) :=
  match t_all s with
  | Some r => Some r
  | None =>
      match latest with
      | Some (Err e) => Some (Err e)
      | _ => Ok <$> mapM fulfilled (t_tasks s)
      end
  end.

Definition observe (s : titan) (latest : option (result json)) : titan :=
  {| t_model := t_model s; t_sem := t_sem s; t_tasks := t_tasks s;
     t_totalTokens := t_totalTokens s; t_calls := t_calls s;
     t_delays := t_delays s; t_all := promise_all s latest |}.

(** The invocation at its first suspension, [await Promise.all(promises)]. *)
Definition processTitanEmbeddings (p : Provider) (texts : list jsstring) (model : jsstring) : titan :=
  observe
    (fold_left (spawn p) (seq 0 (length texts))
       {| t_model := model; t_sem := new_Semaphore (p_maxConcurrency p);
          t_tasks := map (fun text => (text, Parked)) texts;
          t_totalTokens := 0; t_calls := []; t_delays := []; t_all := None |})
    None.

Definition titan_set (s : titan) (i : nat) (text : jsstring) (st : task)
    (tokens : Z) (delays : list Z) : titan :=
  {| t_model := t_model s; t_sem := t_sem s;
     t_tasks := <[i := (text, st)]> (t_tasks s);
     t_totalTokens := t_totalTokens s + tokens; t_calls := t_calls s;
     t_delays := t_delays s ++ delays; t_all := t_all s |}.

Definition titan_step (p : Provider) (s : titan) (ev : event) : option titan :=
  match ev with
  | Response i r =>
      match t_tasks s !! i with
      | Some (text, Sending attempt) =>
          match after_send p attempt r with
          | Return body =>
              match embedTitanText_result text body with
              | Ok (embedding, tokens) =>
                  Some (titan_set s i text (Settled (Ok embedding)) tokens [])
              | Err e => Some (titan_set s i text (Settled (Err e)) 0 [])
              end
          | Retry d => Some (titan_set s i text (Sleeping attempt) 0 [d])
          | Throw e => Some (titan_set s i text (Settled (Err e)) 0 [])
          end
      | _ => None
      end
  | Timer i =>
      match t_tasks s !! i with
      | Some (_, Sleeping attempt) => Some (titan_attempt p i (attempt + 1) s)
      | _ => None
      end
  | Finally i =>
      match t_tasks s !! i with
      | Some (text, Settled r) =>
          let '(sem, next) := release (t_sem s) in
          let s1 := {| t_model := t_model s; t_sem := sem;
                       t_tasks := <[i := (text, Released r)]> (t_tasks s);
                       t_totalTokens := t_totalTokens s; t_calls := t_calls s;
                       t_delays := t_delays s; t_all := t_all s |} in
          let s2 := match next with
                    | Some j => titan_attempt p j 0 s1
                    | None => s1
                    end in
          Some (observe s2 (Some r))
      | _ => None
      end
  end.

Definition titan_outcome (s : titan) : option (result EmbeddingResponse) :=
  match t_all s with
  | None => None
  | Some (Err e) => Some (Err e)
  | Some (Ok vs) =>
      Some (Ok {| embeddings := vs;
                  usage := {| promptTokens := t_totalTokens s;
                              totalTokens := t_totalTokens s |} |})
  end.

Definition is_sending (tk : jsstring * task) : bool :=
  match snd tk with Sending _ => true | _ => false end.

(** A body is executing from its start to its [finally] block. *)
Definition is_executing (tk : jsstring * task) : bool :=
  match snd tk with Sending _ | Sleeping _ | Settled _ => true | _ => false end.

Fixpoint sumZ {A} (g : A -> Z) (l : list A) : Z :=
  match l with
  | [] => 0
  | x :: rest => g x + sumZ g rest
  end.

Definition count {A} (f : A -> bool) (l : list A) : Z :=
  sumZ (fun x => if f x then 1 else 0) l.

(** The tokens a task has added to [totalTokens]: the addition follows
    the return of [embedTitanText]. *)
Definition counted (tk : jsstring * task) : Z :=
  match snd tk with
  | Settled (Ok _) | Released (Ok _) => estimate_tokens (fst tk)
  | _ => 0
  end.

(** *** Cohere models: [processCohereEmbeddings] *)

Inductive cohere_phase :=
| CohereSending (attempt : Z)
| CohereSleeping (attempt : Z)
| CohereDone (r : result EmbeddingResponse).

Record cohere := {
  c_model : jsstring;
  c_texts : list jsstring;
  c_i : Z;
  c_phase : cohere_phase;
  c_allEmbeddings : list json;
  c_totalTokens : Z;
  c_calls : list request;
  c_delays : list Z
}.

Definition cohere_batch (p : Provider) (s : cohere) : list jsstring :=
  slice (c_texts s) (c_i s) (c_i s + p_batchSize p).

Definition cohere_with (s : cohere) (ph : cohere_phase) (calls : list request)
    (delays : list Z) : cohere :=
  {| c_model := c_model s; c_texts := c_texts s; c_i := c_i s; c_phase := ph;
     c_allEmbeddings := c_allEmbeddings s; c_totalTokens := c_totalTokens s;
     c_calls := c_calls s ++ calls; c_delays := c_delays s ++ delays |}.

(** The head of the retry loop for the current batch. *)
Definition cohere_attempt (p : Provider) (attempt : Z) (s : cohere) : cohere :=
  if attempt <? p_maxRetries p then
    cohere_with s (CohereSending attempt)
      [CohereRequest (c_model s) (cohere_batch p s) (input_type p)] []
  else cohere_with s (CohereDone (Err (FailedMaxAttempts (p_maxRetries p)))) [] [].

(** The head of the [for] loop over the batches. *)
Definition cohere_loop (p : Provider) (s : cohere) : cohere :=
  if c_i s <? array_length (c_texts s) then cohere_attempt p 0 s
  else cohere_with s
         (CohereDone (Ok {| embeddings := c_allEmbeddings s;
                            usage := {| promptTokens := c_totalTokens s;
                                        totalTokens := c_totalTokens s |} |})) [] [].

Definition processCohereEmbeddings (p : Provider) (texts : list jsstring) (model : jsstring) : cohere :=
  cohere_loop p
    {| c_model := model; c_texts := texts; c_i := 0; c_phase := CohereSending 0;
       c_allEmbeddings := []; c_totalTokens := 0; c_calls := []; c_delays := [] |}.

(** The Cohere loop is one thread of control; its events carry index 0. *)
Definition cohere_step (p : Provider) (s : cohere) (ev : event) : option cohere :=
  match ev, c_phase s with
  | Response O r, CohereSending attempt =>
      match after_send p attempt r with
      | Return body =>
          match embedCohereBatch_result (cohere_batch p s) body with
          | Ok (embeddings, tokens) =>
              Some (cohere_loop p
                      {| c_model := c_model s; c_texts := c_texts s;
                         c_i := c_i s + p_batchSize p; c_phase := c_phase s;
                         c_allEmbeddings := c_allEmbeddings s ++ embeddings;
                         c_totalTokens := c_totalTokens s + tokens;
                         c_calls := c_calls s; c_delays := c_delays s |})
          | Err e => Some (cohere_with s (CohereDone (Err e)) [] [])
          end
      | Retry d => Some (cohere_with s (CohereSleeping attempt) [] [d])
      | Throw e => Some (cohere_with s (CohereDone (Err e)) [] [])
      end
  | Timer O, CohereSleeping attempt => Some (cohere_attempt p (attempt + 1) s)
  | _, _ => None
  end.

Definition cohere_outcome (s : cohere) : option (result EmbeddingResponse) :=
  match c_phase s with
  | CohereDone r => Some r
  | _ => None
  end.

(** *** [createEmbeddings] *)

Inductive invocation :=
| TitanCall (s : titan)
| CohereCall (s : cohere)
| Rejected (e : EmbedError).

(** The invocation at its first suspension. *)
Definition createEmbeddings (p : Provider) (texts : list jsstring) (model : option jsstring)
    : invocation :=
  let m := modelToUse p model in
  if isTitanModel m then TitanCall (processTitanEmbeddings p texts m)
  else if isCohereModel m then CohereCall (processCohereEmbeddings p texts m)
  else Rejected (UnsupportedModel m).

Definition step (p : Provider) (inv : invocation) (ev : event) : option invocation :=
  match inv with
  | TitanCall s => TitanCall <$> titan_step p s ev
  | CohereCall s => CohereCall <$> cohere_step p s ev
  | Rejected _ => None
  end.

Fixpoint run (p : Provider) (inv : invocation) (evs : list event) : option invocation :=
  match evs with
  | [] => Some inv
  | ev :: rest =>
      match step p inv ev with
      | Some inv' => run p inv' rest
      | None => None
      end
  end.

(** What the promise returned by [createEmbeddings] has settled with. *)
Definition outcome (inv : invocation) : option (result EmbeddingResponse) :=
  match inv with
  | TitanCall s => titan_outcome s
  | CohereCall s => cohere_outcome s
  | Rejected e => Some (Err e)
  end.

(** The sends issued so far, oldest first, and the back-off delays. *)
Definition calls (inv : invocation) : list request :=
  match inv with
  | TitanCall s => t_calls s
  | CohereCall s => c_calls s
  | Rejected _ => []
  end.

Definition delays (inv : invocation) : list Z :=
  match inv with
  | TitanCall s => t_delays s
  | CohereCall s => c_delays s
  | Rejected _ => []
  end.

(** The sends that have not settled yet. *)
Definition in_flight (inv : invocation) : Z :=
  match inv with
  | TitanCall s => count is_sending (t_tasks s)
  | CohereCall s => match c_phase s with CohereSending _ => 1 | _ => 0 end
  | Rejected _ => 0
  end.

(** *** Several invocations on one provider *)

Inductive engine_event :=
| Invoke (texts : list jsstring) (model : option jsstring)
| Deliver (k : nat) (ev : event).

Definition engine_step (p : Provider) (e : list invocation) (ev : engine_event)
    : option (list invocation) :=
  match ev with
  | Invoke texts model => Some (e ++ [createEmbeddings p texts model])
  | Deliver k ev =>
      match e !! k with
      | Some inv =>
          match step p inv ev with
          | Some inv' => Some (<[k := inv']> e)
          | None => None
          end
      | None => None
      end
  end.

Fixpoint engine_run (p : Provider) (e : list invocation) (evs : list engine_event)
    : option (list invocation) :=
  match evs with
  | [] => Some e
  | ev :: rest =>
      match engine_step p e ev with
      | Some e' => engine_run p e' rest
      | None => None
      end
  end.

Definition engine_in_flight (e : list invocation) : Z := sumZ in_flight e.

(** ** Definitions taken from the specification *)

(** The length in bytes of the UTF-8 encoding of a string, as the
    specification's [utf8_length]: one to four bytes per code point, a
    surrogate pair being one code point and a lone surrogate being encoded
    as U+FFFD. *)
Definition is_high_surrogate (c : code_unit) : bool := (N.leb 55296 c && N.leb c 56319)%N.
Definition is_low_surrogate (c : code_unit) : bool := (N.leb 56320 c && N.leb c 57343)%N.

Fixpoint utf8_length (s : jsstring) : Z :=
  match s with
  | [] => 0
  | c :: rest =>
      if N.ltb c 128 then 1 + utf8_length rest
      else if N.ltb c 2048 then 2 + utf8_length rest
      else if is_high_surrogate c then
        match rest with
        | d :: rest' =>
            if is_low_surrogate d then 4 + utf8_length rest' else 3 + utf8_length rest
        | [] => 3
        end
      else 3 + utf8_length rest
  end.

Definition spec_tokens (texts : list jsstring) : Z :=
  sumZ (fun text => Math_ceil_div (utf8_length text) 4) texts.

(** What the provider computes instead: code units, not bytes. *)
Definition sum_tokens (texts : list jsstring) : Z := sumZ estimate_tokens texts.

(** Modelled from the spec: [formatEmbeddingError] of
    [../shared/validation-helpers] is not among the sources.  Section 7 of
    the specification gives its taxonomy, keyed on the status code and, for
    connection failures, on the message text (a predicate the
    specification leaves open); the wording of the generic message is the
    one the provider's tests install for [embeddings:failedWithStatus] and
    [embeddings:failedWithError]. *)
Inductive ErrorKind :=
| Throttled
| AuthenticationFailed
| PermissionDenied
| ConnectionFailed
| GenericTransportError.

(** Modelled from the spec: what counts as a connection failure, a
    predicate on the message text that the specification leaves to the
    configuration. *)
Variable connection_failure : string -> bool.

(** Modelled from the spec: the classification of section 7, which
    [formatEmbeddingError] applies to the value thrown by the transport. *)
Definition classify (error : HttpError) : ErrorKind :=
  match status error with
  | Some 429 => Throttled
  | Some 401 => AuthenticationFailed
  | Some 403 => PermissionDenied
  | _ => if connection_failure (message error) then ConnectionFailed
         else GenericTransportError
  end.

Definition decimal (n : Z) : string := DecimalString.NilZero.string_of_int (Z.to_int n).

(** Modelled from the spec: the message [formatEmbeddingError] gives a
    generic transport error, which "includes the attempt count and the
    underlying error text or status code". *)
Definition generic_message (error : HttpError) (attempts : Z) : string :=
  ("Failed to create embeddings after " ++ decimal attempts ++ " attempts: "
   ++ match status error with
      | Some code => "HTTP " ++ decimal code ++ " - "
      | None => ""
      end
   ++ message error)%string.

(** Modelled from the spec: the message of the error returned by
    [formatEmbeddingError], for the class of errors whose wording is
    known. *)
Definition error_message (err : EmbedError) : option string :=
  match err with
  | Formatted error attempts =>
      match classify error with
      | GenericTransportError => Some (generic_message error attempts)
      | _ => None
      end
  | _ => None
  end.

(** A string occurs inside another. *)
Definition contains (s sub : string) : Prop :=
  exists before after, s = (before ++ sub ++ after)%string.

(** The events of one logical call that is throttled [errors] times: each
    failure is followed by the firing of its back-off timer. *)
Definition retry_events (i : nat) (errors : list HttpError) : list event :=
  flat_map (fun e => [Response i (SendFail e); Timer i]) errors.

Definition backoff_delays (first : Z) (n : nat) : list Z :=
  map (fun k => INITIAL_RETRY_DELAY_MS * 2 ^ (first + Z.of_nat k)) (seq 0 n).

(** ** Sample values *)

Definition titan_v1 : jsstring := lit "amazon.titan-embed-text-v1".
Definition cohere_v3 : jsstring := lit "cohere.embed-english-v3".

Definition sample_provider (model : jsstring) (batch concurrency retries : Z) : Provider :=
  {| p_modelId := model; p_inputType := None; p_batchSize := batch;
     p_maxConcurrency := concurrency; p_maxRetries := retries |}.

(** The settings a caller passes, the rest left to the defaults. *)
Definition sample_config (model : jsstring) (concurrency : option Z) : BedrockEmbedderConfig :=
  {| modelId := model; inputType := None; batchSize := None;
     maxConcurrency := concurrency; maxRetries := None |}.

Definition titan_body (v : list json) : option json :=
  Some (JObject [("embedding"%string, JArray v)]).

Definition cohere_body (vs : list json) : option json :=
  Some (JObject [("embeddings"%string, JArray vs)]).

Definition too_many_requests : HttpError :=
  {| status := Some 429; message := "Too Many Requests" |}.

Definition api_connection_failed : HttpError :=
  {| status := None; message := "API connection failed" |}.

(** ** Invariants of a Titan invocation

    [spawned] is the number of callbacks of [texts.map] that have run; it
    is the number of texts once the invocation is suspended. *)
Record titan_inv (p : Provider) (texts : list jsstring) (spawned : nat) (s : titan) : Prop := {
  inv_texts : map fst (t_tasks s) = texts;
  inv_tokens : t_totalTokens s = sumZ counted (t_tasks s);
  inv_permits : permits (t_sem s) + count is_executing (t_tasks s) = p_maxConcurrency p;
  inv_nonneg : 0 <= permits (t_sem s) \/ count is_executing (t_tasks s) = 0;
  inv_nodup : NoDup (waiting (t_sem s));
  inv_waiting : forall j, j ∈ waiting (t_sem s) <->
    (j < spawned)%nat /\ exists text, t_tasks s !! j = Some (text, Parked);
  inv_unspawned : forall j tk, (spawned <= j)%nat -> t_tasks s !! j = Some tk -> snd tk = Parked;
  inv_full : waiting (t_sem s) <> [] -> permits (t_sem s) <= 0;
  inv_all_ok : forall vs, t_all s = Some (Ok vs) -> mapM fulfilled (t_tasks s) = Some vs
}.

(** ** Invariant of a Cohere invocation *)
Definition cohere_inv (p : Provider) (texts : list jsstring) (s : cohere) : Prop :=
  c_texts s = texts /\
  (0 < p_batchSize p ->
   0 <= c_i s /\ c_totalTokens s = sum_tokens (take (Z.to_nat (c_i s)) texts)) /\
  (p_batchSize p <= 0 -> c_i s <= 0 /\ (c_i s = 0 -> c_totalTokens s = 0)) /\
  match c_phase s with
  | CohereDone (Ok r) =>
      array_length texts <= c_i s /\
      r = {| embeddings := c_allEmbeddings s;
             usage := {| promptTokens := c_totalTokens s; totalTokens := c_totalTokens s |} |}
  | CohereDone (Err _) => True
  | _ => c_i s < array_length texts
  end.

Definition invocation_inv (p : Provider) (texts : list jsstring) (inv : invocation) : Prop :=
  match inv with
  | TitanCall s => titan_inv p texts (length texts) s
  | CohereCall s => cohere_inv p texts s
  | Rejected _ => True
  end.

(** Three code units that take six bytes in UTF-8. *)
Definition three_e_acute : jsstring := [233%N; 233%N; 233%N].

(** What holds of every invocation on a provider: its own invariant, for
    the texts it was called with. *)
Definition engine_inv (p : Provider) (e : list invocation) : Prop :=
  Forall (fun inv => exists texts, invocation_inv p texts inv) e.

(** The bound on the sends in flight that an invocation observes. *)
Definition in_flight_bound (p : Provider) (inv : invocation) : Z :=
  match inv with
  | TitanCall _ => p_maxConcurrency p
  | CohereCall _ => 1
  | Rejected _ => 0
  end.

(** ** A transport that answers every send well

    Every send is answered with a document that carries what the model
    family promises: an array under [embedding] for a Titan call, an array
    with one entry per text of the batch under [embeddings] for a Cohere
    call. *)
Definition well_formed_answer (p : Provider) (inv : invocation) (ev : event) : Prop :=
  match ev with
  | Response _ (SendOk (Some response)) =>
      match inv with
      | TitanCall _ =>
          exists xs, get_property response "embedding" = Some (Some (JArray xs))
      | CohereCall s =>
          exists xs, get_property response "embeddings" = Some (Some (JArray xs)) /\
                     length xs = length (cohere_batch p s)
      | Rejected _ => True
      end
  | Response _ _ => False
  | Timer _ | Finally _ => True
  end.

Fixpoint well_formed_run (p : Provider) (inv : invocation) (evs : list event) : Prop :=
  match evs with
  | [] => True
  | ev :: rest =>
      well_formed_answer p inv ev /\
      match step p inv ev with
      | Some inv' => well_formed_run p inv' rest
      | None => True
      end
  end.

(** The answer the transport gave to logical call [i]: the first response
    with that index. *)
Fixpoint answer_for (i : nat) (evs : list event) : option transport_result :=
  match evs with
  | [] => None
  | Response j r :: rest => if Nat.eqb j i then Some r else answer_for i rest
  | _ :: rest => answer_for i rest
  end.

(** [v] is the vector the transport returned for the text at index [i]:
    for a Titan invocation the array in the answer to call [i]; for a
    Cohere invocation the entry for that text in the answer to its batch. *)
Definition returned_vector (p : Provider) (inv : invocation) (evs : list event)
    (i : nat) (v : json) : Prop :=
  match inv with
  | TitanCall _ =>
      exists response,
        answer_for i evs = Some (SendOk (Some response)) /\
        get_property response "embedding" = Some (Some v)
  | CohereCall _ =>
      let b := Z.to_nat (p_batchSize p) in
      exists response xs,
        evs !! (i / b)%nat = Some (Response 0 (SendOk (Some response))) /\
        get_property response "embeddings" = Some (Some (JArray xs)) /\
        xs !! (i mod b)%nat = Some v
  | Rejected _ => False
  end.

(** What holds of a Titan invocation while every answer is well formed. *)
Definition task_ok (evs : list event) (i : nat) (tk : jsstring * task) : Prop :=
  match snd tk with
  | Parked | Sending _ => answer_for i evs = None
  | Sleeping _ => False
  | Settled r | Released r =>
      exists response v,
        answer_for i evs = Some (SendOk (Some response)) /\
        get_property response "embedding" = Some (Some v) /\ r = Ok v
  end.

Definition task_steps (tk : jsstring * task) : Z :=
  match snd tk with
  | Settled _ => 1
  | Released _ => 2
  | _ => 0
  end.

Record titan_ok (evs : list event) (s : titan) : Prop := {
  ok_tasks : forall i tk, t_tasks s !! i = Some tk -> task_ok evs i tk;
  ok_steps : Z.of_nat (length evs) = sumZ task_steps (t_tasks s);
  ok_pending : t_all s = None -> mapM fulfilled (t_tasks s) = None;
  ok_no_error : forall e, t_all s <> Some (Err e)
}.

(** The same for a Cohere invocation, after the answers [evs]. *)
Record cohere_ok (p : Provider) (texts : list jsstring) (evs : list event) (s : cohere)
    : Prop := {
  co_texts : c_texts s = texts;
  co_i : c_i s = p_batchSize p * Z.of_nat (length evs);
  co_last : c_i s < array_length texts + p_batchSize p;
  co_length : length (c_allEmbeddings s) = (Z.to_nat (c_i s) `min` length texts)%nat;
  co_vectors : forall i v, c_allEmbeddings s !! i = Some v ->
    exists response xs,
      evs !! (i / Z.to_nat (p_batchSize p))%nat = Some (Response 0 (SendOk (Some response))) /\
      get_property response "embeddings" = Some (Some (JArray xs)) /\
      xs !! (i mod Z.to_nat (p_batchSize p))%nat = Some v;
  co_phase : c_phase s =
    if c_i s <? array_length texts then CohereSending 0
    else CohereDone (Ok {| embeddings := c_allEmbeddings s;
                           usage := {| promptTokens := c_totalTokens s;
                                       totalTokens := c_totalTokens s |} |})
}.

(** ** The requests behind the answers *)

(** A send has gone out for a task in one of these states. *)
Definition has_sent (st : task) : Prop :=
  match st with
  | Parked | Settled (Err _) | Released (Err _) => False
  | _ => True
  end.

Definition titan_sent (s : titan) : Prop :=
  forall i text st, t_tasks s !! i = Some (text, st) -> has_sent st ->
    TitanRequest (t_model s) text ∈ t_calls s.

(** The texts of the batches up to and including the one in progress
    have been sent, each at its place in its batch. *)
Definition cohere_sent (p : Provider) (s : cohere) : Prop :=
  let b := Z.to_nat (p_batchSize p) in
  (exists k : nat, c_i s = p_batchSize p * Z.of_nat k) /\
  forall i text, c_texts s !! i = Some text ->
    Z.of_nat i < c_i s + match c_phase s with
                         | CohereDone _ => 0
                         | _ => p_batchSize p
                         end ->
    exists batch,
      CohereRequest (c_model s) batch (input_type p) ∈ c_calls s /\
      batch !! (i mod b)%nat = Some text.

Definition invocation_sent (p : Provider) (inv : invocation) : Prop :=
  match inv with
  | TitanCall s => titan_sent s
  | CohereCall s => cohere_sent p s
  | Rejected _ => True
  end.

(** The request that carried the text at index [i] is among the sends. *)
Definition requested (p : Provider) (inv : invocation) (i : nat) (text : jsstring) : Prop :=
  match inv with
  | TitanCall s => TitanRequest (t_model s) text ∈ t_calls s
  | CohereCall s =>
      exists batch,
        CohereRequest (c_model s) batch (input_type p) ∈ c_calls s /\
        batch !! (i mod Z.to_nat (p_batchSize p))%nat = Some text
  | Rejected _ => False
  end.

(** ** The runtime client

    Source: [src/api/providers/bedrock-shared.ts].  The provider's
    constructor builds its client with [createBedrockRuntimeClient]; the
    client is described by the configuration object it is created from. *)

(** An optional string is truthy when it is present and not empty; an
    optional boolean when it is [true]. *)
Definition truthy_string (o : option jsstring) : option jsstring :=
  match o with
  | Some (c :: s) => Some (c :: s)
  | _ => None
  end.

Definition truthy_bool (o : option bool) : bool := default false o.

Record BedrockClientOptions := {
  awsRegion : option jsstring;
  awsBedrockEndpoint : option jsstring;
  awsBedrockEndpointEnabled : option bool;
  awsAccessKey : option jsstring;
  awsSecretKey : option jsstring;
  awsSessionToken : option jsstring;
  awsProfile : option jsstring;
  awsUseProfile : option bool;
  awsApiKey : option jsstring;
  awsUseApiKey : option bool;
  awsCustomArn : option jsstring
}.

(** The [credentials] property: [fromIni({ profile, ignoreCache: true })]
    or an object with the two keys and the session token, which reads
    [undefined] ([None]) when the property is left out. *)
Inductive Credentials :=
| ProfileCredentials (profile : jsstring)
| StaticCredentials (accessKeyId secretAccessKey : jsstring) (sessionToken : option jsstring).

(** [BedrockRuntimeClientConfig], with the properties the function sets;
    [cc_requestTimeout] is [requestHandler.requestTimeout]. *)
Record BedrockRuntimeClientConfig := {
  cc_region : option jsstring;
  cc_endpoint : option jsstring;
  cc_maxAttempts : Z;
  cc_token : option jsstring;
  cc_authSchemePreference : option (list string);
  cc_requestTimeout : option Z;
  cc_credentials : option Credentials
}.

Definition createBedrockRuntimeClient (options : BedrockClientOptions)
    : BedrockRuntimeClientConfig :=
  let region := awsRegion options in
  let endpoint :=
    match truthy_string (awsBedrockEndpoint options) with
    | Some e => if truthy_bool (awsBedrockEndpointEnabled options) then Some e else None
    | None => None
    end in
  let with_credentials c :=
    {| cc_region := region; cc_endpoint := endpoint; cc_maxAttempts := 1;
       cc_token := None; cc_authSchemePreference := None; cc_requestTimeout := None;
       cc_credentials := Some c |} in
  match truthy_bool (awsUseApiKey options), truthy_string (awsApiKey options) with
  | true, Some key =>
      {| cc_region := region; cc_endpoint := endpoint; cc_maxAttempts := 1;
         cc_token := Some key; cc_authSchemePreference := Some ["httpBearerAuth"%string];
         cc_requestTimeout := Some 0; cc_credentials := None |}
  | _, _ =>
      match truthy_bool (awsUseProfile options), truthy_string (awsProfile options) with
      | true, Some profile => with_credentials (ProfileCredentials profile)
      | _, _ =>
          match truthy_string (awsAccessKey options), truthy_string (awsSecretKey options) with
          | Some access, Some secret =>
              with_credentials
                (StaticCredentials access secret (truthy_string (awsSessionToken options)))
          | _, _ => with_credentials (StaticCredentials [] [] None)
          end
      end
  end.

(** The settings of [BedrockEmbedderConfig] that the provider's
    constructor hands to [createBedrockRuntimeClient]. *)
Record BedrockEmbedderConnection := {
  region : option jsstring;
  endpointUrl : option jsstring;
  accessKeyId : option jsstring;
  secretAccessKey : option jsstring;
  sessionToken : option jsstring
}.

(** The second statement of the constructor: [this.client = ...]. *)
Definition constructor_client (config : BedrockEmbedderConnection)
    : BedrockRuntimeClientConfig :=
  createBedrockRuntimeClient
    {| awsRegion := region config;
       awsBedrockEndpoint := endpointUrl config;
       awsBedrockEndpointEnabled :=
         Some (match truthy_string (endpointUrl config) with Some _ => true | None => false end);
       awsAccessKey := accessKeyId config;
       awsSecretKey := secretAccessKey config;
       awsSessionToken := sessionToken config;
       awsProfile := None; awsUseProfile := None;
       awsApiKey := None; awsUseApiKey := None; awsCustomArn := None |}.

(** The ways a client can authenticate. *)
Inductive auth_method :=
| BearerToken (key : jsstring)
| Profile (profile : jsstring)
| AccessKeys (access secret : jsstring) (session : option jsstring)
| EmptyKeys.

(** What a client configuration authenticates with; [None] when it names
    no method or more than one. *)
Definition auth_of (c : BedrockRuntimeClientConfig) : option auth_method :=
  match cc_token c, cc_credentials c with
  | Some key, None => Some (BearerToken key)
  | None, Some (ProfileCredentials profile) => Some (Profile profile)
  | None, Some (StaticCredentials [] [] None) => Some EmptyKeys
  | None, Some (StaticCredentials (a :: access) (s :: secret) session) =>
      Some (AccessKeys (a :: access) (s :: secret) session)
  | _, _ => None
  end.

(** ** The moves of a Titan invocation

    What one event does to the state, read off [titan_step]: the tasks it
    rewrites and what it adds to the sends and the delays. *)

(** The head of the retry loop at attempt [a], as [titan_attempt] runs it
    for a text: the send goes out, or the attempts are used up. *)
Definition attempted (p : Provider) (model text : jsstring) (a : Z) (st' : task)
    (calls calls' : list request) : Prop :=
  a < p_maxRetries p /\ st' = Sending a /\ calls' = calls ++ [TitanRequest model text]
  \/ p_maxRetries p <= a /\ st' = Settled (Err (FailedMaxAttempts (p_maxRetries p))) /\
     calls' = calls.

(** [Promise.all] after the task that settled with [r] was released. *)
Definition all_after (s s' : titan) (r : result json) : Prop :=
  t_all s' = match t_all s with
             | Some x => Some x
             | None =>
                 match r with
                 | Err e => Some (Err e)
                 | Ok _ => Ok <$> mapM fulfilled (t_tasks s')
                 end
             end.

(** What the body of a task ends with when the answer to its send is not
    a reason to retry. *)
Definition task_result (p : Provider) (text : jsstring) (answer : transport_result)
    (r : result json) : Prop :=
  match answer with
  | SendOk body =>
      match embedTitanText_result text body with
      | Ok (v, _) => r = Ok v
      | Err e => r = Err e
      end
  | SendFail error => r = Err (Formatted error (p_maxRetries p))
  end.

Inductive titan_move (p : Provider) (s : titan) : event -> titan -> Prop :=
| move_settle (i : nat) (text : jsstring) (a : Z) (answer : transport_result)
    (r : result json) (s' : titan) :
    t_tasks s !! i = Some (text, Sending a) ->
    task_result p text answer r ->
    t_tasks s' = <[i := (text, Settled r)]> (t_tasks s) ->
    t_model s' = t_model s -> t_sem s' = t_sem s -> t_calls s' = t_calls s ->
    t_delays s' = t_delays s -> t_all s' = t_all s ->
    titan_move p s (Response i answer) s'
| move_sleep (i : nat) (text : jsstring) (a : Z) (error : HttpError) (s' : titan) :
    t_tasks s !! i = Some (text, Sending a) ->
    is_429 error = true -> a < p_maxRetries p - 1 ->
    t_tasks s' = <[i := (text, Sleeping a)]> (t_tasks s) ->
    t_model s' = t_model s -> t_sem s' = t_sem s -> t_calls s' = t_calls s ->
    t_delays s' = t_delays s ++ [INITIAL_RETRY_DELAY_MS * 2 ^ a] -> t_all s' = t_all s ->
    titan_move p s (Response i (SendFail error)) s'
| move_wake (i : nat) (text : jsstring) (a : Z) (st' : task) (s' : titan) :
    t_tasks s !! i = Some (text, Sleeping a) ->
    attempted p (t_model s) text (a + 1) st' (t_calls s) (t_calls s') ->
    t_tasks s' = <[i := (text, st')]> (t_tasks s) ->
    t_model s' = t_model s -> t_sem s' = t_sem s ->
    t_delays s' = t_delays s -> t_all s' = t_all s ->
    titan_move p s (Timer i) s'
| move_release (i : nat) (text : jsstring) (r : result json) (s' : titan) :
    t_tasks s !! i = Some (text, Settled r) ->
    waiting (t_sem s) = [] ->
    t_sem s' = {| permits := permits (t_sem s) + 1; waiting := [] |} ->
    t_tasks s' = <[i := (text, Released r)]> (t_tasks s) ->
    t_model s' = t_model s -> t_calls s' = t_calls s ->
    t_delays s' = t_delays s -> all_after s s' r ->
    titan_move p s (Finally i) s'
| move_handover (i j : nat) (text next : jsstring) (r : result json)
    (rest : list nat) (st' : task) (s' : titan) :
    t_tasks s !! i = Some (text, Settled r) ->
    waiting (t_sem s) = j :: rest ->
    t_tasks s !! j = Some (next, Parked) ->
    t_sem s' = {| permits := permits (t_sem s); waiting := rest |} ->
    attempted p (t_model s) next 0 st' (t_calls s) (t_calls s') ->
    t_tasks s' = <[j := (next, st')]> (<[i := (text, Released r)]> (t_tasks s)) ->
    t_model s' = t_model s ->
    t_delays s' = t_delays s -> all_after s s' r ->
    titan_move p s (Finally i) s'.

(** *** The order in which the texts start *)

(** The texts before index [k] have started; the others wait in the queue
    of the semaphore, in input order. *)
Record titan_started (spawned k : nat) (s : titan) : Prop := {
  st_le : (k <= spawned)%nat;
  st_parked : forall i tk, t_tasks s !! i = Some tk -> (snd tk = Parked <-> (k <= i)%nat);
  st_waiting : waiting (t_sem s) = seq k (spawned - k)
}.

(** *** The sends a task can still make *)

Definition task_budget (p : Provider) (tk : jsstring * task) : Z :=
  match snd tk with
  | Parked => Z.max 0 (p_maxRetries p)
  | Sending a | Sleeping a => p_maxRetries p - 1 - a
  | _ => 0
  end.

Definition attempt_in_range (p : Provider) (tk : jsstring * task) : Prop :=
  match snd tk with
  | Sending a => 0 <= a < p_maxRetries p
  | Sleeping a => 0 <= a < p_maxRetries p - 1
  | _ => True
  end.

(** A delay of the back-off schedule that the provider can await. *)
Definition backoff_delay (p : Provider) (d : Z) : Prop :=
  exists a, 0 <= a < p_maxRetries p - 1 /\ d = INITIAL_RETRY_DELAY_MS * 2 ^ a.

Record titan_budget (p : Provider) (s : titan) : Prop := {
  bud_attempts : forall i tk, t_tasks s !! i = Some tk -> attempt_in_range p tk;
  bud_calls : Z.of_nat (length (t_calls s)) + sumZ (task_budget p) (t_tasks s)
              <= Z.of_nat (length (t_tasks s)) * Z.max 0 (p_maxRetries p);
  bud_delays : Forall (backoff_delay p) (t_delays s)
}.

(** *** Where a rejection comes from *)

(** The error [Promise.all] rejects with is the error of a task whose
    [finally] block has run. *)
Definition titan_error_source (s : titan) : Prop :=
  forall e, t_all s = Some (Err e) ->
    exists i text, t_tasks s !! i = Some (text, Released (Err e)).

(** The errors a task can end with when the provider has no attempt to
    make. *)
Definition never_sent (p : Provider) (tk : jsstring * task) : Prop :=
  match snd tk with
  | Parked => True
  | Settled r | Released r => r = Err (FailedMaxAttempts (p_maxRetries p))
  | _ => False
  end.

(** *** One send per text

    While every answer is well formed the sends are those of the started
    texts, in input order, and nothing is awaited. *)
Definition titan_in_order (texts : list jsstring) (spawned : nat) (s : titan) : Prop :=
  exists k, titan_started spawned k s /\
            t_calls s = map (TitanRequest (t_model s)) (take k texts) /\
            t_delays s = [].

(** ** The batches of a Cohere invocation *)

(** The request for batch number [k] of [texts]. *)
Definition batch_request (p : Provider) (model : jsstring) (texts : list jsstring) (k : nat)
    : request :=
  CohereRequest model
    (slice texts (p_batchSize p * Z.of_nat k) (p_batchSize p * Z.of_nat k + p_batchSize p))
    (input_type p).

(** While every answer is well formed the sends are the batches in
    order, one send each. *)
Definition cohere_in_order (p : Provider) (texts : list jsstring) (evs : list event)
    (s : cohere) : Prop :=
  c_calls s = map (batch_request p (c_model s) texts)
                (seq 0 (length evs + if c_i s <? array_length texts then 1 else 0)) /\
  c_delays s = [].

(** The batches the loop has still to go through from index [c] on. *)
Definition batches_from (p : Provider) (texts : list jsstring) (c : Z) : Z :=
  Math_ceil_div (Z.max 0 (array_length texts - c)) (p_batchSize p).

(** The sends a Cohere invocation can still make: those left to the batch
    in progress and [maxRetries] for each batch after it. *)
Definition cohere_budget (p : Provider) (texts : list jsstring) (s : cohere) : Prop :=
  Forall (backoff_delay p) (c_delays s) /\
  match c_phase s with
  | CohereSending a =>
      0 <= a < p_maxRetries p /\
      Z.of_nat (length (c_calls s)) + (p_maxRetries p - 1 - a)
        + p_maxRetries p * batches_from p texts (c_i s + p_batchSize p)
      <= p_maxRetries p * batches_from p texts 0
  | CohereSleeping a =>
      0 <= a < p_maxRetries p - 1 /\
      Z.of_nat (length (c_calls s)) + (p_maxRetries p - 1 - a)
        + p_maxRetries p * batches_from p texts (c_i s + p_batchSize p)
      <= p_maxRetries p * batches_from p texts 0
  | CohereDone _ =>
      Z.of_nat (length (c_calls s)) <= Z.max 0 (p_maxRetries p) * batches_from p texts 0
  end.

(** The logical calls an invocation is made of: one per text for a Titan
    model, one per batch for a Cohere model. *)
Definition logical_calls (p : Provider) (texts : list jsstring) (inv : invocation) : Z :=
  match inv with
  | TitanCall _ => array_length texts
  | CohereCall _ => Math_ceil_div (array_length texts) (p_batchSize p)
  | Rejected _ => 0
  end.

(** A Cohere invocation whose batch size is not positive, while every
    answer is well formed: the loop stays at its head. *)
Definition cohere_spinning (texts : list jsstring) (evs : list event) (s : cohere) : Prop :=
  c_texts s = texts /\ c_i s <= 0 /\ c_phase s = CohereSending 0 /\
  length (c_calls s) = S (length evs).

(** The sends an invocation makes when every answer is well formed: one
    per text, in input order, for a Titan model; one per batch, in order,
    for a Cohere model. *)
Definition expected_calls (p : Provider) (texts : list jsstring) (model : jsstring)
    (inv : invocation) : list request :=
  match inv with
  | TitanCall _ => map (TitanRequest model) texts
  | CohereCall _ =>
      map (batch_request p model texts)
        (seq 0 (Z.to_nat (Math_ceil_div (array_length texts) (p_batchSize p))))
  | Rejected _ => []
  end.

(** ** Where a rejection comes from: the events *)

(** The error of a logical call, explained by the configuration or by an
    answer of the transport among the events [evs]. *)
Definition call_error_explained (p : Provider) (model : jsstring) (evs : list event)
    (e : EmbedError) : Prop :=
  match e with
  | UnsupportedModel _ => False
  | FailedMaxAttempts n => n = p_maxRetries p /\ p_maxRetries p <= 0
  | Formatted error n =>
      n = p_maxRetries p /\ 0 < p_maxRetries p /\
      exists i, Response i (SendFail error) ∈ evs
  | JsonSyntaxError => exists i, Response i (SendOk None) ∈ evs
  | PropertyTypeError => exists i, Response i (SendOk (Some JNull)) ∈ evs
  | InvalidTitanResponse =>
      isTitanModel model = true /\
      exists i response x,
        Response i (SendOk (Some response)) ∈ evs /\
        get_property response "embedding" = Some x /\
        forall xs, x <> Some (JArray xs)
  | InvalidCohereResponse =>
      isTitanModel model = false /\ isCohereModel model = true /\
      exists i response x,
        Response i (SendOk (Some response)) ∈ evs /\
        get_property response "embeddings" = Some x /\
        forall xs, x <> Some (JArray xs)
  end.

(** The same for the rejection of [createEmbeddings]. *)
Definition rejection_explained (p : Provider) (model : jsstring) (evs : list event)
    (e : EmbedError) : Prop :=
  match e with
  | UnsupportedModel m =>
      m = model /\ isTitanModel model = false /\ isCohereModel model = false /\ evs = []
  | _ => call_error_explained p model evs e
  end.

Definition task_error (tk : jsstring * task) : option EmbedError :=
  match snd tk with
  | Settled (Err e) | Released (Err e) => Some e
  | _ => None
  end.

Definition titan_explained (p : Provider) (evs : list event) (s : titan) : Prop :=
  forall i tk e, t_tasks s !! i = Some tk -> task_error tk = Some e ->
    call_error_explained p (t_model s) evs e.

Definition cohere_explained (p : Provider) (evs : list event) (s : cohere) : Prop :=
  match c_phase s with
  | CohereSending a => 0 <= a < p_maxRetries p
  | CohereSleeping a => 0 <= a < p_maxRetries p - 1
  | CohereDone (Err e) => call_error_explained p (c_model s) evs e
  | CohereDone (Ok _) => True
  end.

(** ** [validateConfiguration] *)

(** The embedding call of the validation: the single text ["test"] with
    the configured model. *)
Definition validation_call (p : Provider) : invocation :=
  createEmbeddings p [lit "test"] (Some (p_modelId p)).

(** What a [catch] block reads off the value it caught when it reports
    it: whether the value is an [Error], its [message] and [stack], and
    what [String(error)] gives. *)
Record caught := {
  instanceof_Error : bool;
  caught_message : string;
  caught_stack : option string;
  caught_String : string
}.

(** The properties of a [CODE_INDEX_ERROR] event; [validateConfiguration]
    sends no [attempt]. *)
Record telemetry_properties := {
  tp_error : string;
  tp_stack : option string;
  tp_location : string;
  tp_attempt : option Z
}.

Record ValidationResult := { valid : bool; error : option string }.

(** The function that [validateConfiguration] hands to
    [withValidationErrorHandling], at the state [inv] of its embedding
    call: pending while the call is; [{ valid: true }] when the call is
    fulfilled; when it is rejected, one event captured from the caught
    error, which is then thrown again.  [view] gives what the [catch]
    block reads off an error of [createEmbeddings]. *)
Definition validation_fn (view : EmbedError -> caught) (inv : invocation)
    : option (result ValidationResult * list telemetry_properties) :=
  match outcome inv with
  | None => None
  | Some (Ok _) => Some (Ok {| valid := true; error := None |}, [])
  | Some (Err e) =>
      Some (Err e,
            [{| tp_error := if instanceof_Error (view e) then caught_message (view e)
                            else caught_String (view e);
                tp_stack := if instanceof_Error (view e) then caught_stack (view e)
                            else None;
                tp_location := "AmazonBedrockEmbeddingProvider:validateConfiguration";
                tp_attempt := None |}])
  end.

(** Modelled from the spec: [withValidationErrorHandling] comes from a
    module outside this file's sources.  It "translates any raised
    failure into a human-readable [error] string" and "returns
    [{valid:false, error}]", it "returns [{valid:true}] on success" (what
    the function it is given returns then), and it "never raises".  The
    wording of the string stays symbolic, as [human_readable], which also
    stands for the embedder name the call passes along. *)
Definition withValidationErrorHandling (human_readable : EmbedError -> string)
    (settled : result ValidationResult) : ValidationResult :=
  match settled with
  | Ok v => v
  | Err e => {| valid := false; error := Some (human_readable e) |}
  end.

(** [validateConfiguration] at the state [inv] of its embedding call:
    what it has settled with, and what it has captured. *)
Definition validateConfiguration (view : EmbedError -> caught)
    (human_readable : EmbedError -> string) (inv : invocation)
    : option (ValidationResult * list telemetry_properties) :=
  match validation_fn view inv with
  | None => None
  | Some (settled, events) =>
      Some (withValidationErrorHandling human_readable settled, events)
  end.

(** The one request of the probe. *)
Definition probe_request (p : Provider) : request :=
  if isTitanModel (p_modelId p) then TitanRequest (p_modelId p) (lit "test")
  else CohereRequest (p_modelId p) [lit "test"] (input_type p).

(** ** Termination

    A measure of the events an invocation can still take: each event
    lowers the rank of the task it resumes, and starting a parked task
    does not raise it. *)
Definition task_rank (p : Provider) (tk : jsstring * task) : Z :=
  match snd tk with
  | Parked => 2 * Z.max 0 (p_maxRetries p) + 1
  | Sending a => 2 * (p_maxRetries p - a)
  | Sleeping a => 2 * (p_maxRetries p - a) - 1
  | Settled _ => 1
  | Released _ => 0
  end.

Definition titan_rank (p : Provider) (evs : list event) (s : titan) : Prop :=
  Z.of_nat (length evs) + sumZ (task_rank p) (t_tasks s)
  <= Z.of_nat (length (t_tasks s)) * (2 * Z.max 0 (p_maxRetries p) + 1).

(** While [Promise.all] is pending some task has not been fulfilled and
    none has been released with an error. *)
Definition titan_unsettled (s : titan) : Prop :=
  t_all s = None ->
  mapM fulfilled (t_tasks s) = None /\
  forall i text e, t_tasks s !! i <> Some (text, Released (Err e)).

Definition cohere_rank (p : Provider) (texts : list jsstring) (evs : list event)
    (s : cohere) : Prop :=
  match c_phase s with
  | CohereSending a =>
      0 <= a < p_maxRetries p /\
      Z.of_nat (length evs) + (2 * (p_maxRetries p - a) - 1)
        + 2 * p_maxRetries p * batches_from p texts (c_i s + p_batchSize p)
      <= 2 * p_maxRetries p * batches_from p texts 0
  | CohereSleeping a =>
      0 <= a < p_maxRetries p - 1 /\
      Z.of_nat (length evs) + (2 * (p_maxRetries p - a) - 2)
        + 2 * p_maxRetries p * batches_from p texts (c_i s + p_batchSize p)
      <= 2 * p_maxRetries p * batches_from p texts 0
  | CohereDone _ =>
      Z.of_nat (length evs) <= 2 * Z.max 0 (p_maxRetries p) * batches_from p texts 0
  end.

(** ** What a request may carry *)

(** A request made for the texts of an invocation with [model] in
    effect: one of the texts under a Titan model, a run of consecutive
    texts under a Cohere model. *)
Definition request_for (p : Provider) (texts : list jsstring) (model : jsstring)
    (req : request) : Prop :=
  match req with
  | TitanRequest m text =>
      m = model /\ isTitanModel model = true /\ text ∈ texts
  | CohereRequest m batch it =>
      m = model /\ isTitanModel model = false /\ isCohereModel model = true /\
      it = input_type p /\
      exists before after, texts = before ++ batch ++ after
  end.

(** ** The vectors of a fulfilled invocation *)

(** The bodies of the answers the transport gave to the sends of logical
    call [i], failures left out. *)
Definition answers (i : nat) (evs : list event) : list (option json) :=
  flat_map (fun ev => match ev with
                      | Response j (SendOk body) => if Nat.eqb j i then [body] else []
                      | _ => []
                      end) evs.

(** The vectors an answer to a Cohere call contributes. *)
Definition accepted (ev : event) : list json :=
  match ev with
  | Response _ (SendOk (Some response)) =>
      match get_property response "embeddings" with
      | Some (Some (JArray xs)) => xs
      | _ => []
      end
  | _ => []
  end.

(** A task has been answered at most once, and the vector it holds is the
    one of that answer. *)
Definition task_collected (evs : list event) (i : nat) (tk : jsstring * task) : Prop :=
  match snd tk with
  | Parked | Sending _ | Sleeping _ => answers i evs = []
  | Settled (Ok v) | Released (Ok v) =>
      exists response,
        answers i evs = [Some response] /\
        get_property response "embedding" = Some (Some v)
  | _ => True
  end.

Definition titan_collected (evs : list event) (s : titan) : Prop :=
  forall i tk, t_tasks s !! i = Some tk -> task_collected evs i tk.

(** ** Telemetry of a logical call

    [invokeModelWithRetries] reports to telemetry in its [catch] block,
    after the test for throttling and before it throws.  The properties
    of the event are read off the caught value: [error] is its [message]
    when the value is an [Error] and [String(error)] otherwise, [stack]
    is its [stack] when it is an [Error]; then the location and
    [attempt + 1]. *)

(** A value thrown by [client.send], with what the report reads off it
    besides the fields of [HttpError]. *)
Record thrown := {
  th_error : HttpError;
  th_instanceof_Error : bool;
  th_String : string;
  th_stack : option string
}.

Inductive send_result :=
| Answered (body : option json)
| Threw (t : thrown).

(** What the retry loop sees of a result. *)
Definition as_transport (r : send_result) : transport_result :=
  match r with
  | Answered body => SendOk body
  | Threw t => SendFail (th_error t)
  end.

Definition report (t : thrown) (attempt : Z) : telemetry_properties :=
  {| tp_error := if th_instanceof_Error t then message (th_error t) else th_String t;
     tp_stack := if th_instanceof_Error t then th_stack t else None;
     tp_location := "AmazonBedrockEmbeddingProvider:invokeModelWithRetries";
     tp_attempt := Some (attempt + 1) |}.

Fixpoint captured (p : Provider) (answers : list send_result) (attempt : Z)
    : list telemetry_properties :=
  if attempt <? p_maxRetries p then
    match answers with
    | [] => []
    | Answered _ :: _ => []
    | Threw t :: rest =>
        match catch_block p attempt (th_error t) with
        | Retry _ => captured p rest (attempt + 1)
        | _ => [report t attempt]
        end
    end
  else [].

(** * Proofs *)

(** ** The retry loop *)


Lemma catch_block_retry (p : Provider) (a : Z) (e : HttpError) :
  status e = Some 429 -> a < p_maxRetries p - 1 ->
  catch_block p a e = Retry (INITIAL_RETRY_DELAY_MS * 2 ^ a).
Proof.
  intros He Ha. unfold catch_block, is_429. rewrite He.
  destruct (Z.ltb_spec a (p_maxRetries p - 1)); [reflexivity|lia].
Qed.

Lemma catch_block_terminal (p : Provider) (a : Z) (e : HttpError) :
  is_429 e = false \/ p_maxRetries p - 1 <= a ->
  catch_block p a e = Throw (Formatted e (p_maxRetries p)).
Proof.
  intros [He|Ha]; unfold catch_block.
  - rewrite He. reflexivity.
  - destruct (Z.ltb_spec a (p_maxRetries p - 1)); [lia|].
    rewrite andb_false_r. reflexivity.
Qed.

(** The same loop inside a Titan invocation: the events of a throttled
    call leave every other task alone. *)
Lemma titan_retry_events (p : Provider) (i : nat) (text : jsstring) (errors : list HttpError) :
  forall (s : titan) (a : Z),
  t_tasks s !! i = Some (text, Sending a) ->
  Forall (fun e => status e = Some 429) errors ->
  0 <= a -> a + Z.of_nat (length errors) <= p_maxRetries p - 1 ->
  run p (TitanCall s) (retry_events i errors) =
    Some (TitanCall
      {| t_model := t_model s; t_sem := t_sem s;
         t_tasks := <[i := (text, Sending (a + Z.of_nat (length errors)))]> (t_tasks s);
         t_totalTokens := t_totalTokens s;
         t_calls := t_calls s ++ repeat (TitanRequest (t_model s) text) (length errors);
         t_delays := t_delays s ++ backoff_delays a (length errors);
         t_all := t_all s |}).
Proof.
  induction errors as [|e errors IH]; intros s a Hi Hall Ha Hk.
  - cbn. rewrite Z.add_0_r, list_insert_id by exact Hi.
    rewrite !app_nil_r. destruct s; reflexivity.
  - cbn [length] in Hk. inversion Hall as [|? ? He Hall']; subst.
    assert (Hlen : (i < length (t_tasks s))%nat) by (eapply lookup_lt_Some; eauto).
    change (retry_events i (e :: errors))
      with (Response i (SendFail e) :: Timer i :: retry_events i errors).
    cbn [run step titan_step fmap option_fmap option_map].
    rewrite Hi. cbn [after_send]. rewrite catch_block_retry by (auto; lia).
    cbn [option_map run step titan_step titan_set t_tasks fmap option_fmap].
    rewrite list_lookup_insert_eq by exact Hlen.
    unfold titan_attempt at 1, titan_set. cbn [t_tasks].
    rewrite list_lookup_insert_eq by exact Hlen.
    destruct (Z.ltb_spec (a + 1) (p_maxRetries p)); [|lia].
    cbn [fmap option_fmap option_map t_model t_sem t_tasks t_totalTokens t_calls t_delays t_all].
    rewrite IH with (a := a + 1); cbn [t_tasks t_model t_sem t_totalTokens t_calls t_delays t_all];
      auto; try lia.
    + rewrite !list_insert_insert_eq, Z.add_0_r.
      do 2 f_equal. f_equal.
      * cbn [length]. do 3 f_equal. lia.
      * rewrite <- app_assoc. reflexivity.
      * rewrite <- !app_assoc. f_equal. unfold backoff_delays. cbn [length seq map app].
        f_equal. { rewrite Z.add_0_r. reflexivity. }
        rewrite <- seq_shift, map_map. apply map_ext. intros k. f_equal. f_equal. lia.
    + rewrite list_insert_insert_eq. apply list_lookup_insert_eq. exact Hlen.
Qed.

Lemma cohere_retry_events (p : Provider) (errors : list HttpError) :
  forall (s : cohere) (a : Z),
  c_phase s = CohereSending a ->
  Forall (fun e => status e = Some 429) errors ->
  0 <= a -> a + Z.of_nat (length errors) <= p_maxRetries p - 1 ->
  run p (CohereCall s) (retry_events 0 errors) =
    Some (CohereCall
      (cohere_with s (CohereSending (a + Z.of_nat (length errors)))
         (repeat (CohereRequest (c_model s) (cohere_batch p s) (input_type p)) (length errors))
         (backoff_delays a (length errors)))).
Proof.
  induction errors as [|e errors IH]; intros s a Hs Hall Ha Hk.
  - cbn. unfold cohere_with. rewrite Z.add_0_r, !app_nil_r, <- Hs. destruct s; reflexivity.
  - cbn [length] in Hk. inversion Hall as [|? ? He Hall']; subst.
    change (retry_events 0 (e :: errors))
      with (Response 0 (SendFail e) :: Timer 0 :: retry_events 0 errors).
    cbn [run step cohere_step fmap option_fmap option_map].
    rewrite Hs. cbn [after_send]. rewrite catch_block_retry by (auto; lia).
    cbn [fmap option_fmap option_map run step cohere_step cohere_with c_phase].
    unfold cohere_attempt at 1.
    destruct (Z.ltb_spec (a + 1) (p_maxRetries p)); [|lia].
    cbn [fmap option_fmap option_map].
    rewrite IH with (a := a + 1); auto; try lia.
    unfold cohere_with, cohere_batch, backoff_delays. cbn [c_model c_texts c_i c_phase
      c_allEmbeddings c_totalTokens c_calls c_delays length repeat seq map app].
    do 2 f_equal. f_equal.
    + f_equal. lia.
    + rewrite !app_nil_r, <- app_assoc. reflexivity.
    + rewrite !app_nil_r, <- !app_assoc. cbn [app]. do 2 f_equal.
      { rewrite Z.add_0_r. reflexivity. }
      rewrite <- seq_shift, map_map. apply map_ext. intros k. f_equal. f_equal. lia.
Qed.


(** C5. A failure that is not a 429, at whatever attempt it occurs, ends
    the logical call: no further send, no delay, and the call throws the
    error formatted by [formatEmbeddingError].  With [maxRetries = 1] the
    same holds for a 429.  Stated for the loop on its own and inside both
    kinds of invocation. *)
Theorem C5_other_failures_end_the_call (p : Provider) (e : HttpError) (a : Z) :
  0 <= a < p_maxRetries p ->
  is_429 e = false \/ p_maxRetries p = 1 ->
  (forall rest,
     let r := invokeModelWithRetries p (SendFail e :: rest) a in
     returned r = Some (Err (Formatted e (p_maxRetries p))) /\
     sends r = 1%nat /\ waits r = [] /\ unread r = rest)
  /\ (forall s i text,
        t_tasks s !! i = Some (text, Sending a) ->
        exists s',
          titan_step p s (Response i (SendFail e)) = Some s' /\
          t_tasks s' = <[i := (text, Settled (Err (Formatted e (p_maxRetries p))))]> (t_tasks s) /\
          t_calls s' = t_calls s /\ t_delays s' = t_delays s)
  /\ (forall s,
        c_phase s = CohereSending a ->
        exists s',
          cohere_step p s (Response 0 (SendFail e)) = Some s' /\
          c_phase s' = CohereDone (Err (Formatted e (p_maxRetries p))) /\
          c_calls s' = c_calls s /\ c_delays s' = c_delays s /\
          forall ev, cohere_step p s' ev = None).
Proof.
  intros Ha He.
  assert (Hc : catch_block p a e = Throw (Formatted e (p_maxRetries p))).
  { apply catch_block_terminal. destruct He; [auto|right; lia]. }
  split; [|split].
  - intros rest. cbn [invokeModelWithRetries after_send].
    destruct (Z.ltb_spec a (p_maxRetries p)); [|lia]. rewrite Hc. cbn. auto.
  - intros s i text Hi. eexists. split.
    + cbn [titan_step]. rewrite Hi. cbn [after_send]. rewrite Hc. reflexivity.
    + cbn. rewrite app_nil_r. auto.
  - intros s Hs. eexists. split.
    + cbn [cohere_step]. rewrite Hs. cbn [after_send]. rewrite Hc. reflexivity.
    + cbn. rewrite !app_nil_r. repeat split; auto.
      intros [[|i] r|[|i]|i]; reflexivity.
Qed.

(** ** Strings *)

Lemma append_empty (s : string) : (s ++ "")%string = s.
Proof. induction s as [|c s IH]; cbn; [reflexivity|rewrite IH; reflexivity]. Qed.

Lemma append_assoc (a b c : string) : ((a ++ b) ++ c)%string = (a ++ b ++ c)%string.
Proof. induction a as [|x a IH]; cbn; [reflexivity|rewrite IH; reflexivity]. Qed.

Lemma generic_message_contents (e : HttpError) :
  contains (generic_message e 3) "3 attempts" /\
  contains (generic_message e 3) (message e).
Proof.
  unfold generic_message, contains. split.
  - exists "Failed to create embeddings after "%string. eexists. reflexivity.
  - eexists. exists ""%string. rewrite append_empty.
    rewrite <- !append_assoc. reflexivity.
Qed.

Lemma generic_not_429 (e : HttpError) : classify e = GenericTransportError -> is_429 e = false.
Proof.
  unfold classify, is_429. destruct (status e) as [code|]; [|reflexivity].
  destruct (Z.eqb_spec code 429) as [->|]; [discriminate|reflexivity].
Qed.

(** ** Claims on single calls and responses *)

(** C10. With no texts and a supported model, [createEmbeddings] has
    settled at its first suspension with no embeddings and zero usage, has
    issued no send, and no event can follow. *)
Theorem C10_no_texts (p : Provider) (model : option jsstring) :
  isTitanModel (modelToUse p model) = true \/ isCohereModel (modelToUse p model) = true ->
  let inv := createEmbeddings p [] model in
  outcome inv =
    Some (Ok {| embeddings := [];
                usage := {| promptTokens := 0; totalTokens := 0 |} |})
  /\ calls inv = []
  /\ forall ev, step p inv ev = None.
Proof.
  intros Hm inv. subst inv. unfold createEmbeddings.
  destruct (isTitanModel (modelToUse p model)) eqn:Ht.
  - cbn. repeat split. intros [i r|i|i]; reflexivity.
  - destruct Hm as [Hm|Hm]; [discriminate|]. rewrite Hm.
    cbn. repeat split. intros [[|i] r|[|i]|i]; reflexivity.
Qed.

(** C6, as the provider behaves.  With [maxRetries = 3] and a transport
    that fails with a generic error, [createEmbeddings] for one text rejects
    with the formatted error, whose message contains "3 attempts" and the
    text of the underlying error, and exactly one send is made: the failure
    is not retried.  Stated for the loop, for a Titan invocation and for a
    Cohere invocation. *)
Theorem C6_generic_failure (p : Provider) (e : HttpError) (text : jsstring)
    (model : option jsstring) :
  p_maxRetries p = 3 ->
  classify e = GenericTransportError ->
  (forall rest,
     let r := invokeModelWithRetries p (SendFail e :: rest) 0 in
     returned r = Some (Err (Formatted e 3)) /\ sends r = 1%nat /\ waits r = [])
  /\ (exists msg, error_message (Formatted e 3) = Some msg /\
        contains msg "3 attempts" /\ contains msg (message e))
  /\ (isTitanModel (modelToUse p model) = true -> 0 < p_maxConcurrency p ->
      exists inv,
        run p (createEmbeddings p [text] model)
          [Response 0 (SendFail e); Finally 0] = Some inv /\
        outcome inv = Some (Err (Formatted e 3)) /\
        length (calls inv) = 1%nat /\ delays inv = [] /\
        forall ev, step p inv ev = None)
  /\ (isTitanModel (modelToUse p model) = false ->
      isCohereModel (modelToUse p model) = true ->
      exists inv,
        run p (createEmbeddings p [text] model) [Response 0 (SendFail e)] = Some inv /\
        outcome inv = Some (Err (Formatted e 3)) /\
        length (calls inv) = 1%nat /\ delays inv = [] /\
        forall ev, step p inv ev = None).
Proof.
  intros Hr Hg. pose proof (generic_not_429 e Hg) as H429.
  assert (Hc : catch_block p 0 e = Throw (Formatted e 3)).
  { rewrite <- Hr. apply catch_block_terminal. auto. }
  split; [|split; [|split]].
  - intros rest. cbn [invokeModelWithRetries after_send]. rewrite Hr, Hc. cbn. auto.
  - exists (generic_message e 3). cbn [error_message]. rewrite Hg.
    split; [reflexivity|apply generic_message_contents].
  - intros Ht Hmc. unfold createEmbeddings. rewrite Ht.
    unfold processTitanEmbeddings. cbn [length seq fold_left map]. unfold spawn, acquire.
    cbn [t_sem new_Semaphore permits waiting].
    destruct (Z.ltb_spec 0 (p_maxConcurrency p)); [|lia].
    unfold titan_attempt. cbn [t_tasks lookup list_lookup]. rewrite Hr.
    cbn -[catch_block]. rewrite Hc. cbn. eexists. split; [reflexivity|].
    cbn. repeat split. intros [[|i] r|[|i]|[|i]]; reflexivity.
  - intros Ht Hco. unfold createEmbeddings. rewrite Ht, Hco.
    unfold processCohereEmbeddings, cohere_loop. cbn [c_i c_texts].
    change (0 <? array_length [text]) with true. cbn iota.
    unfold cohere_attempt. rewrite Hr.
    cbn -[catch_block slice]. rewrite Hc. cbn -[slice]. eexists. split; [reflexivity|].
    cbn. repeat split. intros [[|i] r|[|i]|i]; reflexivity.
Qed.

(** C7, as the provider behaves.  When a Cohere call is answered with a
    document other than [null] whose [embeddings] property is missing or is
    not an array, [createEmbeddings] rejects at once with the Cohere
    response error: no retry, no further send, no further event.  An array
    under [embeddings] is taken as it is, whatever its length. *)
Theorem C7_cohere_embeddings_not_an_array (p : Provider) (s : cohere) (a : Z)
    (response : json) (x : option json) :
  c_phase s = CohereSending a ->
  get_property response "embeddings" = Some x ->
  (forall xs, x <> Some (JArray xs)) ->
  (exists s',
     cohere_step p s (Response 0 (SendOk (Some response))) = Some s' /\
     cohere_outcome s' = Some (Err InvalidCohereResponse) /\
     c_calls s' = c_calls s /\ c_delays s' = c_delays s /\
     forall ev, cohere_step p s' ev = None)
  /\ (forall texts doc xs,
        get_property doc "embeddings" = Some (Some (JArray xs)) ->
        exists tokens, embedCohereBatch_result texts (Some doc) = Ok (xs, tokens)).
Proof.
  intros Hs Hx Hna. split.
  - assert (Hd : embedCohereBatch_result (cohere_batch p s) (Some response)
                 = Err InvalidCohereResponse).
    { unfold embedCohereBatch_result. rewrite Hx.
      destruct x as [[| | | |xs|]|]; try reflexivity. destruct (Hna xs eq_refl). }
    eexists. split.
    + cbn [cohere_step]. rewrite Hs. cbn [after_send]. rewrite Hd. reflexivity.
    + cbn. rewrite !app_nil_r. repeat split.
      intros [[|i] r|[|i]|i]; reflexivity.
  - intros texts doc xs Hdoc. unfold embedCohereBatch_result. rewrite Hdoc. eauto.
Qed.

(** ** The semaphore *)

Lemma remove_first_length (id : nat) (l : list nat) :
  existsb (Nat.eqb id) l = true -> S (length (remove_first id l)) = length l.
Proof.
  induction l as [|x l IH]; cbn; [discriminate|].
  rewrite (Nat.eqb_sym id x). destruct (Nat.eqb x id); cbn; [reflexivity|].
  intros H. rewrite IH by exact H. reflexivity.
Qed.

Lemma gate_step_inv (n : Z) (g g' : gate) (ev : gate_event) :
  gate_inv n g -> gate_step g ev = Some g' -> gate_inv n g'.
Proof.
  intros (Hp & H0 & Hq). destruct ev as [|id threw]; cbn [gate_step].
  - unfold acquire. destruct (Z.ltb_spec 0 (permits (g_sem g))); intros [= <-];
      unfold gate_inv; cbn [g_sem g_running g_parked g_woken permits waiting].
    + rewrite length_app. cbn [length]. repeat split; [lia|lia|exact Hq].
    + repeat split; [lia|lia|]. rewrite app_assoc, Hq. reflexivity.
  - destruct (existsb (Nat.eqb id) (g_running g)) eqn:Hin; [|discriminate].
    apply remove_first_length in Hin. unfold release.
    destruct (waiting (g_sem g)) as [|w rest] eqn:Hw; intros [= <-];
      unfold gate_inv; cbn [g_sem g_running g_parked g_woken permits waiting option_list];
      rewrite length_app; cbn [length].
    + rewrite !app_nil_r in *. repeat split; [lia|lia|exact Hq].
    + repeat split; [lia|lia|]. rewrite <- Hq, <- app_assoc. reflexivity.
Qed.

Lemma gate_run_inv (n : Z) (evs : list gate_event) :
  forall g g', gate_inv n g -> gate_run g evs = Some g' -> gate_inv n g'.
Proof.
  induction evs as [|ev evs IH]; intros g g' Hg; cbn [gate_run].
  - intros [= <-]. exact Hg.
  - destruct (gate_step g ev) as [g1|] eqn:Hstep; [|discriminate].
    apply IH. eapply gate_step_inv; eauto.
Qed.

(** C3. Under any sequence of [acquire] calls and completions, starting
    from a semaphore with [n >= 0] permits: the counter [permits] is never
    negative and counts the permits not in use, [n] minus the bodies
    executing, so the bodies executing at any moment are at most [n]; an
    [acquire] called while a permit is free takes it and starts its body
    at once, and parks its callback otherwise; the callbacks woken so far
    followed by those still parked are the parked callbacks in the order
    they arrived (first in, first out); and the completion of a body,
    whether it returned or threw, gives its permit back: to the head of
    the queue when there is one, which is the only callback woken and
    starts at once (the counter is as before), and to the counter, which
    goes up by one, when nobody waits. *)
Theorem C3_semaphore_bound_and_order (n : Z) (evs : list gate_event) (g : gate) :
  0 <= n ->
  gate_run (gate_init n) evs = Some g ->
  Z.of_nat (length (g_running g)) <= n
  /\ 0 <= permits (g_sem g)
  /\ permits (g_sem g) = n - Z.of_nat (length (g_running g))
  /\ g_woken g ++ waiting (g_sem g) = g_parked g
  /\ (exists g',
        gate_step g Acquire = Some g' /\
        g_woken g' = g_woken g /\
        if 0 <? n - Z.of_nat (length (g_running g))
        then g_running g' = g_running g ++ [g_next g] /\
             waiting (g_sem g') = waiting (g_sem g) /\
             permits (g_sem g') = permits (g_sem g) - 1
        else g_running g' = g_running g /\
             waiting (g_sem g') = waiting (g_sem g) ++ [g_next g] /\
             permits (g_sem g') = permits (g_sem g))
  /\ forall id threw g',
       gate_step g (Complete id threw) = Some g' ->
       gate_step g (Complete id (negb threw)) = Some g' /\
       match waiting (g_sem g) with
       | [] =>
           g_woken g' = g_woken g /\ waiting (g_sem g') = [] /\
           S (length (g_running g')) = length (g_running g) /\
           permits (g_sem g') = permits (g_sem g) + 1
       | w :: rest =>
           g_woken g' = g_woken g ++ [w] /\ waiting (g_sem g') = rest /\
           In w (g_running g') /\
           length (g_running g') = length (g_running g) /\
           permits (g_sem g') = permits (g_sem g)
       end.
Proof.
  intros Hn Hrun.
  assert (Hinv : gate_inv n g).
  { eapply gate_run_inv; [|exact Hrun]. unfold gate_inv, gate_init. cbn. split; [lia|auto]. }
  destruct Hinv as (Hp & H0 & Hq).
  split; [lia|]. split; [exact H0|]. split; [lia|]. split; [exact Hq|]. split.
  - cbn [gate_step]. unfold acquire.
    replace (n - Z.of_nat (length (g_running g))) with (permits (g_sem g)) by lia.
    destruct (0 <? permits (g_sem g)); eexists; (split; [reflexivity|]);
      cbn [g_sem g_running g_woken permits waiting]; auto.
  - intros id threw g'. cbn [gate_step].
    destruct (existsb (Nat.eqb id) (g_running g)) eqn:Hin; [|discriminate].
    apply remove_first_length in Hin. unfold release.
    destruct (waiting (g_sem g)) as [|w rest]; intros [= <-]; (split; [reflexivity|]);
      cbn [g_sem g_running g_woken waiting permits option_list].
    + rewrite !app_nil_r. auto.
    + rewrite length_app. cbn [length]. repeat split; [|lia|lia].
      apply in_or_app. right. left. reflexivity.
Qed.

(** ** Sums over lists updated in place *)

Lemma sumZ_insert {A} (g : A -> Z) (l : list A) :
  forall (i : nat) (x y : A), l !! i = Some x ->
  sumZ g (<[i := y]> l) = sumZ g l - g x + g y.
Proof.
  induction l as [|z l IH]; intros [|i] x y Hi; try discriminate.
  - injection Hi as ->. cbn. lia.
  - change (<[S i := y]> (z :: l)) with (z :: <[i := y]> l).
    cbn [sumZ]. rewrite (IH i x y Hi). lia.
Qed.

Lemma sumZ_app {A} (g : A -> Z) (l k : list A) : sumZ g (l ++ k) = sumZ g l + sumZ g k.
Proof. induction l as [|x l IH]; cbn; [reflexivity|rewrite IH; lia]. Qed.

Lemma sumZ_ext {A} (g h : A -> Z) (l : list A) :
  (forall x, In x l -> g x = h x) -> sumZ g l = sumZ h l.
Proof.
  induction l as [|x l IH]; cbn; intros H; [reflexivity|].
  rewrite H, IH; auto.
Qed.

Lemma sumZ_map {A B} (g : B -> Z) (f : A -> B) (l : list A) :
  sumZ g (map f l) = sumZ (fun x => g (f x)) l.
Proof. induction l as [|x l IH]; cbn; [reflexivity|rewrite IH; reflexivity]. Qed.

Lemma count_nonneg {A} (f : A -> bool) (l : list A) : 0 <= count f l.
Proof.
  unfold count. induction l as [|x l IH]; cbn; [lia|]. destruct (f x); lia.
Qed.

Lemma count_le {A} (f g : A -> bool) (l : list A) :
  (forall x, f x = true -> g x = true) -> count f l <= count g l.
Proof.
  intros H. unfold count. induction l as [|x l IH]; cbn; [lia|].
  destruct (f x) eqn:Hf; [rewrite (H x Hf); lia|]. destruct (g x); lia.
Qed.

Lemma count_insert {A} (f : A -> bool) (l : list A) (i : nat) (x y : A) :
  l !! i = Some x ->
  count f (<[i := y]> l) = count f l - (if f x then 1 else 0) + (if f y then 1 else 0).
Proof.
  intros Hi. unfold count.
  apply (sumZ_insert (fun x => if f x then 1 else 0) l i x y Hi).
Qed.

Lemma map_fst_insert (tasks : list (jsstring * task)) (i : nat) (text : jsstring) (st st' : task) :
  tasks !! i = Some (text, st) ->
  map fst (<[i := (text, st')]> tasks) = map fst tasks.
Proof.
  intros Hi. change (map fst ?l) with (fst <$> l).
  rewrite list_fmap_insert. apply list_insert_id.
  rewrite list_lookup_fmap, Hi. reflexivity.
Qed.

Lemma mapM_fulfilled_insert_None (tasks : list (jsstring * task)) (i : nat) (tk : jsstring * task) :
  (i < length tasks)%nat -> fulfilled tk = None ->
  mapM fulfilled (<[i := tk]> tasks) = None.
Proof.
  intros Hi Hf. apply mapM_None. apply Exists_exists. exists tk. split; [|exact Hf].
  apply list_elem_of_lookup. exists i. apply list_lookup_insert_eq. exact Hi.
Qed.

Lemma mapM_fulfilled_lookup (tasks : list (jsstring * task)) (vs : list json) (i : nat)
    (tk : jsstring * task) :
  mapM fulfilled tasks = Some vs -> tasks !! i = Some tk ->
  exists v, snd tk = Released (Ok v).
Proof.
  intros Hm Hi. apply mapM_Some in Hm.
  destruct (Forall2_lookup_l _ _ _ _ _ Hm Hi) as (v & _ & Hv).
  unfold fulfilled in Hv. destruct (snd tk) as [| | | |[w|]]; try discriminate. eauto.
Qed.

(** ** Titan invocations: the invariant *)

(** A task that is executing moves on without leaving the semaphore. *)
Lemma inv_in_place (p : Provider) (texts : list jsstring) (k : nat) (s s' : titan)
    (i : nat) (text : jsstring) (st st' : task) :
  titan_inv p texts k s ->
  t_tasks s !! i = Some (text, st) ->
  is_executing (text, st) = true -> is_executing (text, st') = true ->
  t_sem s' = t_sem s -> t_all s' = t_all s ->
  t_tasks s' = <[i := (text, st')]> (t_tasks s) ->
  t_totalTokens s' = t_totalTokens s + (counted (text, st') - counted (text, st)) ->
  titan_inv p texts k s'.
Proof.
  intros [H1 H2 H3 H4 H5 H6 H7 H8 H9] Hi Hst Hst' Hsem Hall Htasks Htok.
  assert (Hlen : (i < length (t_tasks s))%nat) by (eapply lookup_lt_Some; eauto).
  split; rewrite ?Hsem, ?Hall, ?Htasks; auto.
  - rewrite (map_fst_insert _ _ _ st st' Hi). exact H1.
  - rewrite (sumZ_insert counted _ i (text, st) (text, st') Hi). lia.
  - rewrite (count_insert is_executing _ i (text, st) (text, st') Hi), Hst, Hst'. lia.
  - rewrite (count_insert is_executing _ i (text, st) (text, st') Hi), Hst, Hst'.
    destruct H4; [left; assumption|right; lia].
  - intros j. rewrite H6. split; intros (Hj & tj & Htj); (split; [exact Hj|]); exists tj.
    + destruct (decide (i = j)) as [->|Hne].
      * rewrite Hi in Htj. injection Htj as _ ->. discriminate.
      * rewrite list_lookup_insert_ne by exact Hne. exact Htj.
    + destruct (decide (i = j)) as [->|Hne].
      * rewrite list_lookup_insert_eq in Htj by exact Hlen. injection Htj as _ ->. discriminate.
      * rewrite list_lookup_insert_ne in Htj by exact Hne. exact Htj.
  - intros j tk Hj Htk. destruct (decide (i = j)) as [->|Hne].
    + specialize (H7 j _ Hj Hi). cbn in H7. subst st. discriminate.
    + rewrite list_lookup_insert_ne in Htk by exact Hne. eauto.
  - intros vs Hvs. specialize (H9 vs Hvs).
    destruct (mapM_fulfilled_lookup _ _ _ _ H9 Hi) as [v Hv]. cbn in Hv. subst st. discriminate.
Qed.

Lemma titan_attempt_spec (p : Provider) (i : nat) (a : Z) (s : titan) (text : jsstring) (st : task) :
  t_tasks s !! i = Some (text, st) ->
  exists st',
    (st' = Sending a /\ a < p_maxRetries p /\
     t_calls (titan_attempt p i a s) = t_calls s ++ [TitanRequest (t_model s) text]
     \/ st' = Settled (Err (FailedMaxAttempts (p_maxRetries p))) /\ p_maxRetries p <= a /\
        t_calls (titan_attempt p i a s) = t_calls s) /\
    t_tasks (titan_attempt p i a s) = <[i := (text, st')]> (t_tasks s) /\
    t_model (titan_attempt p i a s) = t_model s /\
    t_sem (titan_attempt p i a s) = t_sem s /\
    t_totalTokens (titan_attempt p i a s) = t_totalTokens s /\
    t_delays (titan_attempt p i a s) = t_delays s /\
    t_all (titan_attempt p i a s) = t_all s.
Proof.
  intros Hi. unfold titan_attempt. rewrite Hi.
  destruct (Z.ltb_spec a (p_maxRetries p)); eexists; cbn;
    (split; [|repeat split; reflexivity]); [left|right]; auto.
Qed.

Lemma executing_count_pos (tasks : list (jsstring * task)) (i : nat) (tk : jsstring * task) :
  tasks !! i = Some tk -> is_executing tk = true -> 1 <= count is_executing tasks.
Proof.
  intros Hi Hex.
  pose proof (count_insert is_executing tasks i tk (tk.1, Parked) Hi) as H.
  rewrite Hex in H. cbn in H.
  pose proof (count_nonneg is_executing (<[i := (tk.1, Parked)]> tasks)). lia.
Qed.

Lemma counted_released (text : jsstring) (r : result json) :
  counted (text, Released r) = counted (text, Settled r).
Proof. reflexivity. Qed.

(** The [finally] block when nobody is parked. *)
Lemma inv_release (p : Provider) (texts : list jsstring) (k : nat) (s s' : titan)
    (i : nat) (text : jsstring) (r : result json) :
  titan_inv p texts k s ->
  t_tasks s !! i = Some (text, Settled r) ->
  waiting (t_sem s) = [] ->
  t_sem s' = {| permits := permits (t_sem s) + 1; waiting := [] |} ->
  t_tasks s' = <[i := (text, Released r)]> (t_tasks s) ->
  t_totalTokens s' = t_totalTokens s ->
  (forall vs, t_all s' = Some (Ok vs) -> mapM fulfilled (t_tasks s') = Some vs) ->
  titan_inv p texts k s'.
Proof.
  intros [H1 H2 H3 H4 H5 H6 H7 H8 H9] Hi Hw Hsem Htasks Htok Hall.
  assert (Hlen : (i < length (t_tasks s))%nat) by (eapply lookup_lt_Some; eauto).
  pose proof (executing_count_pos _ _ _ Hi eq_refl) as Hpos.
  pose proof (count_insert is_executing _ i _ (text, Released r) Hi) as Hc. cbn in Hc.
  split; rewrite ?Hsem, ?Htasks, ?Htok; cbn [permits waiting]; auto.
  - rewrite (map_fst_insert _ _ _ _ (Released r) Hi). exact H1.
  - rewrite (sumZ_insert counted _ i _ (text, Released r) Hi), counted_released. lia.
  - lia.
  - left. destruct H4; lia.
  - constructor.
  - intros j. split; [intros Hin; apply elem_of_nil in Hin; destruct Hin|].
    intros (Hj & tj & Htj).
    destruct (decide (i = j)) as [->|Hne].
    + rewrite list_lookup_insert_eq in Htj by exact Hlen. discriminate.
    + rewrite list_lookup_insert_ne in Htj by exact Hne.
      rewrite <- Hw. apply H6. eauto.
  - intros j tk Hj Htk. destruct (decide (i = j)) as [->|Hne].
    + specialize (H7 j _ Hj Hi). discriminate.
    + rewrite list_lookup_insert_ne in Htk by exact Hne. eauto.
  - congruence.
  - rewrite <- Htasks. exact Hall.
Qed.

(** The [finally] block when a callback is parked: the permit passes to
    the head of the queue, whose body starts. *)
Lemma inv_handover (p : Provider) (texts : list jsstring) (k : nat) (s s' : titan)
    (i j : nat) (text tj : jsstring) (r : result json) (st' : task) (rest : list nat) :
  titan_inv p texts k s ->
  t_tasks s !! i = Some (text, Settled r) ->
  waiting (t_sem s) = j :: rest ->
  t_tasks s !! j = Some (tj, Parked) ->
  is_executing (tj, st') = true -> counted (tj, st') = 0 ->
  t_sem s' = {| permits := permits (t_sem s) + 1 - 1; waiting := rest |} ->
  t_tasks s' = <[j := (tj, st')]> (<[i := (text, Released r)]> (t_tasks s)) ->
  t_totalTokens s' = t_totalTokens s ->
  (forall vs, t_all s' = Some (Ok vs) -> mapM fulfilled (t_tasks s') = Some vs) ->
  titan_inv p texts k s'.
Proof.
  intros [H1 H2 H3 H4 H5 H6 H7 H8 H9] Hi Hw Hj Hst' Hcnt Hsem Htasks Htok Hall.
  assert (Hlen : (i < length (t_tasks s))%nat) by (eapply lookup_lt_Some; eauto).
  assert (Hlenj : (j < length (<[i := (text, Released r)]> (t_tasks s)))%nat).
  { rewrite length_insert. eapply lookup_lt_Some; eauto. }
  assert (Hij : i <> j) by (intros ->; rewrite Hi in Hj; discriminate).
  assert (Hj1 : <[i := (text, Released r)]> (t_tasks s) !! j = Some (tj, Parked)).
  { rewrite list_lookup_insert_ne by exact Hij. exact Hj. }
  pose proof (executing_count_pos _ _ _ Hi eq_refl) as Hpos.
  pose proof (count_insert is_executing _ i _ (text, Released r) Hi) as Hc. cbn in Hc.
  pose proof (count_insert is_executing _ j _ (tj, st') Hj1) as Hc'. rewrite Hst' in Hc'.
  cbn in Hc'.
  rewrite Hw in H5. apply NoDup_cons in H5 as [Hnotin Hnodup].
  split; rewrite ?Hsem, ?Htasks, ?Htok; cbn [permits waiting]; auto.
  - rewrite (map_fst_insert _ _ _ Parked st' Hj1), (map_fst_insert _ _ _ _ (Released r) Hi).
    exact H1.
  - rewrite (sumZ_insert counted _ j _ (tj, st') Hj1), Hcnt.
    rewrite (sumZ_insert counted _ i _ (text, Released r) Hi), counted_released.
    cbn [counted snd]. lia.
  - lia.
  - left. destruct H4; lia.
  - intros j'. split.
    + intros Hin.
      destruct (proj1 (H6 j')) as (Hlt & t' & Ht'); [rewrite Hw; apply elem_of_cons; auto|].
      split; [exact Hlt|]. exists t'.
      rewrite !list_lookup_insert_ne; [exact Ht'| |].
      * intros ->. rewrite Hi in Ht'. discriminate.
      * intros ->. contradiction.
    + intros (Hlt & t' & Ht').
      destruct (decide (j = j')) as [->|Hne].
      { rewrite list_lookup_insert_eq in Ht' by exact Hlenj. injection Ht' as _ ->. discriminate. }
      rewrite list_lookup_insert_ne in Ht' by exact Hne.
      destruct (decide (i = j')) as [->|Hne'].
      { rewrite list_lookup_insert_eq in Ht' by exact Hlen. discriminate. }
      rewrite list_lookup_insert_ne in Ht' by exact Hne'.
      assert (Hin : j' ∈ waiting (t_sem s)) by (apply H6; eauto).
      rewrite Hw in Hin. apply elem_of_cons in Hin as [->|Hin]; [contradiction|exact Hin].
  - intros j' tk Hk Htk.
    destruct (decide (j = j')) as [->|Hne].
    { destruct (proj1 (H6 j')) as [Hlt _]; [rewrite Hw; apply elem_of_cons; auto|]. lia. }
    rewrite list_lookup_insert_ne in Htk by exact Hne.
    destruct (decide (i = j')) as [->|Hne'].
    { specialize (H7 j' _ Hk Hi). discriminate. }
    rewrite list_lookup_insert_ne in Htk by exact Hne'. eauto.
  - intros _. assert (permits (t_sem s) <= 0) by (apply H8; rewrite Hw; discriminate). lia.
  - rewrite <- Htasks. exact Hall.
Qed.

(** A callback of [texts.map] that finds a free permit. *)
Lemma inv_start (p : Provider) (texts : list jsstring) (k : nat) (s s' : titan)
    (text : jsstring) (st' : task) :
  titan_inv p texts k s ->
  t_tasks s !! k = Some (text, Parked) ->
  0 < permits (t_sem s) ->
  is_executing (text, st') = true -> counted (text, st') = 0 ->
  t_sem s' = {| permits := permits (t_sem s) - 1; waiting := waiting (t_sem s) |} ->
  t_tasks s' = <[k := (text, st')]> (t_tasks s) ->
  t_totalTokens s' = t_totalTokens s ->
  t_all s' = t_all s ->
  titan_inv p texts (S k) s'.
Proof.
  intros [H1 H2 H3 H4 H5 H6 H7 H8 H9] Hk Hperm Hst' Hcnt Hsem Htasks Htok Hall.
  assert (Hlen : (k < length (t_tasks s))%nat) by (eapply lookup_lt_Some; eauto).
  pose proof (count_insert is_executing _ k _ (text, st') Hk) as Hc. rewrite Hst' in Hc.
  cbn in Hc.
  split; rewrite ?Hsem, ?Htasks, ?Htok, ?Hall; cbn [permits waiting]; auto.
  - rewrite (map_fst_insert _ _ _ Parked st' Hk). exact H1.
  - rewrite (sumZ_insert counted _ k _ (text, st') Hk), Hcnt. cbn [counted snd]. lia.
  - lia.
  - left. lia.
  - intros j. rewrite H6. split; intros (Hj & tj & Htj).
    + split; [lia|]. exists tj. rewrite list_lookup_insert_ne by lia. exact Htj.
    + destruct (decide (k = j)) as [->|Hne].
      { rewrite list_lookup_insert_eq in Htj by exact Hlen. injection Htj as _ ->. discriminate. }
      rewrite list_lookup_insert_ne in Htj by exact Hne. split; [lia|eauto].
  - intros j tk Hj Htk. rewrite list_lookup_insert_ne in Htk by lia. apply (H7 j); [lia|exact Htk].
  - intros Hne. apply H8 in Hne. lia.
  - intros vs Hvs. specialize (H9 vs Hvs).
    destruct (mapM_fulfilled_lookup _ _ _ _ H9 Hk) as [v Hv]. discriminate.
Qed.

(** A callback of [texts.map] that finds no permit and parks. *)
Lemma inv_park (p : Provider) (texts : list jsstring) (k : nat) (s s' : titan) (text : jsstring) :
  titan_inv p texts k s ->
  t_tasks s !! k = Some (text, Parked) ->
  permits (t_sem s) <= 0 ->
  t_sem s' = {| permits := permits (t_sem s); waiting := waiting (t_sem s) ++ [k] |} ->
  t_tasks s' = t_tasks s ->
  t_totalTokens s' = t_totalTokens s ->
  t_all s' = t_all s ->
  titan_inv p texts (S k) s'.
Proof.
  intros [H1 H2 H3 H4 H5 H6 H7 H8 H9] Hk Hperm Hsem Htasks Htok Hall.
  split; rewrite ?Hsem, ?Htasks, ?Htok, ?Hall; cbn [permits waiting]; auto.
  - apply NoDup_app. split; [exact H5|]. split; [|apply NoDup_singleton].
    intros j Hj Hj'. apply list_elem_of_singleton in Hj'. subst j.
    apply H6 in Hj as [Hlt _]. lia.
  - intros j. rewrite elem_of_app, list_elem_of_singleton, H6. split.
    + intros [(Hj & tj & Htj)| ->]; (split; [lia|eauto]).
    + intros (Hj & tj & Htj). destruct (decide (j = k)) as [->|Hne]; [right; reflexivity|].
      left. split; [lia|eauto].
  - intros j tk Hj Htk. apply (H7 j); [lia|exact Htk].
Qed.

Lemma spawn_inv (p : Provider) (texts : list jsstring) (k : nat) (s : titan) :
  titan_inv p texts k s -> (k < length texts)%nat ->
  titan_inv p texts (S k) (spawn p s k).
Proof.
  intros Hinv Hk.
  assert (Hlen : (k < length (t_tasks s))%nat).
  { rewrite <- (inv_texts _ _ _ _ Hinv), length_map in Hk. exact Hk. }
  destruct (lookup_lt_is_Some_2 _ _ Hlen) as [[text st] Hlk].
  pose proof (inv_unspawned _ _ _ _ Hinv k _ (Nat.le_refl k) Hlk) as Hst. cbn in Hst. subst st.
  unfold spawn, acquire. destruct (Z.ltb_spec 0 (permits (t_sem s))) as [Hp|Hp].
  - set (s1 := {| t_model := t_model s; t_sem := _; t_tasks := t_tasks s |}).
    destruct (titan_attempt_spec p k 0 s1 text Parked Hlk)
      as (st' & Hcase & Ht & _ & Hsem & Htok & _ & Hall).
    eapply (inv_start p texts k s _ text st' Hinv Hlk Hp); eauto.
    + destruct Hcase as [(-> & _)|(-> & _)]; reflexivity.
    + destruct Hcase as [(-> & _)|(-> & _)]; reflexivity.
  - eapply (inv_park p texts k s _ text Hinv Hlk); eauto.
Qed.

Lemma sumZ_counted_parked (texts : list jsstring) :
  sumZ counted (map (fun text => (text, Parked)) texts) = 0.
Proof. induction texts as [|t texts IH]; cbn; [reflexivity|exact IH]. Qed.

Lemma count_executing_parked (texts : list jsstring) :
  count is_executing (map (fun text => (text, Parked)) texts) = 0.
Proof. unfold count. induction texts as [|t texts IH]; cbn; [reflexivity|exact IH]. Qed.

Lemma fold_spawn_inv (p : Provider) (texts : list jsstring) (m : nat) :
  forall (k : nat) (s : titan),
  titan_inv p texts k s -> (k + m = length texts)%nat ->
  titan_inv p texts (length texts) (fold_left (spawn p) (seq k m) s).
Proof.
  induction m as [|m IH]; intros k s Hinv Hkm; cbn [seq fold_left].
  - replace (length texts) with k by lia. exact Hinv.
  - apply IH; [|lia]. apply spawn_inv; [exact Hinv|lia].
Qed.

Lemma observe_inv (p : Provider) (texts : list jsstring) (k : nat) (s : titan)
    (latest : option (result json)) :
  titan_inv p texts k s -> titan_inv p texts k (observe s latest).
Proof.
  intros [H1 H2 H3 H4 H5 H6 H7 H8 H9]. split; auto.
  cbn [observe t_all t_tasks]. unfold promise_all. intros vs.
  destruct (t_all s) as [r|] eqn:Hall; [intros [= ->]; auto|].
  destruct latest as [[v|e]|]; cbn;
    try (destruct (mapM fulfilled (t_tasks s)); cbn; intros [= ->]; reflexivity).
Qed.

(** The invariant holds when [createEmbeddings] first suspends. *)
Lemma processTitanEmbeddings_inv (p : Provider) (texts : list jsstring) (model : jsstring) :
  titan_inv p texts (length texts) (processTitanEmbeddings p texts model).
Proof.
  unfold processTitanEmbeddings. apply observe_inv. apply fold_spawn_inv; [|reflexivity].
  split; cbn [t_tasks t_sem t_totalTokens t_all new_Semaphore permits waiting].
  - rewrite map_map. cbn. apply map_id.
  - rewrite sumZ_counted_parked. reflexivity.
  - rewrite count_executing_parked. lia.
  - right. apply count_executing_parked.
  - constructor.
  - intros j. split; [intros Hin; apply elem_of_nil in Hin; destruct Hin|intros [Hj _]; lia].
  - intros j tk _ Hj. change (map ?f ?l) with (f <$> l) in Hj.
    rewrite list_lookup_fmap in Hj. destruct (texts !! j); cbn in Hj; [|discriminate].
    injection Hj as <-. reflexivity.
  - intros Hne. destruct Hne. reflexivity.
  - discriminate.
Qed.

Lemma embedTitanText_tokens (text : jsstring) (body : option json) (v : json) (tokens : Z) :
  embedTitanText_result text body = Ok (v, tokens) -> tokens = estimate_tokens text.
Proof.
  unfold embedTitanText_result. destruct body as [response|]; [|discriminate].
  destruct (get_property response "embedding") as [[[| | | |xs|]|]|]; try discriminate.
  intros [= _ <-]. reflexivity.
Qed.

(** Every event keeps the invariant. *)
Lemma titan_step_inv (p : Provider) (texts : list jsstring) (s s' : titan) (ev : event) :
  titan_inv p texts (length texts) s ->
  titan_step p s ev = Some s' ->
  titan_inv p texts (length texts) s'.
Proof.
  intros Hinv. destruct ev as [i r|i|i]; cbn [titan_step].
  - destruct (t_tasks s !! i) as [[text [|a|a|r'|r']]|] eqn:Hi; try discriminate.
    destruct (after_send p a r) as [body|d|e].
    + destruct (embedTitanText_result text body) as [[v tokens]|e] eqn:Hd; intros [= <-].
      * apply embedTitanText_tokens in Hd. subst tokens.
        eapply (inv_in_place p texts _ s _ i text (Sending a) (Settled (Ok v))); eauto.
        cbn. lia.
      * eapply (inv_in_place p texts _ s _ i text (Sending a) (Settled (Err e))); eauto.
    + intros [= <-].
      eapply (inv_in_place p texts _ s _ i text (Sending a) (Sleeping a)); eauto.
    + intros [= <-].
      eapply (inv_in_place p texts _ s _ i text (Sending a) (Settled (Err e))); eauto.
  - destruct (t_tasks s !! i) as [[text [|a|a|r'|r']]|] eqn:Hi; try discriminate.
    intros [= <-].
    destruct (titan_attempt_spec p i (a + 1) s text _ Hi)
      as (st' & Hcase & Ht & _ & Hsem & Htok & _ & Hall).
    eapply (inv_in_place p texts _ s _ i text (Sleeping a) st'); eauto.
    + destruct Hcase as [(-> & _)|(-> & _)]; reflexivity.
    + rewrite Htok. destruct Hcase as [(-> & _)|(-> & _)]; cbn; lia.
  - destruct (t_tasks s !! i) as [[text [|a|a|r|r]]|] eqn:Hi; try discriminate.
    unfold release. destruct (waiting (t_sem s)) as [|j rest] eqn:Hw; intros [= <-].
    + apply observe_inv.
      eapply (inv_release p texts _ s _ i text r Hinv Hi Hw); eauto.
      cbn [t_all t_tasks]. intros vs Hvs.
      pose proof (inv_all_ok _ _ _ _ Hinv vs Hvs) as Hm.
      destruct (mapM_fulfilled_lookup _ _ _ _ Hm Hi) as [v Hv]. discriminate.
    + apply observe_inv.
      assert (Hj : exists tj, t_tasks s !! j = Some (tj, Parked)).
      { apply (inv_waiting _ _ _ _ Hinv j). rewrite Hw. apply elem_of_cons. auto. }
      destruct Hj as [tj Hj].
      assert (Hij : i <> j) by (intros ->; rewrite Hi in Hj; discriminate).
      set (s1 := {| t_model := t_model s; t_tasks := <[i := _]> (t_tasks s) |}).
      assert (Hj1 : t_tasks s1 !! j = Some (tj, Parked)).
      { cbn. rewrite list_lookup_insert_ne by exact Hij. exact Hj. }
      destruct (titan_attempt_spec p j 0 s1 tj _ Hj1)
        as (st' & Hcase & Ht & _ & Hsem & Htok & _ & Hall).
      eapply (inv_handover p texts _ s _ i j text tj r st' rest Hinv Hi Hw Hj); eauto.
      * destruct Hcase as [(-> & _)|(-> & _)]; reflexivity.
      * destruct Hcase as [(-> & _)|(-> & _)]; reflexivity.
      * rewrite Hall. cbn [t_all s1]. intros vs Hvs.
        pose proof (inv_all_ok _ _ _ _ Hinv vs Hvs) as Hm.
        destruct (mapM_fulfilled_lookup _ _ _ _ Hm Hi) as [v Hv]. discriminate.
Qed.

(** ** Cohere invocations: batches and tokens *)

Lemma take_plus {A} (l : list A) : forall n m : nat,
  take (n + m) l = take n l ++ take m (drop n l).
Proof.
  induction l as [|x l IH]; intros [|n] m; cbn; try reflexivity.
  - destruct m; reflexivity.
  - rewrite IH. reflexivity.
Qed.

Lemma slice_batch {A} (l : list A) (i b : Z) :
  0 <= i -> 0 < b ->
  slice l i (i + b) = take (Z.to_nat b) (drop (Z.to_nat i) l).
Proof.
  intros Hi Hb. unfold slice, relative_index.
  destruct (Z.ltb_spec i 0); [lia|]. destruct (Z.ltb_spec (i + b) 0); [lia|].
  destruct (Z.le_gt_cases (Z.of_nat (length l)) i) as [Hge|Hlt].
  - rewrite !Z.min_r by lia. rewrite !drop_ge by lia. rewrite !take_nil. reflexivity.
  - rewrite (Z.min_l i) by lia.
    destruct (Z.le_gt_cases (i + b) (Z.of_nat (length l))).
    + rewrite Z.min_l by lia. f_equal. lia.
    + rewrite Z.min_r by lia. rewrite !take_ge; [reflexivity| |]; rewrite length_drop; lia.
Qed.

Lemma slice_nothing {A} (l : list A) : slice l 0 0 = [].
Proof.
  unfold slice, relative_index. cbn [Z.ltb Z.compare].
  rewrite Z.min_l by lia. reflexivity.
Qed.

Lemma take_batch {A} (l : list A) (i b : Z) :
  0 <= i -> 0 < b ->
  take (Z.to_nat (i + b)) l = take (Z.to_nat i) l ++ slice l i (i + b).
Proof.
  intros Hi Hb. rewrite slice_batch by lia.
  rewrite Z2Nat.inj_add by lia. apply take_plus.
Qed.

Lemma reduce_tokens (texts : list jsstring) : forall a : Z,
  fold_left (fun sum text => sum + estimate_tokens text) texts a = a + sum_tokens texts.
Proof.
  unfold sum_tokens. induction texts as [|t texts IH]; intros a; cbn; [lia|].
  rewrite IH. lia.
Qed.

Lemma embedCohereBatch_tokens (texts : list jsstring) (body : option json)
    (xs : list json) (tokens : Z) :
  embedCohereBatch_result texts body = Ok (xs, tokens) -> tokens = sum_tokens texts.
Proof.
  unfold embedCohereBatch_result. destruct body as [response|]; [|discriminate].
  destruct (get_property response "embeddings") as [[[| | | |ys|]|]|]; try discriminate.
  intros [= _ <-]. rewrite reduce_tokens. lia.
Qed.

Lemma cohere_with_inv (p : Provider) (texts : list jsstring) (s : cohere)
    (ph : cohere_phase) (calls : list request) (delays : list Z) :
  cohere_inv p texts s ->
  match ph with
  | CohereDone (Ok _) => False
  | CohereDone (Err _) => True
  | _ => c_i s < array_length texts
  end ->
  cohere_inv p texts (cohere_with s ph calls delays).
Proof.
  intros (H1 & H2 & H3 & H4) Hph. unfold cohere_inv. cbn. repeat split; try tauto.
  destruct ph as [a|a|[r|e]]; tauto.
Qed.

Lemma cohere_attempt_inv (p : Provider) (texts : list jsstring) (s : cohere) (a : Z) :
  cohere_inv p texts s -> c_i s < array_length texts ->
  cohere_inv p texts (cohere_attempt p a s).
Proof.
  intros Hinv Hi. unfold cohere_attempt.
  destruct (a <? p_maxRetries p); apply cohere_with_inv; auto.
Qed.

Lemma cohere_loop_inv (p : Provider) (texts : list jsstring) (s : cohere) :
  c_texts s = texts ->
  (0 < p_batchSize p ->
   0 <= c_i s /\ c_totalTokens s = sum_tokens (take (Z.to_nat (c_i s)) texts)) ->
  (p_batchSize p <= 0 -> c_i s <= 0 /\ (c_i s = 0 -> c_totalTokens s = 0)) ->
  cohere_inv p texts (cohere_loop p s).
Proof.
  intros H1 H2 H3. unfold cohere_loop. rewrite H1.
  destruct (Z.ltb_spec (c_i s) (array_length texts)) as [Hlt|Hge].
  - unfold cohere_attempt. destruct (0 <? p_maxRetries p);
      unfold cohere_inv; cbn; repeat split; try tauto.
  - unfold cohere_inv; cbn; repeat split; try tauto.
Qed.

Lemma cohere_step_inv (p : Provider) (texts : list jsstring) (s s' : cohere) (ev : event) :
  cohere_inv p texts s -> cohere_step p s ev = Some s' -> cohere_inv p texts s'.
Proof.
  intros Hinv. pose proof Hinv as (H1 & H2 & H3 & H4). unfold cohere_step.
  destruct ev as [[|i] r|[|i]|i]; destruct (c_phase s) as [a|a|r0] eqn:Hph; try discriminate.
  - destruct (after_send p a r) as [body|d|e].
    + destruct (embedCohereBatch_result (cohere_batch p s) body) as [[xs tokens]|e] eqn:Hd;
        intros [= <-]; [|apply cohere_with_inv; auto].
      apply embedCohereBatch_tokens in Hd. subst tokens.
      apply cohere_loop_inv; cbn [c_texts c_i c_totalTokens]; [exact H1| |].
      * intros Hb. destruct (H2 Hb) as [Hi Htok]. split; [lia|].
        unfold cohere_batch. rewrite H1, Htok, take_batch by lia.
        unfold sum_tokens. rewrite sumZ_app. reflexivity.
      * intros Hb. destruct (H3 Hb) as [Hi Htok]. split; [lia|]. intros Hz.
        assert (Hb0 : p_batchSize p = 0) by lia. assert (Hi0 : c_i s = 0) by lia.
        rewrite (Htok Hi0). unfold cohere_batch. rewrite Hb0, Hi0.
        change (0 + 0) with 0. rewrite slice_nothing. reflexivity.
    + intros [= <-]. apply cohere_with_inv; auto.
    + intros [= <-]. apply cohere_with_inv; auto.
  - intros [= <-]. apply cohere_attempt_inv; auto.
Qed.

Lemma processCohereEmbeddings_inv (p : Provider) (texts : list jsstring) (model : jsstring) :
  cohere_inv p texts (processCohereEmbeddings p texts model).
Proof.
  unfold processCohereEmbeddings.
  apply cohere_loop_inv; cbn [c_texts c_i c_totalTokens]; [reflexivity| |].
  - intros _. split; [lia|reflexivity].
  - intros _. split; [lia|reflexivity].
Qed.

(** ** Invocations *)

Lemma createEmbeddings_inv (p : Provider) (texts : list jsstring) (model : option jsstring) :
  invocation_inv p texts (createEmbeddings p texts model).
Proof.
  unfold createEmbeddings. destruct (isTitanModel _); [apply processTitanEmbeddings_inv|].
  destruct (isCohereModel _); [apply processCohereEmbeddings_inv|exact I].
Qed.

Lemma step_inv (p : Provider) (texts : list jsstring) (inv inv' : invocation) (ev : event) :
  invocation_inv p texts inv -> step p inv ev = Some inv' -> invocation_inv p texts inv'.
Proof.
  destruct inv as [s|s|e]; cbn [step invocation_inv]; intros Hinv; [| |discriminate].
  - destruct (titan_step p s ev) as [s'|] eqn:Hs; [|discriminate]. intros [= <-].
    eapply titan_step_inv; eauto.
  - destruct (cohere_step p s ev) as [s'|] eqn:Hs; [|discriminate]. intros [= <-].
    eapply cohere_step_inv; eauto.
Qed.

Lemma run_inv (p : Provider) (texts : list jsstring) (evs : list event) :
  forall inv inv', invocation_inv p texts inv -> run p inv evs = Some inv' ->
  invocation_inv p texts inv'.
Proof.
  induction evs as [|ev evs IH]; intros inv inv' Hinv; cbn [run].
  - intros [= <-]. exact Hinv.
  - destruct (step p inv ev) as [inv1|] eqn:Hstep; [|discriminate].
    apply IH. eapply step_inv; eauto.
Qed.

Lemma titan_tokens_when_fulfilled (p : Provider) (texts : list jsstring) (k : nat)
    (s : titan) (vs : list json) :
  titan_inv p texts k s -> t_all s = Some (Ok vs) -> t_totalTokens s = sum_tokens texts.
Proof.
  intros Hinv Hall. pose proof (inv_all_ok _ _ _ _ Hinv vs Hall) as Hm.
  rewrite (inv_tokens _ _ _ _ Hinv), <- (inv_texts _ _ _ _ Hinv).
  unfold sum_tokens. rewrite sumZ_map. apply sumZ_ext. intros tk Hin.
  apply list_elem_of_In, list_elem_of_lookup in Hin as [i Hi].
  destruct (mapM_fulfilled_lookup _ _ _ _ Hm Hi) as [v Hv].
  unfold counted. rewrite Hv. reflexivity.
Qed.

(** C8, as the provider behaves.  Whenever [createEmbeddings] succeeds,
    under any interleaving and any behaviour of the transport, both usage
    counters equal the sum over the input texts of
    [ceil(text.length / 4)], where [length] counts UTF-16 code units. *)
Theorem C8_usage_counts_code_units (p : Provider) (texts : list jsstring)
    (model : option jsstring) (evs : list event) (inv : invocation) (r : EmbeddingResponse) :
  run p (createEmbeddings p texts model) evs = Some inv ->
  outcome inv = Some (Ok r) ->
  promptTokens (usage r) = sum_tokens texts /\ totalTokens (usage r) = sum_tokens texts.
Proof.
  intros Hrun Hout.
  pose proof (run_inv p texts evs _ _ (createEmbeddings_inv p texts model) Hrun) as Hinv.
  destruct inv as [s|s|e]; cbn [outcome invocation_inv] in *; [| |discriminate].
  - unfold titan_outcome in Hout. destruct (t_all s) as [[vs|e]|] eqn:Hall; try discriminate.
    injection Hout as <-. cbn. split; eapply titan_tokens_when_fulfilled; eauto.
  - unfold cohere_outcome in Hout. destruct Hinv as (H1 & H2 & H3 & H4).
    destruct (c_phase s) as [a|a|r0]; try discriminate. injection Hout as ->.
    destruct H4 as [Hlen ->]. cbn.
    assert (Htok : c_totalTokens s = sum_tokens texts).
    { destruct (Z.lt_ge_cases 0 (p_batchSize p)) as [Hb|Hb].
      - destruct (H2 Hb) as [Hi ->]. rewrite take_ge; [reflexivity|].
        unfold array_length in Hlen. lia.
      - destruct (H3 Hb) as [Hi Hz]. unfold array_length in Hlen.
        assert (Hnil : texts = []) by (apply length_zero_iff_nil; lia).
        rewrite Hz by lia. rewrite Hnil. reflexivity. }
    auto.
Qed.

(** ** Several invocations on one provider *)

Lemma engine_step_inv (p : Provider) (e e' : list invocation) (ev : engine_event) :
  engine_inv p e -> engine_step p e ev = Some e' -> engine_inv p e'.
Proof.
  unfold engine_inv. intros He. destruct ev as [texts model|k ev]; cbn [engine_step].
  - intros [= <-]. apply Forall_app. split; [exact He|].
    constructor; [|constructor]. exists texts. apply createEmbeddings_inv.
  - destruct (e !! k) as [inv|] eqn:Hk; [|discriminate].
    destruct (step p inv ev) as [inv'|] eqn:Hstep; [|discriminate]. intros [= <-].
    apply Forall_insert; [exact He|].
    destruct (Forall_lookup_1 _ _ _ _ He Hk) as [texts Hinv].
    exists texts. eapply step_inv; eauto.
Qed.

Lemma engine_run_inv (p : Provider) (evs : list engine_event) :
  forall e e', engine_inv p e -> engine_run p e evs = Some e' -> engine_inv p e'.
Proof.
  induction evs as [|ev evs IH]; intros e e' He; cbn [engine_run].
  - intros [= <-]. exact He.
  - destruct (engine_step p e ev) as [e1|] eqn:Hstep; [|discriminate].
    apply IH. eapply engine_step_inv; eauto.
Qed.

Lemma sending_is_executing (tk : jsstring * task) : is_sending tk = true -> is_executing tk = true.
Proof. unfold is_sending, is_executing. destruct (snd tk); congruence. Qed.

Lemma in_flight_bounded (p : Provider) (texts : list jsstring) (inv : invocation) :
  0 <= p_maxConcurrency p -> invocation_inv p texts inv ->
  0 <= in_flight inv <= in_flight_bound p inv.
Proof.
  intros Hmc. destruct inv as [s|s|e]; cbn [invocation_inv in_flight in_flight_bound].
  - intros Hinv.
    pose proof (count_le is_sending is_executing (t_tasks s) sending_is_executing).
    pose proof (count_nonneg is_sending (t_tasks s)).
    pose proof (inv_permits _ _ _ _ Hinv). destruct (inv_nonneg _ _ _ _ Hinv); lia.
  - intros _. destruct (c_phase s); lia.
  - intros _. lia.
Qed.

(** C4, as the provider behaves.  A semaphore is created by each call of
    [processTitanEmbeddings], with [maxConcurrency] permits, the setting
    fixed by the constructor.  Under any interleaving of any number of
    invocations on one provider, each Titan invocation has at most
    [maxConcurrency] bodies executing and so at most [maxConcurrency]
    sends in flight, and each Cohere invocation, which uses no semaphore,
    at most one; the sends in flight on the provider are bounded by the
    sum of these bounds over its invocations. *)
Theorem C4_one_semaphore_per_invocation (p : Provider) (evs : list engine_event)
    (e : list invocation) :
  0 <= p_maxConcurrency p ->
  engine_run p [] evs = Some e ->
  Forall (fun inv => 0 <= in_flight inv <= in_flight_bound p inv) e
  /\ Forall (fun inv => match inv with
                        | TitanCall s =>
                            permits (t_sem s) + count is_executing (t_tasks s)
                              = p_maxConcurrency p /\
                            count is_executing (t_tasks s) <= p_maxConcurrency p
                        | _ => True
                        end) e
  /\ engine_in_flight e <= sumZ (in_flight_bound p) e.
Proof.
  intros Hmc Hrun.
  assert (He : engine_inv p e).
  { eapply engine_run_inv; [|exact Hrun]. constructor. }
  assert (Hb : Forall (fun inv => 0 <= in_flight inv <= in_flight_bound p inv) e).
  { eapply Forall_impl; [exact He|]. intros inv [texts Hinv].
    eapply in_flight_bounded; eauto. }
  split; [exact Hb|]. split.
  - eapply Forall_impl; [exact He|]. intros [s|s|err] [texts Hinv]; [|exact I|exact I].
    cbn in Hinv. pose proof (inv_permits _ _ _ _ Hinv).
    destruct (inv_nonneg _ _ _ _ Hinv); split; lia.
  - unfold engine_in_flight. clear -Hb.
    induction Hb as [|inv e Hinv _ IH]; cbn [sumZ]; lia.
Qed.

(** ** After a failure *)

Lemma cohere_done_stuck (p : Provider) (s : cohere) (r : result EmbeddingResponse) :
  c_phase s = CohereDone r -> forall ev, cohere_step p s ev = None.
Proof.
  intros Hs ev. unfold cohere_step. rewrite Hs. destruct ev as [[|i] r'|[|i]|i]; reflexivity.
Qed.

Lemma promise_all_settled (s : titan) (latest : option (result json))
    (r : result (list json)) :
  t_all s = Some r -> promise_all s latest = Some r.
Proof. intros H. unfold promise_all. rewrite H. reflexivity. Qed.

Lemma titan_attempt_all (p : Provider) (i : nat) (a : Z) (s : titan) :
  t_all (titan_attempt p i a s) = t_all s.
Proof.
  unfold titan_attempt. destruct (t_tasks s !! i) as [[text st]|]; [|reflexivity].
  destruct (a <? p_maxRetries p); reflexivity.
Qed.

Lemma titan_step_settled (p : Provider) (s s' : titan) (ev : event) (r : result (list json)) :
  titan_step p s ev = Some s' -> t_all s = Some r -> t_all s' = Some r.
Proof.
  intros Hstep Hall. destruct ev as [i x|i|i]; cbn [titan_step] in Hstep.
  - destruct (t_tasks s !! i) as [[text [|a|a|r'|r']]|]; try discriminate.
    destruct (after_send p a x);
      [destruct (embedTitanText_result text body) as [[v tokens]|e]| |];
      injection Hstep as <-; exact Hall.
  - destruct (t_tasks s !! i) as [[text [|a|a|r'|r']]|]; try discriminate.
    injection Hstep as <-. rewrite titan_attempt_all. exact Hall.
  - destruct (t_tasks s !! i) as [[text [|a|a|r'|r']]|]; try discriminate.
    destruct (release (t_sem s)) as [sem next]. injection Hstep as <-.
    cbn [observe t_all]. apply promise_all_settled.
    destruct next; [rewrite titan_attempt_all|]; exact Hall.
Qed.

(** C9, as the provider behaves.  Cohere: once a batch's call has failed
    for good, the invocation has rejected with that error and no event can
    follow, so no send is issued for the remaining batches.  Titan: the
    promise of [Promise.all] settles once, so the first rejection is the
    one [createEmbeddings] surfaces and later events leave it unchanged;
    the callbacks still parked at the semaphore are not cancelled: the
    [finally] block of a body, failed or not, starts the first of them,
    which issues its send. *)
Theorem C9_after_the_first_failure (p : Provider) :
  (forall s ev s' e,
     cohere_step p s ev = Some s' -> cohere_outcome s' = Some (Err e) ->
     forall evs inv, run p (CohereCall s') evs = Some inv ->
       evs = [] /\ inv = CohereCall s')
  /\ (forall s ev s' r,
        titan_step p s ev = Some s' -> t_all s = Some r -> t_all s' = Some r)
  /\ (forall s i text e s',
        t_all s = None -> t_tasks s !! i = Some (text, Settled (Err e)) ->
        titan_step p s (Finally i) = Some s' ->
        titan_outcome s' = Some (Err e))
  /\ (forall s i text r j rest tj,
        0 < p_maxRetries p ->
        t_tasks s !! i = Some (text, Settled r) ->
        waiting (t_sem s) = j :: rest ->
        t_tasks s !! j = Some (tj, Parked) ->
        exists s',
          titan_step p s (Finally i) = Some s' /\
          t_tasks s' !! j = Some (tj, Sending 0) /\
          t_calls s' = t_calls s ++ [TitanRequest (t_model s) tj]).
Proof.
  split; [|split; [|split]].
  - intros s ev s' e _ Hout evs inv.
    unfold cohere_outcome in Hout. destruct (c_phase s') as [a|a|r] eqn:Hph; try discriminate.
    destruct evs as [|ev' evs]; cbn [run step].
    + intros [= <-]. auto.
    + rewrite (cohere_done_stuck p s' r Hph ev'). discriminate.
  - intros s ev s' r. apply titan_step_settled.
  - intros s i text e s' Hall Hi. cbn [titan_step]. rewrite Hi.
    destruct (release (t_sem s)) as [sem next]. intros [= <-].
    unfold titan_outcome. cbn [observe t_all]. unfold promise_all.
    destruct next; [rewrite titan_attempt_all|]; cbn [t_all]; rewrite Hall; reflexivity.
  - intros s i text r j rest tj Hr Hi Hw Hj.
    assert (Hij : i <> j) by (intros ->; rewrite Hi in Hj; discriminate).
    assert (Hlen : (j < length (t_tasks s))%nat) by (eapply lookup_lt_Some; eauto).
    cbn [titan_step]. rewrite Hi. unfold release. rewrite Hw. eexists. split; [reflexivity|].
    cbn [observe t_tasks t_calls]. unfold titan_attempt. cbn [t_tasks].
    rewrite list_lookup_insert_ne by exact Hij. rewrite Hj.
    destruct (Z.ltb_spec 0 (p_maxRetries p)); [|lia]. cbn [t_tasks t_calls t_model].
    split; [|reflexivity].
    apply list_lookup_insert_eq. rewrite length_insert. exact Hlen.
Qed.

(** ** Titan invocations under a transport that answers well *)

Lemma answer_for_app (i : nat) (evs more : list event) :
  answer_for i (evs ++ more) =
    match answer_for i evs with
    | Some r => Some r
    | None => answer_for i more
    end.
Proof.
  induction evs as [|[j r|j|j] evs IH]; cbn; auto.
  destruct (Nat.eqb j i); auto.
Qed.

Lemma task_ok_other (evs : list event) (ev : event) (i : nat) (tk : jsstring * task) :
  answer_for i [ev] = None -> task_ok evs i tk -> task_ok (evs ++ [ev]) i tk.
Proof.
  intros Hev. unfold task_ok. rewrite answer_for_app, Hev.
  destruct (snd tk); auto.
  - intros ->. reflexivity.
  - intros ->. reflexivity.
  - intros (response & v & -> & H). eauto.
  - intros (response & v & -> & H). eauto.
Qed.

Lemma count_pos_exists {A} (f : A -> bool) (l : list A) :
  0 < count f l -> exists i x, l !! i = Some x /\ f x = true.
Proof.
  unfold count. induction l as [|x l IH]; cbn [sumZ]; [lia|].
  destruct (f x) eqn:Hf.
  - intros _. exists 0%nat, x. auto.
  - intros H. destruct IH as (i & y & Hi & Hy); [lia|]. exists (S i), y. auto.
Qed.

Lemma sumZ_bound {A} (g : A -> Z) (l : list A) (c : Z) :
  (forall x, g x <= c) -> sumZ g l <= c * Z.of_nat (length l).
Proof.
  intros H. induction l as [|x l IH]; cbn [sumZ length]; [lia|].
  specialize (H x). lia.
Qed.

(** One well-formed event keeps the picture: no task failed or sleeps,
    and each answered task holds the vector of its answer. *)
Lemma titan_step_ok (p : Provider) (texts : list jsstring) (evs : list event)
    (s s' : titan) (ev : event) :
  0 < p_maxRetries p ->
  titan_inv p texts (length texts) s ->
  titan_ok evs s ->
  well_formed_answer p (TitanCall s) ev ->
  titan_step p s ev = Some s' ->
  titan_ok (evs ++ [ev]) s'.
Proof.
  intros Hr Hinv [Ht Hs Hp He] Hwf. destruct ev as [i r|i|i]; cbn [titan_step].
  - destruct (t_tasks s !! i) as [[text [|a|a|r'|r']]|] eqn:Hi; try discriminate.
    destruct r as [[response|]|e]; cbn in Hwf; try contradiction.
    destruct Hwf as [xs Hxs]. cbn [after_send]. unfold embedTitanText_result. rewrite Hxs.
    intros [= <-].
    assert (Hlen : (i < length (t_tasks s))%nat) by (eapply lookup_lt_Some; eauto).
    split; cbn [titan_set t_tasks t_all].
    + intros j tk Hj. destruct (decide (i = j)) as [->|Hne].
      * rewrite list_lookup_insert_eq in Hj by exact Hlen. injection Hj as <-.
        pose proof (Ht j _ Hi) as Hold. unfold task_ok in *. cbn [snd] in *.
        rewrite answer_for_app, Hold. cbn. rewrite Nat.eqb_refl. eauto.
      * rewrite list_lookup_insert_ne in Hj by exact Hne.
        apply task_ok_other; [|eauto]. cbn.
        destruct (Nat.eqb_spec i j); [contradiction|reflexivity].
    + rewrite length_app, (sumZ_insert task_steps _ i _ _ Hi). cbn. lia.
    + intros Hall. apply mapM_fulfilled_insert_None; [exact Hlen|reflexivity].
    + exact He.
  - destruct (t_tasks s !! i) as [[text [|a|a|r'|r']]|] eqn:Hi; try discriminate.
    destruct (Ht i _ Hi).
  - destruct (t_tasks s !! i) as [[text [|a|a|r|r]]|] eqn:Hi; try discriminate.
    assert (Hlen : (i < length (t_tasks s))%nat) by (eapply lookup_lt_Some; eauto).
    pose proof (Ht i _ Hi) as (response & v & Hans & Hv & ->).
    unfold release. destruct (waiting (t_sem s)) as [|j rest] eqn:Hw; intros [= <-].
    + split; cbn [observe t_tasks t_all].
      * intros j tk Hj. destruct (decide (i = j)) as [->|Hne].
        { rewrite list_lookup_insert_eq in Hj by exact Hlen. injection Hj as <-.
          unfold task_ok. cbn [snd]. rewrite answer_for_app, Hans. eauto. }
        rewrite list_lookup_insert_ne in Hj by exact Hne.
        apply task_ok_other; [reflexivity|eauto].
      * rewrite length_app, (sumZ_insert task_steps _ i _ _ Hi). cbn. lia.
      * unfold promise_all. cbn [t_all t_tasks]. destruct (t_all s); [discriminate|].
        unfold fmap, option_fmap, option_map.
        match goal with |- context [mapM fulfilled ?l] => destruct (mapM fulfilled l) end;
          [discriminate|reflexivity].
      * unfold promise_all. cbn [t_all t_tasks]. destruct (t_all s) as [[vs|e]|] eqn:Hall.
        { intros e Hx; discriminate Hx. } { destruct (He e eq_refl). }
        intros e. unfold fmap, option_fmap, option_map.
        match goal with |- context [mapM fulfilled ?l] => destruct (mapM fulfilled l) end;
          discriminate.
    + assert (Hj : exists tj, t_tasks s !! j = Some (tj, Parked)).
      { apply (inv_waiting _ _ _ _ Hinv j). rewrite Hw. apply elem_of_cons. auto. }
      destruct Hj as [tj Hj].
      assert (Hij : i <> j) by (intros ->; rewrite Hi in Hj; discriminate).
      assert (Hlenj : (j < length (<[i := (text, Released (Ok v))]> (t_tasks s)))%nat).
      { rewrite length_insert. eapply lookup_lt_Some; eauto. }
      assert (Hj1 : <[i := (text, Released (Ok v))]> (t_tasks s) !! j = Some (tj, Parked)).
      { rewrite list_lookup_insert_ne by exact Hij. exact Hj. }
      unfold titan_attempt. cbn [t_tasks]. rewrite Hj1.
      destruct (Z.ltb_spec 0 (p_maxRetries p)); [|lia].
      split; cbn [observe t_tasks t_all].
      * intros k tk Hk. destruct (decide (j = k)) as [->|Hne].
        { rewrite list_lookup_insert_eq in Hk by exact Hlenj. injection Hk as <-.
          pose proof (Ht k _ Hj) as Hold. unfold task_ok in *. cbn [snd] in *.
          rewrite answer_for_app, Hold. reflexivity. }
        rewrite list_lookup_insert_ne in Hk by exact Hne.
        destruct (decide (i = k)) as [->|Hne'].
        { rewrite list_lookup_insert_eq in Hk by exact Hlen. injection Hk as <-.
          unfold task_ok. cbn [snd]. rewrite answer_for_app, Hans. eauto. }
        rewrite list_lookup_insert_ne in Hk by exact Hne'.
        apply task_ok_other; [reflexivity|eauto].
      * rewrite length_app, (sumZ_insert task_steps _ j _ _ Hj1),
          (sumZ_insert task_steps _ i _ _ Hi). cbn. lia.
      * intros _. apply mapM_fulfilled_insert_None; [exact Hlenj|reflexivity].
      * unfold promise_all. cbn [t_all t_tasks]. destruct (t_all s) as [[vs|e]|] eqn:Hall.
        { intros e Hx; discriminate Hx. } { destruct (He e eq_refl). }
        intros e. unfold fmap, option_fmap, option_map.
        match goal with |- context [mapM fulfilled ?l] => destruct (mapM fulfilled l) end;
          discriminate.
Qed.

Lemma titan_attempt_fresh (p : Provider) (s : titan) (k : nat) :
  0 < p_maxRetries p ->
  (forall i tk, t_tasks s !! i = Some tk -> task_ok [] i tk) ->
  forall i tk, t_tasks (titan_attempt p k 0 s) !! i = Some tk -> task_ok [] i tk.
Proof.
  intros Hr Hs i tk. unfold titan_attempt.
  destruct (t_tasks s !! k) as [[text st]|] eqn:Hk; [|apply Hs].
  destruct (Z.ltb_spec 0 (p_maxRetries p)); [|lia]. cbn [t_tasks].
  destruct (decide (k = i)) as [->|Hne].
  - rewrite list_lookup_insert_eq by (eapply lookup_lt_Some; eauto).
    intros [= <-]. reflexivity.
  - rewrite list_lookup_insert_ne by exact Hne. apply Hs.
Qed.

Lemma spawn_fresh (p : Provider) (s : titan) (k : nat) :
  0 < p_maxRetries p ->
  (forall i tk, t_tasks s !! i = Some tk -> task_ok [] i tk) ->
  (forall i tk, t_tasks (spawn p s k) !! i = Some tk -> task_ok [] i tk) /\
  t_all (spawn p s k) = t_all s.
Proof.
  intros Hr Hs. unfold spawn. destruct (acquire (t_sem s) k) as [sem [|]].
  - split; [apply titan_attempt_fresh; auto|]. rewrite titan_attempt_all. reflexivity.
  - split; [exact Hs|reflexivity].
Qed.

Lemma fold_spawn_fresh (p : Provider) (ks : list nat) :
  0 < p_maxRetries p ->
  forall s,
  (forall i tk, t_tasks s !! i = Some tk -> task_ok [] i tk) ->
  (forall i tk, t_tasks (fold_left (spawn p) ks s) !! i = Some tk -> task_ok [] i tk) /\
  t_all (fold_left (spawn p) ks s) = t_all s.
Proof.
  intros Hr. induction ks as [|k ks IH]; intros s Hs; cbn [fold_left]; [auto|].
  destruct (spawn_fresh p s k Hr Hs) as [Hs' Hall].
  destruct (IH _ Hs') as [H1 H2]. split; [exact H1|congruence].
Qed.

Lemma fresh_steps (tasks : list (jsstring * task)) :
  (forall i tk, tasks !! i = Some tk -> task_ok [] i tk) -> sumZ task_steps tasks = 0.
Proof.
  induction tasks as [|tk tasks IH]; intros H; cbn [sumZ]; [reflexivity|].
  rewrite IH by (intros i tk' Hi; apply (H (S i)) in Hi; exact Hi).
  specialize (H 0%nat tk eq_refl). unfold task_ok, task_steps in *.
  destruct (snd tk) as [| | |r|r]; try lia; destruct H as (? & ? & Hx & _); discriminate.
Qed.

Lemma processTitanEmbeddings_ok (p : Provider) (texts : list jsstring) (model : jsstring) :
  0 < p_maxRetries p ->
  titan_ok [] (processTitanEmbeddings p texts model).
Proof.
  intros Hr. unfold processTitanEmbeddings.
  match goal with |- titan_ok _ (observe (fold_left _ _ ?s0) _) =>
    destruct (fold_spawn_fresh p (seq 0 (length texts)) Hr s0) as [Hfresh Hall]
  end.
  { intros i tk. cbn [t_tasks]. change (map ?f ?l) with (f <$> l).
    rewrite list_lookup_fmap. destruct (texts !! i); cbn; [|discriminate].
    intros [= <-]. reflexivity. }
  cbn [t_all] in Hall.
  split; cbn [observe t_tasks t_all].
  - exact Hfresh.
  - rewrite fresh_steps by exact Hfresh. reflexivity.
  - unfold promise_all. rewrite Hall. unfold fmap, option_fmap, option_map.
    match goal with |- context [mapM fulfilled ?l] => destruct (mapM fulfilled l) end;
      [discriminate|reflexivity].
  - intros e. unfold promise_all. rewrite Hall. unfold fmap, option_fmap, option_map.
    match goal with |- context [mapM fulfilled ?l] => destruct (mapM fulfilled l) end;
      discriminate.
Qed.

(** A whole run of well-formed events. *)
Lemma titan_run_ok (p : Provider) (texts : list jsstring) (evs : list event) :
  0 < p_maxRetries p ->
  forall (hist : list event) (s : titan) (inv : invocation),
  titan_inv p texts (length texts) s ->
  titan_ok hist s ->
  well_formed_run p (TitanCall s) evs ->
  run p (TitanCall s) evs = Some inv ->
  exists s', inv = TitanCall s' /\ titan_inv p texts (length texts) s' /\
             titan_ok (hist ++ evs) s'.
Proof.
  intros Hr. induction evs as [|ev evs IH]; intros hist s inv Hinv Hok Hwf; cbn [run].
  - intros [= <-]. exists s. rewrite app_nil_r. auto.
  - cbn [well_formed_run] in Hwf. destruct Hwf as [Hev Hwf]. cbn [step] in *.
    destruct (titan_step p s ev) as [s1|] eqn:Hstep; [|discriminate].
    cbn [fmap option_fmap option_map] in *. intros Hrun.
    destruct (IH (hist ++ [ev]) s1 inv) as (s' & -> & Hinv' & Hok'); auto.
    + eapply titan_step_inv; eauto.
    + eapply titan_step_ok; eauto.
    + exists s'. rewrite <- app_assoc in Hok'. auto.
Qed.

(** While the promise of [Promise.all] is pending, some event can occur. *)
Lemma titan_progress (p : Provider) (texts : list jsstring) (evs : list event) (s : titan) :
  0 < p_maxConcurrency p ->
  titan_inv p texts (length texts) s ->
  titan_ok evs s ->
  t_all s = None ->
  exists ev, well_formed_answer p (TitanCall s) ev /\ is_Some (titan_step p s ev).
Proof.
  intros Hmc Hinv Hok Hall.
  destruct (Z.lt_ge_cases 0 (count is_executing (t_tasks s))) as [Hpos|Hzero].
  - destruct (count_pos_exists _ _ Hpos) as (i & [text st] & Hi & Hex).
    pose proof (ok_tasks _ _ Hok i _ Hi) as Htk. unfold task_ok in Htk. cbn [snd] in Htk.
    destruct st as [|a|a|r|r]; try discriminate; try contradiction.
    + exists (Response i (SendOk (titan_body []))). split; [cbn; eauto|].
      cbn [titan_step]. rewrite Hi. cbn. eauto.
    + exists (Finally i). split; [exact I|].
      cbn [titan_step]. rewrite Hi. destruct (release (t_sem s)). eauto.
  - pose proof (count_nonneg is_executing (t_tasks s)) as Hnn.
    pose proof (inv_permits _ _ _ _ Hinv) as Hperm.
    assert (Hw : waiting (t_sem s) = []).
    { destruct (waiting (t_sem s)) as [|j rest] eqn:Hw; [reflexivity|].
      assert (permits (t_sem s) <= 0) by (apply (inv_full _ _ _ _ Hinv); rewrite Hw; discriminate).
      lia. }
    pose proof (ok_pending _ _ Hok Hall) as Hm. apply mapM_None in Hm.
    apply Exists_exists in Hm as ([text st] & Hin & Hf).
    apply list_elem_of_lookup in Hin as [i Hi].
    pose proof (ok_tasks _ _ Hok i _ Hi) as Htk. unfold task_ok in Htk. cbn [snd] in Htk.
    pose proof (count_insert is_executing _ i _ (text, Parked) Hi) as Hc.
    pose proof (count_nonneg is_executing (<[i := (text, Parked)]> (t_tasks s))) as Hnn'.
    destruct st as [|a|a|r|r]; cbn in Hc; try lia; try contradiction.
    + assert (Hin : i ∈ waiting (t_sem s)).
      { apply (inv_waiting _ _ _ _ Hinv). split; [|eauto].
        rewrite <- (inv_texts _ _ _ _ Hinv), length_map. eapply lookup_lt_Some; eauto. }
      rewrite Hw in Hin. apply elem_of_nil in Hin. destruct Hin.
    + destruct Htk as (response & v & _ & _ & ->). discriminate.
Qed.

Lemma titan_result (p : Provider) (texts : list jsstring) (evs : list event) (s : titan)
    (r : result EmbeddingResponse) :
  titan_inv p texts (length texts) s ->
  titan_ok evs s ->
  titan_outcome s = Some r ->
  exists resp,
    r = Ok resp /\ length (embeddings resp) = length texts /\
    forall i text, texts !! i = Some text ->
      exists v, embeddings resp !! i = Some v /\ returned_vector p (TitanCall s) evs i v.
Proof.
  intros Hinv Hok. unfold titan_outcome.
  destruct (t_all s) as [[vs|e]|] eqn:Hall; [|destruct (ok_no_error _ _ Hok e Hall)|discriminate].
  intros [= <-]. eexists. split; [reflexivity|]. cbn [embeddings].
  pose proof (inv_all_ok _ _ _ _ Hinv vs Hall) as Hm. apply mapM_Some in Hm.
  pose proof (Forall2_length _ _ _ Hm) as Hlen.
  assert (Htl : length (t_tasks s) = length texts).
  { rewrite <- (inv_texts _ _ _ _ Hinv), length_map. reflexivity. }
  split; [lia|]. intros i text Hi.
  assert (Hlt : (i < length (t_tasks s))%nat) by (rewrite Htl; eapply lookup_lt_Some; eauto).
  destruct (lookup_lt_is_Some_2 _ _ Hlt) as [[t st] Htk].
  destruct (Forall2_lookup_l _ _ _ _ _ Hm Htk) as (v & Hv & Hf).
  exists v. split; [exact Hv|]. cbn [returned_vector].
  pose proof (ok_tasks _ _ Hok i _ Htk) as Hans. unfold task_ok, fulfilled in *. cbn [snd] in *.
  destruct st as [| | | |[w|]]; try discriminate. injection Hf as ->.
  destruct Hans as (response & v' & Ha & Hp & [= ->]). eauto.
Qed.

Lemma titan_steps_bound (p : Provider) (texts : list jsstring) (evs : list event) (s : titan) :
  titan_inv p texts (length texts) s -> titan_ok evs s ->
  (length evs <= 2 * length texts)%nat.
Proof.
  intros Hinv Hok. pose proof (ok_steps _ _ Hok) as Hs.
  assert (Hb : sumZ task_steps (t_tasks s) <= 2 * Z.of_nat (length (t_tasks s))).
  { apply sumZ_bound. intros [t st]. unfold task_steps. cbn. destruct st; lia. }
  rewrite <- (inv_texts _ _ _ _ Hinv), length_map. lia.
Qed.

(** ** Cohere invocations under a transport that answers well *)

Lemma batch_length (p : Provider) (s : cohere) :
  0 < p_batchSize p -> 0 <= c_i s ->
  length (cohere_batch p s) =
    (Z.to_nat (p_batchSize p) `min` (length (c_texts s) - Z.to_nat (c_i s)))%nat.
Proof.
  intros Hb Hi. unfold cohere_batch. rewrite slice_batch by lia.
  rewrite length_take, length_drop. reflexivity.
Qed.

Lemma cohere_step_ok (p : Provider) (texts : list jsstring) (evs : list event)
    (s s' : cohere) (ev : event) :
  0 < p_batchSize p -> 0 < p_maxRetries p ->
  cohere_ok p texts evs s ->
  well_formed_answer p (CohereCall s) ev ->
  cohere_step p s ev = Some s' ->
  cohere_ok p texts (evs ++ [ev]) s'.
Proof.
  intros Hb Hr [H1 H2 H3 H4 H5 H6] Hwf. unfold cohere_step.
  destruct (Z.ltb_spec (c_i s) (array_length texts)) as [Hlt|Hge];
    rewrite H6; [|destruct ev as [[|i] r|[|i]|i]; discriminate].
  destruct ev as [[|i] r|[|i]|i]; try discriminate.
  destruct r as [[response|]|e]; cbn in Hwf; try contradiction.
  destruct Hwf as (xs & Hxs & Hlen). cbn [after_send].
  unfold embedCohereBatch_result. rewrite Hxs. intros [= <-].
  assert (Hi0 : 0 <= c_i s) by (rewrite H2; lia).
  rewrite batch_length in Hlen by assumption. rewrite H1 in Hlen.
  unfold array_length in *.
  set (tok := fold_left _ _ _).
  unfold cohere_loop. cbn [c_i c_texts]. rewrite H1.
  assert (Hco : forall s1, c_texts s1 = texts -> c_i s1 = c_i s + p_batchSize p ->
             c_allEmbeddings s1 = c_allEmbeddings s ++ xs ->
             c_phase s1 = (if c_i s + p_batchSize p <? array_length texts
                           then CohereSending 0
                           else CohereDone (Ok {| embeddings := c_allEmbeddings s1;
                                  usage := {| promptTokens := c_totalTokens s1;
                                              totalTokens := c_totalTokens s1 |} |})) ->
             cohere_ok p texts (evs ++ [Response 0 (SendOk (Some response))]) s1).
  { intros s1 E1 E2 E3 E4. split.
    - exact E1.
    - rewrite E2, H2, length_app. cbn [length]. lia.
    - rewrite E2. unfold array_length. lia.
    - rewrite E3, E2, length_app, H4. lia.
    - intros i v. rewrite E3. intros Hiv. apply lookup_app_Some in Hiv as [Hiv|[Hge Hiv]].
      + destruct (H5 i v Hiv) as (resp & ys & Hev & Hp & Hy).
        exists resp, ys. split; [|auto]. apply lookup_app_l_Some. exact Hev.
      + exists response, xs. split; [|split; [exact Hxs|]].
        * assert (Hq : (i / Z.to_nat (p_batchSize p))%nat = length evs).
          { symmetry. apply (Nat.div_unique _ _ _ (i - length (c_allEmbeddings s))).
            - apply lookup_lt_Some in Hiv. lia.
            - rewrite H4. nia. }
          rewrite Hq, lookup_app_r by lia. rewrite Nat.sub_diag. reflexivity.
        * assert (Hm : (i mod Z.to_nat (p_batchSize p))%nat = (i - length (c_allEmbeddings s))%nat).
          { symmetry. apply (Nat.mod_unique _ _ (length evs)).
            - apply lookup_lt_Some in Hiv. lia.
            - rewrite H4. nia. }
          rewrite Hm. exact Hiv.
    - rewrite E2. exact E4. }
  destruct (Z.ltb_spec (c_i s + p_batchSize p) (array_length texts)) as [Hlt'|Hge'].
  - unfold cohere_attempt. destruct (Z.ltb_spec 0 (p_maxRetries p)); [|lia].
    apply Hco; reflexivity.
  - apply Hco; reflexivity.
Qed.

Lemma processCohereEmbeddings_ok (p : Provider) (texts : list jsstring) (model : jsstring) :
  0 < p_batchSize p -> 0 < p_maxRetries p ->
  cohere_ok p texts [] (processCohereEmbeddings p texts model).
Proof.
  intros Hb Hr. unfold processCohereEmbeddings, cohere_loop. cbn [c_i c_texts].
  destruct (Z.ltb_spec 0 (array_length texts)) as [Hlt|Hge].
  - unfold cohere_attempt. destruct (Z.ltb_spec 0 (p_maxRetries p)); [|lia].
    split; cbn; try reflexivity; try lia.
    + intros i v Hi. rewrite lookup_nil in Hi. discriminate.
    + destruct (Z.ltb_spec 0 (array_length texts)); [reflexivity|lia].
  - split; cbn; try reflexivity; try lia.
    + unfold array_length. lia.
    + intros i v Hi. rewrite lookup_nil in Hi. discriminate.
    + destruct (Z.ltb_spec 0 (array_length texts)); [lia|reflexivity].
Qed.

Lemma cohere_run_ok (p : Provider) (texts : list jsstring) (evs : list event) :
  0 < p_batchSize p -> 0 < p_maxRetries p ->
  forall (hist : list event) (s : cohere) (inv : invocation),
  cohere_ok p texts hist s ->
  well_formed_run p (CohereCall s) evs ->
  run p (CohereCall s) evs = Some inv ->
  exists s', inv = CohereCall s' /\ cohere_ok p texts (hist ++ evs) s'.
Proof.
  intros Hb Hr. induction evs as [|ev evs IH]; intros hist s inv Hok Hwf; cbn [run].
  - intros [= <-]. exists s. rewrite app_nil_r. auto.
  - cbn [well_formed_run] in Hwf. destruct Hwf as [Hev Hwf]. cbn [step] in *.
    destruct (cohere_step p s ev) as [s1|] eqn:Hstep; [|discriminate].
    cbn [fmap option_fmap option_map] in *. intros Hrun.
    destruct (IH (hist ++ [ev]) s1 inv) as (s' & -> & Hok'); auto.
    + eapply cohere_step_ok; eauto.
    + exists s'. rewrite <- app_assoc in Hok'. auto.
Qed.

Lemma cohere_progress (p : Provider) (texts : list jsstring) (evs : list event) (s : cohere) :
  cohere_ok p texts evs s ->
  cohere_outcome s = None ->
  exists ev, well_formed_answer p (CohereCall s) ev /\ is_Some (cohere_step p s ev).
Proof.
  intros Hok. unfold cohere_outcome. pose proof (co_phase _ _ _ _ Hok) as Hph.
  destruct (c_i s <? array_length texts); rewrite Hph; [intros _|discriminate].
  exists (Response 0 (SendOk (cohere_body (replicate (length (cohere_batch p s)) JNull)))).
  split.
  - cbn. eexists. split; [reflexivity|]. apply length_replicate.
  - unfold cohere_step. rewrite Hph. cbn. eauto.
Qed.

Lemma cohere_result (p : Provider) (texts : list jsstring) (evs : list event) (s : cohere)
    (r : result EmbeddingResponse) :
  0 < p_batchSize p ->
  cohere_ok p texts evs s ->
  cohere_outcome s = Some r ->
  exists resp,
    r = Ok resp /\ length (embeddings resp) = length texts /\
    forall i text, texts !! i = Some text ->
      exists v, embeddings resp !! i = Some v /\ returned_vector p (CohereCall s) evs i v.
Proof.
  intros Hb Hok. unfold cohere_outcome. pose proof (co_phase _ _ _ _ Hok) as Hph.
  destruct (Z.ltb_spec (c_i s) (array_length texts)) as [Hlt|Hge];
    rewrite Hph; [discriminate|]. intros [= <-].
  eexists. split; [reflexivity|]. cbn [embeddings].
  pose proof (co_length _ _ _ _ Hok) as Hlen. unfold array_length in Hge.
  split; [lia|]. intros i text Hi.
  assert (Hlt : (i < length (c_allEmbeddings s))%nat).
  { apply lookup_lt_Some in Hi. lia. }
  destruct (lookup_lt_is_Some_2 _ _ Hlt) as [v Hv].
  exists v. split; [exact Hv|]. cbn [returned_vector].
  exact (co_vectors _ _ _ _ Hok i v Hv).
Qed.

Lemma cohere_steps_bound (p : Provider) (texts : list jsstring) (evs : list event) (s : cohere) :
  0 < p_batchSize p -> cohere_ok p texts evs s -> (length evs <= 2 * length texts)%nat.
Proof.
  intros Hb Hok. pose proof (co_i _ _ _ _ Hok) as Hi. pose proof (co_last _ _ _ _ Hok) as Hl.
  unfold array_length in Hl. nia.
Qed.

(** ** The requests behind the answers *)

Lemma titan_attempt_sent (p : Provider) (i : nat) (a : Z) (s : titan) :
  titan_sent s -> titan_sent (titan_attempt p i a s).
Proof.
  intros Hs. unfold titan_attempt.
  destruct (t_tasks s !! i) as [[text st]|] eqn:Hi; [|exact Hs].
  assert (Hlen : (i < length (t_tasks s))%nat) by (eapply lookup_lt_Some; eauto).
  destruct (a <? p_maxRetries p); intros j tj stj; cbn [t_tasks t_calls t_model];
    (destruct (decide (i = j)) as [->|Hne];
     [rewrite list_lookup_insert_eq by exact Hlen|rewrite list_lookup_insert_ne by exact Hne]).
  - intros [= <- <-] _. apply elem_of_app. right. apply list_elem_of_singleton. reflexivity.
  - intros Hj Hst. apply elem_of_app. left. eapply Hs; eauto.
  - intros [= <- <-] [].
  - intros Hj Hst. eapply Hs; eauto.
Qed.

Lemma titan_set_sent (s : titan) (i : nat) (text : jsstring) (st st' : task)
    (tokens : Z) (delays : list Z) :
  titan_sent s -> t_tasks s !! i = Some (text, st) -> has_sent st ->
  titan_sent (titan_set s i text st' tokens delays).
Proof.
  intros Hs Hi Hst j tj stj. cbn [titan_set t_tasks t_calls t_model].
  destruct (decide (i = j)) as [->|Hne].
  - rewrite list_lookup_insert_eq by (eapply lookup_lt_Some; eauto).
    intros [= <- <-] _. eapply Hs; eauto.
  - rewrite list_lookup_insert_ne by exact Hne. apply Hs.
Qed.

Lemma titan_step_sent (p : Provider) (s s' : titan) (ev : event) :
  titan_sent s -> titan_step p s ev = Some s' -> titan_sent s'.
Proof.
  intros Hs. destruct ev as [i r|i|i]; cbn [titan_step].
  - destruct (t_tasks s !! i) as [[text [|a|a|r'|r']]|] eqn:Hi; try discriminate.
    destruct (after_send p a r);
      [destruct (embedTitanText_result text body) as [[v tokens]|e]| |];
      intros [= <-]; eapply titan_set_sent; eauto; exact I.
  - destruct (t_tasks s !! i) as [[text [|a|a|r'|r']]|] eqn:Hi; try discriminate.
    intros [= <-]. apply titan_attempt_sent. exact Hs.
  - destruct (t_tasks s !! i) as [[text [|a|a|r|r]]|] eqn:Hi; try discriminate.
    destruct (release (t_sem s)) as [sem next]. intros [= <-].
    assert (H1 : titan_sent
              {| t_model := t_model s; t_sem := sem;
                 t_tasks := <[i := (text, Released r)]> (t_tasks s);
                 t_totalTokens := t_totalTokens s; t_calls := t_calls s;
                 t_delays := t_delays s; t_all := t_all s |}).
    { intros j tj stj. cbn [t_tasks t_calls t_model].
      destruct (decide (i = j)) as [->|Hne].
      - rewrite list_lookup_insert_eq by (eapply lookup_lt_Some; eauto).
        intros [= <- <-] Hst. apply (Hs j text (Settled r) Hi).
        destruct r; [exact I|destruct Hst].
      - rewrite list_lookup_insert_ne by exact Hne. apply Hs. }
    destruct next as [j|]; [apply (titan_attempt_sent p j 0) in H1|]; exact H1.
Qed.

Lemma fold_spawn_sent (p : Provider) (ks : list nat) :
  forall s, titan_sent s -> titan_sent (fold_left (spawn p) ks s).
Proof.
  induction ks as [|k ks IH]; intros s Hs; cbn [fold_left]; [exact Hs|].
  apply IH. unfold spawn. destruct (acquire (t_sem s) k) as [sem [|]].
  - apply titan_attempt_sent. exact Hs.
  - exact Hs.
Qed.

Lemma processTitanEmbeddings_sent (p : Provider) (texts : list jsstring) (model : jsstring) :
  titan_sent (processTitanEmbeddings p texts model).
Proof.
  unfold processTitanEmbeddings.
  match goal with |- titan_sent (observe ?s _) => change (titan_sent s) end.
  apply fold_spawn_sent. intros i text st. cbn [t_tasks]. change (map ?f ?l) with (f <$> l).
  rewrite list_lookup_fmap. destruct (texts !! i); cbn; [|discriminate].
  intros [= <- <-] [].
Qed.

Lemma slice_lookup {A} (l : list A) (c b : Z) (j : nat) :
  0 <= c -> 0 < b -> (j < Z.to_nat b)%nat ->
  slice l c (c + b) !! j = l !! (Z.to_nat c + j)%nat.
Proof.
  intros Hc Hb Hj. rewrite slice_batch by lia.
  rewrite lookup_take_lt by lia. apply lookup_drop.
Qed.

Lemma cohere_start_sent (p : Provider) (s : cohere) (k : nat) (a : Z) :
  0 < p_batchSize p ->
  c_i s = p_batchSize p * Z.of_nat k ->
  (forall i text, c_texts s !! i = Some text -> Z.of_nat i < c_i s ->
     exists batch,
       CohereRequest (c_model s) batch (input_type p) ∈ c_calls s /\
       batch !! (i mod Z.to_nat (p_batchSize p))%nat = Some text) ->
  cohere_sent p (cohere_attempt p a s).
Proof.
  intros Hb Hk Hold. unfold cohere_attempt.
  destruct (a <? p_maxRetries p); unfold cohere_sent;
    cbn [cohere_with c_i c_texts c_phase c_calls c_model].
  - split; [eauto|]. intros i text Hi Hlt.
    destruct (Z.lt_ge_cases (Z.of_nat i) (c_i s)) as [Hlow|Hhigh].
    + destruct (Hold i text Hi Hlow) as (batch & Hin & Hb'). exists batch.
      split; [apply elem_of_app; left; exact Hin|exact Hb'].
    + exists (cohere_batch p s). split.
      * apply elem_of_app. right. apply list_elem_of_singleton. reflexivity.
      * assert (Hm : (i mod Z.to_nat (p_batchSize p))%nat = (i - Z.to_nat (c_i s))%nat).
        { symmetry. apply (Nat.mod_unique _ _ k); [lia|nia]. }
        rewrite Hm. unfold cohere_batch. rewrite slice_lookup by lia.
        rewrite <- Hi. f_equal. lia.
  - split; [eauto|]. intros i text Hi Hlt. rewrite app_nil_r. apply Hold; [exact Hi|lia].
Qed.

Lemma cohere_step_sent (p : Provider) (s s' : cohere) (ev : event) :
  0 < p_batchSize p ->
  cohere_sent p s -> cohere_step p s ev = Some s' -> cohere_sent p s'.
Proof.
  intros Hb [[k Hk] Hs]. unfold cohere_step.
  destruct ev as [[|i] r|[|i]|i]; destruct (c_phase s) as [a|a|r0] eqn:Hph; try discriminate.
  - destruct (after_send p a r) as [body|d|e].
    + destruct (embedCohereBatch_result (cohere_batch p s) body) as [[xs tokens]|e];
        intros [= <-].
      * unfold cohere_loop. cbn [c_i c_texts].
        destruct (c_i s + p_batchSize p <? array_length (c_texts s)).
        { apply (cohere_start_sent p _ (S k) 0 Hb); cbn [c_i c_texts c_calls c_model]; [lia|].
          intros i text Hi Hlt. apply Hs; [exact Hi|lia]. }
        unfold cohere_sent. cbn [cohere_with c_i c_texts c_phase c_calls c_model].
        split; [exists (S k); lia|]. intros i text Hi Hlt. rewrite app_nil_r.
        apply Hs; [exact Hi|lia].
      * unfold cohere_sent. cbn [cohere_with c_i c_texts c_phase c_calls c_model].
        split; [eauto|]. intros i text Hi Hlt. rewrite app_nil_r. apply Hs; [exact Hi|lia].
    + intros [= <-]. unfold cohere_sent. cbn [cohere_with c_i c_texts c_phase c_calls c_model].
      split; [eauto|]. intros i text Hi Hlt. rewrite app_nil_r. apply Hs; [exact Hi|lia].
    + intros [= <-]. unfold cohere_sent. cbn [cohere_with c_i c_texts c_phase c_calls c_model].
      split; [eauto|]. intros i text Hi Hlt. rewrite app_nil_r. apply Hs; [exact Hi|lia].
  - intros [= <-].
    destruct (Z.ltb_spec (a + 1) (p_maxRetries p)) as [Hlt|Hge].
    + unfold cohere_attempt. destruct (Z.ltb_spec (a + 1) (p_maxRetries p)); [|lia].
      unfold cohere_sent. cbn [cohere_with c_i c_texts c_phase c_calls c_model].
      split; [eauto|]. intros i text Hi Hlt'.
      destruct (Hs i text Hi) as (batch & Hin & Hb'); [lia|]. exists batch.
      split; [apply elem_of_app; left; exact Hin|exact Hb'].
    + unfold cohere_attempt. destruct (Z.ltb_spec (a + 1) (p_maxRetries p)); [lia|].
      unfold cohere_sent. cbn [cohere_with c_i c_texts c_phase c_calls c_model].
      split; [eauto|]. intros i text Hi Hlt'. rewrite app_nil_r. apply Hs; [exact Hi|lia].
Qed.

Lemma processCohereEmbeddings_sent (p : Provider) (texts : list jsstring) (model : jsstring) :
  0 < p_batchSize p -> cohere_sent p (processCohereEmbeddings p texts model).
Proof.
  intros Hb. unfold processCohereEmbeddings, cohere_loop. cbn [c_i c_texts].
  destruct (0 <? array_length texts).
  - apply (cohere_start_sent p _ 0 0 Hb); cbn [c_i c_texts]; [lia|]. intros i text _ Hlt. lia.
  - unfold cohere_sent. cbn [cohere_with c_i c_texts c_phase]. split; [exists 0%nat; lia|].
    intros i text _ Hlt. lia.
Qed.

Lemma run_sent (p : Provider) (evs : list event) :
  0 < p_batchSize p ->
  forall inv inv', invocation_sent p inv -> run p inv evs = Some inv' -> invocation_sent p inv'.
Proof.
  intros Hb. induction evs as [|ev evs IH]; intros inv inv' Hinv; cbn [run].
  - intros [= <-]. exact Hinv.
  - destruct (step p inv ev) as [inv1|] eqn:Hstep; [|discriminate].
    apply IH. destruct inv as [s|s|e]; cbn [step] in Hstep; [| |discriminate].
    + destruct (titan_step p s ev) as [s1|] eqn:Hs; [|discriminate]. injection Hstep as <-.
      eapply titan_step_sent; eauto.
    + destruct (cohere_step p s ev) as [s1|] eqn:Hs; [|discriminate]. injection Hstep as <-.
      eapply cohere_step_sent; eauto.
Qed.

Lemma createEmbeddings_sent (p : Provider) (texts : list jsstring) (model : option jsstring) :
  0 < p_batchSize p -> invocation_sent p (createEmbeddings p texts model).
Proof.
  intros Hb. unfold createEmbeddings.
  destruct (isTitanModel _); [apply processTitanEmbeddings_sent|].
  destruct (isCohereModel _); [apply processCohereEmbeddings_sent; exact Hb|exact I].
Qed.

Lemma titan_requested (p : Provider) (texts : list jsstring) (k : nat) (s : titan)
    (r : result EmbeddingResponse) (i : nat) (text : jsstring) :
  titan_inv p texts k s -> titan_sent s ->
  titan_outcome s = Some r -> (forall e, r <> Err e) ->
  texts !! i = Some text ->
  requested p (TitanCall s) i text.
Proof.
  intros Hinv Hsent. unfold titan_outcome.
  destruct (t_all s) as [[vs|e]|] eqn:Hall; [|intros [= <-] Hne; destruct (Hne e eq_refl)|discriminate].
  intros _ _ Hi. cbn [requested].
  pose proof (inv_all_ok _ _ _ _ Hinv vs Hall) as Hm.
  rewrite <- (inv_texts _ _ _ _ Hinv) in Hi. change (map ?f ?l) with (f <$> l) in Hi.
  rewrite list_lookup_fmap in Hi.
  destruct (t_tasks s !! i) as [[t st]|] eqn:Htk; [|discriminate]. cbn in Hi.
  injection Hi as ->.
  destruct (mapM_fulfilled_lookup _ _ _ _ Hm Htk) as [v Hv]. cbn in Hv. subst st.
  apply (Hsent i text _ Htk). exact I.
Qed.

Lemma cohere_requested (p : Provider) (texts : list jsstring) (evs : list event) (s : cohere)
    (r : result EmbeddingResponse) (i : nat) (text : jsstring) :
  cohere_ok p texts evs s -> cohere_sent p s ->
  cohere_outcome s = Some r ->
  texts !! i = Some text ->
  requested p (CohereCall s) i text.
Proof.
  intros Hok [_ Hsent]. unfold cohere_outcome. pose proof (co_phase _ _ _ _ Hok) as Hph.
  destruct (Z.ltb_spec (c_i s) (array_length texts)) as [Hlt|Hge];
    rewrite Hph; [discriminate|]. intros _ Hi. cbn [requested].
  apply Hsent; [rewrite (co_texts _ _ _ _ Hok); exact Hi|].
  rewrite Hph. apply lookup_lt_Some in Hi. unfold array_length in Hge. lia.
Qed.

(** ** The order of the embeddings *)

(** C1. For a provider with positive [maxRetries], [maxConcurrency] and
    [batchSize], a supported model, and a transport that answers every send
    with a well-formed document, under every interleaving of the events:
    the invocation ends after at most [2 * texts.length] events; as long as
    it has not settled some event is pending, so it does settle; and when
    it settles it is a success whose [embeddings] has the length of
    [texts] and holds at each index [i] the vector the transport returned
    for [texts[i]]: the vector in the answer to the call whose request
    carried that text. *)
Theorem C1_embeddings_follow_input_order (p : Provider) (texts : list jsstring)
    (model : option jsstring) (evs : list event) (inv : invocation) :
  isTitanModel (modelToUse p model) = true \/ isCohereModel (modelToUse p model) = true ->
  0 < p_maxRetries p -> 0 < p_maxConcurrency p -> 0 < p_batchSize p ->
  well_formed_run p (createEmbeddings p texts model) evs ->
  run p (createEmbeddings p texts model) evs = Some inv ->
  (length evs <= 2 * length texts)%nat
  /\ (outcome inv = None ->
      exists ev, well_formed_answer p inv ev /\ is_Some (step p inv ev))
  /\ (forall r, outcome inv = Some r ->
      exists resp,
        r = Ok resp /\ length (embeddings resp) = length texts /\
        forall i text, texts !! i = Some text ->
          exists v, embeddings resp !! i = Some v /\ returned_vector p inv evs i v /\
                    requested p inv i text).
Proof.
  intros Hm Hr Hmc Hb Hwf Hrun.
  pose proof (run_sent p evs Hb _ _ (createEmbeddings_sent p texts model Hb) Hrun) as Hsent.
  revert Hwf Hrun. unfold createEmbeddings.
  destruct (isTitanModel (modelToUse p model)) eqn:Ht.
  - intros Hwf Hrun.
    destruct (titan_run_ok p texts evs Hr [] _ inv
                (processTitanEmbeddings_inv p texts _)
                (processTitanEmbeddings_ok p texts _ Hr) Hwf Hrun)
      as (s & -> & Hinv & Hok).
    cbn [app] in Hok. split; [eapply titan_steps_bound; eauto|]. split.
    + cbn [outcome step]. unfold titan_outcome. intros Hnone.
      assert (Hall : t_all s = None) by (destruct (t_all s) as [[vs|e]|]; [discriminate..|reflexivity]).
      destruct (titan_progress p texts evs s Hmc Hinv Hok Hall) as (ev & Hev & [s' Hs']).
      exists ev. split; [exact Hev|]. rewrite Hs'. cbn. eauto.
    + intros r Hout.
      destruct (titan_result p texts evs s r Hinv Hok Hout) as (resp & -> & Hlen & Hvec).
      exists resp. split; [reflexivity|]. split; [exact Hlen|]. intros i text Hi.
      destruct (Hvec i text Hi) as (v & Hv & Hret). exists v. split; [exact Hv|].
      split; [exact Hret|]. eapply titan_requested; eauto.
  - destruct Hm as [Hm|Hm]; [discriminate|]. rewrite Hm. intros Hwf Hrun.
    destruct (cohere_run_ok p texts evs Hb Hr [] _ inv
                (processCohereEmbeddings_ok p texts _ Hb Hr) Hwf Hrun)
      as (s & -> & Hok).
    cbn [app] in Hok. split; [eapply cohere_steps_bound; eauto|]. split.
    + cbn [outcome step]. intros Hnone.
      destruct (cohere_progress p texts evs s Hok Hnone) as (ev & Hev & [s' Hs']).
      exists ev. split; [exact Hev|]. rewrite Hs'. cbn. eauto.
    + intros r Hout.
      destruct (cohere_result p texts evs s r Hb Hok Hout) as (resp & -> & Hlen & Hvec).
      exists resp. split; [reflexivity|]. split; [exact Hlen|]. intros i text Hi.
      destruct (Hvec i text Hi) as (v & Hv & Hret). exists v. split; [exact Hv|].
      split; [exact Hret|]. eapply cohere_requested; eauto.
Qed.

(** ** The runtime client *)

Lemma truthy_string_nonempty o s : truthy_string o = Some s -> o = Some s /\ s <> [].
Proof.
  destruct o as [[|c r]|]; cbn; intros H; try discriminate.
  injection H as <-. split; [reflexivity|discriminate].
Qed.

(** X1.  Whatever the options, the client makes a single attempt per
    request and authenticates in exactly one way, chosen in this order: a
    bearer token when the API key is enabled and not empty (with the bearer
    scheme preferred and no request timeout); else the named profile when
    profiles are enabled and the name is not empty; else the access keys
    when both are not empty, with the session token if it is not empty;
    else empty keys.  The endpoint is overridden only by a non-empty
    endpoint whose switch is on. *)
Theorem client_authenticates_one_way (options : BedrockClientOptions) :
  let c := createBedrockRuntimeClient options in
  let api_key := truthy_bool (awsUseApiKey options) = true /\
                 truthy_string (awsApiKey options) <> None in
  let profile := truthy_bool (awsUseProfile options) = true /\
                 truthy_string (awsProfile options) <> None in
  cc_maxAttempts c = 1 /\
  cc_region c = awsRegion options /\
  (forall e, cc_endpoint c = Some e <->
     awsBedrockEndpoint options = Some e /\ e <> [] /\
     awsBedrockEndpointEnabled options = Some true) /\
  exists m, auth_of c = Some m /\
    match m with
    | BearerToken key =>
        api_key /\ awsApiKey options = Some key /\
        cc_authSchemePreference c = Some ["httpBearerAuth"%string] /\
        cc_requestTimeout c = Some 0
    | Profile name =>
        ~ api_key /\ profile /\ awsProfile options = Some name /\
        cc_authSchemePreference c = None /\ cc_requestTimeout c = None
    | AccessKeys access secret session =>
        ~ api_key /\ ~ profile /\
        awsAccessKey options = Some access /\ awsSecretKey options = Some secret /\
        session = truthy_string (awsSessionToken options) /\
        cc_authSchemePreference c = None /\ cc_requestTimeout c = None
    | EmptyKeys =>
        ~ api_key /\ ~ profile /\
        (truthy_string (awsAccessKey options) = None \/
         truthy_string (awsSecretKey options) = None) /\
        cc_authSchemePreference c = None /\ cc_requestTimeout c = None
    end.
Proof.
  intros c api_key profile. subst c api_key profile.
  split; [|split; [|split]].
  - unfold createBedrockRuntimeClient.
    repeat match goal with |- context [match ?x with _ => _ end] => destruct x end;
      reflexivity.
  - unfold createBedrockRuntimeClient.
    repeat match goal with |- context [match ?x with _ => _ end] => destruct x end;
      reflexivity.
  - intros e.
    assert (He : cc_endpoint (createBedrockRuntimeClient options) =
                 match truthy_string (awsBedrockEndpoint options) with
                 | Some e => if truthy_bool (awsBedrockEndpointEnabled options)
                             then Some e else None
                 | None => None
                 end).
    { unfold createBedrockRuntimeClient.
      destruct (truthy_bool (awsUseApiKey options)), (truthy_string (awsApiKey options)),
        (truthy_bool (awsUseProfile options)), (truthy_string (awsProfile options)),
        (truthy_string (awsAccessKey options)), (truthy_string (awsSecretKey options));
        reflexivity. }
    rewrite He. clear He.
    destruct (truthy_string (awsBedrockEndpoint options)) as [e'|] eqn:Hend.
    + apply truthy_string_nonempty in Hend as [Hend Hne].
      destruct (awsBedrockEndpointEnabled options) as [[|]|]; cbn; rewrite Hend.
      * split; [intros [= <-]; auto | intros ([= ->] & _ & _); reflexivity].
      * split; [discriminate | intros (_ & _ & [=])].
      * split; [discriminate | intros (_ & _ & [=])].
    + split; [discriminate|]. intros (H & Hne & _). rewrite H in Hend.
      destruct e; [congruence | discriminate].
  - unfold createBedrockRuntimeClient.
    destruct (truthy_bool (awsUseApiKey options)) eqn:Huse;
      destruct (truthy_string (awsApiKey options)) as [key|] eqn:Hkey.
    1: { exists (BearerToken key). cbn. split; [reflexivity|].
         apply truthy_string_nonempty in Hkey as [Hkey _].
         repeat split; [discriminate | exact Hkey]. }
    all: destruct (truthy_bool (awsUseProfile options)) eqn:Hpuse;
           destruct (truthy_string (awsProfile options)) as [name|] eqn:Hname.
    1, 5, 9: exists (Profile name); cbn; (split; [reflexivity|]);
         apply truthy_string_nonempty in Hname as [Hname _];
         (split; [intros [? ?]; congruence|]);
         (split; [split; [reflexivity | discriminate]|]);
         (split; [exact Hname|]); split; reflexivity.
    all: destruct (truthy_string (awsAccessKey options)) as [access|] eqn:Haccess;
           destruct (truthy_string (awsSecretKey options)) as [secret|] eqn:Hsecret.
    all: try (exists EmptyKeys; cbn; (split; [reflexivity|]);
              (split; [intros [? ?]; congruence|]); (split; [intros [? ?]; congruence|]);
              (split; [auto|]); split; reflexivity).
    all: apply truthy_string_nonempty in Haccess as [Haccess Hane];
         apply truthy_string_nonempty in Hsecret as [Hsecret Hsne];
         exists (AccessKeys access secret (truthy_string (awsSessionToken options)));
         (split; [destruct access, secret; cbn; congruence|]);
         (split; [intros [? ?]; congruence|]); (split; [intros [? ?]; congruence|]);
         (split; [exact Haccess|]); (split; [exact Hsecret|]); (split; [reflexivity|]);
         split; reflexivity.
Qed.

(** X2.  The client of the embedding provider: the region is passed on,
    one attempt per request, the endpoint is the configured URL exactly
    when that is not empty, and authentication is by access keys only:
    with both keys present and not empty they are used, with the session
    token if it is not empty; in every other case the keys are empty and
    the session token is dropped.  Neither a profile nor a bearer token is
    ever used. *)
Theorem embedder_client_uses_access_keys (config : BedrockEmbedderConnection) :
  let c := constructor_client config in
  cc_region c = region config /\
  cc_maxAttempts c = 1 /\
  cc_endpoint c = truthy_string (endpointUrl config) /\
  cc_token c = None /\
  auth_of c =
    Some match truthy_string (accessKeyId config), truthy_string (secretAccessKey config) with
         | Some access, Some secret =>
             AccessKeys access secret (truthy_string (sessionToken config))
         | _, _ => EmptyKeys
         end.
Proof.
  unfold constructor_client, createBedrockRuntimeClient. cbn.
  destruct (truthy_string (endpointUrl config)) eqn:Hend;
    destruct (truthy_string (accessKeyId config)) as [access|] eqn:Ha;
    destruct (truthy_string (secretAccessKey config)) as [secret|] eqn:Hs; cbn;
    repeat split;
    try (apply truthy_string_nonempty in Ha as [_ Ha]);
    try (apply truthy_string_nonempty in Hs as [_ Hs]);
    try (destruct access; [congruence|]); try (destruct secret; [congruence|]);
    reflexivity.
Qed.

(** ** The retry loop under any transport *)

Lemma backoff_delays_cons (a : Z) (n : nat) :
  backoff_delays a (S n) = INITIAL_RETRY_DELAY_MS * 2 ^ a :: backoff_delays (a + 1) n.
Proof.
  unfold backoff_delays. cbn [seq map]. f_equal.
  - rewrite Z.add_0_r. reflexivity.
  - rewrite <- seq_shift, map_map. apply map_ext. intros k. do 2 f_equal. lia.
Qed.

Lemma after_send_retry (p : Provider) (a : Z) (r : transport_result) (d : Z) :
  after_send p a r = Retry d ->
  a < p_maxRetries p - 1 /\ d = INITIAL_RETRY_DELAY_MS * 2 ^ a /\
  exists e, r = SendFail e /\ is_429 e = true.
Proof.
  destruct r as [body|e]; cbn [after_send]; [discriminate|]. unfold catch_block.
  destruct (is_429 e) eqn:He; [|discriminate].
  destruct (Z.ltb_spec a (p_maxRetries p - 1)); [|discriminate].
  cbn [andb]. intros [= <-]. eauto.
Qed.



Lemma run_app (p : Provider) (evs more : list event) :
  forall inv, run p inv (evs ++ more) =
              match run p inv evs with
              | Some inv' => run p inv' more
              | None => None
              end.
Proof.
  induction evs as [|ev evs IH]; intros inv; cbn [app run]; [reflexivity|].
  destruct (step p inv ev); [apply IH|reflexivity].
Qed.

Lemma invoke_exhausted (p : Provider) (front : list HttpError) (e : HttpError)
    (rest : list transport_result) :
  forall a : Z,
  Forall (fun e => status e = Some 429) front ->
  0 <= a -> a + Z.of_nat (length front) = p_maxRetries p - 1 ->
  let r := invokeModelWithRetries p (map SendFail (front ++ [e]) ++ rest) a in
  returned r = Some (Err (Formatted e (p_maxRetries p))) /\
  sends r = S (length front) /\
  waits r = backoff_delays a (length front) /\ unread r = rest.
Proof.
  induction front as [|e0 front IH]; intros a Hall Ha Hk;
    cbn [map app invokeModelWithRetries length]; cbn [length] in Hk;
    (destruct (Z.ltb_spec a (p_maxRetries p)); [|lia]); cbn [after_send].
  - rewrite catch_block_terminal by (right; lia). cbn. auto.
  - inversion Hall as [|? ? He Hall']; subst.
    rewrite catch_block_retry by (auto; lia).
    destruct (IH (a + 1) Hall') as (H1 & H2 & H3 & H4); [lia|lia|].
    cbn [sent waited returned sends waits unread].
    rewrite backoff_delays_cons. repeat split; auto; congruence.
Qed.

(** X4.  A logical call that is throttled (status 429) on each of its
    first [maxRetries - 1] attempts and fails in any way on the last one
    has used up its attempts: it made [maxRetries] sends, waited
    [maxRetries - 1] times with doubling delays, does not wait after the
    last failure, and throws that failure as formatted by
    [formatEmbeddingError].  The same holds inside a Titan task, whose
    body then awaits its [finally] block, and inside the Cohere loop, which
    is over. *)
Theorem throttled_on_every_attempt (p : Provider) (front : list HttpError) (e : HttpError) :
  Forall (fun e => status e = Some 429) front ->
  Z.of_nat (length front) = p_maxRetries p - 1 ->
  (forall rest,
     let r := invokeModelWithRetries p (map SendFail (front ++ [e]) ++ rest) 0 in
     returned r = Some (Err (Formatted e (p_maxRetries p))) /\
     Z.of_nat (sends r) = p_maxRetries p /\
     waits r = backoff_delays 0 (length front) /\ unread r = rest)
  /\ (forall s i text,
        t_tasks s !! i = Some (text, Sending 0) ->
        exists s',
          run p (TitanCall s) (retry_events i front ++ [Response i (SendFail e)])
            = Some (TitanCall s') /\
          t_tasks s' = <[i := (text, Settled (Err (Formatted e (p_maxRetries p))))]> (t_tasks s) /\
          t_calls s' = t_calls s ++ repeat (TitanRequest (t_model s) text) (length front) /\
          t_delays s' = t_delays s ++ backoff_delays 0 (length front))
  /\ (forall s,
        c_phase s = CohereSending 0 ->
        exists s',
          run p (CohereCall s) (retry_events 0 front ++ [Response 0 (SendFail e)])
            = Some (CohereCall s') /\
          c_phase s' = CohereDone (Err (Formatted e (p_maxRetries p))) /\
          c_calls s' = c_calls s ++
            repeat (CohereRequest (c_model s) (cohere_batch p s) (input_type p)) (length front) /\
          c_delays s' = c_delays s ++ backoff_delays 0 (length front)).
Proof.
  intros Hall Hk.
  assert (Hc : catch_block p (0 + Z.of_nat (length front)) e
               = Throw (Formatted e (p_maxRetries p)))
    by (apply catch_block_terminal; right; lia).
  split; [|split].
  - intros rest r.
    destruct (invoke_exhausted p front e rest 0 Hall) as (H1 & H2 & H3 & H4); [lia|lia|].
    fold r in H1, H2, H3, H4. repeat split; auto. rewrite H2. lia.
  - intros s i text Hi.
    assert (Hlen : (i < length (t_tasks s))%nat) by (eapply lookup_lt_Some; eauto).
    rewrite run_app, titan_retry_events with (a := 0) (text := text); auto; try lia.
    cbn [run step titan_step t_tasks fmap option_fmap option_map].
    rewrite list_lookup_insert_eq by exact Hlen.
    cbn [after_send]. rewrite Hc.
    eexists. split; [reflexivity|].
    cbn [titan_set t_tasks t_calls t_delays t_model].
    rewrite list_insert_insert_eq, app_nil_r. auto.
  - intros s Hs.
    rewrite run_app, cohere_retry_events with (a := 0); auto; try lia.
    cbn [run step cohere_step cohere_with c_phase fmap option_fmap option_map].
    cbn [after_send]. rewrite Hc.
    eexists. split; [reflexivity|].
    cbn [cohere_with c_phase c_calls c_delays c_model]. rewrite !app_nil_r. auto.
Qed.

(** ** The semaphore: permits in use and permits missing *)

Lemma gate_step_saturated (g g' : gate) (ev : gate_event) :
  gate_saturated g -> gate_step g ev = Some g' -> gate_saturated g'.
Proof.
  unfold gate_saturated. intros Hg. destruct ev as [|id threw]; cbn [gate_step].
  - unfold acquire. destruct (Z.ltb_spec 0 (permits (g_sem g))); intros [= <-];
      cbn [g_sem permits waiting]; intros Hw; [specialize (Hg Hw)|]; lia.
  - destruct (existsb (Nat.eqb id) (g_running g)); [|discriminate]. unfold release.
    destruct (waiting (g_sem g)) as [|w rest] eqn:Hw; intros [= <-];
      cbn [g_sem permits waiting]; intros Hq; [congruence|].
    assert (permits (g_sem g) <= 0) by (apply Hg; discriminate). lia.
Qed.

Lemma gate_run_saturated (evs : list gate_event) :
  forall g g', gate_saturated g -> gate_run g evs = Some g' -> gate_saturated g'.
Proof.
  induction evs as [|ev evs IH]; intros g g' Hg; cbn [gate_run].
  - intros [= <-]. exact Hg.
  - destruct (gate_step g ev) as [g1|] eqn:Hstep; [|discriminate].
    apply IH. eapply gate_step_saturated; eauto.
Qed.

(** X5.  The semaphore never keeps a callback parked while a permit is
    free: under any sequence of [acquire] calls and completions on a
    semaphore with [n >= 0] permits, whenever a callback is parked the
    counter is 0 and exactly [n] bodies are executing; with [n >= 1] one of
    them can therefore complete, and its completion wakes the head of the
    queue. *)
Theorem semaphore_saturated_while_parked (n : Z) (evs : list gate_event) (g : gate) :
  0 <= n ->
  gate_run (gate_init n) evs = Some g ->
  waiting (g_sem g) <> [] ->
  permits (g_sem g) = 0 /\
  Z.of_nat (length (g_running g)) = n /\
  (0 < n ->
   exists id w rest g',
     waiting (g_sem g) = w :: rest /\
     gate_step g (Complete id false) = Some g' /\
     waiting (g_sem g') = rest /\ In w (g_running g')).
Proof.
  intros Hn Hrun Hw.
  assert (Hinv : gate_inv n g).
  { eapply gate_run_inv; [|exact Hrun]. unfold gate_inv, gate_init. cbn. split; [lia|auto]. }
  assert (Hsat : gate_saturated g).
  { eapply gate_run_saturated; [|exact Hrun]. unfold gate_saturated, gate_init. cbn. congruence. }
  destruct Hinv as (Hp & H0 & _). specialize (Hsat Hw).
  split; [lia|]. split; [lia|]. intros Hpos.
  destruct (g_running g) as [|id running] eqn:Hr; [cbn in Hp; lia|].
  destruct (waiting (g_sem g)) as [|w rest] eqn:Hq; [congruence|].
  exists id, w, rest. eexists. split; [reflexivity|].
  cbn [gate_step]. rewrite Hr. cbn [existsb]. rewrite Nat.eqb_refl. cbn [orb].
  unfold release. rewrite Hq. split; [reflexivity|].
  cbn [g_sem waiting g_running option_list]. split; [reflexivity|].
  apply in_or_app. right. left. reflexivity.
Qed.

Lemma gate_step_closed (n : Z) (g g' : gate) (ev : gate_event) :
  n <= 0 -> gate_closed n g -> gate_step g ev = Some g' -> ev = Acquire /\ gate_closed n g'.
Proof.
  intros Hn (Hp & Hr & Hk & Hw). destruct ev as [|id threw]; cbn [gate_step].
  - unfold acquire. destruct (Z.ltb_spec 0 (permits (g_sem g))); [lia|].
    intros [= <-]. split; [reflexivity|]. unfold gate_closed.
    cbn [g_sem permits waiting g_running g_woken g_next].
    rewrite Hw, seq_S. auto.
  - rewrite Hr. discriminate.
Qed.

(** X6.  A semaphore created with no permit ([n <= 0]) never runs a body:
    under any sequence of events no completion can occur, every [acquire]
    parks its callback, in arrival order, nothing is ever woken, and the
    counter does not move. *)
Theorem semaphore_without_permits (n : Z) (evs : list gate_event) (g : gate) :
  n <= 0 ->
  gate_run (gate_init n) evs = Some g ->
  evs = repeat Acquire (length evs) /\
  g_running g = [] /\ g_woken g = [] /\
  permits (g_sem g) = n /\
  waiting (g_sem g) = seq 0 (length evs).
Proof.
  intros Hn.
  assert (Hgen : forall evs g0 g, gate_closed n g0 -> gate_run g0 evs = Some g ->
            evs = repeat Acquire (length evs) /\ gate_closed n g /\
            g_next g = (g_next g0 + length evs)%nat).
  { clear evs g. induction evs as [|ev evs IH]; intros g0 g Hg0; cbn [gate_run].
    - intros [= <-]. cbn. auto with arith.
    - destruct (gate_step g0 ev) as [g1|] eqn:Hstep; [|discriminate].
      destruct (gate_step_closed n g0 g1 ev Hn Hg0 Hstep) as [-> Hg1].
      intros Hrun. destruct (IH g1 g Hg1 Hrun) as (Hevs & Hg & Hnext).
      cbn [length repeat]. split; [congruence|]. split; [exact Hg|].
      rewrite Hnext. cbn [gate_step] in Hstep. unfold acquire in Hstep.
      destruct (0 <? permits (g_sem g0)); injection Hstep as <-; cbn [g_next]; lia. }
  intros Hrun.
  destruct (Hgen evs (gate_init n) g) as (Hevs & (Hp & Hr & Hk & Hw) & Hnext);
    [unfold gate_closed, gate_init; cbn; auto | exact Hrun |].
  cbn in Hnext. rewrite Hnext in Hw. auto.
Qed.

(** ** The moves of a Titan invocation *)

Lemma titan_attempt_attempted (p : Provider) (i : nat) (a : Z) (s : titan)
    (text : jsstring) (st : task) :
  t_tasks s !! i = Some (text, st) ->
  exists st',
    attempted p (t_model s) text a st' (t_calls s) (t_calls (titan_attempt p i a s)) /\
    t_tasks (titan_attempt p i a s) = <[i := (text, st')]> (t_tasks s) /\
    t_model (titan_attempt p i a s) = t_model s /\
    t_sem (titan_attempt p i a s) = t_sem s /\
    t_delays (titan_attempt p i a s) = t_delays s /\
    t_all (titan_attempt p i a s) = t_all s.
Proof.
  intros Hi.
  destruct (titan_attempt_spec p i a s text st Hi) as (st' & Hcase & Ht & Hm & Hs & _ & Hd & Ha).
  exists st'. unfold attempted. repeat split; auto.
  destruct Hcase as [(-> & Hlt & Hc)|(-> & Hge & Hc)]; [left|right]; auto.
Qed.

Lemma after_send_return (p : Provider) (a : Z) (r : transport_result) (body : option json) :
  after_send p a r = Return body -> r = SendOk body.
Proof.
  destruct r as [body'|error]; cbn [after_send]; [congruence|]. unfold catch_block.
  destruct (is_429 error && (a <? p_maxRetries p - 1)); discriminate.
Qed.

Lemma after_send_failed (p : Provider) (a : Z) (r : transport_result) (e : EmbedError) :
  after_send p a r = Throw e ->
  exists error, r = SendFail error /\ e = Formatted error (p_maxRetries p).
Proof.
  destruct r as [body|error]; cbn [after_send]; [discriminate|]. unfold catch_block.
  destruct (is_429 error && (a <? p_maxRetries p - 1)); [discriminate|].
  intros [= <-]. eauto.
Qed.

Lemma titan_step_move (p : Provider) (texts : list jsstring) (s s' : titan) (ev : event) :
  titan_inv p texts (length texts) s ->
  titan_step p s ev = Some s' ->
  titan_move p s ev s'.
Proof.
  intros Hinv. destruct ev as [i r|i|i]; cbn [titan_step].
  - destruct (t_tasks s !! i) as [[text [|a|a|r'|r']]|] eqn:Hi; try discriminate.
    destruct (after_send p a r) as [body|d|e] eqn:Hsend.
    + apply after_send_return in Hsend as ->.
      destruct (embedTitanText_result text body) as [[v tokens]|e] eqn:Hd; intros [= <-];
        eapply move_settle; eauto; cbn; rewrite ?Hd, ?app_nil_r; reflexivity.
    + apply after_send_retry in Hsend as (Hlt & -> & error & -> & H429).
      intros [= <-]. eapply move_sleep; eauto.
    + apply after_send_failed in Hsend as (error & -> & ->).
      intros [= <-]. eapply move_settle; eauto; cbn; rewrite ?app_nil_r; reflexivity.
  - destruct (t_tasks s !! i) as [[text [|a|a|r'|r']]|] eqn:Hi; try discriminate.
    intros [= <-].
    destruct (titan_attempt_attempted p i (a + 1) s text _ Hi)
      as (st' & Hatt & Ht & Hm & Hs & Hd & Ha).
    eapply move_wake; eauto.
  - destruct (t_tasks s !! i) as [[text [|a|a|r|r]]|] eqn:Hi; try discriminate.
    unfold release. destruct (waiting (t_sem s)) as [|j rest] eqn:Hw; intros [= <-].
    + eapply move_release; eauto. unfold all_after. cbn [observe t_all]. unfold promise_all.
      cbn [t_all t_tasks]. destruct (t_all s); [reflexivity|]. destruct r; reflexivity.
    + assert (Hj : exists tj, t_tasks s !! j = Some (tj, Parked)).
      { apply (inv_waiting _ _ _ _ Hinv j). rewrite Hw. apply elem_of_cons. auto. }
      destruct Hj as [tj Hj].
      assert (Hij : i <> j) by (intros ->; rewrite Hi in Hj; discriminate).
      set (s1 := {| t_model := t_model s; t_tasks := <[i := _]> (t_tasks s) |}).
      assert (Hj1 : t_tasks s1 !! j = Some (tj, Parked)).
      { cbn. rewrite list_lookup_insert_ne by exact Hij. exact Hj. }
      destruct (titan_attempt_attempted p j 0 s1 tj _ Hj1)
        as (st' & Hatt & Ht & Hm & Hs & Hd & Ha).
      eapply move_handover with (st' := st'); eauto.
      * cbn [observe t_sem]. rewrite Hs. cbn. f_equal. lia.
      * unfold all_after. cbn [observe t_all]. unfold promise_all. rewrite Ha.
        cbn [s1 t_all t_tasks]. destruct (t_all s); [reflexivity|]. destruct r; reflexivity.
Qed.

(** ** The order in which the texts start *)

Lemma attempted_not_parked (p : Provider) (model text : jsstring) (a : Z) (st' : task)
    (calls calls' : list request) :
  attempted p model text a st' calls calls' -> st' <> Parked.
Proof. intros [(_ & -> & _)|(_ & -> & _)]; discriminate. Qed.

Lemma started_in_place (spawned k : nat) (s s' : titan) (i : nat) (text : jsstring)
    (st st' : task) :
  titan_started spawned k s ->
  t_tasks s !! i = Some (text, st) -> st <> Parked -> st' <> Parked ->
  t_tasks s' = <[i := (text, st')]> (t_tasks s) ->
  t_sem s' = t_sem s \/
    (waiting (t_sem s) = [] /\ waiting (t_sem s') = []) ->
  titan_started spawned k s'.
Proof.
  intros [Hle Hpark Hwait] Hi Hst Hst' Ht Hsem. split.
  - exact Hle.
  - intros x tk. rewrite Ht. destruct (decide (x = i)) as [->|Hx].
    + rewrite list_lookup_insert_eq by (eapply lookup_lt_Some; eauto).
      intros [= <-]. cbn. rewrite <- (Hpark i _ Hi). cbn. split; intros; congruence.
    + rewrite list_lookup_insert_ne by auto. apply Hpark.
  - destruct Hsem as [->|[Hw ->]]; [exact Hwait|]. rewrite <- Hwait. auto.
Qed.

Lemma move_started (p : Provider) (spawned k : nat) (s s' : titan) (ev : event) :
  titan_move p s ev s' ->
  titan_started spawned k s ->
  titan_started spawned k s' /\ t_calls s' = t_calls s /\ t_delays s' = t_delays s
  \/ titan_started spawned k s' /\ t_calls s' = t_calls s /\
     (exists d, t_delays s' = t_delays s ++ [d]) /\ (exists i r, ev = Response i (SendFail r))
  \/ titan_started spawned k s' /\ (exists i, ev = Timer i)
  \/ exists next st',
       titan_started spawned (S k) s' /\ t_tasks s !! k = Some (next, Parked) /\
       attempted p (t_model s) next 0 st' (t_calls s) (t_calls s') /\
       t_delays s' = t_delays s.
Proof.
  intros Hmove Hst. inversion Hmove; subst.
  - left. split; [|auto]. eapply started_in_place; eauto; try discriminate.
  - right. left. split; [|eauto 6]. eapply started_in_place; eauto; try discriminate.
  - right. right. left. split; [|eauto].
    eapply started_in_place; eauto; try discriminate. eapply attempted_not_parked; eauto.
  - left. split; [|auto]. eapply started_in_place; eauto; try discriminate.
    right. rewrite H1. auto.
  - right. right. right. exists next, st'.
    destruct Hst as [Hle Hpark Hwait].
    assert (Hk : j = k /\ rest = seq (S k) (spawned - S k) /\ (S k <= spawned)%nat).
    { rewrite H0 in Hwait. destruct (spawned - k)%nat as [|m] eqn:Hm; [discriminate|].
      cbn [seq] in Hwait. injection Hwait as -> ->.
      replace (spawned - S k)%nat with m by lia. split; [reflexivity|]. split; [reflexivity|lia]. }
    destruct Hk as (-> & -> & Hle').
    assert (Hik : (i < k)%nat).
    { destruct (Nat.lt_ge_cases i k) as [|Hge]; [assumption|].
      apply (Hpark i _ H) in Hge. discriminate. }
    split; [|auto]. split.
    + exact Hle'.
    + intros x tk. rewrite H4. destruct (decide (x = k)) as [->|Hx].
      * rewrite list_lookup_insert_eq
          by (rewrite length_insert; eapply lookup_lt_Some; eauto).
        intros [= <-]. cbn. apply attempted_not_parked in H3. split; [congruence|lia].
      * rewrite list_lookup_insert_ne by auto. destruct (decide (x = i)) as [->|Hxi].
        -- rewrite list_lookup_insert_eq by (eapply lookup_lt_Some; eauto).
           intros [= <-]. cbn. split; [discriminate|lia].
        -- rewrite list_lookup_insert_ne by auto. intros Hx'.
           rewrite (Hpark x tk Hx'). lia.
    + rewrite H2. reflexivity.
Qed.

Lemma spawn_started (p : Provider) (texts : list jsstring) (spawned k : nat) (s : titan) :
  titan_inv p texts spawned s -> titan_started spawned k s ->
  (spawned < length texts)%nat ->
  exists text,
    t_tasks s !! spawned = Some (text, Parked) /\
    t_model (spawn p s spawned) = t_model s /\
    t_delays (spawn p s spawned) = t_delays s /\
    t_all (spawn p s spawned) = t_all s /\
    (0 < permits (t_sem s) /\ k = spawned /\
     titan_started (S spawned) (S spawned) (spawn p s spawned) /\
     (exists st', attempted p (t_model s) text 0 st' (t_calls s) (t_calls (spawn p s spawned)) /\
                  t_tasks (spawn p s spawned) = <[spawned := (text, st')]> (t_tasks s))
     \/ permits (t_sem s) <= 0 /\
        titan_started (S spawned) k (spawn p s spawned) /\
        t_calls (spawn p s spawned) = t_calls s /\
        t_tasks (spawn p s spawned) = t_tasks s).
Proof.
  intros Hinv [Hle Hpark Hwait] Hk.
  assert (Hlen : (spawned < length (t_tasks s))%nat).
  { rewrite <- (inv_texts _ _ _ _ Hinv), length_map in Hk. exact Hk. }
  destruct (lookup_lt_is_Some_2 _ _ Hlen) as [[text st] Hlk].
  pose proof (inv_unspawned _ _ _ _ Hinv spawned _ (Nat.le_refl spawned) Hlk) as Hst.
  cbn in Hst. subst st. exists text. split; [exact Hlk|].
  unfold spawn, acquire. destruct (Z.ltb_spec 0 (permits (t_sem s))) as [Hp|Hp].
  - set (s1 := {| t_model := t_model s; t_sem := _; t_tasks := t_tasks s |}).
    destruct (titan_attempt_attempted p spawned 0 s1 text Parked Hlk)
      as (st' & Hatt & Ht & Hm & Hs & Hd & Ha).
    rewrite Hm, Hd, Ha. cbn [s1 t_model t_delays t_all].
    split; [reflexivity|]. split; [reflexivity|]. split; [reflexivity|]. left.
    assert (Hw : waiting (t_sem s) = []).
    { destruct (waiting (t_sem s)) eqn:Hw; [reflexivity|].
      assert (permits (t_sem s) <= 0) by (apply (inv_full _ _ _ _ Hinv); rewrite Hw; discriminate).
      lia. }
    assert (Hks : k = spawned).
    { rewrite Hw in Hwait. destruct (spawned - k)%nat eqn:Hdiff; [lia|discriminate]. }
    split; [exact Hp|]. split; [exact Hks|]. subst k. split; [|eauto]. split.
    + lia.
    + intros x tk. rewrite Ht. cbn [s1 t_tasks].
      destruct (decide (x = spawned)) as [->|Hx].
      * rewrite list_lookup_insert_eq by exact Hlen. intros [= <-]. cbn.
        apply attempted_not_parked in Hatt. split; [congruence|lia].
      * rewrite list_lookup_insert_ne by auto. intros Hx'. rewrite (Hpark x tk Hx'). lia.
    + rewrite Hs. cbn [s1 t_sem waiting]. rewrite Hw, Nat.sub_diag. reflexivity.
  - cbn [t_model t_delays t_all t_calls t_tasks].
    split; [reflexivity|]. split; [reflexivity|]. split; [reflexivity|]. right.
    split; [exact Hp|]. split; [|auto]. split.
    + lia.
    + cbn [t_tasks]. exact Hpark.
    + cbn [t_sem waiting]. rewrite Hwait.
      replace (S spawned - k)%nat with (S (spawned - k)) by lia.
      rewrite seq_S. do 2 f_equal. lia.
Qed.

(** What holds at the first suspension and is kept by every step holds
    after every run. *)
Lemma titan_run_preserves (p : Provider) (texts : list jsstring) (P : titan -> Prop) :
  (forall s s' ev, titan_inv p texts (length texts) s -> P s ->
                   titan_step p s ev = Some s' -> P s') ->
  forall (evs : list event) (s : titan) (inv : invocation),
  titan_inv p texts (length texts) s -> P s ->
  run p (TitanCall s) evs = Some inv ->
  exists s', inv = TitanCall s' /\ titan_inv p texts (length texts) s' /\ P s'.
Proof.
  intros Hstep. induction evs as [|ev evs IH]; intros s inv Hinv HP; cbn [run step].
  - intros [= <-]. eauto.
  - destruct (titan_step p s ev) as [s1|] eqn:Hs1; cbn; [|discriminate].
    apply IH; [eapply titan_step_inv; eauto | eapply Hstep; eauto].
Qed.

Lemma fold_spawn_preserves (p : Provider) (texts : list jsstring) (P : nat -> titan -> Prop) :
  (forall k s, titan_inv p texts k s -> P k s -> (k < length texts)%nat ->
               P (S k) (spawn p s k)) ->
  forall (m k : nat) (s : titan),
  titan_inv p texts k s -> P k s -> (k + m = length texts)%nat ->
  P (length texts) (fold_left (spawn p) (seq k m) s).
Proof.
  intros Hspawn. induction m as [|m IH]; intros k s Hinv HP Hkm; cbn [seq fold_left].
  - replace (length texts) with k by lia. exact HP.
  - apply IH; [apply spawn_inv; [exact Hinv|lia] | apply Hspawn; [exact Hinv|exact HP|lia] | lia].
Qed.

Lemma titan_initial_inv (p : Provider) (texts : list jsstring) (model : jsstring) :
  titan_inv p texts 0
    {| t_model := model; t_sem := new_Semaphore (p_maxConcurrency p);
       t_tasks := map (fun text => (text, Parked)) texts;
       t_totalTokens := 0; t_calls := []; t_delays := []; t_all := None |}.
Proof.
  split; cbn [t_tasks t_sem t_totalTokens t_all new_Semaphore permits waiting].
  - rewrite map_map. cbn. apply map_id.
  - rewrite sumZ_counted_parked. reflexivity.
  - rewrite count_executing_parked. lia.
  - right. apply count_executing_parked.
  - constructor.
  - intros j. split; [intros Hin; apply elem_of_nil in Hin; destruct Hin|intros [Hj _]; lia].
  - intros j tk _ Hj. change (map ?f ?l) with (f <$> l) in Hj.
    rewrite list_lookup_fmap in Hj. destruct (texts !! j); cbn in Hj; [|discriminate].
    injection Hj as <-. reflexivity.
  - intros Hne. destruct Hne. reflexivity.
  - discriminate.
Qed.

Lemma parked_lookup (texts : list jsstring) (i : nat) (tk : jsstring * task) :
  map (fun text => (text, Parked)) texts !! i = Some tk -> snd tk = Parked.
Proof.
  change (map ?f ?l) with (f <$> l). rewrite list_lookup_fmap.
  destruct (texts !! i); cbn; [|discriminate]. intros [= <-]. reflexivity.
Qed.

Lemma processTitanEmbeddings_started (p : Provider) (texts : list jsstring) (model : jsstring) :
  exists k, titan_started (length texts) k (processTitanEmbeddings p texts model).
Proof.
  unfold processTitanEmbeddings.
  set (s0 := {| t_model := model; t_tasks := map (fun text => (text, Parked)) texts |}).
  assert (H : exists k, titan_started (length texts) k
                          (fold_left (spawn p) (seq 0 (length texts)) s0)).
  { apply (fold_spawn_preserves p texts (fun n s => exists k, titan_started n k s))
      with (k := 0%nat); [| apply titan_initial_inv | | reflexivity].
    - intros n s Hinv [k Hst] Hn.
      destruct (spawn_started p texts n k s Hinv Hst Hn)
        as (text & _ & _ & _ & _ & [(_ & _ & H & _)|(_ & H & _)]); eauto.
    - exists 0%nat. split; [lia| |reflexivity].
      intros i tk Hi. apply parked_lookup in Hi. split; [lia|auto]. }
  destruct H as [k [Hle Hpark Hwait]]. exists k. split; auto.
Qed.

Lemma titan_step_started (p : Provider) (texts : list jsstring) (s s' : titan) (ev : event) :
  titan_inv p texts (length texts) s ->
  (exists k, titan_started (length texts) k s) ->
  titan_step p s ev = Some s' ->
  exists k, titan_started (length texts) k s'.
Proof.
  intros Hinv [k Hst] Hstep.
  destruct (move_started p _ k s s' ev (titan_step_move p texts s s' ev Hinv Hstep) Hst)
    as [(H & _)|[(H & _)|[(H & _)|(next & st' & H & _)]]]; eauto.
Qed.

(** ** The sends a task can still make *)

Lemma budget_update (p : Provider) (s s' : titan) (i : nat) (text : jsstring) (st st' : task) :
  titan_budget p s ->
  t_tasks s !! i = Some (text, st) ->
  t_tasks s' = <[i := (text, st')]> (t_tasks s) ->
  attempt_in_range p (text, st') ->
  Z.of_nat (length (t_calls s')) + task_budget p (text, st')
    <= Z.of_nat (length (t_calls s)) + task_budget p (text, st) ->
  Forall (backoff_delay p) (t_delays s') ->
  titan_budget p s'.
Proof.
  intros [Hatt Hcalls Hdel] Hi Ht Hrange Hle Hdel'. split.
  - intros x tk. rewrite Ht. destruct (decide (x = i)) as [->|Hx].
    + rewrite list_lookup_insert_eq by (eapply lookup_lt_Some; eauto). intros [= <-]. exact Hrange.
    + rewrite list_lookup_insert_ne by auto. apply Hatt.
  - rewrite Ht, length_insert, (sumZ_insert _ _ _ _ _ Hi). lia.
  - exact Hdel'.
Qed.

Lemma attempted_budget (p : Provider) (model text : jsstring) (a : Z) (st' : task)
    (calls calls' : list request) (before : Z) :
  attempted p model text a st' calls calls' ->
  0 <= a -> p_maxRetries p - a <= before -> 0 <= before ->
  attempt_in_range p (text, st') /\
  Z.of_nat (length calls') + task_budget p (text, st') <= Z.of_nat (length calls) + before.
Proof.
  intros [(Hlt & -> & ->)|(Hge & -> & ->)] Ha Hb Hb0; cbn.
  - rewrite length_app. cbn [length]. split; lia.
  - split; [exact I|lia].
Qed.

Lemma move_budget (p : Provider) (s s' : titan) (ev : event) :
  titan_move p s ev s' -> titan_budget p s -> titan_budget p s'.
Proof.
  intros Hmove Hbud. pose proof (bud_attempts _ _ Hbud) as Hatt.
  pose proof (bud_delays _ _ Hbud) as Hdel.
  inversion Hmove; subst.
  - pose proof (Hatt i _ H) as Hr. cbn in Hr.
    eapply (budget_update p s s' i text (Sending a) (Settled r)); eauto.
    + exact I.
    + rewrite H4. cbn. lia.
    + rewrite H5. exact Hdel.
  - pose proof (Hatt i _ H) as Hr. cbn in Hr.
    eapply (budget_update p s s' i text (Sending a) (Sleeping a)); eauto.
    + cbn. lia.
    + rewrite H5. cbn. lia.
    + rewrite H6. apply Forall_app. split; [exact Hdel|].
      constructor; [|constructor]. exists a. split; [lia|reflexivity].
  - pose proof (Hatt i _ H) as Hr. cbn in Hr.
    destruct (attempted_budget p _ _ _ _ _ _ (p_maxRetries p - 1 - a) H0) as [Hr' Hle];
      [lia|lia|lia|].
    eapply (budget_update p s s' i text (Sleeping a) st'); eauto.
    rewrite H4. exact Hdel.
  - eapply (budget_update p s s' i text (Settled r) (Released r)); eauto.
    + exact I.
    + rewrite H4. cbn. lia.
    + rewrite H5. exact Hdel.
  - set (s1 := {| t_model := t_model s; t_sem := t_sem s;
                  t_tasks := <[i := (text, Released r)]> (t_tasks s);
                  t_totalTokens := t_totalTokens s; t_calls := t_calls s;
                  t_delays := t_delays s; t_all := t_all s |}).
    assert (Hij : i <> j) by (intros ->; rewrite H in H1; discriminate).
    assert (H1' : titan_budget p s1).
    { eapply (budget_update p s s1 i text (Settled r) (Released r)); eauto;
        cbn; [exact I|lia]. }
    assert (Hj1 : t_tasks s1 !! j = Some (next, Parked)).
    { cbn. rewrite list_lookup_insert_ne by exact Hij. exact H1. }
    destruct (attempted_budget p _ _ _ _ _ _ (Z.max 0 (p_maxRetries p)) H3) as [Hr' Hle];
      [lia|lia|lia|].
    eapply (budget_update p s1 s' j next Parked st'); eauto.
    rewrite H6. exact Hdel.
Qed.

Lemma processTitanEmbeddings_budget (p : Provider) (texts : list jsstring) (model : jsstring) :
  titan_budget p (processTitanEmbeddings p texts model).
Proof.
  unfold processTitanEmbeddings.
  set (s0 := {| t_model := model; t_tasks := map (fun text => (text, Parked)) texts |}).
  assert (H : titan_budget p (fold_left (spawn p) (seq 0 (length texts)) s0)).
  { apply (fold_spawn_preserves p texts
             (fun n s => titan_budget p s /\ exists k, titan_started n k s))
      with (k := 0%nat); [| apply titan_initial_inv | | reflexivity].
    - intros n s Hinv [Hbud [k Hst]] Hn.
      destruct (spawn_started p texts n k s Hinv Hst Hn)
        as (text & Hlk & _ & Hd & _ & [(_ & _ & H & st' & Hatt & Ht)|(_ & H & Hc & Ht)]).
      + split; [|eauto].
        destruct (attempted_budget p _ _ _ _ _ _ (Z.max 0 (p_maxRetries p)) Hatt) as [Hr' Hle];
          [lia|lia|lia|].
        eapply (budget_update p s _ n text Parked st'); eauto.
        rewrite Hd. apply (bud_delays _ _ Hbud).
      + split; [|eauto]. destruct Hbud as [B1 B2 B3]. split; rewrite ?Ht, ?Hc, ?Hd; auto.
    - split.
      + split; cbn [s0 t_tasks t_calls t_delays].
        * intros i tk Hi. apply parked_lookup in Hi. unfold attempt_in_range. rewrite Hi. exact I.
        * rewrite length_map. cbn [length].
          assert (Hsum : forall l : list jsstring,
                    sumZ (task_budget p) (map (fun text => (text, Parked)) l)
                    = Z.of_nat (length l) * Z.max 0 (p_maxRetries p)).
          { induction l as [|t l IH]; cbn [map sumZ length]; [lia|].
            rewrite IH. unfold task_budget at 1. cbn [snd]. lia. }
          rewrite Hsum. lia.
        * constructor.
      + exists 0%nat. split; [lia| |reflexivity].
        intros i tk Hi. apply parked_lookup in Hi. split; [lia|auto]. }
  destruct H as [B1 B2 B3]. split; auto.
Qed.

Lemma titan_step_budget (p : Provider) (texts : list jsstring) (s s' : titan) (ev : event) :
  titan_inv p texts (length texts) s -> titan_budget p s ->
  titan_step p s ev = Some s' -> titan_budget p s'.
Proof.
  intros Hinv Hbud Hstep. eapply move_budget; [|exact Hbud].
  eapply titan_step_move; eauto.
Qed.

Lemma move_model (p : Provider) (s s' : titan) (ev : event) :
  titan_move p s ev s' -> t_model s' = t_model s.
Proof. intros Hmove. inversion Hmove; subst; assumption. Qed.

(** A task whose [finally] block has run is not touched again. *)
Lemma move_released (p : Provider) (s s' : titan) (ev : event) (x : nat)
    (text : jsstring) (r : result json) :
  titan_move p s ev s' ->
  t_tasks s !! x = Some (text, Released r) ->
  t_tasks s' !! x = Some (text, Released r).
Proof.
  intros Hmove Hx. inversion Hmove; subst;
    match goal with
    | H : t_tasks s' = _ |- _ => rewrite H
    end;
    repeat (rewrite list_lookup_insert_ne; [|intros ->; congruence]); exact Hx.
Qed.

Lemma move_error_source (p : Provider) (s s' : titan) (ev : event) :
  titan_move p s ev s' -> titan_error_source s -> titan_error_source s'.
Proof.
  intros Hmove Hsrc e He.
  assert (Hold : t_all s = Some (Err e) ->
                 exists i text, t_tasks s' !! i = Some (text, Released (Err e))).
  { intros Hs. destruct (Hsrc e Hs) as (i & text & Hi).
    exists i, text. eapply move_released; eauto. }
  inversion Hmove; subst; try (apply Hold; congruence).
  - unfold all_after in H6. rewrite H6 in He.
    destruct (t_all s) as [x|] eqn:Hall; [apply Hold; congruence|].
    destruct r as [v|e'].
    + destruct (mapM fulfilled (t_tasks s')); discriminate.
    + injection He as ->. exists i, text. rewrite H2.
      apply list_lookup_insert_eq. eapply lookup_lt_Some; eauto.
  - unfold all_after in H7. rewrite H7 in He.
    destruct (t_all s) as [x|] eqn:Hall; [apply Hold; congruence|].
    destruct r as [v|e'].
    + destruct (mapM fulfilled (t_tasks s')); discriminate.
    + injection He as ->. exists i, text. rewrite H4.
      rewrite list_lookup_insert_ne by (intros ->; congruence).
      apply list_lookup_insert_eq. eapply lookup_lt_Some; eauto.
Qed.

Lemma processTitanEmbeddings_pending (p : Provider) (texts : list jsstring) (model : jsstring)
    (e : EmbedError) :
  t_all (processTitanEmbeddings p texts model) <> Some (Err e).
Proof.
  unfold processTitanEmbeddings. cbn [observe t_all]. unfold promise_all.
  assert (H : forall ks s, t_all s = None -> t_all (fold_left (spawn p) ks s) = None).
  { induction ks as [|k ks IH]; intros s Hs; cbn [fold_left]; [exact Hs|].
    apply IH. unfold spawn. destruct (acquire (t_sem s) k) as [sem [|]];
      [rewrite titan_attempt_all|]; exact Hs. }
  rewrite H by reflexivity.
  match goal with |- context [mapM fulfilled ?l] => destruct (mapM fulfilled l) end; discriminate.
Qed.

Lemma move_never_sent (p : Provider) (s s' : titan) (ev : event) :
  p_maxRetries p <= 0 ->
  titan_move p s ev s' ->
  (forall i tk, t_tasks s !! i = Some tk -> never_sent p tk) ->
  (forall i tk, t_tasks s' !! i = Some tk -> never_sent p tk).
Proof.
  intros Hr Hmove Hall.
  assert (Hup : forall (tasks : list (jsstring * task)) i tk,
            (forall x y, tasks !! x = Some y -> never_sent p y) -> never_sent p tk ->
            forall x y, <[i := tk]> tasks !! x = Some y -> never_sent p y).
  { intros tasks i tk Ht Htk x y. destruct (decide (x = i)) as [->|Hx].
    - intros Hy. apply list_lookup_insert_Some in Hy as [(_ & <- & _)|(Hne & _)];
        [exact Htk|congruence].
    - rewrite list_lookup_insert_ne by auto. apply Ht. }
  inversion Hmove; subst;
    try (match goal with
         | H : t_tasks s !! _ = Some (_, Sending _) |- _ => destruct (Hall _ _ H)
         | H : t_tasks s !! _ = Some (_, Sleeping _) |- _ => destruct (Hall _ _ H)
         end).
  - rewrite H2. apply Hup; [exact Hall|]. exact (Hall _ _ H).
  - rewrite H4. apply Hup; [apply Hup; [exact Hall|exact (Hall _ _ H)]|].
    destruct H3 as [(Hlt & _)|(_ & -> & _)]; [lia|reflexivity].
Qed.

Lemma processTitanEmbeddings_never_sent (p : Provider) (texts : list jsstring)
    (model : jsstring) :
  p_maxRetries p <= 0 ->
  forall i tk, t_tasks (processTitanEmbeddings p texts model) !! i = Some tk -> never_sent p tk.
Proof.
  intros Hr. unfold processTitanEmbeddings. cbn [observe t_tasks].
  set (s0 := {| t_model := model; t_tasks := map (fun text => (text, Parked)) texts |}).
  apply (fold_spawn_preserves p texts
           (fun n s => (forall i tk, t_tasks s !! i = Some tk -> never_sent p tk) /\
                       exists k, titan_started n k s))
      with (k := 0%nat) (s := s0); [| apply titan_initial_inv | | reflexivity].
  - intros n s Hinv [Hall [k Hst]] Hn.
    destruct (spawn_started p texts n k s Hinv Hst Hn)
      as (text & Hlk & _ & _ & _ & [(_ & _ & H & st' & Hatt & Ht)|(_ & H & _ & Ht)]).
    + split; [|eauto]. rewrite Ht. intros i tk Hi.
      apply list_lookup_insert_Some in Hi as [(_ & <- & _)|(_ & Hi)]; [|eauto].
      destruct Hatt as [(Hlt & _)|(_ & -> & _)]; [lia|reflexivity].
    + split; [|eauto]. rewrite Ht. exact Hall.
  - split.
    + intros i tk Hi. apply parked_lookup in Hi. unfold never_sent. rewrite Hi. exact I.
    + exists 0%nat. split; [lia| |reflexivity].
      intros i tk Hi. apply parked_lookup in Hi. split; [lia|auto].
Qed.

(** ** One send per text *)

Lemma take_lookup_snoc {A} (l : list A) (k : nat) (x : A) :
  l !! k = Some x -> take (S k) l = take k l ++ [x].
Proof. intros H. apply take_S_r. exact H. Qed.

Lemma inv_text_lookup (p : Provider) (texts : list jsstring) (n : nat) (s : titan)
    (i : nat) (text : jsstring) (st : task) :
  titan_inv p texts n s -> t_tasks s !! i = Some (text, st) -> texts !! i = Some text.
Proof.
  intros Hinv Hi. rewrite <- (inv_texts _ _ _ _ Hinv).
  change (map fst (t_tasks s)) with (fst <$> t_tasks s).
  rewrite list_lookup_fmap, Hi. reflexivity.
Qed.

Lemma titan_step_in_order (p : Provider) (texts : list jsstring) (hist : list event)
    (s s' : titan) (ev : event) :
  0 < p_maxRetries p ->
  titan_inv p texts (length texts) s -> titan_ok hist s ->
  well_formed_answer p (TitanCall s) ev ->
  titan_in_order texts (length texts) s ->
  titan_step p s ev = Some s' ->
  titan_in_order texts (length texts) s'.
Proof.
  intros Hr Hinv Hok Hwf (k & Hst & Hcalls & Hdel) Hstep.
  pose proof (titan_step_move p texts s s' ev Hinv Hstep) as Hmove.
  pose proof (move_model p s s' ev Hmove) as Hmodel.
  destruct (move_started p _ k s s' ev Hmove Hst)
    as [(H & Hc & Hd)|[(H & _ & _ & i & r & ->)|[(H & i & ->)|(next & st' & H & Hk & Hatt & Hd)]]].
  - exists k. rewrite Hc, Hd, Hmodel. auto.
  - destruct Hwf.
  - cbn [titan_step] in Hstep.
    destruct (t_tasks s !! i) as [[text [|a|a|r'|r']]|] eqn:Hi; try discriminate.
    destruct (ok_tasks _ _ Hok i _ Hi).
  - exists (S k). split; [exact H|]. split; [|congruence].
    destruct Hatt as [(_ & _ & ->)|(Hge & _)]; [|lia].
    rewrite Hcalls, Hmodel.
    rewrite (take_lookup_snoc texts k next) by (eapply inv_text_lookup; eauto).
    rewrite map_app. reflexivity.
Qed.

Lemma processTitanEmbeddings_in_order (p : Provider) (texts : list jsstring) (model : jsstring) :
  0 < p_maxRetries p ->
  titan_in_order texts (length texts) (processTitanEmbeddings p texts model).
Proof.
  intros Hr. unfold processTitanEmbeddings.
  set (s0 := {| t_model := model; t_tasks := map (fun text => (text, Parked)) texts |}).
  assert (H : titan_in_order texts (length texts)
                (fold_left (spawn p) (seq 0 (length texts)) s0)).
  { apply (fold_spawn_preserves p texts (fun n s => titan_in_order texts n s))
      with (k := 0%nat); [| apply titan_initial_inv | | reflexivity].
    - intros n s Hinv (k & Hst & Hcalls & Hdel) Hn.
      destruct (spawn_started p texts n k s Hinv Hst Hn)
        as (text & Hlk & Hm & Hd & _ & [(_ & -> & H & st' & Hatt & Ht)|(_ & H & Hc & Ht)]).
      + exists (S n). split; [exact H|]. split; [|congruence].
        destruct Hatt as [(_ & _ & ->)|(Hge & _)]; [|lia].
        rewrite Hcalls, Hm.
        rewrite (take_lookup_snoc texts n text) by (eapply inv_text_lookup; eauto).
        rewrite map_app. reflexivity.
      + exists k. rewrite Hc, Hd, Hm. auto.
    - exists 0%nat. split; [|auto]. split; [lia| |reflexivity].
      intros i tk Hi. apply parked_lookup in Hi. split; [lia|auto]. }
  destruct H as (k & [Hle Hpark Hwait] & Hc & Hd). exists k. split; [split; auto|auto].
Qed.

Lemma titan_wf_run_preserves (p : Provider) (texts : list jsstring) (P : titan -> Prop) :
  0 < p_maxRetries p ->
  (forall hist s s' ev, titan_inv p texts (length texts) s -> titan_ok hist s ->
     well_formed_answer p (TitanCall s) ev -> P s ->
     titan_step p s ev = Some s' -> P s') ->
  forall (evs hist : list event) (s : titan) (inv : invocation),
  titan_inv p texts (length texts) s -> titan_ok hist s -> P s ->
  well_formed_run p (TitanCall s) evs ->
  run p (TitanCall s) evs = Some inv ->
  exists s', inv = TitanCall s' /\ titan_inv p texts (length texts) s' /\
             titan_ok (hist ++ evs) s' /\ P s'.
Proof.
  intros Hr Hstep. induction evs as [|ev evs IH]; intros hist s inv Hinv Hok HP;
    cbn [run step well_formed_run].
  - intros _ [= <-]. rewrite app_nil_r. eauto.
  - intros [Hwf Hrest].
    destruct (titan_step p s ev) as [s1|] eqn:Hs1; cbn in *; [|discriminate].
    intros Hrun.
    destruct (IH (hist ++ [ev]) s1 inv) as (s' & -> & Hinv' & Hok' & HP'); auto.
    + eapply titan_step_inv; eauto.
    + eapply titan_step_ok; eauto.
    + eapply Hstep; eauto.
    + exists s'. rewrite <- app_assoc in Hok'. auto.
Qed.

(** ** Rounding up *)

Lemma Math_ceil_div_spec (a b : Z) :
  0 < b -> b * (Math_ceil_div a b - 1) < a <= b * Math_ceil_div a b.
Proof.
  intros Hb. unfold Math_ceil_div.
  pose proof (Z.div_mod a b ltac:(lia)) as Hdm.
  pose proof (Z.mod_pos_bound a b Hb) as Hm.
  destruct (Z.eqb_spec (a mod b) 0); nia.
Qed.

Lemma Math_ceil_div_unique (a b q : Z) :
  0 < b -> b * (q - 1) < a <= b * q -> Math_ceil_div a b = q.
Proof.
  intros Hb Hq. pose proof (Math_ceil_div_spec a b Hb) as Hs. nia.
Qed.

Lemma batches_from_step (p : Provider) (texts : list jsstring) (c : Z) :
  0 < p_batchSize p -> c < array_length texts ->
  batches_from p texts c = 1 + batches_from p texts (c + p_batchSize p).
Proof.
  intros Hb Hc. unfold batches_from. apply Math_ceil_div_unique; [exact Hb|].
  pose proof (Math_ceil_div_spec (Z.max 0 (array_length texts - (c + p_batchSize p)))
                (p_batchSize p) Hb) as Hs.
  set (q := Math_ceil_div _ _) in *.
  assert (Hq0 : array_length texts - (c + p_batchSize p) <= 0 -> q = 0).
  { intros Hle. rewrite Z.max_l in Hs by lia. nia. }
  destruct (Z.le_gt_cases (array_length texts - (c + p_batchSize p)) 0) as [Hle|Hgt].
  - rewrite (Hq0 Hle). rewrite Z.max_r by lia. lia.
  - rewrite Z.max_r in Hs by lia. rewrite Z.max_r by lia. lia.
Qed.

Lemma batches_from_nonneg (p : Provider) (texts : list jsstring) (c : Z) :
  0 < p_batchSize p -> 0 <= batches_from p texts c.
Proof.
  intros Hb. unfold batches_from.
  pose proof (Math_ceil_div_spec (Z.max 0 (array_length texts - c)) (p_batchSize p) Hb). nia.
Qed.

Lemma batches_from_start (p : Provider) (texts : list jsstring) :
  batches_from p texts 0 = Math_ceil_div (array_length texts) (p_batchSize p).
Proof.
  unfold batches_from, array_length. f_equal. lia.
Qed.

(** ** The sends a Cohere invocation can still make *)

Lemma cohere_attempt_budget (p : Provider) (texts : list jsstring) (a : Z) (s : cohere)
    (before : Z) :
  Forall (backoff_delay p) (c_delays s) ->
  0 <= a -> p_maxRetries p - a <= before ->
  (a < p_maxRetries p ->
   Z.of_nat (length (c_calls s)) + before
     + p_maxRetries p * batches_from p texts (c_i s + p_batchSize p)
     <= p_maxRetries p * batches_from p texts 0) ->
  (p_maxRetries p <= a ->
   Z.of_nat (length (c_calls s)) <= Z.max 0 (p_maxRetries p) * batches_from p texts 0) ->
  cohere_budget p texts (cohere_attempt p a s).
Proof.
  intros Hdel Ha Hbef Hle Hzero. unfold cohere_attempt, cohere_budget.
  destruct (Z.ltb_spec a (p_maxRetries p)) as [Hlt|Hge];
    cbn [cohere_with c_phase c_calls c_delays c_i]; rewrite !app_nil_r.
  - split; [exact Hdel|]. split; [lia|]. rewrite length_app. cbn [length].
    specialize (Hle Hlt). lia.
  - split; [exact Hdel|]. auto.
Qed.

Lemma cohere_done_budget (p : Provider) (texts : list jsstring) (s : cohere)
    (r : result EmbeddingResponse) (a : Z) :
  0 < p_batchSize p ->
  Forall (backoff_delay p) (c_delays s) ->
  0 <= a < p_maxRetries p ->
  Z.of_nat (length (c_calls s)) + (p_maxRetries p - 1 - a)
    + p_maxRetries p * batches_from p texts (c_i s + p_batchSize p)
    <= p_maxRetries p * batches_from p texts 0 ->
  cohere_budget p texts (cohere_with s (CohereDone r) [] []).
Proof.
  intros Hb Hdel Ha Hle. unfold cohere_budget.
  cbn [cohere_with c_phase c_calls c_delays]. rewrite !app_nil_r.
  split; [exact Hdel|].
  pose proof (batches_from_nonneg p texts (c_i s + p_batchSize p) Hb).
  rewrite Z.max_r by lia. nia.
Qed.

Lemma cohere_step_budget (p : Provider) (texts : list jsstring) (s s' : cohere) (ev : event) :
  0 < p_batchSize p ->
  cohere_inv p texts s -> cohere_budget p texts s ->
  cohere_step p s ev = Some s' -> cohere_budget p texts s'.
Proof.
  intros Hb (H1 & H2 & _ & H4) [Hdel Hbud]. unfold cohere_step.
  destruct (H2 Hb) as [Hi _].
  destruct ev as [[|i] r|[|i]|i]; destruct (c_phase s) as [a|a|r0] eqn:Hph; try discriminate.
  - destruct Hbud as [Ha Hle].
    destruct (after_send p a r) as [body|d|e] eqn:Hsend.
    + destruct (embedCohereBatch_result (cohere_batch p s) body) as [[xs tokens]|e];
        intros [= <-]; [|eapply cohere_done_budget; eauto].
      unfold cohere_loop. cbn [c_i c_texts]. rewrite H1.
      destruct (Z.ltb_spec (c_i s + p_batchSize p) (array_length texts)) as [Hlt|Hge].
      * apply cohere_attempt_budget with (before := p_maxRetries p);
          cbn [c_calls c_delays c_i]; auto; try lia.
        intros _.
        rewrite (batches_from_step p texts (c_i s + p_batchSize p) Hb Hlt) in Hle. lia.
      * unfold cohere_budget. cbn [cohere_with c_phase c_calls c_delays]. rewrite !app_nil_r.
        split; [exact Hdel|].
        pose proof (batches_from_nonneg p texts (c_i s + p_batchSize p) Hb).
        rewrite Z.max_r by lia. nia.
    + apply after_send_retry in Hsend as (Hlt & -> & _). intros [= <-].
      unfold cohere_budget. cbn [cohere_with c_phase c_calls c_delays c_i].
      rewrite !app_nil_r. split.
      * apply Forall_app. split; [exact Hdel|]. constructor; [|constructor].
        exists a. split; [lia|reflexivity].
      * split; [lia|exact Hle].
    + intros [= <-]. eapply cohere_done_budget; eauto.
  - destruct Hbud as [Ha Hle]. intros [= <-].
    apply cohere_attempt_budget with (before := p_maxRetries p - 1 - a); auto; lia.
Qed.

Lemma processCohereEmbeddings_budget (p : Provider) (texts : list jsstring) (model : jsstring) :
  0 < p_batchSize p ->
  cohere_budget p texts (processCohereEmbeddings p texts model).
Proof.
  intros Hb. unfold processCohereEmbeddings, cohere_loop. cbn [c_i c_texts].
  pose proof (batches_from_nonneg p texts 0 Hb) as H0.
  destruct (Z.ltb_spec 0 (array_length texts)) as [Hlt|Hge].
  - apply cohere_attempt_budget with (before := p_maxRetries p);
      cbn [c_calls c_delays c_i length]; auto; try lia.
    intros _. rewrite (batches_from_step p texts 0 Hb Hlt). lia.
  - unfold cohere_budget. cbn [cohere_with c_phase c_calls c_delays length app].
    split; [constructor|]. nia.
Qed.

(** ** One send per batch *)

Lemma cohere_wf_run_preserves (p : Provider) (P : list event -> cohere -> Prop) :
  (forall hist s s' ev, P hist s -> well_formed_answer p (CohereCall s) ev ->
     cohere_step p s ev = Some s' -> P (hist ++ [ev]) s') ->
  forall (evs hist : list event) (s : cohere) (inv : invocation),
  P hist s ->
  well_formed_run p (CohereCall s) evs ->
  run p (CohereCall s) evs = Some inv ->
  exists s', inv = CohereCall s' /\ P (hist ++ evs) s'.
Proof.
  intros Hstep. induction evs as [|ev evs IH]; intros hist s inv HP; cbn [run step well_formed_run].
  - intros _ [= <-]. rewrite app_nil_r. eauto.
  - intros [Hwf Hrest].
    destruct (cohere_step p s ev) as [s1|] eqn:Hs1; cbn in *; [|discriminate].
    intros Hrun.
    destruct (IH (hist ++ [ev]) s1 inv) as (s' & -> & HP'); eauto.
    exists s'. rewrite <- app_assoc in HP'. auto.
Qed.

Lemma cohere_step_in_order (p : Provider) (texts : list jsstring) (evs : list event)
    (s s' : cohere) (ev : event) :
  0 < p_batchSize p -> 0 < p_maxRetries p ->
  cohere_ok p texts evs s ->
  well_formed_answer p (CohereCall s) ev ->
  cohere_in_order p texts evs s ->
  cohere_step p s ev = Some s' ->
  cohere_in_order p texts (evs ++ [ev]) s'.
Proof.
  intros Hb Hr [H1 H2 H3 H4 H5 H6] Hwf [Hcalls Hdel]. unfold cohere_step.
  revert Hcalls.
  destruct (Z.ltb_spec (c_i s) (array_length texts)) as [Hlt|Hge];
    rewrite H6; [|destruct ev as [[|i] r|[|i]|i]; discriminate].
  intros Hcalls.
  destruct ev as [[|i] r|[|i]|i]; try discriminate.
  destruct r as [[response|]|e]; cbn in Hwf; try contradiction.
  destruct Hwf as (xs & Hxs & Hlen). cbn [after_send].
  unfold embedCohereBatch_result. rewrite Hxs. intros [= <-].
  unfold cohere_loop, cohere_in_order. cbn [c_i c_texts]. rewrite H1, length_app.
  cbn [length].
  destruct (Z.ltb_spec (c_i s + p_batchSize p) (array_length texts)) as [Hlt'|Hge'].
  - unfold cohere_attempt. destruct (Z.ltb_spec 0 (p_maxRetries p)); [|lia].
    cbn [cohere_with c_calls c_delays c_model c_i c_texts].
    destruct (Z.ltb_spec (c_i s + p_batchSize p) (array_length texts)); [|lia].
    rewrite Hcalls, Hdel. split; [|reflexivity].
    replace (length evs + 1 + 1)%nat with (S (length evs + 1)) by lia.
    rewrite seq_S, map_app. cbn [map]. f_equal. f_equal.
    unfold batch_request, cohere_batch. cbn [c_texts c_i]. rewrite ?H1, H2.
    replace (p_batchSize p * Z.of_nat (0 + (length evs + 1)))
      with (p_batchSize p * Z.of_nat (length evs) + p_batchSize p) by lia.
    reflexivity.
  - cbn [cohere_with c_calls c_delays c_model c_i c_texts].
    destruct (Z.ltb_spec (c_i s + p_batchSize p) (array_length texts)); [lia|].
    rewrite Hcalls, Hdel, !app_nil_r. split; [|reflexivity].
    replace (length evs + 1 + 0)%nat with (length evs + 1)%nat by lia. reflexivity.
Qed.

Lemma processCohereEmbeddings_in_order (p : Provider) (texts : list jsstring)
    (model : jsstring) :
  0 < p_maxRetries p ->
  cohere_in_order p texts [] (processCohereEmbeddings p texts model).
Proof.
  intros Hr. unfold processCohereEmbeddings, cohere_loop, cohere_in_order. cbn [c_i c_texts].
  destruct (Z.ltb_spec 0 (array_length texts)) as [Hlt|Hge].
  - unfold cohere_attempt. destruct (Z.ltb_spec 0 (p_maxRetries p)); [|lia].
    cbn [cohere_with c_calls c_delays c_model c_i c_texts length app].
    destruct (Z.ltb_spec 0 (array_length texts)); [|lia].
    split; [|reflexivity]. cbn [Nat.add seq map]. unfold batch_request, cohere_batch.
    cbn [c_texts c_i]. rewrite Z.mul_0_r. reflexivity.
  - cbn [cohere_with c_calls c_delays c_model c_i c_texts length app].
    destruct (Z.ltb_spec 0 (array_length texts)); [lia|]. split; reflexivity.
Qed.

Lemma cohere_step_model (p : Provider) (s s' : cohere) (ev : event) :
  cohere_step p s ev = Some s' -> c_model s' = c_model s.
Proof.
  unfold cohere_step.
  destruct ev as [[|i] r|[|i]|i]; destruct (c_phase s) as [a|a|r0]; try discriminate.
  - destruct (after_send p a r) as [body|d|e].
    + destruct (embedCohereBatch_result (cohere_batch p s) body) as [[xs tokens]|e];
        intros [= <-]; [|reflexivity].
      unfold cohere_loop, cohere_attempt. cbn [c_i c_texts].
      destruct (_ <? _); [destruct (_ <? _)|]; reflexivity.
    + intros [= <-]. reflexivity.
    + intros [= <-]. reflexivity.
  - intros [= <-]. unfold cohere_attempt. destruct (_ <? _); reflexivity.
Qed.

(** The batches in order are the texts. *)
Lemma concat_batches {A} (l : list A) (b : Z) (n : nat) :
  0 < b ->
  concat (map (fun k : nat => slice l (b * Z.of_nat k) (b * Z.of_nat k + b)) (seq 0 n))
  = take (Z.to_nat (b * Z.of_nat n)) l.
Proof.
  intros Hb. induction n as [|n IH].
  - cbn [seq map concat]. rewrite Z.mul_0_r. reflexivity.
  - rewrite seq_S, map_app, concat_app, IH. cbn [map concat Nat.add]. rewrite app_nil_r.
    replace (b * Z.of_nat (S n)) with (b * Z.of_nat n + b) by lia.
    rewrite take_batch by lia. reflexivity.
Qed.

(** ** A batch size that is not positive *)

Lemma cohere_step_spinning (p : Provider) (texts : list jsstring) (evs : list event)
    (s s' : cohere) (ev : event) :
  p_batchSize p <= 0 -> 0 < p_maxRetries p -> texts <> [] ->
  cohere_spinning texts evs s ->
  well_formed_answer p (CohereCall s) ev ->
  cohere_step p s ev = Some s' ->
  cohere_spinning texts (evs ++ [ev]) s'.
Proof.
  intros Hb Hr Hne (H1 & H2 & H3 & H4) Hwf. unfold cohere_step. rewrite H3.
  destruct ev as [[|i] r|[|i]|i]; try discriminate.
  destruct r as [[response|]|e]; cbn in Hwf; try contradiction.
  destruct Hwf as (xs & Hxs & Hlen). cbn [after_send].
  unfold embedCohereBatch_result. rewrite Hxs. intros [= <-].
  assert (Hpos : 0 < array_length texts).
  { unfold array_length. destruct texts; [congruence|cbn; lia]. }
  unfold cohere_loop, cohere_spinning. cbn [c_i c_texts]. rewrite H1.
  destruct (Z.ltb_spec (c_i s + p_batchSize p) (array_length texts)); [|lia].
  unfold cohere_attempt. destruct (Z.ltb_spec 0 (p_maxRetries p)); [|lia].
  cbn [cohere_with c_calls c_texts c_i c_phase].
  rewrite !length_app, H4. cbn [length]. repeat split; auto; lia.
Qed.

Lemma processCohereEmbeddings_spinning (p : Provider) (texts : list jsstring)
    (model : jsstring) :
  0 < p_maxRetries p -> texts <> [] ->
  cohere_spinning texts [] (processCohereEmbeddings p texts model).
Proof.
  intros Hr Hne.
  assert (Hpos : 0 < array_length texts).
  { unfold array_length. destruct texts; [congruence|cbn; lia]. }
  unfold processCohereEmbeddings, cohere_loop, cohere_spinning. cbn [c_i c_texts].
  destruct (Z.ltb_spec 0 (array_length texts)); [|lia].
  unfold cohere_attempt. destruct (Z.ltb_spec 0 (p_maxRetries p)); [|lia].
  cbn. repeat split; auto; lia.
Qed.

(** ** Invocations: what the configuration allows *)

Lemma fold_spawn_all (p : Provider) (ks : list nat) :
  forall s, t_all (fold_left (spawn p) ks s) = t_all s.
Proof.
  induction ks as [|k ks IH]; intros s; cbn [fold_left]; [reflexivity|].
  rewrite IH. unfold spawn. destruct (acquire (t_sem s) k) as [sem [|]];
    [rewrite titan_attempt_all|]; reflexivity.
Qed.

Lemma mapM_fulfilled_parked (texts : list jsstring) :
  texts <> [] -> mapM fulfilled (map (fun text => (text, Parked)) texts) = None.
Proof. destruct texts as [|t texts]; [congruence|reflexivity]. Qed.

(** X7.  A Titan invocation on a provider whose [maxConcurrency] is not
    positive never starts a text: at its first suspension every callback
    is parked, no request has been sent, the promise is pending, and no
    event can follow, so it stays pending for ever. *)
Theorem titan_without_permits (p : Provider) (texts : list jsstring)
    (model : option jsstring) :
  isTitanModel (modelToUse p model) = true ->
  p_maxConcurrency p <= 0 ->
  texts <> [] ->
  let inv := createEmbeddings p texts model in
  outcome inv = None /\ calls inv = [] /\ in_flight inv = 0 /\
  (forall ev, step p inv ev = None) /\
  (forall evs inv', run p inv evs = Some inv' -> evs = [] /\ inv' = inv).
Proof.
  intros Hm Hmc Hne inv. subst inv. unfold createEmbeddings. rewrite Hm.
  set (m := modelToUse p model).
  set (s0 := {| t_model := m; t_sem := new_Semaphore (p_maxConcurrency p);
                t_tasks := map (fun text => (text, Parked)) texts;
                t_totalTokens := 0; t_calls := []; t_delays := []; t_all := None |}).
  assert (Hfold : t_calls (fold_left (spawn p) (seq 0 (length texts)) s0) = [] /\
                  t_tasks (fold_left (spawn p) (seq 0 (length texts)) s0)
                  = map (fun text => (text, Parked)) texts).
  { apply (fold_spawn_preserves p texts
             (fun n s => (t_calls s = [] /\
                          t_tasks s = map (fun text => (text, Parked)) texts) /\
                         exists k, titan_started n k s))
      with (k := 0%nat) (s := s0); [| apply titan_initial_inv | | reflexivity].
    - intros n s Hinv [[Hc Ht] [k Hst]] Hn.
      destruct (spawn_started p texts n k s Hinv Hst Hn)
        as (text & _ & _ & _ & _ & [(Hp & _)|(_ & H & Hc' & Ht')]).
      + pose proof (inv_permits _ _ _ _ Hinv) as Hperm.
        rewrite Ht, count_executing_parked in Hperm. lia.
      + split; [|eauto]. rewrite Hc', Ht'. auto.
    - split; [split; reflexivity|]. exists 0%nat. split; [lia| |reflexivity].
      intros i tk Hi. apply parked_lookup in Hi. split; [lia|auto]. }
  destruct Hfold as [Hcalls Htasks].
  assert (Hstuck : forall ev, step p (TitanCall (processTitanEmbeddings p texts m)) ev = None).
  { intros ev. cbn [step]. unfold processTitanEmbeddings, titan_step.
    cbn [observe t_tasks]. fold s0. rewrite Htasks.
    destruct ev as [i r|i|i];
      (destruct (map (fun text => (text, Parked)) texts !! i) as [[text st]|] eqn:Hi;
       [apply parked_lookup in Hi; cbn in Hi; subst st|]); reflexivity. }
  split; [|split; [|split; [|split]]].
  - cbn [outcome]. unfold titan_outcome, processTitanEmbeddings. cbn [observe t_all].
    fold s0. unfold promise_all. rewrite fold_spawn_all, Htasks.
    cbn [s0 t_all]. rewrite mapM_fulfilled_parked by exact Hne. reflexivity.
  - cbn [calls]. unfold processTitanEmbeddings. cbn [observe t_calls]. exact Hcalls.
  - cbn [in_flight]. unfold processTitanEmbeddings. cbn [observe t_tasks]. fold s0.
    rewrite Htasks. unfold count. clear. induction texts as [|t texts IH]; [reflexivity|].
    cbn [map sumZ is_sending snd]. rewrite IH. reflexivity.
  - exact Hstuck.
  - intros [|ev evs] inv'; cbn [run].
    + intros [= <-]. auto.
    + rewrite Hstuck. discriminate.
Qed.

(** X8.  Texts start in input order.  In every state a Titan
    invocation can reach, whatever the transport does and in whatever
    order its events arrive, some prefix of the texts has started and the
    others are parked, queued in input order; and while a text is parked
    on a provider with [maxConcurrency >= 1], exactly [maxConcurrency]
    bodies are executing. *)
Theorem titan_texts_start_in_order (p : Provider) (texts : list jsstring)
    (model : option jsstring) (evs : list event) (inv : invocation) :
  isTitanModel (modelToUse p model) = true ->
  run p (createEmbeddings p texts model) evs = Some inv ->
  exists s k,
    inv = TitanCall s /\ (k <= length texts)%nat /\
    (forall i text st, t_tasks s !! i = Some (text, st) -> (st = Parked <-> (k <= i)%nat)) /\
    waiting (t_sem s) = seq k (length texts - k) /\
    (0 < p_maxConcurrency p -> (k < length texts)%nat ->
     permits (t_sem s) = 0 /\ count is_executing (t_tasks s) = p_maxConcurrency p).
Proof.
  intros Hm. unfold createEmbeddings. rewrite Hm. intros Hrun.
  destruct (titan_run_preserves p texts (fun s => exists k, titan_started (length texts) k s)
              (titan_step_started p texts) evs _ inv
              (processTitanEmbeddings_inv p texts _)
              (processTitanEmbeddings_started p texts _) Hrun)
    as (s & -> & Hinv & k & [Hle Hpark Hwait]).
  exists s, k. split; [reflexivity|]. split; [exact Hle|]. split; [|split; [exact Hwait|]].
  - intros i text st Hi. exact (Hpark i _ Hi).
  - intros Hmc Hk.
    assert (Hw : waiting (t_sem s) <> []).
    { rewrite Hwait. destruct (length texts - k)%nat eqn:Hd; [lia|discriminate]. }
    pose proof (inv_full _ _ _ _ Hinv Hw) as Hfull.
    pose proof (inv_permits _ _ _ _ Hinv) as Hperm.
    destruct (inv_nonneg _ _ _ _ Hinv) as [H0|H0]; lia.
Qed.

Lemma step_budget (p : Provider) (texts : list jsstring) (inv inv' : invocation) (ev : event) :
  0 < p_batchSize p \/ (forall s, inv <> CohereCall s) ->
  invocation_inv p texts inv ->
  match inv with
  | TitanCall s => titan_budget p s
  | CohereCall s => cohere_budget p texts s
  | Rejected _ => True
  end ->
  step p inv ev = Some inv' ->
  match inv' with
  | TitanCall s => titan_budget p s
  | CohereCall s => cohere_budget p texts s
  | Rejected _ => True
  end /\ (0 < p_batchSize p \/ (forall s, inv' <> CohereCall s)).
Proof.
  intros Hb Hinv Hbud. destruct inv as [s|s|e]; cbn [step invocation_inv] in *.
  - destruct (titan_step p s ev) as [s'|] eqn:Hs; cbn; [|discriminate]. intros [= <-].
    split; [eapply titan_step_budget; eauto|]. right. discriminate.
  - destruct Hb as [Hb|Hb]; [|destruct (Hb s eq_refl)].
    destruct (cohere_step p s ev) as [s'|] eqn:Hs; cbn; [|discriminate]. intros [= <-].
    split; [eapply cohere_step_budget; eauto|]. left. exact Hb.
  - discriminate.
Qed.

(** X9.  However the transport behaves, an invocation sends at most
    [maxRetries] requests for each of its logical calls: at most
    [texts.length * maxRetries] for a Titan model and, with a positive
    batch size, at most [ceil(texts.length / batchSize) * maxRetries] for a
    Cohere model; none at all when [maxRetries] is not positive.  Every
    delay it awaits is [INITIAL_RETRY_DELAY_MS * 2 ^ a] for an attempt
    number [0 <= a < maxRetries - 1]. *)
Theorem sends_within_budget (p : Provider) (texts : list jsstring)
    (model : option jsstring) (evs : list event) (inv : invocation) :
  isTitanModel (modelToUse p model) = true \/ 0 < p_batchSize p ->
  run p (createEmbeddings p texts model) evs = Some inv ->
  Z.of_nat (length (calls inv)) <= logical_calls p texts inv * Z.max 0 (p_maxRetries p) /\
  Forall (backoff_delay p) (delays inv).
Proof.
  intros Hb Hrun.
  assert (Hgen : forall evs inv0 inv,
            (0 < p_batchSize p \/ (forall s, inv0 <> CohereCall s)) ->
            invocation_inv p texts inv0 ->
            match inv0 with
            | TitanCall s => titan_budget p s
            | CohereCall s => cohere_budget p texts s
            | Rejected _ => True
            end ->
            run p inv0 evs = Some inv ->
            invocation_inv p texts inv /\
            (0 < p_batchSize p \/ (forall s, inv <> CohereCall s)) /\
            match inv with
            | TitanCall s => titan_budget p s
            | CohereCall s => cohere_budget p texts s
            | Rejected _ => True
            end).
  { clear. induction evs as [|ev evs IH]; intros inv0 inv Hb Hinv Hbud; cbn [run].
    - intros [= <-]. auto.
    - destruct (step p inv0 ev) as [inv1|] eqn:Hstep; [|discriminate].
      destruct (step_budget p texts inv0 inv1 ev Hb Hinv Hbud Hstep) as [Hbud1 Hb1].
      apply IH; auto. eapply step_inv; eauto. }
  destruct (Hgen evs (createEmbeddings p texts model) inv) as (Hinv & Hb' & Hbud);
    [| apply createEmbeddings_inv | | exact Hrun |].
  - unfold createEmbeddings. destruct Hb as [Hm|Hb]; [rewrite Hm; right; discriminate|].
    left. exact Hb.
  - unfold createEmbeddings. destruct (isTitanModel (modelToUse p model)).
    + apply processTitanEmbeddings_budget.
    + destruct (isCohereModel (modelToUse p model)); [|exact I].
      destruct Hb as [Hm|Hb]; [discriminate|]. apply processCohereEmbeddings_budget. exact Hb.
  - destruct inv as [s|s|e]; cbn [calls delays logical_calls invocation_inv] in *.
    + destruct Hbud as [Hatt Hcalls Hdel]. split; [|exact Hdel].
      assert (Hsum : 0 <= sumZ (task_budget p) (t_tasks s)).
      { assert (Hall : forall l : list (jsstring * task),
                  (forall i tk, l !! i = Some tk -> attempt_in_range p tk) ->
                  0 <= sumZ (task_budget p) l).
        { induction l as [|tk l IHl]; intros Hl; cbn [sumZ]; [lia|].
          assert (0 <= sumZ (task_budget p) l) by (apply IHl; intros i; apply (Hl (S i))).
          pose proof (Hl 0%nat tk eq_refl) as Hr. revert Hr.
          unfold attempt_in_range. unfold task_budget at 1. destruct (snd tk); lia. }
        apply Hall. exact Hatt. }
      rewrite <- (inv_texts _ _ _ _ Hinv). unfold array_length. rewrite length_map. lia.
    + destruct Hb' as [Hb'|Hb']; [|destruct (Hb' s eq_refl)].
      destruct Hbud as [Hdel Hbud]. split; [|exact Hdel].
      rewrite <- batches_from_start.
      pose proof (batches_from_nonneg p texts 0 Hb') as H0.
      pose proof (batches_from_nonneg p texts (c_i s + p_batchSize p) Hb') as H1.
      destruct (c_phase s) as [a|a|r].
      * destruct Hbud as [Ha Hle]. rewrite Z.max_r by lia. nia.
      * destruct Hbud as [Ha Hle]. rewrite Z.max_r by lia. nia.
      * lia.
    + split; [cbn; lia|constructor].
Qed.

(** ** Invocations answered well: the requests *)

Lemma titan_calls_in_order (p : Provider) (texts : list jsstring) (m : jsstring)
    (evs : list event) (inv : invocation) :
  0 < p_maxRetries p ->
  well_formed_run p (TitanCall (processTitanEmbeddings p texts m)) evs ->
  run p (TitanCall (processTitanEmbeddings p texts m)) evs = Some inv ->
  exists s k,
    inv = TitanCall s /\ (k <= length texts)%nat /\
    t_calls s = map (TitanRequest m) (take k texts) /\ t_delays s = [] /\
    (titan_outcome s <> None -> k = length texts).
Proof.
  intros Hr Hwf Hrun.
  destruct (titan_wf_run_preserves p texts
              (fun s => titan_in_order texts (length texts) s /\ t_model s = m) Hr)
    with (evs := evs) (hist := @nil event) (s := processTitanEmbeddings p texts m) (inv := inv)
    as (s & -> & Hinv & Hok & (k & Hst & Hcalls & Hdel) & Hmodel).
  - intros hist s s' ev Hinv Hok Hwf' [Hord Hmodel] Hstep. split.
    + eapply titan_step_in_order; eauto.
    + rewrite <- Hmodel. eapply move_model. eapply titan_step_move; eauto.
  - apply processTitanEmbeddings_inv.
  - apply processTitanEmbeddings_ok. exact Hr.
  - split; [apply processTitanEmbeddings_in_order; exact Hr|].
    unfold processTitanEmbeddings. cbn [observe t_model].
    assert (H : forall ks s, t_model (fold_left (spawn p) ks s) = t_model s).
    { induction ks as [|j ks IH]; intros s; cbn [fold_left]; [reflexivity|].
      rewrite IH. unfold spawn. destruct (acquire (t_sem s) j) as [sem [|]]; [|reflexivity].
      unfold titan_attempt. cbn [t_tasks t_model].
      destruct (t_tasks s !! j) as [[text st]|]; [|reflexivity].
      destruct (0 <? p_maxRetries p); reflexivity. }
    apply H.
  - exact Hwf.
  - exact Hrun.
  - exists s, k. split; [reflexivity|]. pose proof (st_le _ _ _ Hst) as Hle.
    split; [exact Hle|]. rewrite <- Hmodel. split; [exact Hcalls|]. split; [exact Hdel|].
    intros Hout. unfold titan_outcome in Hout.
    destruct (t_all s) as [[vs|e]|] eqn:Hall; [|destruct (ok_no_error _ _ Hok e Hall)|congruence].
    pose proof (inv_all_ok _ _ _ _ Hinv vs Hall) as Hm.
    destruct (Nat.eq_dec k (length texts)) as [|Hne]; [assumption|].
    assert (Hlt : (k < length (t_tasks s))%nat).
    { pose proof (f_equal length (inv_texts _ _ _ _ Hinv)) as Hl.
      rewrite length_map in Hl. lia. }
    destruct (lookup_lt_is_Some_2 _ _ Hlt) as [tk Hk].
    destruct (mapM_fulfilled_lookup _ _ _ _ Hm Hk) as [v Hv].
    pose proof (proj2 (st_parked _ _ _ Hst k tk Hk) (Nat.le_refl k)) as Hp. congruence.
Qed.

Lemma cohere_calls_in_order (p : Provider) (texts : list jsstring) (m : jsstring)
    (evs : list event) (inv : invocation) :
  0 < p_batchSize p -> 0 < p_maxRetries p ->
  well_formed_run p (CohereCall (processCohereEmbeddings p texts m)) evs ->
  run p (CohereCall (processCohereEmbeddings p texts m)) evs = Some inv ->
  exists s n,
    inv = CohereCall s /\
    (n <= Z.to_nat (Math_ceil_div (array_length texts) (p_batchSize p)))%nat /\
    c_calls s = map (batch_request p m texts) (seq 0 n) /\ c_delays s = [] /\
    (cohere_outcome s <> None ->
     n = Z.to_nat (Math_ceil_div (array_length texts) (p_batchSize p))).
Proof.
  intros Hb Hr Hwf Hrun.
  destruct (cohere_wf_run_preserves p
              (fun hist s => cohere_ok p texts hist s /\ cohere_in_order p texts hist s /\
                             c_model s = m))
    with (evs := evs) (hist := @nil event) (s := processCohereEmbeddings p texts m) (inv := inv)
    as (s & -> & Hok & [Hcalls Hdel] & Hmodel).
  - intros hist s s' ev (Hok & Hord & Hmodel) Hwf' Hstep.
    split; [eapply cohere_step_ok; eauto|]. split; [eapply cohere_step_in_order; eauto|].
    rewrite <- Hmodel. eapply cohere_step_model; eauto.
  - split; [apply processCohereEmbeddings_ok; assumption|].
    split; [apply processCohereEmbeddings_in_order; assumption|].
    unfold processCohereEmbeddings, cohere_loop, cohere_attempt. cbn [c_i c_texts].
    destruct (_ <? _); [destruct (_ <? _)|]; reflexivity.
  - exact Hwf.
  - exact Hrun.
  - cbn [app] in *. pose proof (co_i _ _ _ _ Hok) as Hi.
    pose proof (co_last _ _ _ _ Hok) as Hlast. pose proof (co_phase _ _ _ _ Hok) as Hph.
    pose proof (Math_ceil_div_spec (array_length texts) (p_batchSize p) Hb) as Hceil.
    set (N := Math_ceil_div (array_length texts) (p_batchSize p)) in *.
    exists s. eexists. split; [reflexivity|]. rewrite <- Hmodel.
    split; [|split; [exact Hcalls|split; [exact Hdel|]]].
    + destruct (Z.ltb_spec (c_i s) (array_length texts)); nia.
    + unfold cohere_outcome. rewrite Hph.
      destruct (Z.ltb_spec (c_i s) (array_length texts)); [congruence|]. intros _. nia.
Qed.

(** X10.  When every send is answered well, an invocation sends each of
    its requests exactly once and in input order, however the answers of
    concurrent calls are interleaved: for a Titan model one request per
    text, for a Cohere model one request per batch of [batchSize]
    consecutive texts, the batches making up the texts in order.  At any
    moment the sends so far are a prefix of that list, no delay has been
    awaited, and when the promise settles the list is complete. *)
Theorem one_send_per_logical_call (p : Provider) (texts : list jsstring)
    (model : option jsstring) (evs : list event) (inv : invocation) :
  0 < p_maxRetries p -> 0 < p_batchSize p ->
  well_formed_run p (createEmbeddings p texts model) evs ->
  run p (createEmbeddings p texts model) evs = Some inv ->
  let expected := expected_calls p texts (modelToUse p model) inv in
  calls inv `prefix_of` expected /\
  delays inv = [] /\
  (outcome inv <> None -> calls inv = expected) /\
  (forall s, inv = CohereCall s ->
     concat (map (fun k : nat =>
                    slice texts (p_batchSize p * Z.of_nat k)
                          (p_batchSize p * Z.of_nat k + p_batchSize p))
               (seq 0 (Z.to_nat (Math_ceil_div (array_length texts) (p_batchSize p)))))
     = texts).
Proof.
  intros Hr Hb. unfold createEmbeddings.
  destruct (isTitanModel (modelToUse p model)) eqn:Ht;
    [|destruct (isCohereModel (modelToUse p model)) eqn:Hc].
  - intros Hwf Hrun.
    destruct (titan_calls_in_order p texts _ evs inv Hr Hwf Hrun)
      as (s & k & -> & Hle & Hcalls & Hdel & Hdone).
    cbn [expected_calls calls delays outcome]. rewrite Hcalls.
    split; [|split; [exact Hdel|split; [|discriminate]]].
    + exists (map (TitanRequest (modelToUse p model)) (drop k texts)).
      rewrite <- map_app, take_drop. reflexivity.
    + intros Hout. rewrite (Hdone Hout), firstn_all. reflexivity.
  - intros Hwf Hrun.
    destruct (cohere_calls_in_order p texts _ evs inv Hb Hr Hwf Hrun)
      as (s & n & -> & Hle & Hcalls & Hdel & Hdone).
    cbn [expected_calls calls delays outcome]. rewrite Hcalls.
    set (N := Z.to_nat (Math_ceil_div (array_length texts) (p_batchSize p))) in *.
    split; [|split; [exact Hdel|split]].
    + exists (map (batch_request p (modelToUse p model) texts) (seq n (N - n))).
      rewrite <- map_app. f_equal. replace N with (n + (N - n))%nat at 1 by lia.
      apply seq_app.
    + intros Hout. rewrite (Hdone Hout). reflexivity.
    + intros _ _. rewrite concat_batches by exact Hb. apply take_ge.
      pose proof (Math_ceil_div_spec (array_length texts) (p_batchSize p) Hb) as Hceil.
      unfold array_length in *. subst N. nia.
  - intros _ Hrun. destruct evs as [|ev evs]; cbn [run step] in Hrun; [|discriminate].
    injection Hrun as <-. cbn. split; [reflexivity|]. split; [reflexivity|].
    split; [reflexivity|discriminate].
Qed.

(** ** No attempt to make *)

Lemma titan_step_never_sent (p : Provider) (texts : list jsstring) (s s' : titan) (ev : event) :
  p_maxRetries p <= 0 ->
  titan_inv p texts (length texts) s ->
  (forall i tk, t_tasks s !! i = Some tk -> never_sent p tk) /\
    t_calls s = [] /\ t_delays s = [] /\ titan_error_source s ->
  titan_step p s ev = Some s' ->
  (forall i tk, t_tasks s' !! i = Some tk -> never_sent p tk) /\
    t_calls s' = [] /\ t_delays s' = [] /\ titan_error_source s'.
Proof.
  intros Hr Hinv (Hall & Hc & Hd & Hsrc) Hstep.
  pose proof (titan_step_move p texts s s' ev Hinv Hstep) as Hmove.
  split; [eapply move_never_sent; eauto|].
  split; [|split; [|eapply move_error_source; eauto]].
  - inversion Hmove; subst;
      try (match goal with
           | H : t_tasks s !! _ = Some (_, Sending _) |- _ => destruct (Hall _ _ H)
           | H : t_tasks s !! _ = Some (_, Sleeping _) |- _ => destruct (Hall _ _ H)
           end); [congruence|].
    destruct H3 as [(Hlt & _)|(_ & _ & ->)]; [lia|exact Hc].
  - inversion Hmove; subst;
      try (match goal with
           | H : t_tasks s !! _ = Some (_, Sending _) |- _ => destruct (Hall _ _ H)
           | H : t_tasks s !! _ = Some (_, Sleeping _) |- _ => destruct (Hall _ _ H)
           end); congruence.
Qed.

Lemma processTitanEmbeddings_quiet (p : Provider) (texts : list jsstring) (model : jsstring) :
  p_maxRetries p <= 0 ->
  t_calls (processTitanEmbeddings p texts model) = [] /\
  t_delays (processTitanEmbeddings p texts model) = [].
Proof.
  intros Hr. unfold processTitanEmbeddings. cbn [observe t_calls t_delays].
  set (s0 := {| t_model := model; t_tasks := map (fun text => (text, Parked)) texts |}).
  apply (fold_spawn_preserves p texts
           (fun n s => (t_calls s = [] /\ t_delays s = []) /\ exists k, titan_started n k s))
      with (k := 0%nat) (s := s0); [| apply titan_initial_inv | | reflexivity].
  - intros n s Hinv [[Hc Hd] [k Hst]] Hn.
    destruct (spawn_started p texts n k s Hinv Hst Hn)
      as (text & _ & _ & Hd' & _ & [(_ & _ & H & st' & Hatt & _)|(_ & H & Hc' & _)]).
    + split; [|eauto]. split; [|congruence].
      destruct Hatt as [(Hlt & _)|(_ & _ & ->)]; [lia|exact Hc].
    + split; [|eauto]. split; congruence.
  - split; [split; reflexivity|]. exists 0%nat. split; [lia| |reflexivity].
    intros i tk Hi. apply parked_lookup in Hi. split; [lia|auto].
Qed.

(** X11.  A provider whose [maxRetries] is not positive never sends: an
    invocation with a supported model and at least one text issues no
    request and awaits no delay, whatever events occur, and if its promise
    settles it is rejected with the [failedMaxAttempts] error. *)
Theorem without_attempts (p : Provider) (texts : list jsstring)
    (model : option jsstring) (evs : list event) (inv : invocation) :
  isTitanModel (modelToUse p model) = true \/ isCohereModel (modelToUse p model) = true ->
  p_maxRetries p <= 0 ->
  texts <> [] ->
  run p (createEmbeddings p texts model) evs = Some inv ->
  calls inv = [] /\ delays inv = [] /\
  forall r, outcome inv = Some r -> r = Err (FailedMaxAttempts (p_maxRetries p)).
Proof.
  intros Hm Hr Hne. unfold createEmbeddings.
  destruct (isTitanModel (modelToUse p model)) eqn:Ht.
  - intros Hrun.
    destruct (titan_run_preserves p texts
                (fun s => (forall i tk, t_tasks s !! i = Some tk -> never_sent p tk) /\
                          t_calls s = [] /\ t_delays s = [] /\ titan_error_source s))
      with (evs := evs) (s := processTitanEmbeddings p texts (modelToUse p model)) (inv := inv)
      as (s & -> & Hinv & Hns & Hc & Hd & Hsrc).
    + intros s s' ev Hinv HP Hstep. eapply titan_step_never_sent; eauto.
    + apply processTitanEmbeddings_inv.
    + split; [apply processTitanEmbeddings_never_sent; exact Hr|].
      destruct (processTitanEmbeddings_quiet p texts (modelToUse p model) Hr) as [Hc0 Hd0].
      split; [exact Hc0|]. split; [exact Hd0|].
      intros e He. destruct (processTitanEmbeddings_pending p texts _ e He).
    + exact Hrun.
    + cbn [calls delays outcome]. split; [exact Hc|]. split; [exact Hd|].
      intros r. unfold titan_outcome.
      destruct (t_all s) as [[vs|e]|] eqn:Hall; [| |discriminate].
      * pose proof (inv_all_ok _ _ _ _ Hinv vs Hall) as Hmap.
        assert (Hlen : (0 < length (t_tasks s))%nat).
        { rewrite <- (length_map fst), (inv_texts _ _ _ _ Hinv).
          destruct texts; [congruence|cbn; lia]. }
        destruct (lookup_lt_is_Some_2 _ _ Hlen) as [tk Hk].
        destruct (mapM_fulfilled_lookup _ _ _ _ Hmap Hk) as [v Hv].
        pose proof (Hns 0%nat tk Hk) as Hbad.
        unfold never_sent in Hbad. rewrite Hv in Hbad. discriminate.
      * intros [= <-]. destruct (Hsrc e Hall) as (i & text & Hi).
        pose proof (Hns i _ Hi) as Hbad. cbn in Hbad. congruence.
  - destruct Hm as [Hm|Hm]; [discriminate|]. rewrite Hm.
    assert (Hpos : 0 < array_length texts).
    { unfold array_length. destruct texts; [congruence|cbn; lia]. }
    assert (Hstart : processCohereEmbeddings p texts (modelToUse p model)
                     = cohere_with
                         {| c_model := modelToUse p model; c_texts := texts; c_i := 0;
                            c_phase := CohereSending 0; c_allEmbeddings := [];
                            c_totalTokens := 0; c_calls := []; c_delays := [] |}
                         (CohereDone (Err (FailedMaxAttempts (p_maxRetries p)))) [] []).
    { unfold processCohereEmbeddings, cohere_loop, cohere_attempt. cbn [c_i c_texts].
      destruct (Z.ltb_spec 0 (array_length texts)); [|lia].
      destruct (Z.ltb_spec 0 (p_maxRetries p)); [lia|reflexivity]. }
    rewrite Hstart. intros Hrun.
    destruct evs as [|ev evs]; cbn [run step] in Hrun.
    + injection Hrun as <-. cbn. repeat split. intros r [= <-]. reflexivity.
    + rewrite (cohere_done_stuck p _ (Err (FailedMaxAttempts (p_maxRetries p)))) in Hrun
        by reflexivity.
      discriminate.
Qed.

(** X12.  A Cohere invocation whose [batchSize] is not positive never
    gets through its texts: with at least one text its promise is never
    fulfilled, whatever the transport does; and when every send is
    answered well (and [maxRetries >= 1]) it is never settled at all: each
    answer is followed by a further send, one more send than answers being
    out at any moment, and a further answer can always arrive. *)
Theorem cohere_batch_size_not_positive (p : Provider) (texts : list jsstring)
    (model : option jsstring) :
  isTitanModel (modelToUse p model) = false ->
  isCohereModel (modelToUse p model) = true ->
  p_batchSize p <= 0 ->
  texts <> [] ->
  (forall evs inv r,
     run p (createEmbeddings p texts model) evs = Some inv ->
     outcome inv <> Some (Ok r))
  /\ (0 < p_maxRetries p ->
      forall evs inv,
        well_formed_run p (createEmbeddings p texts model) evs ->
        run p (createEmbeddings p texts model) evs = Some inv ->
        outcome inv = None /\ length (calls inv) = S (length evs) /\
        exists ev, well_formed_answer p inv ev /\ is_Some (step p inv ev)).
Proof.
  intros Ht Hc Hb Hne.
  assert (Hpos : 0 < array_length texts).
  { unfold array_length. destruct texts; [congruence|cbn; lia]. }
  split.
  - intros evs inv r Hrun Hout.
    pose proof (run_inv p texts evs _ _ (createEmbeddings_inv p texts model) Hrun) as Hinv.
    destruct inv as [s|s|e]; cbn [outcome invocation_inv] in *.
    + revert Hrun. unfold createEmbeddings. rewrite Ht, Hc. intros Hrun.
      assert (Hk : forall evs inv0 inv, (forall s0, inv0 <> TitanCall s0) ->
                run p inv0 evs = Some inv -> forall s0, inv <> TitanCall s0).
      { clear. induction evs as [|ev evs IH]; intros inv0 inv H0; cbn [run].
        - intros [= <-]. exact H0.
        - destruct (step p inv0 ev) as [inv1|] eqn:Hstep; [|discriminate].
          apply IH. destruct inv0 as [s|s|e]; cbn [step] in Hstep.
          + destruct (H0 s eq_refl).
          + destruct (cohere_step p s ev); cbn in Hstep; [|discriminate].
            injection Hstep as <-. discriminate.
          + discriminate. }
      assert (Hno : forall s0, CohereCall (processCohereEmbeddings p texts (modelToUse p model))
                                <> TitanCall s0) by discriminate.
      destruct (Hk _ _ _ Hno Hrun s eq_refl).
    + unfold cohere_outcome in Hout. destruct Hinv as (_ & _ & H3 & H4).
      destruct (c_phase s) as [a|a|[r0|e]]; try discriminate.
      destruct H4 as [Hlen _]. destruct (H3 Hb) as [Hi _]. lia.
    + discriminate.
  - intros Hr evs inv. unfold createEmbeddings. rewrite Ht, Hc. intros Hwf Hrun.
    destruct (cohere_wf_run_preserves p (cohere_spinning texts))
      with (evs := evs) (hist := @nil event)
           (s := processCohereEmbeddings p texts (modelToUse p model)) (inv := inv)
      as (s & -> & H1 & H2 & H3 & H4).
    + intros hist s s' ev. apply cohere_step_spinning; assumption.
    + apply processCohereEmbeddings_spinning; assumption.
    + exact Hwf.
    + exact Hrun.
    + cbn [app] in H4. cbn [outcome calls step]. unfold cohere_outcome. rewrite H3.
      split; [reflexivity|]. split; [exact H4|].
      exists (Response 0 (SendOk (cohere_body (replicate (length (cohere_batch p s)) JNull)))).
      split.
      * cbn. eexists. split; [reflexivity|]. apply length_replicate.
      * unfold cohere_step. rewrite H3. cbn. eauto.
Qed.

(** ** Model families *)

Lemma startsWith_prefix (prefix : jsstring) :
  forall s, startsWith s prefix = true <-> exists rest, s = prefix ++ rest.
Proof.
  induction prefix as [|c prefix IH]; intros s.
  - cbn. split; [eauto|]. destruct s; reflexivity.
  - destruct s as [|d s]; cbn [startsWith app].
    + split; [discriminate|]. intros [rest H]. discriminate.
    + rewrite andb_true_iff, N.eqb_eq, IH. split.
      * intros [-> [rest ->]]. eauto.
      * intros [rest [= -> ->]]. eauto.
Qed.

(** X13.  A model id belongs to the Titan family exactly when it begins
    with [amazon.titan-embed-] and to the Cohere family exactly when it
    begins with [cohere.embed-], code unit for code unit; no model id
    belongs to both, so the order of the two tests in [createEmbeddings]
    does not matter. *)
Theorem model_families (model : jsstring) :
  (isTitanModel model = true <-> exists rest, model = lit "amazon.titan-embed-" ++ rest) /\
  (isCohereModel model = true <-> exists rest, model = lit "cohere.embed-" ++ rest) /\
  (isTitanModel model = true -> isCohereModel model = false) /\
  (isCohereModel model = true -> isTitanModel model = false).
Proof.
  unfold isTitanModel, isCohereModel.
  split; [apply startsWith_prefix|]. split; [apply startsWith_prefix|].
  destruct model as [|c model]; [split; discriminate|].
  cbn [lit list_ascii_of_string map startsWith].
  destruct (N.eqb_spec c (N_of_ascii "a")) as [->|Ha];
    destruct (N.eqb_spec (N_of_ascii "a") (N_of_ascii "c")) as [Hac|Hac];
    try discriminate; cbn [andb]; try (split; [reflexivity|discriminate]).
  destruct (N.eqb_spec c (N_of_ascii "c")); cbn [andb]; split; try discriminate; reflexivity.
Qed.

(** ** Usage *)

Lemma estimate_tokens_spec (text : jsstring) :
  str_length text <= 4 * estimate_tokens text <= str_length text + 3.
Proof.
  unfold estimate_tokens.
  pose proof (Math_ceil_div_spec (str_length text) 4 ltac:(lia)). lia.
Qed.

Lemma sum_tokens_bounds (texts : list jsstring) :
  sumZ str_length texts <= 4 * sum_tokens texts
    <= sumZ str_length texts + 3 * array_length texts.
Proof.
  unfold sum_tokens, array_length. induction texts as [|t texts IH]; cbn [sumZ length]; [lia|].
  pose proof (estimate_tokens_spec t). lia.
Qed.

Lemma usage_sum_tokens (p : Provider) (texts : list jsstring)
    (model : option jsstring) (evs : list event) (inv : invocation) (r : EmbeddingResponse) :
  run p (createEmbeddings p texts model) evs = Some inv ->
  outcome inv = Some (Ok r) ->
  promptTokens (usage r) = sum_tokens texts /\ totalTokens (usage r) = sum_tokens texts.
Proof.
  intros Hrun Hout.
  pose proof (run_inv p texts evs _ _ (createEmbeddings_inv p texts model) Hrun) as Hinv.
  destruct inv as [s|s|e]; cbn [outcome invocation_inv] in *; [| |discriminate].
  - unfold titan_outcome in Hout. destruct (t_all s) as [[vs|e]|] eqn:Hall; try discriminate.
    injection Hout as <-. cbn. split; eapply titan_tokens_when_fulfilled; eauto.
  - unfold cohere_outcome in Hout. destruct Hinv as (H1 & H2 & H3 & H4).
    destruct (c_phase s) as [a|a|r0]; try discriminate. injection Hout as ->.
    destruct H4 as [Hlen ->]. cbn.
    assert (Htok : c_totalTokens s = sum_tokens texts).
    { destruct (Z.lt_ge_cases 0 (p_batchSize p)) as [Hb|Hb].
      - destruct (H2 Hb) as [Hi ->]. rewrite take_ge; [reflexivity|].
        unfold array_length in Hlen. lia.
      - destruct (H3 Hb) as [Hi Hz]. unfold array_length in Hlen.
        assert (Hnil : texts = []) by (apply length_zero_iff_nil; lia).
        rewrite Hz by lia. rewrite Hnil. reflexivity. }
    auto.
Qed.

(** X14.  The usage a fulfilled invocation reports is an estimate within
    fixed bounds of the input size: four times [totalTokens] is at least
    the number of UTF-16 code units of all the texts and exceeds it by at
    most three per text; so it is zero exactly when every text is empty,
    and it does not depend on the answers, the batch size, the
    concurrency or the retries. *)
Theorem usage_within_bounds (p : Provider) (texts : list jsstring)
    (model : option jsstring) (evs : list event) (inv : invocation) (r : EmbeddingResponse) :
  run p (createEmbeddings p texts model) evs = Some inv ->
  outcome inv = Some (Ok r) ->
  promptTokens (usage r) = totalTokens (usage r) /\
  sumZ str_length texts <= 4 * totalTokens (usage r)
    <= sumZ str_length texts + 3 * array_length texts /\
  (totalTokens (usage r) = 0 <-> Forall (fun text => text = []) texts).
Proof.
  intros Hrun Hout.
  destruct (usage_sum_tokens p texts model evs inv r Hrun Hout) as [Hp Ht].
  rewrite Hp, Ht. split; [reflexivity|]. split; [apply sum_tokens_bounds|].
  clear. unfold sum_tokens. induction texts as [|t texts IH]; cbn [sumZ].
  - split; [constructor|reflexivity].
  - pose proof (estimate_tokens_spec t) as Ht.
    pose proof (sum_tokens_bounds texts) as Hs. unfold sum_tokens in Hs.
    assert (H0 : 0 <= sumZ str_length texts).
    { clear. induction texts as [|x texts IH]; cbn [sumZ]; unfold str_length in *; lia. }
    unfold str_length in Ht. split.
    + intros Hz. constructor.
      * destruct t; [reflexivity|]. cbn [length] in Ht. unfold array_length in Hs. lia.
      * apply IH. unfold array_length in Hs. cbn [length] in Ht. lia.
    + intros Hall. inversion Hall as [|? ? -> Hrest]; subst.
      apply IH in Hrest. rewrite Hrest. reflexivity.
Qed.

(** ** Where a rejection comes from: the events *)

Lemma call_error_explained_app (p : Provider) (model : jsstring) (evs more : list event)
    (e : EmbedError) :
  call_error_explained p model evs e -> call_error_explained p model (evs ++ more) e.
Proof.
  destruct e; cbn; auto.
  - intros (H1 & i & response & x & Hin & Hx). split; [exact H1|].
    exists i, response, x. split; [apply elem_of_app; auto|exact Hx].
  - intros (H0 & H1 & i & response & x & Hin & Hx). split; [exact H0|]. split; [exact H1|].
    exists i, response, x. split; [apply elem_of_app; auto|exact Hx].
  - intros (H1 & H2 & i & Hin). split; [exact H1|]. split; [exact H2|].
    exists i. apply elem_of_app; auto.
  - intros (i & Hin). exists i. apply elem_of_app; auto.
  - intros (i & Hin). exists i. apply elem_of_app; auto.
Qed.

Lemma titan_decode_explained (p : Provider) (model text : jsstring) (i : nat)
    (body : option json) (e : EmbedError) :
  isTitanModel model = true ->
  embedTitanText_result text body = Err e ->
  call_error_explained p model [Response i (SendOk body)] e.
Proof.
  intros Hm. unfold embedTitanText_result.
  destruct body as [response|];
    [|intros [= <-]; exists i; apply list_elem_of_singleton; reflexivity].
  destruct (get_property response "embedding") as [x|] eqn:Hx.
  - assert (Hbad : (forall xs, x <> Some (JArray xs)) ->
                   call_error_explained p model [Response i (SendOk (Some response))]
                     InvalidTitanResponse).
    { intros Hna. split; [exact Hm|]. exists i, response, x.
      split; [apply list_elem_of_singleton; reflexivity|]. split; [exact Hx|exact Hna]. }
    destruct x as [[| | | |xs|]|]; try discriminate; intros [= <-]; apply Hbad; discriminate.
  - intros [= <-]. exists i. destruct response; try discriminate.
    apply list_elem_of_singleton. reflexivity.
Qed.

Lemma cohere_decode_explained (p : Provider) (model : jsstring) (texts : list jsstring)
    (i : nat) (body : option json) (e : EmbedError) :
  isTitanModel model = false -> isCohereModel model = true ->
  embedCohereBatch_result texts body = Err e ->
  call_error_explained p model [Response i (SendOk body)] e.
Proof.
  intros Ht Hc. unfold embedCohereBatch_result.
  destruct body as [response|];
    [|intros [= <-]; exists i; apply list_elem_of_singleton; reflexivity].
  destruct (get_property response "embeddings") as [x|] eqn:Hx.
  - assert (Hbad : (forall xs, x <> Some (JArray xs)) ->
                   call_error_explained p model [Response i (SendOk (Some response))]
                     InvalidCohereResponse).
    { intros Hna. split; [exact Ht|]. split; [exact Hc|]. exists i, response, x.
      split; [apply list_elem_of_singleton; reflexivity|]. split; [exact Hx|exact Hna]. }
    destruct x as [[| | | |xs|]|]; try discriminate; intros [= <-]; apply Hbad; discriminate.
  - intros [= <-]. exists i. destruct response; try discriminate.
    apply list_elem_of_singleton. reflexivity.
Qed.

Lemma explained_last (p : Provider) (model : jsstring) (hist : list event) (ev : event)
    (e : EmbedError) :
  call_error_explained p model [ev] e -> call_error_explained p model (hist ++ [ev]) e.
Proof.
  destruct e; cbn; auto.
  - intros (H1 & i & response & x & Hin & Hx). split; [exact H1|].
    exists i, response, x. split; [apply elem_of_app; auto|exact Hx].
  - intros (H0 & H1 & i & response & x & Hin & Hx). split; [exact H0|]. split; [exact H1|].
    exists i, response, x. split; [apply elem_of_app; auto|exact Hx].
  - intros (H1 & H2 & i & Hin). split; [exact H1|]. split; [exact H2|].
    exists i. apply elem_of_app; auto.
  - intros (i & Hin). exists i. apply elem_of_app; auto.
  - intros (i & Hin). exists i. apply elem_of_app; auto.
Qed.

Lemma explained_insert (p : Provider) (model : jsstring) (evs : list event)
    (tasks : list (jsstring * task)) (i : nat) (tk : jsstring * task) :
  (forall x y e, tasks !! x = Some y -> task_error y = Some e ->
     call_error_explained p model evs e) ->
  (forall e, task_error tk = Some e -> call_error_explained p model evs e) ->
  forall x y e, <[i := tk]> tasks !! x = Some y -> task_error y = Some e ->
    call_error_explained p model evs e.
Proof.
  intros Hall Htk x y e Hx. apply list_lookup_insert_Some in Hx as [(_ & <- & _)|(_ & Hx)].
  - apply Htk.
  - eapply Hall; eauto.
Qed.

Lemma attempted_explained (p : Provider) (model text : jsstring) (a : Z) (st' : task)
    (calls calls' : list request) (evs : list event) (e : EmbedError) :
  attempted p model text a st' calls calls' ->
  (p_maxRetries p <= a -> p_maxRetries p <= 0) ->
  task_error (text, st') = Some e ->
  call_error_explained p model evs e.
Proof.
  intros [(_ & -> & _)|(Hge & -> & _)] Hr; cbn; [discriminate|].
  intros [= <-]. cbn. auto.
Qed.

Lemma move_explained (p : Provider) (hist : list event) (s s' : titan) (ev : event) :
  isTitanModel (t_model s) = true ->
  titan_move p s ev s' -> titan_budget p s ->
  titan_explained p hist s -> titan_explained p (hist ++ [ev]) s'.
Proof.
  intros Hm Hmove Hbud Hexp. pose proof (bud_attempts _ _ Hbud) as Hatt.
  pose proof (move_model p s s' ev Hmove) as Hmodel.
  assert (Hold : forall x y e, t_tasks s !! x = Some y -> task_error y = Some e ->
            call_error_explained p (t_model s) (hist ++ [ev]) e).
  { intros x y e Hx He. apply call_error_explained_app. eapply Hexp; eauto. }
  unfold titan_explained. rewrite Hmodel.
  inversion Hmove; subst.
  - rewrite H1. apply explained_insert; [exact Hold|].
    pose proof (Hatt i _ H) as Hr. cbn in Hr.
    intros e He. apply explained_last. unfold task_result in H0.
    destruct answer as [body|error].
    + destruct (embedTitanText_result text body) as [[v tokens]|e'] eqn:Hd; subst r;
        cbn in He; [discriminate|]. injection He as <-.
      eapply titan_decode_explained; eauto.
    + subst r. cbn in He. injection He as <-. cbn. split; [reflexivity|]. split; [lia|].
      exists i. apply list_elem_of_singleton. reflexivity.
  - rewrite H2. apply explained_insert; [exact Hold|]. cbn. discriminate.
  - rewrite H1. apply explained_insert; [exact Hold|].
    pose proof (Hatt i _ H) as Hr. cbn in Hr.
    intros e He. eapply attempted_explained; eauto. lia.
  - rewrite H2. apply explained_insert; [exact Hold|].
    intros e He. eapply (Hold i (text, Settled r)); eauto.
  - rewrite H4. apply explained_insert; [apply explained_insert; [exact Hold|]|].
    + intros e He. eapply (Hold i (text, Settled r)); eauto.
    + intros e He. eapply attempted_explained; eauto.
Qed.

Lemma processTitanEmbeddings_explained (p : Provider) (texts : list jsstring)
    (model : jsstring) :
  titan_explained p [] (processTitanEmbeddings p texts model).
Proof.
  unfold processTitanEmbeddings.
  set (s0 := {| t_model := model; t_tasks := map (fun text => (text, Parked)) texts |}).
  assert (H : titan_explained p [] (fold_left (spawn p) (seq 0 (length texts)) s0)).
  { apply (fold_spawn_preserves p texts
             (fun n s => titan_explained p [] s /\ exists k, titan_started n k s))
      with (k := 0%nat); [| apply titan_initial_inv | | reflexivity].
    - intros n s Hinv [Hexp [k Hst]] Hn.
      destruct (spawn_started p texts n k s Hinv Hst Hn)
        as (text & Hlk & Hm & _ & _ & [(_ & _ & H & st' & Hatt & Ht)|(_ & H & _ & Ht)]).
      + split; [|eauto]. unfold titan_explained. rewrite Ht, Hm.
        apply explained_insert; [exact Hexp|].
        intros e He. eapply attempted_explained; eauto.
      + split; [|eauto]. unfold titan_explained. rewrite Ht, Hm. exact Hexp.
    - split.
      + intros i tk e Hi. apply parked_lookup in Hi. unfold task_error. rewrite Hi. discriminate.
      + exists 0%nat. split; [lia| |reflexivity].
        intros i tk Hi. apply parked_lookup in Hi. split; [lia|auto]. }
  exact H.
Qed.

Lemma processTitanEmbeddings_model (p : Provider) (texts : list jsstring) (model : jsstring) :
  t_model (processTitanEmbeddings p texts model) = model.
Proof.
  unfold processTitanEmbeddings. cbn [observe t_model].
  assert (H : forall ks s, t_model (fold_left (spawn p) ks s) = t_model s).
  { induction ks as [|j ks IH]; intros s; cbn [fold_left]; [reflexivity|].
    rewrite IH. unfold spawn. destruct (acquire (t_sem s) j) as [sem [|]]; [|reflexivity].
    unfold titan_attempt. cbn [t_tasks t_model].
    destruct (t_tasks s !! j) as [[text st]|]; [|reflexivity].
    destruct (0 <? p_maxRetries p); reflexivity. }
  apply H.
Qed.

Lemma titan_run_hist_preserves (p : Provider) (texts : list jsstring)
    (P : list event -> titan -> Prop) :
  (forall hist s s' ev, titan_inv p texts (length texts) s -> P hist s ->
                        titan_step p s ev = Some s' -> P (hist ++ [ev]) s') ->
  forall (evs hist : list event) (s : titan) (inv : invocation),
  titan_inv p texts (length texts) s -> P hist s ->
  run p (TitanCall s) evs = Some inv ->
  exists s', inv = TitanCall s' /\ titan_inv p texts (length texts) s' /\ P (hist ++ evs) s'.
Proof.
  intros Hstep. induction evs as [|ev evs IH]; intros hist s inv Hinv HP; cbn [run step].
  - intros [= <-]. rewrite app_nil_r. eauto.
  - destruct (titan_step p s ev) as [s1|] eqn:Hs1; cbn; [|discriminate]. intros Hrun.
    destruct (IH (hist ++ [ev]) s1 inv) as (s' & -> & Hinv' & HP'); auto.
    + eapply titan_step_inv; eauto.
    + eapply Hstep; eauto.
    + exists s'. rewrite <- app_assoc in HP'. auto.
Qed.

Lemma cohere_run_hist_preserves (p : Provider) (P : list event -> cohere -> Prop) :
  (forall hist s s' ev, P hist s -> cohere_step p s ev = Some s' -> P (hist ++ [ev]) s') ->
  forall (evs hist : list event) (s : cohere) (inv : invocation),
  P hist s ->
  run p (CohereCall s) evs = Some inv ->
  exists s', inv = CohereCall s' /\ P (hist ++ evs) s'.
Proof.
  intros Hstep. induction evs as [|ev evs IH]; intros hist s inv HP; cbn [run step].
  - intros [= <-]. rewrite app_nil_r. eauto.
  - destruct (cohere_step p s ev) as [s1|] eqn:Hs1; cbn; [|discriminate]. intros Hrun.
    destruct (IH (hist ++ [ev]) s1 inv) as (s' & -> & HP'); eauto.
    exists s'. rewrite <- app_assoc in HP'. auto.
Qed.

Lemma cohere_attempt_explained (p : Provider) (evs : list event) (a : Z) (s : cohere) :
  0 <= a -> (p_maxRetries p <= a -> p_maxRetries p <= 0) ->
  cohere_explained p evs (cohere_attempt p a s).
Proof.
  intros Ha Hr. unfold cohere_attempt, cohere_explained.
  destruct (Z.ltb_spec a (p_maxRetries p)); cbn; [lia|auto].
Qed.

Lemma cohere_step_explained (p : Provider) (hist : list event) (s s' : cohere) (ev : event) :
  isTitanModel (c_model s) = false -> isCohereModel (c_model s) = true ->
  cohere_explained p hist s ->
  cohere_step p s ev = Some s' ->
  cohere_explained p (hist ++ [ev]) s'.
Proof.
  intros Ht Hc Hexp. unfold cohere_step. unfold cohere_explained in Hexp.
  destruct ev as [[|i] r|[|i]|i]; destruct (c_phase s) as [a|a|r0] eqn:Hph; try discriminate.
  - destruct (after_send p a r) as [body|d|e] eqn:Hsend.
    + apply after_send_return in Hsend as ->.
      destruct (embedCohereBatch_result (cohere_batch p s) body) as [[xs tokens]|e] eqn:Hd;
        intros [= <-].
      * unfold cohere_loop. cbn [c_i c_texts].
        destruct (_ <? _); [apply cohere_attempt_explained; lia|exact I].
      * unfold cohere_explained. cbn [cohere_with c_phase c_model].
        apply explained_last. eapply cohere_decode_explained; eauto.
    + apply after_send_retry in Hsend as (Hlt & -> & _). intros [= <-].
      unfold cohere_explained. cbn. lia.
    + apply after_send_failed in Hsend as (error & -> & ->). intros [= <-].
      unfold cohere_explained. cbn [cohere_with c_phase c_model call_error_explained].
      split; [reflexivity|]. split; [lia|]. exists 0%nat.
      apply elem_of_app. right. apply list_elem_of_singleton. reflexivity.
  - intros [= <-]. apply cohere_attempt_explained; lia.
Qed.

(** X15.  Every rejection of [createEmbeddings] has its reason in the
    configuration or in an answer of the transport.  The error is
    [unsupportedModel] only if the model in effect belongs to neither
    family, and then it names that model and no event has occurred; it is
    [failedMaxAttempts] only if [maxRetries] is not positive; it is an
    error formatted by [formatEmbeddingError], with [maxRetries] as its
    attempt count, only if the transport threw that very value at one of
    the sends; it is an invalid-response error of the model's family only
    if some answer carried something other than an array under
    [embedding] ([embeddings] for Cohere); a syntax error only if some
    answer could not be parsed, and a type error only if some answer was
    [null].  Conversely a model outside both families is rejected at
    once, before any request, and an empty [model] argument counts as
    absent. *)
Theorem rejections_have_a_reason (p : Provider) (texts : list jsstring)
    (model : option jsstring) :
  (forall evs inv e,
     run p (createEmbeddings p texts model) evs = Some inv ->
     outcome inv = Some (Err e) ->
     rejection_explained p (modelToUse p model) evs e) /\
  (isTitanModel (modelToUse p model) = false ->
   isCohereModel (modelToUse p model) = false ->
   outcome (createEmbeddings p texts model)
     = Some (Err (UnsupportedModel (modelToUse p model))) /\
   calls (createEmbeddings p texts model) = [] /\
   forall ev, step p (createEmbeddings p texts model) ev = None) /\
  createEmbeddings p texts (Some []) = createEmbeddings p texts None.
Proof.
  split; [|split; [|reflexivity]];
    [|intros Ht Hc; unfold createEmbeddings; rewrite Ht, Hc; cbn; auto].
  intros evs inv e. unfold createEmbeddings.
  destruct (isTitanModel (modelToUse p model)) eqn:Ht;
    [|destruct (isCohereModel (modelToUse p model)) eqn:Hc].
  - intros Hrun.
    destruct (titan_run_hist_preserves p texts
                (fun hist s => t_model s = modelToUse p model /\ titan_budget p s /\
                               titan_error_source s /\ titan_explained p hist s))
      with (evs := evs) (hist := @nil event)
           (s := processTitanEmbeddings p texts (modelToUse p model)) (inv := inv)
      as (s & -> & Hinv & Hmodel & Hbud & Hsrc & Hexp).
    + intros hist s s' ev Hinv (Hmodel & Hbud & Hsrc & Hexp) Hstep.
      pose proof (titan_step_move p texts s s' ev Hinv Hstep) as Hmove.
      split; [rewrite <- Hmodel; eapply move_model; eauto|].
      split; [eapply move_budget; eauto|]. split; [eapply move_error_source; eauto|].
      eapply move_explained; eauto. rewrite Hmodel. exact Ht.
    + apply processTitanEmbeddings_inv.
    + split; [apply processTitanEmbeddings_model|].
      split; [apply processTitanEmbeddings_budget|]. split.
      * intros e' He'. destruct (processTitanEmbeddings_pending p texts _ e' He').
      * apply processTitanEmbeddings_explained.
    + exact Hrun.
    + cbn [outcome app] in *. unfold titan_outcome.
      destruct (t_all s) as [[vs|e']|] eqn:Hall; try discriminate. intros [= <-].
      destruct (Hsrc e' Hall) as (i & text & Hi).
      pose proof (Hexp i _ e' Hi eq_refl) as He. rewrite Hmodel in He.
      unfold rejection_explained. destruct e'; try exact He. destruct He.
  - intros Hrun.
    destruct (cohere_run_hist_preserves p
                (fun hist s => c_model s = modelToUse p model /\ cohere_explained p hist s))
      with (evs := evs) (hist := @nil event)
           (s := processCohereEmbeddings p texts (modelToUse p model)) (inv := inv)
      as (s & -> & Hmodel & Hexp).
    + intros hist s s' ev (Hmodel & Hexp) Hstep.
      split; [rewrite <- Hmodel; eapply cohere_step_model; eauto|].
      eapply cohere_step_explained; eauto; rewrite Hmodel; assumption.
    + unfold processCohereEmbeddings, cohere_loop. cbn [c_i c_texts].
      destruct (_ <? _).
      * split; [|apply cohere_attempt_explained; lia].
        unfold cohere_attempt. destruct (_ <? _); reflexivity.
      * split; [reflexivity|exact I].
    + exact Hrun.
    + cbn [outcome app] in *. unfold cohere_outcome. unfold cohere_explained in Hexp.
      destruct (c_phase s) as [a|a|[r0|e']]; try discriminate. intros [= <-].
      rewrite Hmodel in Hexp. unfold rejection_explained. destruct e'; try exact Hexp.
      destruct Hexp.
  - intros Hrun. destruct evs as [|ev evs]; cbn [run step] in Hrun; [|discriminate].
    injection Hrun as <-. cbn [outcome]. intros [= <-]. cbn. auto.
Qed.

(** ** [validateConfiguration] *)

Lemma modelToUse_configured (p : Provider) : modelToUse p (Some (p_modelId p)) = p_modelId p.
Proof. unfold modelToUse. destruct (p_modelId p); reflexivity. Qed.

Lemma slice_single {A} (x : A) (b : Z) : 0 < b -> slice [x] (b * 0) (b * 0 + b) = [x].
Proof.
  intros Hb. rewrite Z.mul_0_r. rewrite slice_batch by lia.
  change (Z.to_nat 0) with 0%nat. cbn [drop].
  destruct (Z.to_nat b) as [|n] eqn:Hn; [lia|]. cbn [take]. rewrite take_nil. reflexivity.
Qed.

(** X16.  [validateConfiguration] probes the configured model with the
    single text ["test"]: the model in effect is the configured one even
    when it is empty.  It never raises: as soon as its embedding call has
    settled it has settled with a result object, [{ valid: true }] and
    nothing captured when the call was fulfilled, and [{ valid: false,
    error }] when the call was rejected, with the text
    [withValidationErrorHandling] gives for the error and one captured
    event that carries the message of the error (or its string form when
    it is not an [Error]), its stack and the location of the method.
    With a supported model, positive [maxRetries], [maxConcurrency] and
    [batchSize], and a transport that answers well, the probe costs
    exactly one request, carrying that text: no other request is ever
    sent, the validation cannot get stuck before it settles, and it
    settles with [{ valid: true }].  With a model outside both families
    it settles at once, without a request, with [{ valid: false, error }]
    for [unsupportedModel], reported once. *)
Theorem validation_probe (p : Provider) (view : EmbedError -> caught)
    (human_readable : EmbedError -> string) :
  modelToUse p (Some (p_modelId p)) = p_modelId p /\
  (forall inv,
     match outcome inv with
     | None => validateConfiguration view human_readable inv = None
     | Some (Ok _) =>
         validateConfiguration view human_readable inv
           = Some ({| valid := true; error := None |}, [])
     | Some (Err e) =>
         exists text,
           validateConfiguration view human_readable inv
             = Some ({| valid := false; error := Some (human_readable e) |},
                     [{| tp_error := text;
                         tp_stack := if instanceof_Error (view e)
                                     then caught_stack (view e) else None;
                         tp_location :=
                           "AmazonBedrockEmbeddingProvider:validateConfiguration";
                         tp_attempt := None |}]) /\
           (instanceof_Error (view e) = true -> text = caught_message (view e)) /\
           (instanceof_Error (view e) = false -> text = caught_String (view e))
     end) /\
  (isTitanModel (p_modelId p) = true \/ isCohereModel (p_modelId p) = true ->
   0 < p_maxRetries p -> 0 < p_maxConcurrency p -> 0 < p_batchSize p ->
   forall evs inv,
     well_formed_run p (validation_call p) evs ->
     run p (validation_call p) evs = Some inv ->
     calls inv `prefix_of` [probe_request p] /\
     (validateConfiguration view human_readable inv = None ->
      exists ev, well_formed_answer p inv ev /\ is_Some (step p inv ev)) /\
     (validateConfiguration view human_readable inv <> None ->
      validateConfiguration view human_readable inv
        = Some ({| valid := true; error := None |}, []) /\
      calls inv = [probe_request p])) /\
  (isTitanModel (p_modelId p) = false -> isCohereModel (p_modelId p) = false ->
   outcome (validation_call p) = Some (Err (UnsupportedModel (p_modelId p))) /\
   (exists events,
      validateConfiguration view human_readable (validation_call p)
        = Some ({| valid := false;
                   error := Some (human_readable (UnsupportedModel (p_modelId p))) |},
                events) /\
      length events = 1%nat) /\
   calls (validation_call p) = [] /\
   forall ev, step p (validation_call p) ev = None).
Proof.
  split; [apply modelToUse_configured|]. split.
  { intros inv. unfold validateConfiguration, validation_fn.
    destruct (outcome inv) as [[v|e]|]; try reflexivity.
    eexists. split; [reflexivity|]. split; intros ->; reflexivity. }
  unfold validation_call, createEmbeddings.
  rewrite modelToUse_configured. split.
  - intros Hm Hr Hmc Hb evs inv. unfold probe_request, validateConfiguration, validation_fn.
    destruct (isTitanModel (p_modelId p)) eqn:Ht.
    + intros Hwf Hrun.
      destruct (titan_calls_in_order p [lit "test"] _ evs inv Hr Hwf Hrun)
        as (s & k & -> & Hle & Hcalls & Hdel & Hdone).
      destruct (titan_run_ok p [lit "test"] evs Hr [] _ _
                  (processTitanEmbeddings_inv p _ _)
                  (processTitanEmbeddings_ok p _ _ Hr) Hwf Hrun)
        as (s' & [= <-] & Hinv & Hok).
      cbn [app] in Hok. cbn [calls outcome step]. rewrite Hcalls. split; [|split].
      * exists (map (TitanRequest (p_modelId p)) (drop k [lit "test"])).
        rewrite <- map_app, take_drop. reflexivity.
      * intros Hnone.
        assert (Hall : t_all s = None).
        { unfold titan_outcome in Hnone.
          destruct (t_all s) as [[vs|e]|]; [discriminate..|reflexivity]. }
        destruct (titan_progress p _ evs s Hmc Hinv Hok Hall) as (ev & Hev & [s1 Hs1]).
        exists ev. split; [exact Hev|]. rewrite Hs1. cbn. eauto.
      * intros Hsome.
        assert (Hout : titan_outcome s <> None).
        { intros Hn. rewrite Hn in Hsome. congruence. }
        rewrite (Hdone Hout). cbn [length take map]. split; [|reflexivity].
        destruct (titan_outcome s) as [r|] eqn:Hr'; [|congruence].
        destruct (titan_result p _ evs s r Hinv Hok Hr') as (resp & -> & _). reflexivity.
    + destruct Hm as [Hm|Hm]; [discriminate|]. rewrite Hm. intros Hwf Hrun.
      destruct (cohere_calls_in_order p [lit "test"] _ evs inv Hb Hr Hwf Hrun)
        as (s & n & -> & Hle & Hcalls & Hdel & Hdone).
      destruct (cohere_run_ok p [lit "test"] evs Hb Hr [] _ _
                  (processCohereEmbeddings_ok p _ _ Hb Hr) Hwf Hrun)
        as (s' & [= <-] & Hok).
      cbn [app] in Hok. cbn [calls outcome step].
      assert (Hone : Z.to_nat (Math_ceil_div (array_length [lit "test"]) (p_batchSize p))
                     = 1%nat).
      { rewrite (Math_ceil_div_unique _ _ 1); [reflexivity|exact Hb|].
        unfold array_length. cbn [length]. lia. }
      rewrite Hone in Hle, Hdone.
      assert (Hreq : map (batch_request p (p_modelId p) [lit "test"]) (seq 0 1)
                     = [CohereRequest (p_modelId p) [lit "test"] (input_type p)]).
      { cbn [seq map]. unfold batch_request. change (Z.of_nat 0) with 0.
        rewrite slice_single by exact Hb. reflexivity. }
      split; [|split].
      * rewrite Hcalls, <- Hreq.
        exists (map (batch_request p (p_modelId p) [lit "test"]) (seq n (1 - n))).
        rewrite <- map_app. f_equal. replace 1%nat with (n + (1 - n))%nat at 1 by lia.
        apply seq_app.
      * intros Hnone.
        assert (Hout : cohere_outcome s = None).
        { destruct (cohere_outcome s) as [[r|e]|]; [discriminate..|reflexivity]. }
        destruct (cohere_progress p _ evs s Hok Hout) as (ev & Hev & [s1 Hs1]).
        exists ev. split; [exact Hev|]. rewrite Hs1. cbn. eauto.
      * intros Hsome.
        assert (Hout : cohere_outcome s <> None).
        { intros Hn. rewrite Hn in Hsome. congruence. }
        rewrite Hcalls, (Hdone Hout), Hreq. split; [|reflexivity].
        destruct (cohere_outcome s) as [r|] eqn:Hr'; [|congruence].
        destruct (cohere_result p _ evs s r Hb Hok Hr') as (resp & -> & _). reflexivity.
  - intros Ht Hc. rewrite Ht, Hc. cbn. repeat split; eauto.
Qed.

(** ** Termination *)

Lemma rank_update (p : Provider) (hist : list event) (ev : event) (s s' : titan)
    (i : nat) (text : jsstring) (st st' : task) (spent : Z) :
  Z.of_nat (length hist) + sumZ (task_rank p) (t_tasks s)
    <= Z.of_nat (length (t_tasks s)) * (2 * Z.max 0 (p_maxRetries p) + 1) - spent ->
  t_tasks s !! i = Some (text, st) ->
  t_tasks s' = <[i := (text, st')]> (t_tasks s) ->
  task_rank p (text, st') + 1 <= task_rank p (text, st) + spent ->
  titan_rank p (hist ++ [ev]) s'.
Proof.
  intros Hrank Hi Ht Hle. unfold titan_rank.
  rewrite Ht, length_insert, (sumZ_insert _ _ _ _ _ Hi), length_app. cbn [length]. lia.
Qed.

Lemma attempted_rank (p : Provider) (model text : jsstring) (a : Z) (st' : task)
    (calls calls' : list request) :
  attempted p model text a st' calls calls' ->
  task_rank p (text, st') <= Z.max 1 (2 * (p_maxRetries p - a)).
Proof. intros [(Hlt & -> & _)|(Hge & -> & _)]; cbn; lia. Qed.

Lemma move_rank (p : Provider) (hist : list event) (s s' : titan) (ev : event) :
  titan_move p s ev s' -> titan_budget p s ->
  titan_rank p hist s -> titan_rank p (hist ++ [ev]) s'.
Proof.
  intros Hmove Hbud Hrank. pose proof (bud_attempts _ _ Hbud) as Hatt.
  unfold titan_rank in Hrank.
  inversion Hmove; subst.
  - pose proof (Hatt i _ H) as Hr. cbn in Hr.
    eapply (rank_update p hist _ s s' i text (Sending a) (Settled r) 0); eauto; cbn; lia.
  - pose proof (Hatt i _ H) as Hr. cbn in Hr.
    eapply (rank_update p hist _ s s' i text (Sending a) (Sleeping a) 0); eauto; cbn; lia.
  - pose proof (Hatt i _ H) as Hr. cbn in Hr.
    pose proof (attempted_rank p _ _ _ _ _ _ H0) as Hst.
    eapply (rank_update p hist _ s s' i text (Sleeping a) st' 0); eauto; cbn; lia.
  - eapply (rank_update p hist _ s s' i text (Settled r) (Released r) 0); eauto; cbn; lia.
  - set (s1 := {| t_model := t_model s; t_sem := t_sem s;
                  t_tasks := <[i := (text, Released r)]> (t_tasks s);
                  t_totalTokens := t_totalTokens s; t_calls := t_calls s;
                  t_delays := t_delays s; t_all := t_all s |}).
    assert (Hij : i <> j) by (intros ->; rewrite H in H1; discriminate).
    assert (Hj1 : t_tasks s1 !! j = Some (next, Parked)).
    { cbn. rewrite list_lookup_insert_ne by exact Hij. exact H1. }
    pose proof (attempted_rank p _ _ _ _ _ _ H3) as Hst.
    eapply (rank_update p hist _ s1 s' j next Parked st' 1); eauto.
    + cbn [s1 t_tasks]. rewrite length_insert, (sumZ_insert _ _ _ _ _ H). cbn. lia.
    + cbn. cbn in Hst. lia.
Qed.

Lemma processTitanEmbeddings_rank (p : Provider) (texts : list jsstring) (model : jsstring) :
  titan_rank p [] (processTitanEmbeddings p texts model).
Proof.
  unfold processTitanEmbeddings.
  set (s0 := {| t_model := model; t_tasks := map (fun text => (text, Parked)) texts |}).
  assert (H : titan_rank p [] (fold_left (spawn p) (seq 0 (length texts)) s0)).
  { apply (fold_spawn_preserves p texts
             (fun n s => titan_rank p [] s /\ exists k, titan_started n k s))
      with (k := 0%nat); [| apply titan_initial_inv | | reflexivity].
    - intros n s Hinv [Hrank [k Hst]] Hn.
      destruct (spawn_started p texts n k s Hinv Hst Hn)
        as (text & Hlk & _ & _ & _ & [(_ & _ & H & st' & Hatt & Ht)|(_ & H & _ & Ht)]).
      + split; [|eauto]. unfold titan_rank in *.
        pose proof (attempted_rank p _ _ _ _ _ _ Hatt) as Hst'.
        rewrite Ht, length_insert, (sumZ_insert _ _ _ _ _ Hlk). cbn in *. lia.
      + split; [|eauto]. unfold titan_rank in *. rewrite Ht. exact Hrank.
    - split.
      + unfold titan_rank. cbn [s0 t_tasks length]. rewrite length_map.
        assert (Hsum : forall l : list jsstring,
                  sumZ (task_rank p) (map (fun text => (text, Parked)) l)
                  = Z.of_nat (length l) * (2 * Z.max 0 (p_maxRetries p) + 1)).
        { induction l as [|t l IH]; cbn [map sumZ length]; [lia|].
          rewrite IH. unfold task_rank at 1. cbn [snd]. lia. }
        rewrite Hsum. lia.
      + exists 0%nat. split; [lia| |reflexivity].
        intros i tk Hi. apply parked_lookup in Hi. split; [lia|auto]. }
  exact H.
Qed.

Lemma mapM_fulfilled_None (tasks : list (jsstring * task)) :
  mapM fulfilled tasks = None -> exists i tk, tasks !! i = Some tk /\ fulfilled tk = None.
Proof.
  intros H. apply mapM_None in H. apply Exists_exists in H as (tk & Hin & Hf).
  apply list_elem_of_lookup in Hin as [i Hi]. eauto.
Qed.

Lemma move_unsettled (p : Provider) (s s' : titan) (ev : event) :
  titan_move p s ev s' -> titan_unsettled s -> titan_unsettled s'.
Proof.
  intros Hmove Hun.
  assert (Hkeep : forall i text st st' tasks',
            t_tasks s !! i = Some (text, st) ->
            tasks' = <[i := (text, st')]> (t_tasks s) ->
            fulfilled (text, st') = None -> (forall e, st' <> Released (Err e)) ->
            t_all s = None ->
            mapM fulfilled tasks' = None /\
            forall x y e, tasks' !! x <> Some (y, Released (Err e))).
  { intros i text st st' tasks' Hi -> Hf Hst Hall. destruct (Hun Hall) as [Hm Hno]. split.
    - apply mapM_fulfilled_insert_None; [eapply lookup_lt_Some; eauto|exact Hf].
    - intros x y e Hx. apply list_lookup_insert_Some in Hx as [(_ & Hx & _)|(_ & Hx)].
      + injection Hx as _ Hx. destruct (Hst e Hx).
      + destruct (Hno x y e Hx). }
  inversion Hmove; subst; intros Hall.
  - eapply (Hkeep i text (Sending a) (Settled r)); eauto;
      try reflexivity; try discriminate; congruence.
  - eapply (Hkeep i text (Sending a) (Sleeping a)); eauto;
      try reflexivity; try discriminate; congruence.
  - assert (Hst : fulfilled (text, st') = None /\ forall e, st' <> Released (Err e)).
    { destruct H0 as [(_ & -> & _)|(_ & -> & _)]; split; try reflexivity; discriminate. }
    eapply (Hkeep i text (Sleeping a) st'); eauto; try apply Hst; congruence.
  - unfold all_after in H6. rewrite Hall in H6.
    destruct (t_all s) as [x|] eqn:Hs; [discriminate|]. destruct (Hun Hs) as [Hm Hno].
    destruct r as [v|e]; [|discriminate].
    destruct (mapM fulfilled (t_tasks s')) eqn:Hm'; [discriminate|]. split; [reflexivity|].
    rewrite H2. intros x y e Hx.
    apply list_lookup_insert_Some in Hx as [(_ & Hx & _)|(_ & Hx)]; [discriminate|].
    destruct (Hno x y e Hx).
  - unfold all_after in H7. rewrite Hall in H7.
    destruct (t_all s) as [x|] eqn:Hs; [discriminate|]. destruct (Hun Hs) as [Hm Hno].
    destruct r as [v|e]; [|discriminate].
    destruct (mapM fulfilled (t_tasks s')) eqn:Hm'; [discriminate|]. split; [reflexivity|].
    rewrite H4. intros x y e Hx.
    apply list_lookup_insert_Some in Hx as [(_ & Hx & _)|(_ & Hx)].
    + injection Hx as _ Hx. destruct H3 as [(_ & -> & _)|(_ & -> & _)]; discriminate.
    + apply list_lookup_insert_Some in Hx as [(_ & Hx & _)|(_ & Hx)]; [discriminate|].
      destruct (Hno x y e Hx).
Qed.

Lemma processTitanEmbeddings_unsettled (p : Provider) (texts : list jsstring)
    (model : jsstring) :
  titan_unsettled (processTitanEmbeddings p texts model).
Proof.
  unfold titan_unsettled, processTitanEmbeddings. cbn [observe t_all t_tasks].
  unfold promise_all. rewrite fold_spawn_all. cbn [t_all].
  set (s0 := {| t_model := model; t_tasks := map (fun text => (text, Parked)) texts |}).
  assert (H : forall i text r, t_tasks (fold_left (spawn p) (seq 0 (length texts)) s0) !! i
                               <> Some (text, Released r)).
  { apply (fold_spawn_preserves p texts
             (fun n s => (forall i text r, t_tasks s !! i <> Some (text, Released r)) /\
                         exists k, titan_started n k s))
      with (k := 0%nat) (s := s0); [| apply titan_initial_inv | | reflexivity].
    - intros n s Hinv [Hno [k Hst]] Hn.
      destruct (spawn_started p texts n k s Hinv Hst Hn)
        as (text & Hlk & _ & _ & _ & [(_ & _ & H & st' & Hatt & Ht)|(_ & H & _ & Ht)]).
      + split; [|eauto]. rewrite Ht. intros i y r Hx.
        apply list_lookup_insert_Some in Hx as [(_ & Hx & _)|(_ & Hx)].
        * injection Hx as _ Hx. destruct Hatt as [(_ & -> & _)|(_ & -> & _)]; discriminate.
        * destruct (Hno i y r Hx).
      + split; [|eauto]. rewrite Ht. exact Hno.
    - split.
      + intros i text r Hi. apply parked_lookup in Hi. discriminate.
      + exists 0%nat. split; [lia| |reflexivity].
        intros i tk Hi. apply parked_lookup in Hi. split; [lia|auto]. }
  destruct (mapM fulfilled _) eqn:Hm; [discriminate|]. intros _. split; [reflexivity|].
  intros i text e. apply H.
Qed.

(** A Titan invocation that cannot move has settled. *)
Lemma titan_stuck_settled (p : Provider) (texts : list jsstring) (s : titan) :
  0 < p_maxConcurrency p ->
  titan_inv p texts (length texts) s -> titan_unsettled s ->
  (forall ev, titan_step p s ev = None) ->
  t_all s <> None.
Proof.
  intros Hmc Hinv Hun Hstuck Hall. destruct (Hun Hall) as [Hm Hno].
  assert (Hidle : forall i tk, t_tasks s !! i = Some tk -> is_executing tk = false).
  { intros i [text st] Hi. destruct st as [|a|a|r|r]; try reflexivity.
    - specialize (Hstuck (Response i (SendOk None))). cbn [titan_step] in Hstuck.
      rewrite Hi in Hstuck. cbn in Hstuck. discriminate.
    - specialize (Hstuck (Timer i)). cbn [titan_step] in Hstuck.
      rewrite Hi in Hstuck. discriminate.
    - specialize (Hstuck (Finally i)). cbn [titan_step] in Hstuck.
      rewrite Hi in Hstuck. destruct (release (t_sem s)). discriminate. }
  assert (Hcount : count is_executing (t_tasks s) = 0).
  { destruct (Z.lt_ge_cases 0 (count is_executing (t_tasks s))) as [Hpos|Hle].
    - destruct (count_pos_exists _ _ Hpos) as (i & tk & Hi & He).
      rewrite (Hidle i tk Hi) in He. discriminate.
    - pose proof (count_nonneg is_executing (t_tasks s)). lia. }
  destruct (mapM_fulfilled_None _ Hm) as (i & [text st] & Hi & Hf).
  pose proof (Hidle i _ Hi) as He.
  destruct st as [|a|a|r|[v|e]]; try discriminate.
  - assert (Hin : i ∈ waiting (t_sem s)).
    { apply (inv_waiting _ _ _ _ Hinv i). split; [|eauto].
      apply lookup_lt_Some in Hi.
      pose proof (f_equal length (inv_texts _ _ _ _ Hinv)) as Hl.
      rewrite length_map in Hl. lia. }
    assert (Hw : waiting (t_sem s) <> []).
    { intros Hw. rewrite Hw in Hin. apply elem_of_nil in Hin. exact Hin. }
    pose proof (inv_full _ _ _ _ Hinv Hw). pose proof (inv_permits _ _ _ _ Hinv). lia.
  - destruct (Hno i text e Hi).
Qed.

(** *** The Cohere loop *)

Lemma cohere_attempt_rank (p : Provider) (texts : list jsstring) (evs : list event)
    (a : Z) (s : cohere) :
  0 <= a ->
  (a < p_maxRetries p ->
   Z.of_nat (length evs) + (2 * (p_maxRetries p - a) - 1)
     + 2 * p_maxRetries p * batches_from p texts (c_i s + p_batchSize p)
     <= 2 * p_maxRetries p * batches_from p texts 0) ->
  (p_maxRetries p <= a ->
   Z.of_nat (length evs) <= 2 * Z.max 0 (p_maxRetries p) * batches_from p texts 0) ->
  cohere_rank p texts evs (cohere_attempt p a s).
Proof.
  intros Ha Hlt Hge. unfold cohere_attempt, cohere_rank.
  destruct (Z.ltb_spec a (p_maxRetries p)); cbn [cohere_with c_phase c_i]; auto.
Qed.

Lemma cohere_step_rank (p : Provider) (texts : list jsstring) (hist : list event)
    (s s' : cohere) (ev : event) :
  0 < p_batchSize p ->
  cohere_inv p texts s -> cohere_rank p texts hist s ->
  cohere_step p s ev = Some s' -> cohere_rank p texts (hist ++ [ev]) s'.
Proof.
  intros Hb (H1 & H2 & _ & H4) Hrank. unfold cohere_step. unfold cohere_rank in Hrank.
  destruct (H2 Hb) as [Hi _].
  pose proof (batches_from_nonneg p texts 0 Hb) as Hn0.
  pose proof (batches_from_nonneg p texts (c_i s + p_batchSize p) Hb) as Hn1.
  assert (Hdone : forall a r,
            0 <= a < p_maxRetries p ->
            Z.of_nat (length hist) + (2 * (p_maxRetries p - a) - 1)
              + 2 * p_maxRetries p * batches_from p texts (c_i s + p_batchSize p)
              <= 2 * p_maxRetries p * batches_from p texts 0 ->
            cohere_rank p texts (hist ++ [ev]) (cohere_with s (CohereDone r) [] [])).
  { intros a r Ha Hle. unfold cohere_rank. cbn [cohere_with c_phase].
    rewrite length_app. cbn [length]. rewrite Z.max_r by lia. nia. }
  destruct ev as [[|i] r|[|i]|i]; destruct (c_phase s) as [a|a|r0] eqn:Hph; try discriminate.
  - destruct Hrank as [Ha Hle].
    destruct (after_send p a r) as [body|d|e] eqn:Hsend.
    + destruct (embedCohereBatch_result (cohere_batch p s) body) as [[xs tokens]|e];
        intros [= <-]; [|apply (Hdone a); lia].
      unfold cohere_loop. cbn [c_i c_texts]. rewrite H1.
      destruct (Z.ltb_spec (c_i s + p_batchSize p) (array_length texts)) as [Hlt|Hge].
      * apply cohere_attempt_rank; cbn [c_i]; [lia| |lia].
        intros _. rewrite length_app. cbn [length].
        rewrite (batches_from_step p texts (c_i s + p_batchSize p) Hb Hlt) in Hle. lia.
      * unfold cohere_rank. cbn [cohere_with c_phase]. rewrite length_app. cbn [length].
        rewrite Z.max_r by lia. nia.
    + apply after_send_retry in Hsend as (Hlt & -> & _). intros [= <-].
      unfold cohere_rank. cbn [cohere_with c_phase c_i]. rewrite length_app. cbn [length].
      split; lia.
    + intros [= <-]. apply (Hdone a); lia.
  - destruct Hrank as [Ha Hle]. intros [= <-].
    apply cohere_attempt_rank; [lia| |lia].
    intros _. rewrite length_app. cbn [length]. lia.
Qed.

Lemma processCohereEmbeddings_rank (p : Provider) (texts : list jsstring) (model : jsstring) :
  0 < p_batchSize p ->
  cohere_rank p texts [] (processCohereEmbeddings p texts model).
Proof.
  intros Hb. unfold processCohereEmbeddings, cohere_loop. cbn [c_i c_texts].
  pose proof (batches_from_nonneg p texts 0 Hb) as H0.
  destruct (Z.ltb_spec 0 (array_length texts)) as [Hlt|Hge].
  - apply cohere_attempt_rank; cbn [c_i length]; [lia| |].
    + intros _. rewrite (batches_from_step p texts 0 Hb Hlt). lia.
    + intros Hr. rewrite Z.max_l by lia. lia.
  - unfold cohere_rank. cbn [cohere_with c_phase length]. nia.
Qed.

(** X17.  Every invocation comes to an end.  On a provider with positive
    [maxConcurrency] and [batchSize], however the transport behaves
    (answers, throttling, failures, in any order): an invocation takes at
    most [2 * maxRetries + 1] events for each of its logical calls, so no
    run is infinite; and a state in which no event can occur is one in
    which the promise of [createEmbeddings] has settled, so the
    invocation cannot hang while sends are answered, timers fire and
    [finally] blocks run. *)
Theorem invocations_terminate (p : Provider) (texts : list jsstring)
    (model : option jsstring) (evs : list event) (inv : invocation) :
  0 < p_maxConcurrency p -> 0 < p_batchSize p ->
  run p (createEmbeddings p texts model) evs = Some inv ->
  Z.of_nat (length evs)
    <= logical_calls p texts inv * (2 * Z.max 0 (p_maxRetries p) + 1) /\
  ((forall ev, step p inv ev = None) -> outcome inv <> None).
Proof.
  intros Hmc Hb. unfold createEmbeddings.
  destruct (isTitanModel (modelToUse p model)) eqn:Ht;
    [|destruct (isCohereModel (modelToUse p model)) eqn:Hc].
  - intros Hrun.
    destruct (titan_run_hist_preserves p texts
                (fun hist s => titan_budget p s /\ titan_unsettled s /\ titan_rank p hist s))
      with (evs := evs) (hist := @nil event)
           (s := processTitanEmbeddings p texts (modelToUse p model)) (inv := inv)
      as (s & -> & Hinv & Hbud & Hun & Hrank).
    + intros hist s s' ev Hinv (Hbud & Hun & Hrank) Hstep.
      pose proof (titan_step_move p texts s s' ev Hinv Hstep) as Hmove.
      split; [eapply move_budget; eauto|]. split; [eapply move_unsettled; eauto|].
      eapply move_rank; eauto.
    + apply processTitanEmbeddings_inv.
    + split; [apply processTitanEmbeddings_budget|].
      split; [apply processTitanEmbeddings_unsettled|apply processTitanEmbeddings_rank].
    + exact Hrun.
    + cbn [app logical_calls outcome step] in *. split.
      * unfold titan_rank in Hrank.
        assert (Hsum : 0 <= sumZ (task_rank p) (t_tasks s)).
        { pose proof (bud_attempts _ _ Hbud) as Hatt. revert Hatt.
          generalize (t_tasks s). induction l as [|tk l IHl]; intros Hl; cbn [sumZ]; [lia|].
          assert (0 <= sumZ (task_rank p) l) by (apply IHl; intros i; apply (Hl (S i))).
          pose proof (Hl 0%nat tk eq_refl) as Hr. revert Hr.
          unfold attempt_in_range. unfold task_rank at 1. destruct (snd tk); lia. }
        pose proof (f_equal length (inv_texts _ _ _ _ Hinv)) as Hl.
        rewrite length_map in Hl. unfold array_length. rewrite <- Hl. lia.
      * intros Hstuck. unfold titan_outcome.
        assert (Hall : t_all s <> None).
        { apply (titan_stuck_settled p texts s Hmc Hinv Hun). intros ev.
          specialize (Hstuck ev). destruct (titan_step p s ev); [discriminate|reflexivity]. }
        destruct (t_all s) as [[vs|e]|]; congruence.
  - intros Hrun.
    destruct (cohere_run_hist_preserves p
                (fun hist s => cohere_inv p texts s /\ cohere_rank p texts hist s))
      with (evs := evs) (hist := @nil event)
           (s := processCohereEmbeddings p texts (modelToUse p model)) (inv := inv)
      as (s & -> & Hinv & Hrank).
    + intros hist s s' ev (Hinv & Hrank) Hstep.
      split; [eapply cohere_step_inv; eauto|eapply cohere_step_rank; eauto].
    + split; [apply processCohereEmbeddings_inv|apply processCohereEmbeddings_rank; exact Hb].
    + exact Hrun.
    + cbn [app logical_calls outcome step] in *. unfold cohere_rank in Hrank.
      rewrite <- batches_from_start.
      pose proof (batches_from_nonneg p texts 0 Hb) as H0.
      pose proof (batches_from_nonneg p texts (c_i s + p_batchSize p) Hb) as H1.
      unfold cohere_outcome. split.
      * destruct (c_phase s) as [a|a|r].
        -- destruct Hrank as [Ha Hle]. rewrite Z.max_r by lia. nia.
        -- destruct Hrank as [Ha Hle]. rewrite Z.max_r by lia. nia.
        -- nia.
      * intros Hstuck. destruct (c_phase s) as [a|a|r] eqn:Hph; [| |discriminate].
        -- specialize (Hstuck (Response 0 (SendOk None))). unfold cohere_step in Hstuck.
           rewrite Hph in Hstuck. cbn in Hstuck. discriminate.
        -- specialize (Hstuck (Timer 0)). unfold cohere_step in Hstuck.
           rewrite Hph in Hstuck. cbn in Hstuck. discriminate.
  - intros Hrun. destruct evs as [|ev evs]; cbn [run step] in Hrun; [|discriminate].
    injection Hrun as <-. cbn. split; [lia|discriminate].
Qed.

(** ** What a request may carry *)

Lemma slice_infix {A} (l : list A) (start final : Z) :
  exists before after, l = before ++ slice l start final ++ after.
Proof.
  unfold slice.
  set (n := Z.to_nat _). set (m := Z.to_nat _).
  exists (take m l), (drop n (drop m l)).
  rewrite take_drop, take_drop. reflexivity.
Qed.

Lemma move_requests (p : Provider) (texts : list jsstring) (n : nat) (s s' : titan)
    (ev : event) :
  isTitanModel (t_model s) = true ->
  titan_inv p texts n s ->
  titan_move p s ev s' ->
  Forall (request_for p texts (t_model s)) (t_calls s) ->
  Forall (request_for p texts (t_model s')) (t_calls s').
Proof.
  intros Hm Hinv Hmove Hall. rewrite (move_model p s s' ev Hmove).
  assert (Hatt : forall i text st a st' calls',
            t_tasks s !! i = Some (text, st) ->
            attempted p (t_model s) text a st' (t_calls s) calls' ->
            Forall (request_for p texts (t_model s)) calls').
  { intros i text st a st' calls' Hi [(_ & _ & ->)|(_ & _ & ->)]; [|exact Hall].
    apply Forall_app. split; [exact Hall|]. constructor; [|constructor].
    cbn. split; [reflexivity|]. split; [exact Hm|].
    apply list_elem_of_lookup. exists i. eapply inv_text_lookup; eauto. }
  inversion Hmove; subst; try congruence; eauto.
Qed.

Lemma processTitanEmbeddings_requests (p : Provider) (texts : list jsstring)
    (model : jsstring) :
  isTitanModel model = true ->
  Forall (request_for p texts model) (t_calls (processTitanEmbeddings p texts model)).
Proof.
  intros Hm. unfold processTitanEmbeddings. cbn [observe t_calls].
  set (s0 := {| t_model := model; t_tasks := map (fun text => (text, Parked)) texts |}).
  apply (fold_spawn_preserves p texts
           (fun n s => (t_model s = model /\ Forall (request_for p texts model) (t_calls s)) /\
                       exists k, titan_started n k s))
      with (k := 0%nat) (s := s0); [| apply titan_initial_inv | | reflexivity].
  - intros n s Hinv [[Hmodel Hall] [k Hst]] Hn.
    destruct (spawn_started p texts n k s Hinv Hst Hn)
      as (text & Hlk & Hm' & _ & _ & [(_ & _ & H & st' & Hatt & _)|(_ & H & Hc & _)]).
    + split; [|eauto]. split; [congruence|].
      destruct Hatt as [(_ & _ & ->)|(_ & _ & ->)]; [|exact Hall].
      apply Forall_app. split; [exact Hall|]. constructor; [|constructor].
      cbn. split; [exact Hmodel|]. split; [exact Hm|].
      apply list_elem_of_lookup. exists n. eapply inv_text_lookup; eauto.
    + split; [|eauto]. split; [congruence|]. rewrite Hc. exact Hall.
  - split; [split; [reflexivity|constructor]|]. exists 0%nat. split; [lia| |reflexivity].
    intros i tk Hi. apply parked_lookup in Hi. split; [lia|auto].
Qed.

Lemma cohere_attempt_requests (p : Provider) (texts : list jsstring) (a : Z) (s : cohere) :
  isTitanModel (c_model s) = false -> isCohereModel (c_model s) = true ->
  c_texts s = texts ->
  Forall (request_for p texts (c_model s)) (c_calls s) ->
  Forall (request_for p texts (c_model s)) (c_calls (cohere_attempt p a s)).
Proof.
  intros Ht Hc Htexts Hall. unfold cohere_attempt.
  destruct (a <? p_maxRetries p); cbn [cohere_with c_calls]; [|rewrite app_nil_r; exact Hall].
  apply Forall_app. split; [exact Hall|]. constructor; [|constructor].
  cbn. split; [reflexivity|]. split; [exact Ht|]. split; [exact Hc|]. split; [reflexivity|].
  unfold cohere_batch. rewrite Htexts. apply slice_infix.
Qed.

Lemma cohere_step_requests (p : Provider) (texts : list jsstring) (s s' : cohere)
    (ev : event) :
  isTitanModel (c_model s) = false -> isCohereModel (c_model s) = true ->
  c_texts s = texts /\ Forall (request_for p texts (c_model s)) (c_calls s) ->
  cohere_step p s ev = Some s' ->
  c_texts s' = texts /\ Forall (request_for p texts (c_model s')) (c_calls s').
Proof.
  intros Ht Hc [Htexts Hall] Hstep. rewrite (cohere_step_model p s s' ev Hstep).
  revert Hstep. unfold cohere_step.
  destruct ev as [[|i] r|[|i]|i]; destruct (c_phase s) as [a|a|r0]; try discriminate.
  - destruct (after_send p a r) as [body|d|e].
    + destruct (embedCohereBatch_result (cohere_batch p s) body) as [[xs tokens]|e];
        intros [= <-]; [|cbn; rewrite app_nil_r; auto].
      unfold cohere_loop. cbn [c_i c_texts].
      destruct (_ <? _).
      * split; [unfold cohere_attempt; destruct (_ <? _); exact Htexts|].
        apply (cohere_attempt_requests p texts 0
                 {| c_model := c_model s; c_texts := c_texts s; c_i := c_i s + p_batchSize p;
                    c_phase := CohereSending a;
                    c_allEmbeddings := c_allEmbeddings s ++ xs;
                    c_totalTokens := c_totalTokens s + tokens;
                    c_calls := c_calls s; c_delays := c_delays s |}); assumption.
      * cbn. rewrite app_nil_r. auto.
    + intros [= <-]. cbn. rewrite app_nil_r. auto.
    + intros [= <-]. cbn. rewrite app_nil_r. auto.
  - intros [= <-]. split; [unfold cohere_attempt; destruct (_ <? _); exact Htexts|].
    apply cohere_attempt_requests; assumption.
Qed.

(** X18.  An invocation never sends anything but the caller's texts.
    Whatever the transport does, every request it issues names the model
    in effect; under a Titan model it carries one of the texts; under a
    Cohere model it carries a run of consecutive texts and the configured
    input type ([search_document] when none is configured). *)
Theorem requests_carry_the_texts (p : Provider) (texts : list jsstring)
    (model : option jsstring) (evs : list event) (inv : invocation) :
  run p (createEmbeddings p texts model) evs = Some inv ->
  Forall (request_for p texts (modelToUse p model)) (calls inv).
Proof.
  unfold createEmbeddings.
  destruct (isTitanModel (modelToUse p model)) eqn:Ht;
    [|destruct (isCohereModel (modelToUse p model)) eqn:Hc].
  - intros Hrun.
    destruct (titan_run_preserves p texts
                (fun s => t_model s = modelToUse p model /\
                          Forall (request_for p texts (t_model s)) (t_calls s)))
      with (evs := evs) (s := processTitanEmbeddings p texts (modelToUse p model)) (inv := inv)
      as (s & -> & Hinv & Hmodel & Hall).
    + intros s s' ev Hinv [Hmodel Hall] Hstep.
      pose proof (titan_step_move p texts s s' ev Hinv Hstep) as Hmove.
      split; [rewrite <- Hmodel; eapply move_model; eauto|].
      eapply move_requests; eauto. rewrite Hmodel. exact Ht.
    + apply processTitanEmbeddings_inv.
    + rewrite processTitanEmbeddings_model. split; [reflexivity|].
      apply processTitanEmbeddings_requests. exact Ht.
    + exact Hrun.
    + cbn [calls]. rewrite <- Hmodel. exact Hall.
  - intros Hrun.
    destruct (cohere_run_hist_preserves p
                (fun _ s => c_model s = modelToUse p model /\ c_texts s = texts /\
                            Forall (request_for p texts (c_model s)) (c_calls s)))
      with (evs := evs) (hist := @nil event)
           (s := processCohereEmbeddings p texts (modelToUse p model)) (inv := inv)
      as (s & -> & Hmodel & _ & Hall).
    + intros hist s s' ev (Hmodel & Htexts & Hall) Hstep.
      split; [rewrite <- Hmodel; eapply cohere_step_model; eauto|].
      eapply cohere_step_requests; eauto; rewrite Hmodel; assumption.
    + unfold processCohereEmbeddings, cohere_loop. cbn [c_i c_texts].
      destruct (_ <? _).
      * split; [unfold cohere_attempt; destruct (_ <? _); reflexivity|].
        split; [unfold cohere_attempt; destruct (_ <? _); reflexivity|].
        replace (c_model (cohere_attempt p 0 _)) with (modelToUse p model)
          by (unfold cohere_attempt; destruct (_ <? _); reflexivity).
        apply (cohere_attempt_requests p texts 0
                 {| c_model := modelToUse p model; c_texts := texts; c_i := 0;
                    c_phase := CohereSending 0; c_allEmbeddings := [];
                    c_totalTokens := 0; c_calls := []; c_delays := [] |});
          try assumption; try reflexivity. constructor.
      * cbn. split; [reflexivity|]. split; [reflexivity|constructor].
    + exact Hrun.
    + cbn [calls]. rewrite <- Hmodel. exact Hall.
  - intros Hrun. destruct evs as [|ev evs]; cbn [run step] in Hrun; [|discriminate].
    injection Hrun as <-. constructor.
Qed.

(** ** The vectors of a fulfilled invocation *)

Lemma answers_app (i : nat) (evs more : list event) :
  answers i (evs ++ more) = answers i evs ++ answers i more.
Proof. unfold answers. apply flat_map_app. Qed.

Lemma answers_last (i : nat) (evs : list event) (ev : event) :
  (forall body, ev <> Response i (SendOk body)) ->
  answers i (evs ++ [ev]) = answers i evs.
Proof.
  intros Hev. rewrite answers_app. unfold answers at 2. cbn [flat_map].
  destruct ev as [j [body|e]|j|j]; rewrite ?app_nil_r; try reflexivity.
  destruct (Nat.eqb_spec j i) as [->|Hne]; [destruct (Hev body eq_refl)|].
  rewrite !app_nil_r. reflexivity.
Qed.

Lemma collected_update (evs evs' : list event) (s s' : titan) (i : nat)
    (tk' : jsstring * task) :
  titan_collected evs s ->
  t_tasks s' = <[i := tk']> (t_tasks s) ->
  (forall x, x <> i -> answers x evs' = answers x evs) ->
  task_collected evs' i tk' ->
  titan_collected evs' s'.
Proof.
  intros Hcol Ht Hother Hi x tk. rewrite Ht. intros Hx.
  apply list_lookup_insert_Some in Hx as [(-> & <- & _)|(Hne & Hx)]; [exact Hi|].
  pose proof (Hcol x tk Hx) as Hold. unfold task_collected in *.
  rewrite (Hother x) by auto. exact Hold.
Qed.

Lemma embedTitanText_accepts (text : jsstring) (body : option json) (v : json) (tokens : Z) :
  embedTitanText_result text body = Ok (v, tokens) ->
  exists response, body = Some response /\
                   get_property response "embedding" = Some (Some v).
Proof.
  unfold embedTitanText_result. destruct body as [response|]; [|discriminate].
  destruct (get_property response "embedding") as [[[| | | |xs|]|]|] eqn:Hp; try discriminate.
  intros [= <- _]. exists response. split; [reflexivity|exact Hp].
Qed.

Lemma move_collected (p : Provider) (hist : list event) (s s' : titan) (ev : event) :
  titan_move p s ev s' ->
  titan_collected hist s -> titan_collected (hist ++ [ev]) s'.
Proof.
  intros Hmove Hcol.
  assert (Hquiet : forall ev0, (forall j body, ev0 <> Response j (SendOk body)) ->
            forall x, answers x (hist ++ [ev0]) = answers x hist).
  { intros ev0 Hev0 x. apply answers_last. intros body. apply Hev0. }
  inversion Hmove; subst.
  - eapply (collected_update hist _ s s' i); [exact Hcol|eassumption| |].
    + intros x Hx. apply answers_last. intros body [= -> _]. congruence.
    + pose proof (Hcol i _ H) as Hold. unfold task_collected in *. cbn [snd] in *.
      unfold task_result in H0. destruct answer as [body|error].
      * destruct (embedTitanText_result text body) as [[v tokens]|e] eqn:Hd; subst r; [|exact I].
        apply embedTitanText_accepts in Hd as (response & -> & Hp).
        exists response. split; [|exact Hp].
        rewrite answers_app, Hold. cbn. rewrite Nat.eqb_refl. reflexivity.
      * subst r. exact I.
  - eapply (collected_update hist _ s s' i); [exact Hcol|eassumption| |].
    + intros x _. apply Hquiet. intros j body. discriminate.
    + pose proof (Hcol i _ H) as Hold. unfold task_collected in *. cbn [snd] in *.
      rewrite Hquiet by (intros j body; discriminate). exact Hold.
  - eapply (collected_update hist _ s s' i); [exact Hcol|eassumption| |].
    + intros x _. apply Hquiet. intros j body. discriminate.
    + pose proof (Hcol i _ H) as Hold. unfold task_collected in *. cbn [snd] in *.
      destruct H0 as [(_ & -> & _)|(_ & -> & _)]; [|exact I].
      rewrite Hquiet by (intros j body; discriminate). exact Hold.
  - eapply (collected_update hist _ s s' i); [exact Hcol|eassumption| |].
    + intros x _. apply Hquiet. intros j body. discriminate.
    + pose proof (Hcol i _ H) as Hold. unfold task_collected in *. cbn [snd] in *.
      destruct r as [v|e]; [|exact I].
      rewrite Hquiet by (intros j body; discriminate). exact Hold.
  - set (s1 := {| t_model := t_model s; t_sem := t_sem s;
                  t_tasks := <[i := (text, Released r)]> (t_tasks s);
                  t_totalTokens := t_totalTokens s; t_calls := t_calls s;
                  t_delays := t_delays s; t_all := t_all s |}).
    assert (Hij : i <> j) by (intros ->; rewrite H in H1; discriminate).
    assert (H1' : titan_collected (hist ++ [Finally i]) s1).
    { eapply (collected_update hist _ s s1 i); [exact Hcol|reflexivity| |].
      - intros x _. apply Hquiet. intros j' body. discriminate.
      - pose proof (Hcol i _ H) as Hold. unfold task_collected in *. cbn [snd] in *.
        destruct r as [v|e]; [|exact I].
        rewrite Hquiet by (intros j' body; discriminate). exact Hold. }
    eapply (collected_update _ _ s1 s' j); [exact H1'|eassumption|reflexivity|].
    pose proof (Hcol j _ H1) as Hold. unfold task_collected in *. cbn [snd] in *.
    destruct H3 as [(_ & -> & _)|(_ & -> & _)]; [|exact I].
    rewrite Hquiet by (intros j' body; discriminate). exact Hold.
Qed.

Lemma processTitanEmbeddings_collected (p : Provider) (texts : list jsstring)
    (model : jsstring) :
  titan_collected [] (processTitanEmbeddings p texts model).
Proof.
  unfold processTitanEmbeddings.
  set (s0 := {| t_model := model; t_tasks := map (fun text => (text, Parked)) texts |}).
  assert (H : titan_collected [] (fold_left (spawn p) (seq 0 (length texts)) s0)).
  { apply (fold_spawn_preserves p texts
             (fun n s => titan_collected [] s /\ exists k, titan_started n k s))
      with (k := 0%nat); [| apply titan_initial_inv | | reflexivity].
    - intros n s Hinv [Hcol [k Hst]] Hn.
      destruct (spawn_started p texts n k s Hinv Hst Hn)
        as (text & Hlk & _ & _ & _ & [(_ & _ & H & st' & Hatt & Ht)|(_ & H & _ & Ht)]).
      + split; [|eauto]. eapply (collected_update [] [] s _ n); eauto.
        unfold task_collected. cbn [snd].
        destruct Hatt as [(_ & -> & _)|(_ & -> & _)]; [reflexivity|exact I].
      + split; [|eauto]. unfold titan_collected. rewrite Ht. exact Hcol.
    - split.
      + intros i tk Hi. apply parked_lookup in Hi. unfold task_collected. rewrite Hi.
        reflexivity.
      + exists 0%nat. split; [lia| |reflexivity].
        intros i tk Hi. apply parked_lookup in Hi. split; [lia|auto]. }
  exact H.
Qed.

Lemma embedCohereBatch_accepted (texts : list jsstring) (i : nat) (body : option json) :
  match embedCohereBatch_result texts body with
  | Ok (xs, _) => accepted (Response i (SendOk body)) = xs
  | Err _ => accepted (Response i (SendOk body)) = []
  end.
Proof.
  unfold embedCohereBatch_result, accepted. destruct body as [response|]; [|reflexivity].
  destruct (get_property response "embeddings") as [[[| | | |xs|]|]|]; reflexivity.
Qed.

Lemma cohere_step_collected (p : Provider) (hist : list event) (s s' : cohere) (ev : event) :
  c_allEmbeddings s = flat_map accepted hist ->
  cohere_step p s ev = Some s' ->
  c_allEmbeddings s' = flat_map accepted (hist ++ [ev]).
Proof.
  intros Hcol. rewrite flat_map_app. cbn [flat_map]. rewrite app_nil_r. unfold cohere_step.
  destruct ev as [[|i] r|[|i]|i]; destruct (c_phase s) as [a|a|r0]; try discriminate.
  - destruct (after_send p a r) as [body|d|e] eqn:Hsend.
    + apply after_send_return in Hsend as ->.
      pose proof (embedCohereBatch_accepted (cohere_batch p s) 0 body) as Hacc.
      destruct (embedCohereBatch_result (cohere_batch p s) body) as [[xs tokens]|e];
        intros [= <-]; rewrite Hacc.
      * unfold cohere_loop, cohere_attempt. cbn [c_i c_texts].
        destruct (_ <? _); [destruct (_ <? _)|]; cbn; rewrite Hcol; reflexivity.
      * cbn. rewrite app_nil_r. exact Hcol.
    + apply after_send_retry in Hsend as (_ & _ & error & -> & _). intros [= <-].
      cbn. rewrite app_nil_r. exact Hcol.
    + apply after_send_failed in Hsend as (error & -> & _). intros [= <-].
      cbn. rewrite app_nil_r. exact Hcol.
  - intros [= <-]. unfold cohere_attempt. destruct (_ <? _); cbn; rewrite app_nil_r; exact Hcol.
Qed.

(** X19.  The vectors of a fulfilled invocation are those the transport
    returned, also when calls were throttled and retried.  For a Titan
    model the result has one vector per text, and the vector at index [i]
    is the array under [embedding] of the single answer that the call for
    text [i] received.  For a Cohere model the result is the
    concatenation, in the order of arrival, of the arrays under
    [embeddings] of all the answers, whatever the number of entries of
    each. *)
Theorem vectors_come_from_the_answers (p : Provider) (texts : list jsstring)
    (model : option jsstring) (evs : list event) (inv : invocation)
    (resp : EmbeddingResponse) :
  run p (createEmbeddings p texts model) evs = Some inv ->
  outcome inv = Some (Ok resp) ->
  match inv with
  | TitanCall _ =>
      length (embeddings resp) = length texts /\
      forall i v, embeddings resp !! i = Some v ->
        exists response,
          answers i evs = [Some response] /\
          get_property response "embedding" = Some (Some v)
  | CohereCall _ => embeddings resp = flat_map accepted evs
  | Rejected _ => False
  end.
Proof.
  unfold createEmbeddings.
  destruct (isTitanModel (modelToUse p model)) eqn:Ht;
    [|destruct (isCohereModel (modelToUse p model)) eqn:Hc].
  - intros Hrun.
    destruct (titan_run_hist_preserves p texts titan_collected)
      with (evs := evs) (hist := @nil event)
           (s := processTitanEmbeddings p texts (modelToUse p model)) (inv := inv)
      as (s & -> & Hinv & Hcol).
    + intros hist s s' ev Hinv Hcol Hstep. eapply move_collected; eauto.
      eapply titan_step_move; eauto.
    + apply processTitanEmbeddings_inv.
    + apply processTitanEmbeddings_collected.
    + exact Hrun.
    + cbn [app outcome] in *. unfold titan_outcome.
      destruct (t_all s) as [[vs|e]|] eqn:Hall; try discriminate. intros [= <-].
      cbn [embeddings].
      pose proof (inv_all_ok _ _ _ _ Hinv vs Hall) as Hm. apply mapM_Some in Hm.
      pose proof (Forall2_length _ _ _ Hm) as Hlen.
      pose proof (f_equal length (inv_texts _ _ _ _ Hinv)) as Hl. rewrite length_map in Hl.
      split; [lia|]. intros i v Hv.
      destruct (Forall2_lookup_r _ _ _ _ _ Hm Hv) as ([text st] & Htk & Hf).
      pose proof (Hcol i _ Htk) as Hi. unfold task_collected, fulfilled in *. cbn [snd] in *.
      destruct st as [| | | |[w|]]; try discriminate. injection Hf as ->. exact Hi.
  - intros Hrun.
    destruct (cohere_run_hist_preserves p
                (fun hist s => c_allEmbeddings s = flat_map accepted hist))
      with (evs := evs) (hist := @nil event)
           (s := processCohereEmbeddings p texts (modelToUse p model)) (inv := inv)
      as (s & -> & Hcol).
    + intros hist s s' ev. apply cohere_step_collected.
    + unfold processCohereEmbeddings, cohere_loop, cohere_attempt. cbn [c_i c_texts].
      destruct (_ <? _); [destruct (_ <? _)|]; reflexivity.
    + exact Hrun.
    + cbn [app outcome] in *. intros Hout.
      assert (Hinv0 : invocation_inv p texts
                        (CohereCall (processCohereEmbeddings p texts (modelToUse p model))))
        by apply processCohereEmbeddings_inv.
      pose proof (run_inv p texts evs _ _ Hinv0 Hrun) as Hinv. cbn [invocation_inv] in Hinv.
      destruct Hinv as (_ & _ & _ & H4). unfold cohere_outcome in Hout.
      destruct (c_phase s) as [a|a|[r|e]]; try discriminate.
      injection Hout as ->. destruct H4 as [_ ->]. cbn [embeddings]. exact Hcol.
  - intros Hrun. destruct evs as [|ev evs]; cbn [run step] in Hrun; [|discriminate].
    injection Hrun as <-. discriminate.
Qed.

(** ** The semaphore: no overtaking *)

Lemma remove_first_Forall (P : nat -> Prop) (id : nat) (l : list nat) :
  Forall P l -> Forall P (remove_first id l).
Proof.
  induction l as [|x l IH]; intros H; cbn [remove_first]; [constructor|].
  inversion H; subst. destruct (Nat.eqb x id); [assumption|constructor; auto].
Qed.

Lemma gate_step_ordered (g g' : gate) (ev : gate_event) (k : nat) :
  gate_saturated g -> gate_ordered k g -> gate_step g ev = Some g' ->
  exists k', (k <= k')%nat /\ gate_ordered k' g'.
Proof.
  intros Hsat (Hk & Hw & Hr & Hwk). destruct ev as [|id threw]; cbn [gate_step].
  - unfold acquire. destruct (Z.ltb_spec 0 (permits (g_sem g))) as [Hp|Hp]; intros [= <-].
    + assert (Hnil : waiting (g_sem g) = []).
      { destruct (waiting (g_sem g)) eqn:Hq; [reflexivity|].
        assert (permits (g_sem g) <= 0) by (apply Hsat; rewrite Hq; discriminate). lia. }
      assert (Hkn : k = g_next g).
      { rewrite Hnil in Hw. destruct (g_next g - k)%nat eqn:Hd; [lia|discriminate]. }
      exists (S k). split; [lia|]. unfold gate_ordered.
      cbn [g_sem g_next g_running g_woken waiting]. subst k.
      split; [lia|]. split; [rewrite Hnil, Nat.sub_diag; reflexivity|]. split.
      * apply Forall_app. split; [|constructor; [lia|constructor]].
        eapply Forall_impl; [exact Hr|]. cbn. intros; lia.
      * eapply Forall_impl; [exact Hwk|]. cbn. intros; lia.
    + exists k. split; [lia|]. unfold gate_ordered.
      cbn [g_sem g_next g_running g_woken waiting].
      split; [lia|]. split; [|auto]. rewrite Hw.
      replace (S (g_next g) - k)%nat with (S (g_next g - k)) by lia.
      rewrite seq_S. do 2 f_equal. lia.
  - destruct (existsb (Nat.eqb id) (g_running g)); [|discriminate]. unfold release.
    destruct (waiting (g_sem g)) as [|w rest] eqn:Hq; intros [= <-].
    + exists k. split; [lia|]. unfold gate_ordered.
      cbn [g_sem g_next g_running g_woken waiting option_list]. rewrite !app_nil_r.
      split; [lia|]. split; [|split; [apply remove_first_Forall; exact Hr|exact Hwk]].
      destruct (g_next g - k)%nat eqn:Hd; [reflexivity|discriminate].
    + destruct (g_next g - k)%nat as [|m] eqn:Hd; [discriminate|].
      cbn [seq] in Hw. injection Hw as -> ->.
      exists (S k). split; [lia|]. unfold gate_ordered.
      cbn [g_sem g_next g_running g_woken waiting option_list].
      split; [lia|]. split; [replace (g_next g - S k)%nat with m by lia; reflexivity|].
      split; apply Forall_app; split; try (constructor; [lia|constructor]).
      * apply remove_first_Forall. eapply Forall_impl; [exact Hr|]. cbn. intros; lia.
      * eapply Forall_impl; [exact Hwk|]. cbn. intros; lia.
Qed.

(** X20.  The semaphore lets nobody overtake.  Under any sequence of
    [acquire] calls and completions, for any initial number of permits,
    the bodies that have started are those of the first [k] calls, for
    some [k], and the callbacks still parked are those of all the later
    calls, in the order of the calls: a body never starts while the
    callback of an earlier call is waiting. *)
Theorem semaphore_no_overtaking (n : Z) (evs : list gate_event) (g : gate) :
  gate_run (gate_init n) evs = Some g ->
  exists k,
    (k <= g_next g)%nat /\
    waiting (g_sem g) = seq k (g_next g - k) /\
    Forall (fun id => (id < k)%nat) (g_running g) /\
    Forall (fun id => (id < k)%nat) (g_woken g).
Proof.
  assert (Hgen : forall evs g0 g k, gate_saturated g0 -> gate_ordered k g0 ->
            gate_run g0 evs = Some g -> exists k', gate_ordered k' g).
  { clear. induction evs as [|ev evs IH]; intros g0 g k Hsat Hord; cbn [gate_run].
    - intros [= <-]. eauto.
    - destruct (gate_step g0 ev) as [g1|] eqn:Hstep; [|discriminate].
      destruct (gate_step_ordered g0 g1 ev k Hsat Hord Hstep) as (k' & _ & Hord').
      apply (IH g1 g k'); [eapply gate_step_saturated; eauto|exact Hord']. }
  intros Hrun. apply (Hgen evs (gate_init n) g 0%nat); [| |exact Hrun].
  - unfold gate_saturated, gate_init. cbn. congruence.
  - unfold gate_ordered, gate_init. cbn. repeat split; auto.
Qed.

(** ** The time one logical call can wait *)

Lemma sum_backoff_delays (a : Z) (n : nat) :
  0 <= a ->
  sumZ (fun d => d) (backoff_delays a n)
  = INITIAL_RETRY_DELAY_MS * 2 ^ a * (2 ^ Z.of_nat n - 1).
Proof.
  revert a. induction n as [|n IH]; intros a Ha.
  - cbn. lia.
  - rewrite backoff_delays_cons. cbn [sumZ]. rewrite IH by lia.
    rewrite Nat2Z.inj_succ, Z.pow_succ_r by lia.
    rewrite Z.pow_add_r by lia. change (2 ^ 1) with 2. ring.
Qed.

Lemma invoke_waits (p : Provider) (answers : list transport_result) :
  forall a : Z,
  let r := invokeModelWithRetries p answers a in
  exists n : nat, waits r = backoff_delays a n /\ a + Z.of_nat n < Z.max (a + 1) (p_maxRetries p).
Proof.
  induction answers as [|r0 rest IH]; intros a; cbn [invokeModelWithRetries];
    destruct (Z.ltb_spec a (p_maxRetries p)) as [Ha|Ha];
    try (exists 0%nat; cbn; split; [reflexivity|lia]).
  destruct (after_send p a r0) as [body|d|e] eqn:Hsend;
    try (exists 0%nat; cbn; split; [reflexivity|lia]).
  apply after_send_retry in Hsend as (Hmore & -> & _).
  destruct (IH (a + 1)) as (n & Hn & Hlt). exists (S n).
  cbn [sent waited waits]. rewrite backoff_delays_cons, Hn. split; [reflexivity|lia].
Qed.

(** X21.  The time one logical call spends waiting is bounded by the
    configuration alone.  Whatever the transport answers, the delays of a
    call started at attempt 0 add up to
    [INITIAL_RETRY_DELAY_MS * (2 ^ n - 1)] where [n], the number of
    waits, is less than [maxRetries] (and 0 when [maxRetries <= 1]); so
    with a non-negative initial delay the total is at most
    [INITIAL_RETRY_DELAY_MS * (2 ^ (maxRetries - 1) - 1)]. *)
Theorem total_backoff_bounded (p : Provider) (answers : list transport_result) :
  let r := invokeModelWithRetries p answers 0 in
  exists n : nat,
    length (waits r) = n /\
    Z.of_nat n < Z.max 1 (p_maxRetries p) /\
    sumZ (fun d => d) (waits r) = INITIAL_RETRY_DELAY_MS * (2 ^ Z.of_nat n - 1) /\
    (0 <= INITIAL_RETRY_DELAY_MS -> 1 <= p_maxRetries p ->
     sumZ (fun d => d) (waits r)
     <= INITIAL_RETRY_DELAY_MS * (2 ^ (p_maxRetries p - 1) - 1)).
Proof.
  intros r. subst r. destruct (invoke_waits p answers 0) as (n & Hn & Hlt).
  exists n. rewrite Hn. split.
  - unfold backoff_delays. rewrite length_map, length_seq. reflexivity.
  - split; [lia|]. rewrite sum_backoff_delays by lia.
    rewrite Z.pow_0_r, Z.mul_1_r. split; [reflexivity|].
    intros Hd Hr. apply Z.mul_le_mono_nonneg_l; [exact Hd|].
    assert (2 ^ Z.of_nat n <= 2 ^ (p_maxRetries p - 1)); [|lia].
    apply Z.pow_le_mono_r; lia.
Qed.

(** ** Settlement follows the tasks *)

(** X22.  The promise of a Titan invocation reflects its tasks, in every
    state reachable under any transport behaviour.  While it is pending,
    some task has not run its [finally] block and no task has been
    released with an error; once a task is released with an error the
    promise is rejected, with the error of a released task, whatever the
    other tasks are doing; and it is fulfilled only when every task has
    been released with a vector, the result holding the vectors in the
    order of the tasks. *)
Theorem settlement_follows_the_tasks (p : Provider) (texts : list jsstring)
    (model : option jsstring) (evs : list event) (s : titan) :
  run p (createEmbeddings p texts model) evs = Some (TitanCall s) ->
  match titan_outcome s with
  | None =>
      (exists i text st, t_tasks s !! i = Some (text, st) /\ forall r, st <> Released r) /\
      (forall i text e, t_tasks s !! i <> Some (text, Released (Err e)))
  | Some (Ok resp) =>
      length (embeddings resp) = length texts /\
      forall i text st, t_tasks s !! i = Some (text, st) ->
        exists v, st = Released (Ok v) /\ embeddings resp !! i = Some v
  | Some (Err e) => exists i text, t_tasks s !! i = Some (text, Released (Err e))
  end.
Proof.
  unfold createEmbeddings.
  destruct (isTitanModel (modelToUse p model)) eqn:Ht;
    [|destruct (isCohereModel (modelToUse p model)) eqn:Hc].
  - intros Hrun.
    destruct (titan_run_preserves p texts (fun s => titan_unsettled s /\ titan_error_source s))
      with (evs := evs) (s := processTitanEmbeddings p texts (modelToUse p model))
           (inv := TitanCall s)
      as (s' & [= <-] & Hinv & Hun & Hsrc).
    + intros s0 s1 ev Hinv [Hun Hsrc] Hstep.
      pose proof (titan_step_move p texts s0 s1 ev Hinv Hstep) as Hmove.
      split; [eapply move_unsettled; eauto|eapply move_error_source; eauto].
    + apply processTitanEmbeddings_inv.
    + split; [apply processTitanEmbeddings_unsettled|].
      intros e He. destruct (processTitanEmbeddings_pending p texts _ e He).
    + exact Hrun.
    + unfold titan_outcome. destruct (t_all s) as [[vs|e]|] eqn:Hall.
      * cbn [embeddings].
        pose proof (inv_all_ok _ _ _ _ Hinv vs Hall) as Hm. apply mapM_Some in Hm.
        pose proof (Forall2_length _ _ _ Hm) as Hlen.
        pose proof (f_equal length (inv_texts _ _ _ _ Hinv)) as Hl. rewrite length_map in Hl.
        split; [lia|]. intros i text st Hi.
        destruct (Forall2_lookup_l _ _ _ _ _ Hm Hi) as (v & Hv & Hf).
        unfold fulfilled in Hf. cbn [snd] in Hf.
        destruct st as [| | | |[w|]]; try discriminate. injection Hf as ->. eauto.
      * apply Hsrc. exact Hall.
      * destruct (Hun Hall) as [Hm Hno]. split; [|exact Hno].
        destruct (mapM_fulfilled_None _ Hm) as (i & [text st] & Hi & Hf).
        exists i, text, st. split; [exact Hi|]. intros r ->.
        destruct r as [v|e]; [discriminate|]. destruct (Hno i text e Hi).
  - intros Hrun.
    assert (Hk : forall evs inv0 inv, (forall s0, inv0 <> TitanCall s0) ->
              run p inv0 evs = Some inv -> forall s0, inv <> TitanCall s0).
    { clear. induction evs as [|ev evs IH]; intros inv0 inv H0; cbn [run].
      - intros [= <-]. exact H0.
      - destruct (step p inv0 ev) as [inv1|] eqn:Hstep; [|discriminate].
        apply IH. destruct inv0 as [s|s|e]; cbn [step] in Hstep.
        + destruct (H0 s eq_refl).
        + destruct (cohere_step p s ev); cbn in Hstep; [|discriminate].
          injection Hstep as <-. discriminate.
        + discriminate. }
    assert (Hno : forall s0, CohereCall (processCohereEmbeddings p texts (modelToUse p model))
                              <> TitanCall s0) by discriminate.
    destruct (Hk _ _ _ Hno Hrun s eq_refl).
  - intros Hrun. destruct evs as [|ev evs]; cbn [run step] in Hrun; discriminate.
Qed.

(** ** Telemetry of a logical call *)

(** X23.  A logical call reports to telemetry exactly when it throws an
    error of the transport: once, for the value thrown at its last send,
    with the text of that value (its message if it is an [Error], its
    string form otherwise), its stack if it is an [Error], the location
    of the retry loop, and an attempt number equal to the number of sends
    the call has made.  A call that returns, a call whose failures were
    all throttled and retried so far, and a call that ends with
    [failedMaxAttempts] report nothing. *)
Theorem telemetry_matches_the_error (p : Provider) (answers : list send_result) :
  forall a : Z,
  let r := invokeModelWithRetries p (map as_transport answers) a in
  match returned r with
  | Some (Err (Formatted error _)) =>
      exists t,
        answers !! (sends r - 1)%nat = Some (Threw t) /\ th_error t = error /\
        captured p answers a =
          [{| tp_error := if th_instanceof_Error t then message error else th_String t;
              tp_stack := if th_instanceof_Error t then th_stack t else None;
              tp_location := "AmazonBedrockEmbeddingProvider:invokeModelWithRetries";
              tp_attempt := Some (a + Z.of_nat (sends r)) |}]
  | _ => captured p answers a = []
  end.
Proof.
  induction answers as [|r0 rest IH]; intros a;
    cbn [map invokeModelWithRetries captured];
    destruct (Z.ltb_spec a (p_maxRetries p)) as [Ha|Ha]; try reflexivity.
  destruct r0 as [body|t]; cbn [as_transport after_send]; [reflexivity|].
  destruct (catch_block p a (th_error t)) as [body|d|e] eqn:Hc.
  - unfold catch_block in Hc.
    destruct (is_429 (th_error t) && (a <? p_maxRetries p - 1)); discriminate.
  - assert (Hmore : a < p_maxRetries p - 1).
    { unfold catch_block in Hc. destruct (is_429 (th_error t)); [|discriminate].
      destruct (Z.ltb_spec a (p_maxRetries p - 1)); [assumption|discriminate]. }
    specialize (IH (a + 1)). cbn zeta in IH. cbn [sent waited returned sends].
    assert (Hpos : sends (invokeModelWithRetries p (map as_transport rest) (a + 1)) <> 0%nat).
    { destruct rest as [|r1 rest']; cbn [map invokeModelWithRetries];
        (destruct (Z.ltb_spec (a + 1) (p_maxRetries p)); [|lia]); [discriminate|].
      destruct (after_send p (a + 1) (as_transport r1)); discriminate. }
    destruct (returned (invokeModelWithRetries p (map as_transport rest) (a + 1)))
      as [[v|e]|]; try exact IH.
    destruct e; try exact IH.
    destruct IH as (t' & Hlk & Herr & Hcap). exists t'.
    destruct (sends (invokeModelWithRetries p (map as_transport rest) (a + 1)))
      as [|k] eqn:Hk; [congruence|].
    cbn [Nat.sub] in *. rewrite Nat.sub_0_r in *.
    split; [exact Hlk|]. split; [exact Herr|]. rewrite Hcap. do 3 f_equal. lia.
  - unfold catch_block in Hc.
    destruct (is_429 (th_error t) && (a <? p_maxRetries p - 1)); [discriminate|].
    injection Hc as <-. cbn [returned sends]. exists t.
    split; [reflexivity|]. split; [reflexivity|]. unfold report. do 3 f_equal.
Qed.

End Engine.

(** ** The claims at concrete inputs *)


Lemma C5_first_generic_failure :
  let p := sample_provider titan_v1 32 5 3 in
  (0 <= 0 < p_maxRetries p) /\
  (is_429 api_connection_failed = false \/ p_maxRetries p = 1) /\
  sends (invokeModelWithRetries 500 p [SendFail api_connection_failed] 0) = 1%nat /\
  waits (invokeModelWithRetries 500 p [SendFail api_connection_failed] 0) = [].
Proof.
  intros p.
  assert (H1 : 0 <= 0 < p_maxRetries p) by (cbn; lia).
  assert (H2 : is_429 api_connection_failed = false \/ p_maxRetries p = 1)
    by (left; reflexivity).
  destruct (C5_other_failures_end_the_call 500 p api_connection_failed 0 H1 H2) as [Hloop _].
  destruct (Hloop []) as (_ & Hs & Hw & _).
  repeat split; try assumption; lia.
Defined.

(** C6 as the specification states it: three sends.  The provider makes
    one: after the failure of the only send the invocation has rejected
    and nothing is left to happen. *)
Lemma C6_one_send_not_three :
  let p := sample_provider titan_v1 32 5 3 in
  exists inv,
    run 500 p (createEmbeddings p [lit "Hello world"] None)
      [Response 0 (SendFail api_connection_failed); Finally 0] = Some inv /\
    outcome inv = Some (Err (Formatted api_connection_failed 3)) /\
    length (calls inv) = 1%nat /\
    length (calls inv) <> 3%nat /\
    forall ev, step 500 p inv ev = None.
Proof.
  eexists. split; [reflexivity|]. cbn. repeat split; try discriminate.
  intros [[|i] r|[|i]|[|i]]; reflexivity.
Qed.

Lemma C6_hello_world :
  let p := sample_provider titan_v1 32 5 3 in
  p_maxRetries p = 3 /\
  classify (fun _ => false) api_connection_failed = GenericTransportError /\
  exists msg,
    error_message (fun _ => false) (Formatted api_connection_failed 3) = Some msg /\
    contains msg "3 attempts" /\ contains msg "API connection failed".
Proof.
  intros p.
  assert (H1 : p_maxRetries p = 3) by reflexivity.
  assert (H2 : classify (fun _ => false) api_connection_failed = GenericTransportError)
    by reflexivity.
  destruct (C6_generic_failure 500 (fun _ => false) p api_connection_failed
              (lit "Hello world") None H1 H2) as (_ & Hmsg & _).
  repeat split; assumption.
Defined.

(** C7 as the specification states it: a response with one vector for a
    batch of two texts must be rejected.  The provider accepts it. *)
Lemma C7_short_array_accepted :
  let p := sample_provider cohere_v3 32 5 3 in
  exists inv,
    run 500 p (createEmbeddings p [lit "Hello"; lit "world"] None)
      [Response 0 (SendOk (cohere_body [JArray [JNumber 0.5]]))] = Some inv /\
    outcome inv =
      Some (Ok {| embeddings := [JArray [JNumber 0.5]];
                  usage := {| promptTokens := 4; totalTokens := 4 |} |}) /\
    length (calls inv) = 1%nat.
Proof.
  eexists. split; [reflexivity|]. cbn. split; reflexivity.
Qed.

Lemma C7_missing_embeddings :
  let p := sample_provider cohere_v3 32 5 3 in
  let s := processCohereEmbeddings p [lit "Hello"; lit "world"] cohere_v3 in
  c_phase s = CohereSending 0 /\
  get_property (JObject []) "embeddings" = Some None /\
  exists s',
    cohere_step 500 p s (Response 0 (SendOk (Some (JObject [])))) = Some s' /\
    cohere_outcome s' = Some (Err InvalidCohereResponse) /\
    c_calls s' = c_calls s.
Proof.
  intros p s.
  assert (H1 : c_phase s = CohereSending 0) by reflexivity.
  assert (H2 : get_property (JObject []) "embeddings" = Some None) by reflexivity.
  assert (H3 : forall xs, @None json <> Some (JArray xs)) by (intros xs; discriminate).
  destruct (C7_cohere_embeddings_not_an_array 500 p s 0 (JObject []) None H1 H2 H3)
    as [(s' & Hstep & Hout & Hcalls & _) _].
  repeat split; try assumption. exists s'. repeat split; assumption.
Defined.

Lemma C10_no_texts_titan :
  let p := sample_provider titan_v1 32 5 3 in
  (isTitanModel (modelToUse p None) = true \/ isCohereModel (modelToUse p None) = true) /\
  outcome (createEmbeddings p [] None) =
    Some (Ok {| embeddings := [];
                usage := {| promptTokens := 0; totalTokens := 0 |} |}) /\
  calls (createEmbeddings p [] None) = [].
Proof.
  intros p.
  assert (H1 : isTitanModel (modelToUse p None) = true \/
               isCohereModel (modelToUse p None) = true) by (left; reflexivity).
  destruct (C10_no_texts 500 p None H1) as (Ho & Hc & _).
  repeat split; assumption.
Defined.

Lemma C3_one_permit_two_bodies :
  let evs := [Acquire; Acquire; Complete 0 true] in
  0 <= 1 /\
  exists g,
    gate_run (gate_init 1) evs = Some g /\
    Z.of_nat (length (g_running g)) <= 1 /\
    g_woken g ++ waiting (g_sem g) = g_parked g /\
    g_running g = [1%nat] /\ g_woken g = [1%nat] /\
    permits (g_sem g) = 1 - Z.of_nat (length (g_running g)) /\
    exists g',
      gate_step g (Complete 1 false) = Some g' /\
      g_running g' = [] /\
      permits (g_sem g') = permits (g_sem g) + 1.
Proof.
  intros evs. assert (H0 : 0 <= 1) by lia. split; [exact H0|].
  eexists. split; [reflexivity|].
  destruct (C3_semaphore_bound_and_order 1 evs _ H0 eq_refl)
    as (Hb & _ & Hp & Hq & _ & Hstep).
  split; [exact Hb|]. split; [exact Hq|]. split; [reflexivity|]. split; [reflexivity|].
  split; [exact Hp|].
  eexists. split; [reflexivity|]. split; [reflexivity|].
  destruct (Hstep 1%nat false _ eq_refl) as (_ & _ & _ & _ & Hreturned).
  exact Hreturned.
Defined.

(** C4 as the specification states it: one gate for the provider.  With
    [maxConcurrency = 1], two invocations of [createEmbeddings] on the same
    provider have two sends in flight at once. *)
Lemma C4_two_invocations_two_sends :
  let p := constructor 3 (sample_config titan_v1 (Some 1)) in
  exists e,
    engine_run 500 p [] [Invoke [lit "a"] None; Invoke [lit "b"] None] = Some e /\
    engine_in_flight e = 2 /\
    p_maxConcurrency p = 1 /\
    ~ engine_in_flight e <= p_maxConcurrency p.
Proof.
  eexists. split; [reflexivity|]. split; [reflexivity|]. split; [reflexivity|].
  change (~ 2 <= 1). lia.
Qed.

Lemma C4_two_invocations_bound :
  let p := constructor 3 (sample_config titan_v1 (Some 1)) in
  let evs := [Invoke [lit "a"; lit "b"] None; Invoke [lit "c"] None] in
  0 <= p_maxConcurrency p /\
  exists e,
    engine_run 500 p [] evs = Some e /\
    Forall (fun inv => 0 <= in_flight inv <= in_flight_bound p inv) e /\
    engine_in_flight e <= 2.
Proof.
  intros p evs. assert (H0 : 0 <= p_maxConcurrency p) by (cbn; lia).
  split; [exact H0|]. eexists. split; [reflexivity|].
  destruct (C4_one_semaphore_per_invocation 500 p evs _ H0 eq_refl) as (Hb & _ & Hs).
  split; [exact Hb|exact Hs].
Defined.

(** C8 as the specification states it: bytes of the UTF-8 encoding.  For
    a text of three code units that take six bytes the provider reports 1
    token and the specification's formula gives 2. *)
Lemma C8_code_units_not_bytes :
  let p := sample_provider titan_v1 32 5 3 in
  exists inv,
    run 500 p (createEmbeddings p [three_e_acute] None)
      [Response 0 (SendOk (titan_body [JNumber 0.5])); Finally 0] = Some inv /\
    outcome inv =
      Some (Ok {| embeddings := [JArray [JNumber 0.5]];
                  usage := {| promptTokens := 1; totalTokens := 1 |} |}) /\
    utf8_length three_e_acute = 6 /\
    spec_tokens [three_e_acute] = 2.
Proof.
  eexists. split; [reflexivity|]. cbn. repeat split.
Qed.

Lemma C8_three_code_units :
  let p := sample_provider titan_v1 32 5 3 in
  let evs := [Response 0 (SendOk (titan_body [JNumber 0.5])); Finally 0] in
  exists inv r,
    run 500 p (createEmbeddings p [three_e_acute] None) evs = Some inv /\
    outcome inv = Some (Ok r) /\
    promptTokens (usage r) = 1 /\ totalTokens (usage r) = 1.
Proof.
  intros p evs. eexists. eexists. split; [reflexivity|]. split; [reflexivity|].
  exact (C8_usage_counts_code_units 500 p [three_e_acute] None evs _ _ eq_refl eq_refl).
Defined.

(** C9 as the specification states it: after the first terminal failure
    no send is issued for texts that were not in flight.  With one permit
    and three texts, the failure of the first text's call is followed by
    the sends of the second and of the third, the latter after
    [createEmbeddings] has already rejected. *)
Lemma C9_parked_texts_still_sent :
  let p := sample_provider titan_v1 32 1 3 in
  let start := createEmbeddings p [lit "a"; lit "b"; lit "c"] None in
  let failure := Response 0 (SendFail api_connection_failed) in
  exists s1 s2 s3,
    run 500 p start [failure] = Some s1 /\
    length (calls s1) = 1%nat /\ in_flight s1 = 0 /\
    run 500 p start [failure; Finally 0] = Some s2 /\
    outcome s2 = Some (Err (Formatted api_connection_failed 3)) /\
    length (calls s2) = 2%nat /\
    run 500 p start
      [failure; Finally 0; Response 1 (SendOk (titan_body [])); Finally 1] = Some s3 /\
    outcome s3 = Some (Err (Formatted api_connection_failed 3)) /\
    length (calls s3) = 3%nat.
Proof.
  do 3 eexists.
  split; [vm_compute; reflexivity|]. split; [reflexivity|]. split; [reflexivity|].
  split; [vm_compute; reflexivity|]. split; [reflexivity|]. split; [reflexivity|].
  split; [vm_compute; reflexivity|]. split; reflexivity.
Qed.

Lemma C9_cohere_stops :
  let p := sample_provider cohere_v3 1 5 3 in
  let s := processCohereEmbeddings p [lit "a"; lit "b"] cohere_v3 in
  exists s',
    cohere_step 500 p s (Response 0 (SendFail api_connection_failed)) = Some s' /\
    cohere_outcome s' = Some (Err (Formatted api_connection_failed 3)) /\
    forall evs inv, run 500 p (CohereCall s') evs = Some inv ->
      evs = [] /\ inv = CohereCall s'.
Proof.
  intros p s. eexists. split; [reflexivity|]. split; [reflexivity|].
  destruct (C9_after_the_first_failure 500 p) as (Hc & _).
  exact (Hc s (Response 0 (SendFail api_connection_failed)) _ _ eq_refl eq_refl).
Defined.

(** Three Titan texts, two permits, answers arriving out of order. *)
Lemma C1_out_of_order_answers :
  let p := sample_provider titan_v1 32 2 3 in
  let texts := [lit "a"; lit "b"; lit "c"] in
  let evs := [Response 1 (SendOk (titan_body [JNumber 2]));
              Response 0 (SendOk (titan_body [JNumber 1]));
              Finally 1;
              Response 2 (SendOk (titan_body [JNumber 3]));
              Finally 2;
              Finally 0] in
  well_formed_run 500 p (createEmbeddings p texts None) evs /\
  exists inv,
    (run 500 p (createEmbeddings p texts None) evs = Some inv /\
     outcome inv =
       Some (Ok {| embeddings := [JArray [JNumber 1]; JArray [JNumber 2]; JArray [JNumber 3]];
                   usage := {| promptTokens := 3; totalTokens := 3 |} |})) /\
    forall r, outcome inv = Some r ->
      exists resp,
        r = Ok resp /\ length (embeddings resp) = length texts /\
        forall i text, texts !! i = Some text ->
          exists v, embeddings resp !! i = Some v /\ returned_vector p inv evs i v /\
                    requested p inv i text.
Proof.
  intros p texts evs.
  assert (Hwf : well_formed_run 500 p (createEmbeddings p texts None) evs).
  { vm_compute. repeat (split; try exact I); eexists; reflexivity. }
  assert (Hex : exists inv,
            run 500 p (createEmbeddings p texts None) evs = Some inv /\
            outcome inv =
              Some (Ok {| embeddings := [JArray [JNumber 1]; JArray [JNumber 2];
                                         JArray [JNumber 3]];
                          usage := {| promptTokens := 3; totalTokens := 3 |} |})).
  { eexists. split; vm_compute; reflexivity. }
  destruct Hex as (inv & Hrun & Hout).
  split; [exact Hwf|]. exists inv. split; [split; assumption|].
  assert (Hm : isTitanModel (modelToUse p None) = true \/
               isCohereModel (modelToUse p None) = true) by (left; reflexivity).
  assert (Hr : 0 < p_maxRetries p) by (cbn; lia).
  assert (Hc : 0 < p_maxConcurrency p) by (cbn; lia).
  assert (Hb : 0 < p_batchSize p) by (cbn; lia).
  destruct (C1_embeddings_follow_input_order 500 p texts None evs inv Hm Hr Hc Hb Hwf Hrun)
    as (_ & _ & Hres).
  exact Hres.
Defined.

(** Three Cohere texts in batches of two. *)
Lemma cohere_two_batches :
  let p := sample_provider cohere_v3 2 5 3 in
  let texts := [lit "Hello"; lit "world"; lit "test"] in
  let evs := [Response 0 (SendOk (cohere_body [JArray [JNumber 1]; JArray [JNumber 2]]));
              Response 0 (SendOk (cohere_body [JArray [JNumber 3]]))] in
  well_formed_run 500 p (createEmbeddings p texts None) evs /\
  exists inv,
    run 500 p (createEmbeddings p texts None) evs = Some inv /\
    outcome inv =
      Some (Ok {| embeddings := [JArray [JNumber 1]; JArray [JNumber 2]; JArray [JNumber 3]];
                  usage := {| promptTokens := 5; totalTokens := 5 |} |}) /\
    map (fun r => match r with
                  | CohereRequest _ batch _ => length batch
                  | TitanRequest _ _ => 1%nat
                  end) (calls inv) = [2%nat; 1%nat].
Proof.
  intros p texts evs. split.
  - vm_compute. repeat (split; try exact I); eexists; split; reflexivity.
  - eexists. split; [vm_compute; reflexivity|]. split; vm_compute; reflexivity.
Qed.

(** ** Further properties at concrete inputs *)

(** Three attempts, each throttled. *)
Lemma three_throttled_attempts :
  let p := sample_provider titan_v1 32 5 3 in
  let front := [too_many_requests; too_many_requests] in
  Forall (fun e => status e = Some 429) front /\
  Z.of_nat (length front) = p_maxRetries p - 1 /\
  returned (invokeModelWithRetries 500 p (map SendFail (front ++ [too_many_requests]) ++ []) 0)
    = Some (Err (Formatted too_many_requests 3)) /\
  Z.of_nat (sends (invokeModelWithRetries 500 p
                     (map SendFail (front ++ [too_many_requests]) ++ []) 0)) = 3 /\
  waits (invokeModelWithRetries 500 p (map SendFail (front ++ [too_many_requests]) ++ []) 0)
    = [500; 1000].
Proof.
  intros p front.
  assert (H1 : Forall (fun e => status e = Some 429) front) by (repeat constructor).
  assert (H2 : Z.of_nat (length front) = p_maxRetries p - 1) by reflexivity.
  destruct (throttled_on_every_attempt 500 p front too_many_requests H1 H2) as [Hloop _].
  destruct (Hloop []) as (Hr & Hs & Hw & _).
  split; [exact H1|]. split; [exact H2|]. split; [exact Hr|]. split; [exact Hs|exact Hw].
Defined.

(** One permit, two [acquire] calls: the second callback is parked and the
    permit is in use. *)
Lemma one_permit_one_parked :
  let evs := [Acquire; Acquire] in
  0 <= 1 /\
  exists g,
    gate_run (gate_init 1) evs = Some g /\
    waiting (g_sem g) = [1%nat] /\
    permits (g_sem g) = 0 /\
    Z.of_nat (length (g_running g)) = 1.
Proof.
  intros evs. assert (H0 : 0 <= 1) by lia. split; [exact H0|].
  eexists. split; [reflexivity|]. split; [reflexivity|].
  assert (Hw : waiting (g_sem {| g_sem := {| permits := 0; waiting := [1%nat] |};
                                 g_next := 2; g_running := [0%nat];
                                 g_parked := [1%nat]; g_woken := [] |}) <> [])
    by discriminate.
  destruct (semaphore_saturated_while_parked 1 evs _ H0 eq_refl Hw) as (Hp & Hr & _).
  split; [exact Hp|exact Hr].
Defined.

(** No permit, two [acquire] calls: both callbacks stay parked. *)
Lemma no_permit_two_parked :
  let evs := [Acquire; Acquire] in
  0 <= 0 /\
  exists g,
    gate_run (gate_init 0) evs = Some g /\
    g_running g = [] /\ g_woken g = [] /\
    waiting (g_sem g) = [0%nat; 1%nat].
Proof.
  intros evs. assert (H0 : 0 <= 0) by lia. split; [exact H0|].
  eexists. split; [reflexivity|].
  destruct (semaphore_without_permits 0 evs _ H0 eq_refl) as (_ & Hr & Hk & _ & Hw).
  split; [exact Hr|]. split; [exact Hk|exact Hw].
Defined.

(** A Titan provider without a permit: nothing starts. *)
Lemma zero_concurrency_never_starts :
  let p := sample_provider titan_v1 32 0 3 in
  let texts := [lit "a"; lit "b"] in
  isTitanModel (modelToUse p None) = true /\
  p_maxConcurrency p <= 0 /\
  texts <> [] /\
  outcome (createEmbeddings p texts None) = None /\
  calls (createEmbeddings p texts None) = [] /\
  step 500 p (createEmbeddings p texts None) (Response 0 (SendOk (titan_body []))) = None.
Proof.
  intros p texts.
  assert (H1 : isTitanModel (modelToUse p None) = true) by reflexivity.
  assert (H2 : p_maxConcurrency p <= 0) by (cbn; lia).
  assert (H3 : texts <> []) by discriminate.
  destruct (titan_without_permits 500 p texts None H1 H2 H3) as (Ho & Hc & _ & Hs & _).
  split; [exact H1|]. split; [exact H2|]. split; [exact H3|].
  split; [exact Ho|]. split; [exact Hc|]. exact (Hs (Response 0 (SendOk (titan_body [])))).
Defined.

(** Three texts, one permit: after the first text is done the second has
    started and the third waits. *)
Lemma three_texts_one_permit :
  let p := sample_provider titan_v1 32 1 3 in
  let texts := [lit "a"; lit "b"; lit "c"] in
  let evs := [Response 0 (SendOk (titan_body [JNumber 1])); Finally 0] in
  isTitanModel (modelToUse p None) = true /\
  exists inv s,
    run 500 p (createEmbeddings p texts None) evs = Some inv /\
    inv = TitanCall s /\
    waiting (t_sem s) = [2%nat] /\
    exists k, (k <= length texts)%nat /\ waiting (t_sem s) = seq k (length texts - k) /\
              (0 < p_maxConcurrency p -> (k < length texts)%nat ->
               permits (t_sem s) = 0 /\
               count is_executing (t_tasks s) = p_maxConcurrency p).
Proof.
  intros p texts evs.
  assert (H1 : isTitanModel (modelToUse p None) = true) by reflexivity.
  assert (Hex : exists inv, run 500 p (createEmbeddings p texts None) evs = Some inv)
    by (eexists; vm_compute; reflexivity).
  destruct Hex as [inv Hrun]. split; [exact H1|].
  destruct (titan_texts_start_in_order 500 p texts None evs inv H1 Hrun)
    as (s & k & Hs & Hk & _ & Hw & Hsat).
  exists inv, s. split; [exact Hrun|]. split; [exact Hs|]. split.
  - subst inv. vm_compute in Hrun. injection Hrun as <-. reflexivity.
  - exists k. split; [exact Hk|]. split; [exact Hw|exact Hsat].
Defined.

(** One text, two attempts, the first throttled: two sends, one delay. *)
Lemma two_attempts_two_sends :
  let p := sample_provider titan_v1 32 5 2 in
  let texts := [lit "a"] in
  let evs := [Response 0 (SendFail too_many_requests); Timer 0] in
  (isTitanModel (modelToUse p None) = true \/ 0 < p_batchSize p) /\
  exists inv,
    run 500 p (createEmbeddings p texts None) evs = Some inv /\
    length (calls inv) = 2%nat /\ delays inv = [500] /\
    Z.of_nat (length (calls inv)) <= logical_calls p texts inv * Z.max 0 (p_maxRetries p) /\
    Forall (backoff_delay 500 p) (delays inv).
Proof.
  intros p texts evs.
  assert (H1 : isTitanModel (modelToUse p None) = true \/ 0 < p_batchSize p)
    by (left; reflexivity).
  assert (Hex : exists inv, run 500 p (createEmbeddings p texts None) evs = Some inv /\
                            length (calls inv) = 2%nat /\ delays inv = [500])
    by (eexists; split; [|split]; vm_compute; reflexivity).
  destruct Hex as (inv & Hrun & Hc & Hd). split; [exact H1|].
  exists inv. split; [exact Hrun|]. split; [exact Hc|]. split; [exact Hd|].
  exact (sends_within_budget 500 p texts None evs inv H1 Hrun).
Defined.

(** Three texts in batches of two: two requests, the batches in order. *)
Lemma three_texts_two_batches :
  let p := sample_provider cohere_v3 2 5 3 in
  let texts := [lit "a"; lit "b"; lit "c"] in
  let evs := [Response 0 (SendOk (cohere_body [JNumber 1; JNumber 2]));
              Response 0 (SendOk (cohere_body [JNumber 3]))] in
  0 < p_maxRetries p /\ 0 < p_batchSize p /\
  well_formed_run 500 p (createEmbeddings p texts None) evs /\
  exists inv,
    run 500 p (createEmbeddings p texts None) evs = Some inv /\
    calls inv = [CohereRequest cohere_v3 [lit "a"; lit "b"] (lit "search_document");
                 CohereRequest cohere_v3 [lit "c"] (lit "search_document")] /\
    delays inv = [] /\
    (outcome inv <> None -> calls inv = expected_calls p texts (modelToUse p None) inv).
Proof.
  intros p texts evs.
  assert (Hr : 0 < p_maxRetries p) by (cbn; lia).
  assert (Hb : 0 < p_batchSize p) by (cbn; lia).
  assert (Hwf : well_formed_run 500 p (createEmbeddings p texts None) evs).
  { vm_compute. repeat (split; try exact I); eexists; split; reflexivity. }
  assert (Hex : exists inv,
            run 500 p (createEmbeddings p texts None) evs = Some inv /\
            calls inv = [CohereRequest cohere_v3 [lit "a"; lit "b"] (lit "search_document");
                         CohereRequest cohere_v3 [lit "c"] (lit "search_document")])
    by (eexists; split; vm_compute; reflexivity).
  destruct Hex as (inv & Hrun & Hc).
  split; [exact Hr|]. split; [exact Hb|]. split; [exact Hwf|].
  exists inv. split; [exact Hrun|]. split; [exact Hc|].
  destruct (one_send_per_logical_call 500 p texts None evs inv Hr Hb Hwf Hrun)
    as (_ & Hd & Hdone & _).
  split; [exact Hd|exact Hdone].
Defined.

(** No attempt allowed: the first [finally] block rejects the promise. *)
Lemma zero_retries_no_send :
  let p := sample_provider titan_v1 32 5 0 in
  let texts := [lit "a"] in
  let evs := [Finally 0] in
  (isTitanModel (modelToUse p None) = true \/ isCohereModel (modelToUse p None) = true) /\
  p_maxRetries p <= 0 /\ texts <> [] /\
  exists inv,
    run 500 p (createEmbeddings p texts None) evs = Some inv /\
    outcome inv = Some (Err (FailedMaxAttempts 0)) /\
    calls inv = [] /\ delays inv = [].
Proof.
  intros p texts evs.
  assert (H1 : isTitanModel (modelToUse p None) = true \/
               isCohereModel (modelToUse p None) = true) by (left; reflexivity).
  assert (H2 : p_maxRetries p <= 0) by (cbn; lia).
  assert (H3 : texts <> []) by discriminate.
  assert (Hex : exists inv, run 500 p (createEmbeddings p texts None) evs = Some inv /\
                            exists r, outcome inv = Some r)
    by (eexists; split; [|eexists]; vm_compute; reflexivity).
  destruct Hex as (inv & Hrun & r & Hout).
  split; [exact H1|]. split; [exact H2|]. split; [exact H3|].
  destruct (without_attempts 500 p texts None evs inv H1 H2 H3 Hrun) as (Hc & Hd & Hres).
  exists inv. split; [exact Hrun|]. split; [|split; [exact Hc|exact Hd]].
  rewrite Hout. f_equal. exact (Hres r Hout).
Defined.

(** A batch size of zero: two answers in, three sends out, still pending. *)
Lemma zero_batch_size_spins :
  let p := sample_provider cohere_v3 0 5 3 in
  let texts := [lit "a"] in
  let evs := [Response 0 (SendOk (cohere_body [])); Response 0 (SendOk (cohere_body []))] in
  isTitanModel (modelToUse p None) = false /\
  isCohereModel (modelToUse p None) = true /\
  p_batchSize p <= 0 /\ texts <> [] /\ 0 < p_maxRetries p /\
  well_formed_run 500 p (createEmbeddings p texts None) evs /\
  exists inv,
    run 500 p (createEmbeddings p texts None) evs = Some inv /\
    outcome inv = None /\ length (calls inv) = 3%nat.
Proof.
  intros p texts evs.
  assert (H1 : isTitanModel (modelToUse p None) = false) by reflexivity.
  assert (H2 : isCohereModel (modelToUse p None) = true) by reflexivity.
  assert (H3 : p_batchSize p <= 0) by (cbn; lia).
  assert (H4 : texts <> []) by discriminate.
  assert (H5 : 0 < p_maxRetries p) by (cbn; lia).
  assert (Hwf : well_formed_run 500 p (createEmbeddings p texts None) evs).
  { vm_compute. repeat (split; try exact I); eexists; split; reflexivity. }
  assert (Hex : exists inv, run 500 p (createEmbeddings p texts None) evs = Some inv)
    by (eexists; vm_compute; reflexivity).
  destruct Hex as (inv & Hrun).
  destruct (cohere_batch_size_not_positive 500 p texts None H1 H2 H3 H4) as [_ Hspin].
  destruct (Hspin H5 evs inv Hwf Hrun) as (Ho & Hc & _).
  split; [exact H1|]. split; [exact H2|]. split; [exact H3|]. split; [exact H4|].
  split; [exact H5|]. split; [exact Hwf|].
  exists inv. split; [exact Hrun|]. split; [exact Ho|exact Hc].
Defined.

(** Five and four code units: two tokens and one, within the bounds. *)
Lemma nine_code_units_three_tokens :
  let p := sample_provider cohere_v3 32 5 3 in
  let texts := [lit "Hello"; lit "test"] in
  let evs := [Response 0 (SendOk (cohere_body [JNumber 1; JNumber 2]))] in
  exists inv r,
    run 500 p (createEmbeddings p texts None) evs = Some inv /\
    outcome inv = Some (Ok r) /\
    totalTokens (usage r) = 3 /\
    sumZ str_length texts <= 4 * totalTokens (usage r)
      <= sumZ str_length texts + 3 * array_length texts.
Proof.
  intros p texts evs.
  assert (Hex : exists inv r, run 500 p (createEmbeddings p texts None) evs = Some inv /\
                              outcome inv = Some (Ok r) /\ totalTokens (usage r) = 3)
    by (eexists; eexists; split; [|split]; vm_compute; reflexivity).
  destruct Hex as (inv & r & Hrun & Hout & Htok).
  exists inv, r. split; [exact Hrun|]. split; [exact Hout|]. split; [exact Htok|].
  destruct (usage_within_bounds 500 p texts None evs inv r Hrun Hout) as (_ & Hb & _).
  exact Hb.
Defined.

(** A throttled text on a provider with two attempts: four events and the
    invocation is over. *)
Lemma throttled_twice_then_over :
  let p := sample_provider titan_v1 32 5 2 in
  let texts := [lit "a"] in
  let evs := [Response 0 (SendFail too_many_requests); Timer 0;
              Response 0 (SendFail too_many_requests); Finally 0] in
  0 < p_maxConcurrency p /\ 0 < p_batchSize p /\
  exists inv,
    run 500 p (createEmbeddings p texts None) evs = Some inv /\
    outcome inv = Some (Err (Formatted too_many_requests 2)) /\
    Z.of_nat (length evs)
      <= logical_calls p texts inv * (2 * Z.max 0 (p_maxRetries p) + 1).
Proof.
  intros p texts evs.
  assert (H1 : 0 < p_maxConcurrency p) by (cbn; lia).
  assert (H2 : 0 < p_batchSize p) by (cbn; lia).
  assert (Hex : exists inv, run 500 p (createEmbeddings p texts None) evs = Some inv /\
                            outcome inv = Some (Err (Formatted too_many_requests 2)))
    by (eexists; split; vm_compute; reflexivity).
  destruct Hex as (inv & Hrun & Hout).
  split; [exact H1|]. split; [exact H2|].
  exists inv. split; [exact Hrun|]. split; [exact Hout|].
  destruct (invocations_terminate 500 p texts None evs inv H1 H2 Hrun) as [Hlen _].
  exact Hlen.
Defined.

(** A throttled text is sent again, and nothing else is sent. *)
Lemma retried_text_sent_twice :
  let p := sample_provider titan_v1 32 5 3 in
  let texts := [lit "a"; lit "b"] in
  let evs := [Response 1 (SendFail too_many_requests); Timer 1] in
  exists inv,
    run 500 p (createEmbeddings p texts None) evs = Some inv /\
    calls inv = [TitanRequest titan_v1 (lit "a"); TitanRequest titan_v1 (lit "b");
                 TitanRequest titan_v1 (lit "b")] /\
    Forall (request_for p texts (modelToUse p None)) (calls inv).
Proof.
  intros p texts evs.
  assert (Hex : exists inv,
            run 500 p (createEmbeddings p texts None) evs = Some inv /\
            calls inv = [TitanRequest titan_v1 (lit "a"); TitanRequest titan_v1 (lit "b");
                         TitanRequest titan_v1 (lit "b")])
    by (eexists; split; vm_compute; reflexivity).
  destruct Hex as (inv & Hrun & Hc).
  exists inv. split; [exact Hrun|]. split; [exact Hc|].
  exact (requests_carry_the_texts 500 p texts None evs inv Hrun).
Defined.

(** A text throttled once and then answered: the vector of the answer. *)
Lemma vector_after_a_retry :
  let p := sample_provider titan_v1 32 5 3 in
  let texts := [lit "a"] in
  let evs := [Response 0 (SendFail too_many_requests); Timer 0;
              Response 0 (SendOk (titan_body [JNumber 1])); Finally 0] in
  exists inv resp,
    run 500 p (createEmbeddings p texts None) evs = Some inv /\
    outcome inv = Some (Ok resp) /\
    embeddings resp = [JArray [JNumber 1]] /\
    match inv with
    | TitanCall _ =>
        length (embeddings resp) = length texts /\
        forall i v, embeddings resp !! i = Some v ->
          exists response,
            answers i evs = [Some response] /\
            get_property response "embedding" = Some (Some v)
    | CohereCall _ => embeddings resp = flat_map accepted evs
    | Rejected _ => False
    end.
Proof.
  intros p texts evs.
  assert (Hex : exists inv resp,
            run 500 p (createEmbeddings p texts None) evs = Some inv /\
            outcome inv = Some (Ok resp) /\ embeddings resp = [JArray [JNumber 1]])
    by (eexists; eexists; split; [|split]; vm_compute; reflexivity).
  destruct Hex as (inv & resp & Hrun & Hout & Hemb).
  exists inv, resp. split; [exact Hrun|]. split; [exact Hout|]. split; [exact Hemb|].
  exact (vectors_come_from_the_answers 500 p texts None evs inv resp Hrun Hout).
Defined.

(** One permit, three callers: the second starts when the first is done,
    the third still waits. *)
Lemma third_caller_waits :
  let evs := [Acquire; Acquire; Acquire; Complete 0 false] in
  exists g,
    gate_run (gate_init 1) evs = Some g /\
    g_running g = [1%nat] /\ waiting (g_sem g) = [2%nat] /\
    exists k,
      (k <= g_next g)%nat /\
      waiting (g_sem g) = seq k (g_next g - k) /\
      Forall (fun id => (id < k)%nat) (g_running g) /\
      Forall (fun id => (id < k)%nat) (g_woken g).
Proof.
  intros evs. eexists. split; [reflexivity|]. split; [reflexivity|]. split; [reflexivity|].
  exact (semaphore_no_overtaking 1 evs _ eq_refl).
Defined.

(** Two texts, the first fails for good: the promise is rejected while the
    second text is still being sent. *)
Lemma rejected_while_sending :
  let p := sample_provider titan_v1 32 5 3 in
  let texts := [lit "a"; lit "b"] in
  let evs := [Response 0 (SendFail api_connection_failed); Finally 0] in
  exists s,
    run 500 p (createEmbeddings p texts None) evs = Some (TitanCall s) /\
    titan_outcome s = Some (Err (Formatted api_connection_failed 3)) /\
    t_tasks s !! 1%nat = Some (lit "b", Sending 0) /\
    exists i text,
      t_tasks s !! i = Some (text, Released (Err (Formatted api_connection_failed 3))).
Proof.
  intros p texts evs.
  assert (Hex : exists s,
            run 500 p (createEmbeddings p texts None) evs = Some (TitanCall s) /\
            titan_outcome s = Some (Err (Formatted api_connection_failed 3)) /\
            t_tasks s !! 1%nat = Some (lit "b", Sending 0))
    by (eexists; split; [|split]; vm_compute; reflexivity).
  destruct Hex as (s & Hrun & Hout & Htask).
  exists s. split; [exact Hrun|]. split; [exact Hout|]. split; [exact Htask|].
  pose proof (settlement_follows_the_tasks 500 p texts None evs s Hrun) as H.
  rewrite Hout in H. exact H.
Defined.

(** An answer without [embeddings]: the reason of the rejection is that
    answer. *)
Lemma rejection_for_a_missing_array :
  let p := sample_provider cohere_v3 2 5 3 in
  let texts := [lit "a"] in
  let evs := [Response 0 (SendOk (Some (JObject [])))] in
  exists inv,
    run 500 p (createEmbeddings p texts None) evs = Some inv /\
    outcome inv = Some (Err InvalidCohereResponse) /\
    rejection_explained p (modelToUse p None) evs InvalidCohereResponse.
Proof.
  intros p texts evs.
  assert (Hex : exists inv,
            run 500 p (createEmbeddings p texts None) evs = Some inv /\
            outcome inv = Some (Err InvalidCohereResponse))
    by (eexists; split; vm_compute; reflexivity).
  destruct Hex as (inv & Hrun & Hout).
  exists inv. split; [exact Hrun|]. split; [exact Hout|].
  destruct (rejections_have_a_reason 500 p texts None) as [Hreason _].
  exact (Hreason evs inv _ Hrun Hout).
Defined.

(** A configuration that validates with one request. *)
Lemma validation_with_one_request :
  let p := sample_provider titan_v1 32 5 3 in
  let view := fun _ : EmbedError =>
    {| instanceof_Error := true; caught_message := "message";
       caught_stack := None; caught_String := "Error: message" |} in
  let human_readable := fun _ : EmbedError => "text"%string in
  let evs := [Response 0 (SendOk (titan_body [JNumber 1])); Finally 0] in
  well_formed_run 500 p (validation_call p) evs /\
  exists inv,
    run 500 p (validation_call p) evs = Some inv /\
    validateConfiguration view human_readable inv
      = Some ({| valid := true; error := None |}, []) /\
    calls inv = [TitanRequest titan_v1 (lit "test")].
Proof.
  intros p view human_readable evs.
  assert (Hwf : well_formed_run 500 p (validation_call p) evs).
  { vm_compute. repeat (split; try exact I); eexists; reflexivity. }
  assert (Hex : exists inv,
            run 500 p (validation_call p) evs = Some inv /\
            validateConfiguration view human_readable inv <> None)
    by (eexists; split; [vm_compute; reflexivity|vm_compute; discriminate]).
  destruct Hex as (inv & Hrun & Hsome).
  split; [exact Hwf|]. exists inv. split; [exact Hrun|].
  destruct (validation_probe 500 p view human_readable) as (_ & _ & Hprobe & _).
  assert (Hm : isTitanModel (p_modelId p) = true \/ isCohereModel (p_modelId p) = true)
    by (left; reflexivity).
  assert (Hr : 0 < p_maxRetries p) by (cbn; lia).
  assert (Hc : 0 < p_maxConcurrency p) by (cbn; lia).
  assert (Hb : 0 < p_batchSize p) by (cbn; lia).
  destruct (Hprobe Hm Hr Hc Hb evs inv Hwf Hrun) as (_ & _ & Hdone).
  exact (Hdone Hsome).
Defined.
